(** * TrappingSR3: the trapping variant of sparse relaxed regularized regression

    A shallow embedding of [pysindy/optimizers/trapping_sr3.py] and the
    properties its specification states about it.

    Conventions of the embedding:
    - numpy floats are real numbers ([R]); every constant the code writes into
      a tensor (0, 1/2, 1) is exact in binary floating point as well;
    - a numpy array is its shape together with its cells, addressed by the
      index tuple; item assignment is a bounds-checked update of one cell;
    - Python exceptions are the [Raise] outcomes of a small error monad;
    - a [dict] is an association list in insertion order (iteration over
      [dict.items()] follows that order), a [frozenset] of ints is its
      strictly increasing list of elements, and the order in which Python
      unpacks it, which the language leaves open, is a parameter;
    - collaborators that live outside this module (the polynomial library
      that enumerates the terms, the convex solver, LAPACK, the random
      generator) are parameters of the definitions that call them; the
      method of the base class that wraps the convex solver is modelled from
      the specification. *)

From Stdlib Require Import Reals Lra Lia List Sorted String Ascii.
From Stdlib Require Import FunctionalExtensionality.
From stdpp Require Import base decidable option list.

(** ** Python values and control *)

Module Py.

Inductive exn : Type :=
  | ValueError (msg : string)
  | KeyError
  | IndexError.

Inductive result (A : Type) : Type :=
  | Ok (a : A)
  | Raise (e : exn).
Arguments Ok {A} a.
Arguments Raise {A} e.

Definition bind {A B} (m : result A) (f : A -> result B) : result B :=
  match m with
  | Ok a => f a
  | Raise e => Raise e
  end.

Definition raises {A} (m : result A) : Prop :=
  match m with Ok _ => False | Raise _ => True end.

(** [for x in xs: body] over a state that the body may abort. *)
Fixpoint for_each {A S} (xs : list A) (body : A -> S -> result S) (s : S)
  : result S :=
  match xs with
  | [] => Ok s
  | x :: xs' => bind (body x s) (for_each xs' body)
  end.

(** [range(n)], [enumerate(xs)] and [itertools.product(xs, ys)]. *)
Definition range (n : nat) : list nat := seq 0 n.

Fixpoint enumerate_from {A} (start : nat) (xs : list A) : list (nat * A) :=
  match xs with
  | [] => []
  | x :: xs' => (start, x) :: enumerate_from (S start) xs'
  end.

Definition enumerate {A} (xs : list A) : list (nat * A) := enumerate_from 0 xs.

Definition product {A B} (xs : list A) (ys : list B) : list (A * B) :=
  list_prod xs ys.

(** [itertools.combinations(xs, k)], in the order itertools yields them. *)
Fixpoint combinations {A} (xs : list A) (k : nat) : list (list A) :=
  match k with
  | 0 => [[]]
  | S k' =>
      match xs with
      | [] => []
      | x :: xs' => map (cons x) (combinations xs' k') ++ combinations xs' k
      end
  end.

(** [math.comb(n, k)]. *)
Fixpoint comb (n k : nat) : nat :=
  match k with
  | 0 => 1
  | S k' =>
      match n with
      | 0 => 0
      | S n' => comb n' k' + comb n' k
      end
  end.

(** [sum(xs)], [max(xs)] (a [ValueError] on an empty sequence). *)
Definition sum (xs : list nat) : nat := foldr Nat.add 0 xs.

Definition max (xs : list nat) : result nat :=
  match xs with
  | [] => Raise (ValueError "max() arg is an empty sequence")
  | x :: xs' => Ok (foldl Nat.max x xs')
  end.

(** [np.argmax(xs)]: the first position of the largest element. *)
Fixpoint argmax_from (pos best_pos best : nat) (xs : list nat) : nat :=
  match xs with
  | [] => best_pos
  | x :: xs' =>
      if best <? x then argmax_from (S pos) pos x xs'
      else argmax_from (S pos) best_pos best xs'
  end.

Definition argmax (xs : list nat) : nat :=
  match xs with
  | [] => 0
  | x :: xs' => argmax_from 1 0 x xs'
  end.

(** [np.argwhere(xs == v).flatten()]: the positions holding [v], ascending. *)
Fixpoint argwhere_from (pos v : nat) (xs : list nat) : list nat :=
  match xs with
  | [] => []
  | x :: xs' =>
      if x =? v then pos :: argwhere_from (S pos) v xs'
      else argwhere_from (S pos) v xs'
  end.

Definition argwhere (v : nat) (xs : list nat) : list nat := argwhere_from 0 v xs.

(** [frozenset(xs)] for ints: the strictly increasing list of its elements,
    which stands for the set.  The order in which Python iterates over the
    set is another matter, see [set_order] below. *)
Fixpoint fs_add (x : nat) (s : list nat) : list nat :=
  match s with
  | [] => [x]
  | y :: s' =>
      if x <? y then x :: s
      else if x =? y then s
      else y :: fs_add x s'
  end.

Definition frozenset (xs : list nat) : list nat := foldr fs_add [] xs.

(** Dictionaries: insertion-ordered association lists. *)
Section Dict.
Context {K V : Type} `{EqDecision K}.

Definition dict : Type := list (K * V).

Fixpoint dict_set (k : K) (v : V) (d : dict) : dict :=
  match d with
  | [] => [(k, v)]
  | (k', v') :: d' =>
      if decide (k = k') then (k', v) :: d'
      else (k', v') :: dict_set k v d'
  end.

Fixpoint dict_find (k : K) (d : dict) : option V :=
  match d with
  | [] => None
  | (k', v') :: d' => if decide (k = k') then Some v' else dict_find k d'
  end.

(** [d[k]]: a [KeyError] when the key is absent. *)
Definition dict_get (k : K) (d : dict) : result V :=
  match dict_find k d with
  | Some v => Ok v
  | None => Raise KeyError
  end.

(** [{k: v for ...}]: the pairs are inserted one after the other. *)
Definition dict_of (kvs : list (K * V)) : dict :=
  foldl (fun d kv => dict_set kv.1 kv.2 d) [] kvs.

Definition dict_items (d : dict) : list (K * V) := d.
Definition dict_keys (d : dict) : list K := map fst d.
Definition dict_len (d : dict) : nat := length d.
End Dict.
Arguments dict K V : clear implicits.

End Py.

#[global] Instance result_bind : MBind Py.result :=
  fun A B f m => Py.bind m f.
#[global] Instance result_ret : MRet Py.result := @Py.Ok.

(** Comparisons of floats decide, as the tests of the code do. *)
#[global] Instance Rlt_decision (x y : R) : Decision (x < y)%R := Rlt_dec x y.
#[global] Instance Rle_decision (x y : R) : Decision (x <= y)%R := Rle_dec x y.
#[global] Instance Rgt_decision (x y : R) : Decision (x > y)%R := Rgt_dec x y.
#[global] Instance Rge_decision (x y : R) : Decision (x >= y)%R := Rge_dec x y.
#[global] Instance Req_decision : EqDecision R := Req_dec_T.

(** ** numpy arrays *)

Module Np.
Import Py.

(** An array of floats: its shape, and the cell at every index tuple. *)
Record ndarray : Type := mk_ndarray {
  shape : list nat;
  data : list nat -> R
}.

(** [np.zeros(shape)]. *)
Definition zeros (sh : list nat) : ndarray :=
  {| shape := sh; data := fun _ => 0%R |}.

Fixpoint in_bounds (sh idx : list nat) : bool :=
  match sh, idx with
  | [], [] => true
  | n :: sh', i :: idx' => (i <? n) && in_bounds sh' idx'
  | _, _ => false
  end.

(** [a[idx] = v] for a full index tuple: an [IndexError] out of bounds. *)
Definition setitem (idx : list nat) (v : R) (a : ndarray) : result ndarray :=
  if in_bounds (shape a) idx then
    Ok {| shape := shape a;
          data := fun i => if decide (i = idx) then v else data a i |}
  else Raise IndexError.

(** [len(a)]: the extent of the first axis. *)
Definition len (a : ndarray) : nat := hd 0 (shape a).

(** Stacking two arrays along the first axis; the other extents must agree. *)
Definition concat0 (a b : ndarray) : result ndarray :=
  if decide (tl (shape a) = tl (shape b) /\ shape a <> [] /\ shape b <> []) then
    Ok {| shape := (len a + len b) :: tl (shape a);
          data := fun idx =>
            match idx with
            | [] => 0%R
            | i :: rest =>
                if i <? len a then data a idx else data b ((i - len a) :: rest)
            end |}
  else Raise (ValueError "all the input array dimensions except for the concatenation axis must match exactly").

(** [np.concatenate(arrays, axis=0)] and, for arrays of rank two and more,
    [np.vstack(arrays)]. *)
Fixpoint concatenate (arrays : list ndarray) : result ndarray :=
  match arrays with
  | [] => Raise (ValueError "need at least one array to concatenate")
  | [a] => Ok a
  | a :: rest => b ← concatenate rest; concat0 a b
  end.

Definition vstack (arrays : list ndarray) : result ndarray := concatenate arrays.

(** Sums: over [range(n)], and over every cell of a shape. *)
Fixpoint sum_range (n : nat) (f : nat -> R) : R :=
  match n with
  | 0 => 0%R
  | S n' => (sum_range n' f + f n')%R
  end.

Fixpoint sum_cells (sh : list nat) (f : list nat -> R) : R :=
  match sh with
  | [] => f []
  | n :: sh' => sum_range n (fun i => sum_cells sh' (fun idx => f (i :: idx)))
  end.

(** [np.sum(a)]. *)
Definition np_sum (a : ndarray) : R := sum_cells (shape a) (data a).

(** Cell-wise operations on arrays of one shape. *)
Definition map_cells (f : R -> R) (a : ndarray) : ndarray :=
  {| shape := shape a; data := fun idx => f (data a idx) |}.

Definition zip_cells (f : R -> R -> R) (a b : ndarray) : ndarray :=
  {| shape := shape a; data := fun idx => f (data a idx) (data b idx) |}.

Definition add (a b : ndarray) : ndarray := zip_cells Rplus a b.
Definition sub (a b : ndarray) : ndarray := zip_cells Rminus a b.
Definition scale (c : R) (a : ndarray) : ndarray := map_cells (Rmult c) a.
Definition divide (a : ndarray) (c : R) : ndarray :=
  map_cells (fun v => (v / c)%R) a.
Definition square (a : ndarray) : ndarray := map_cells (fun v => (v * v)%R) a.
Definition np_abs (a : ndarray) : ndarray := map_cells Rabs a.
Definition zeros_like (a : ndarray) : ndarray := zeros (shape a).

(** [np.transpose(a, axes)]: axis [n] of the result is axis [axes[n]] of [a]. *)
Fixpoint index_of (m : nat) (axes : list nat) : nat :=
  match axes with
  | [] => 0
  | ax :: axes' => if decide (ax = m) then 0 else S (index_of m axes')
  end.

Definition transpose (axes : list nat) (a : ndarray) : ndarray :=
  {| shape := map (fun ax => nth ax (shape a) 0) axes;
     data := fun idx =>
       data a (map (fun m => nth (index_of m axes) idx 0)
                 (seq 0 (length axes))) |}.

(** [a.T] for a matrix. *)
Definition T (a : ndarray) : ndarray := transpose [1; 0] a.

Definition dim (ax : nat) (a : ndarray) : nat := nth ax (shape a) 0.

(** [a @ b] and [np.dot(a, b)] for matrices. *)
Definition matmul (a b : ndarray) : result ndarray :=
  if decide (length (shape a) = 2 /\ length (shape b) = 2
             /\ dim 1 a = dim 0 b) then
    Ok {| shape := [dim 0 a; dim 1 b];
          data := fun idx =>
            match idx with
            | [i; j] =>
                sum_range (dim 1 a) (fun k => (data a [i; k] * data b [k; j])%R)
            | _ => 0%R
            end |}
  else Raise (ValueError "matmul: mismatch in core dimensions").

(** [np.diag(v)] for a vector given as a list. *)
Definition diag (v : list R) : ndarray :=
  {| shape := [length v; length v];
     data := fun idx =>
       match idx with
       | [i; j] => if decide (i = j) then nth i v 0%R else 0%R
       | _ => 0%R
       end |}.

End Np.

Import Py Np.

(** A list comprehension with a condition that may raise:
    [[f x for x in xs if ...]], [f x] being [None] when the condition fails. *)
Fixpoint comprehension {A B} (f : A -> result (option B)) (xs : list A)
  : result (list B) :=
  match xs with
  | [] => Ok []
  | x :: xs' =>
      o ← f x;
      rest ← comprehension f xs';
      Ok (match o with Some b => b :: rest | None => rest end)
  end.

(** ** The term table of a polynomial library *)

(** A library term: its position in the ordering and the exponent of each
    variable, [list[tuple[int, Int1D]]] in the source. *)
Definition polyterm : Type := nat * list nat.

Record lib_info : Type := mk_lib_info {
  n_targets : nat;
  n_features : nat;
  linear_terms : dict nat nat;
  pure_terms : dict nat nat;
  mixed_terms : dict (list nat) nat
}.

Definition mixed_entry (t : polyterm) : result (option (list nat * nat)) :=
  m ← Py.max t.2;
  Ok (if (m =? 1) && (Py.sum t.2 =? 2)
      then Some (frozenset (argwhere 1 t.2), t.1) else None).

Definition pure_entry (t : polyterm) : result (option (nat * nat)) :=
  m ← Py.max t.2;
  Ok (if m =? 2 then Some (argmax t.2, t.1) else None).

Definition linear_entry (t : polyterm) : result (option (nat * nat)) :=
  Ok (if Py.sum t.2 =? 1 then Some (argmax t.2, t.1) else None).

Definition _build_lib_info (polyterms : list polyterm) : result lib_info :=
  match polyterms with
  | [] => Raise (ValueError "Passed a polynomial library with no terms")
  | t0 :: _ =>
      let n_targets := length t0.2 in
      let n_features := length polyterms in
      mixed ← comprehension mixed_entry polyterms;
      pure ← comprehension pure_entry polyterms;
      linear ← comprehension linear_entry polyterms;
      Ok {| n_targets := n_targets;
            n_features := n_features;
            linear_terms := dict_of linear;
            pure_terms := dict_of pure;
            mixed_terms := dict_of mixed |}
  end.

(** ** Tensor Builder: the quadratic projection *)

(** [PQ[tgts, j, k, tgts, col] = v] with [tgts = range(n)]: the two index
    arrays are walked together, one cell per target. *)
Definition set_target_diagonal (tgts : list nat) (j k col : nat) (v : R)
    (PQ : ndarray) : result ndarray :=
  for_each tgts (fun i => setitem [i; j; k; i; col] v) PQ.

Definition _build_PQ (polyterms : list polyterm) : result ndarray :=
  info ← _build_lib_info polyterms;
  let n := n_targets info in
  let PQ := zeros [n; n; n; n; n_features info] in
  let tgts := range n in
  for_each (product (range n) (range n))
    (fun '(j, k) PQ =>
       PQ ← (if decide (j = k) then
               col ← dict_get j (pure_terms info);
               set_target_diagonal tgts j k col 1 PQ
             else Ok PQ);
       if decide (j <> k) then
         col ← dict_get (frozenset [j; k]) (mixed_terms info);
         set_target_diagonal tgts j k col (1 / 2) PQ
       else Ok PQ)
    PQ.

(** ** Constraint Builder *)

Definition _pure_constraints (n_tgts n_terms : nat) (pure_terms : dict nat nat)
  : result ndarray :=
  let constraint_mat := zeros [n_tgts; n_terms; n_tgts] in
  for_each (zip (range n_tgts) (dict_items pure_terms))
    (fun '(constr_ind, (tgt_ind, term_ind)) =>
       setitem [constr_ind; term_ind; tgt_ind] 1)
    constraint_mat.

Section SetOrder.

(** The order in which the elements of a [frozenset] come when it is
    unpacked or iterated over.  Python does not fix it, and CPython goes by
    the hash slots of the elements, not by their values
    ([tuple(frozenset({1, 8}))] is [(8, 1)]).  It is a parameter here; the
    statements assume only that it lists the two elements of a pair. *)
Variable set_order : list nat -> list nat.

Definition _antisymm_double_constraint (n_tgts n_terms : nat)
    (pure_terms : dict nat nat) (mixed_terms : dict (list nat) nat)
  : result ndarray :=
  let constraint_mat_1 := zeros [dict_len mixed_terms; n_terms; n_tgts] in
  let constraint_mat_2 := zeros [dict_len mixed_terms; n_terms; n_tgts] in
  '(constraint_mat_1, constraint_mat_2) ←
    for_each (enumerate (dict_items mixed_terms))
      (fun '(constr_ind, (key, mix_term)) '(m1, m2) =>
         match set_order key with
         | [tgt_i; tgt_j] =>
             m1 ← setitem [constr_ind; mix_term; tgt_i] 1 m1;
             pure_i ← dict_get tgt_i pure_terms;
             m1 ← setitem [constr_ind; pure_i; tgt_j] 1 m1;
             m2 ← setitem [constr_ind; mix_term; tgt_j] 1 m2;
             pure_j ← dict_get tgt_j pure_terms;
             m2 ← setitem [constr_ind; pure_j; tgt_i] 1 m2;
             Ok (m1, m2)
         | _ => Raise (ValueError "wrong number of values to unpack")
         end)
      (constraint_mat_1, constraint_mat_2);
  concatenate [constraint_mat_1; constraint_mat_2].

Definition find_symm_term (mixed_terms : dict (list nat) nat) (a b : nat)
  : result nat :=
  dict_get (frozenset [a; b]) mixed_terms.

Definition _antisymm_triple_constraints (n_tgts n_terms : nat)
    (mixed_terms : dict (list nat) nat) : result ndarray :=
  let constraint_mat := zeros [comb n_tgts 3; n_terms; n_tgts] in
  for_each (enumerate (combinations (range n_tgts) 3))
    (fun '(constr_ind, triple) m =>
       match triple with
       | [tgt_i; tgt_j; tgt_k] =>
           t ← find_symm_term mixed_terms tgt_j tgt_k;
           m ← setitem [constr_ind; t; tgt_i] 1 m;
           t ← find_symm_term mixed_terms tgt_k tgt_i;
           m ← setitem [constr_ind; t; tgt_j] 1 m;
           t ← find_symm_term mixed_terms tgt_i tgt_j;
           setitem [constr_ind; t; tgt_k] 1 m
       | _ => Raise (ValueError "wrong number of values to unpack")
       end)
    constraint_mat.

(** [lib_powers] is [lib.powers_] of the [PolynomialLibrary(2, **kwargs)]
    fitted on [n_tgts] variables: the exponents of the terms, in order. *)
Definition _make_constraints (lib_powers : list (list nat)) (n_tgts : nat)
  : result (ndarray * ndarray) :=
  let terms := enumerate lib_powers in
  info ← _build_lib_info terms;
  let n_terms := n_features info in
  pure ← comprehension pure_entry terms;
  let pure_terms := dict_of pure in
  mixed ← comprehension mixed_entry terms;
  let mixed_terms := dict_of mixed in
  c1 ← _pure_constraints n_tgts n_terms pure_terms;
  c2 ← _antisymm_double_constraint n_tgts n_terms pure_terms mixed_terms;
  c3 ← _antisymm_triple_constraints n_tgts n_terms mixed_terms;
  constraint_mat ← vstack [c1; c2; c3];
  Ok (zeros [len constraint_mat], constraint_mat).

End SetOrder.

(** What the statements assume of the order of unpacking: a pair comes as
    its two elements, in one order or the other. *)
Definition orders_pairs (set_order : list nat -> list nat) : Prop :=
  forall a b, a < b ->
    set_order [a; b] = [a; b] \/ set_order [a; b] = [b; a].

(** An order that goes by the residue modulo 8 rather than by the value. *)
Definition slot_order (key : list nat) : list nat :=
  match key with
  | [a; b] => if b mod 8 <? a mod 8 then [b; a] else [a; b]
  | _ => key
  end.

(** ** Configuration checks *)

Inductive warning : Type :=
  | UserWarning (msg : string)
  | ConvergenceWarning (msg : string).

(** [str.lower()] on ASCII text. *)
Definition lower_ascii (c : ascii) : ascii :=
  let n := nat_of_ascii c in
  if (65 <=? n) && (n <=? 90) then ascii_of_nat (n + 32) else c.

Fixpoint lower (s : string) : string :=
  match s with
  | EmptyString => EmptyString
  | String c s' => String (lower_ascii c) (lower s')
  end.

Module Config.

(** The attributes of the optimizer that [__post_init_guard] reads and
    writes.  [tol], [threshold], [thresholder] and [inequality_constraints]
    are stored by the base class; [None] is an absent value.  The warnings
    issued so far are kept in [warned], oldest first. *)
Record params : Type := mk_params {
  thresholder : string;
  eta : option R;
  alpha_m : option R;
  alpha_A : option R;
  alpha : option R;
  beta : option R;
  gamma : R;
  tol : R;
  tol_m : R;
  eps_solver : R;
  threshold : R;
  inequality_constraints : bool;
  _n_tgts : nat;
  A0 : option ndarray;
  m0 : option ndarray;
  warned : list warning
}.

Definition warn (w : warning) (self : params) : params :=
  {| thresholder := thresholder self; eta := eta self;
     alpha_m := alpha_m self; alpha_A := alpha_A self;
     alpha := alpha self; beta := beta self; gamma := gamma self;
     tol := tol self; tol_m := tol_m self; eps_solver := eps_solver self;
     threshold := threshold self;
     inequality_constraints := inequality_constraints self;
     _n_tgts := _n_tgts self; A0 := A0 self; m0 := m0 self;
     warned := warned self ++ [w] |}.

Definition set_steps (e am aA : option R) (self : params) : params :=
  {| thresholder := thresholder self; eta := e;
     alpha_m := am; alpha_A := aA;
     alpha := alpha self; beta := beta self; gamma := gamma self;
     tol := tol self; tol_m := tol_m self; eps_solver := eps_solver self;
     threshold := threshold self;
     inequality_constraints := inequality_constraints self;
     _n_tgts := _n_tgts self; A0 := A0 self; m0 := m0 self;
     warned := warned self |}.

Definition set_alpha_beta (a b : option R) (self : params) : params :=
  {| thresholder := thresholder self; eta := eta self;
     alpha_m := alpha_m self; alpha_A := alpha_A self;
     alpha := a; beta := b; gamma := gamma self;
     tol := tol self; tol_m := tol_m self; eps_solver := eps_solver self;
     threshold := threshold self;
     inequality_constraints := inequality_constraints self;
     _n_tgts := _n_tgts self; A0 := A0 self; m0 := m0 self;
     warned := warned self |}.

Definition set_guesses (a0 m : option ndarray) (self : params) : params :=
  {| thresholder := thresholder self; eta := eta self;
     alpha_m := alpha_m self; alpha_A := alpha_A self;
     alpha := alpha self; beta := beta self; gamma := gamma self;
     tol := tol self; tol_m := tol_m self; eps_solver := eps_solver self;
     threshold := threshold self;
     inequality_constraints := inequality_constraints self;
     _n_tgts := _n_tgts self; A0 := a0; m0 := m;
     warned := warned self |}.

(** Reading a float attribute that must not be [None]. *)
Definition float_attr (o : option R) : result R :=
  match o with
  | Some v => Ok v
  | None => Raise (ValueError "unsupported operand: NoneType")
  end.

(** [np.diag(gamma * np.ones(n))]. *)
Definition default_A0 (g : R) (n : nat) : ndarray :=
  {| shape := [n; n];
     data := fun idx =>
       match idx with
       | [i; j] => if decide (i = j) then (g * 1)%R else 0%R
       | _ => 0%R
       end |}.

(** [(u - np.ones(n)) * 2] for the vector [u] of [n] random samples. *)
Definition default_m0 (u : list R) (n : nat) : ndarray :=
  {| shape := [n];
     data := fun idx =>
       match idx with
       | [i] => ((nth i u 0 - 1) * 2)%R
       | _ => 0%R
       end |}.

(** Lines 284-298: the defaults of [eta] and of the two step sizes. *)
Definition fill_steps (self : params) : params :=
  match eta self with
  | None =>
      set_steps (Some 1e20%R) (Some 1e18%R) (Some 1e20%R)
        (warn (UserWarning "eta was not set, so defaulting to eta = 1e20") self)
  | Some e =>
      let am := match alpha_m self with
                | None => Some (e * 1e-2)%R
                | Some a => Some a
                end in
      let aA := match alpha_A self with
                | None => Some e
                | Some a => Some a
                end in
      set_steps (Some e) am aA self
  end.

(** Lines 301-316: the defaults of [alpha] and [beta]. *)
Definition fill_alpha (self : params) : params :=
  match alpha self with
  | None =>
      warn (UserWarning "alpha was not set, so defaulting to alpha = 1e20")
        (set_alpha_beta (Some 1e20%R) (beta self) self)
  | Some _ => self
  end.

Definition fill_beta (self : params) : params :=
  match beta self with
  | None =>
      warn (UserWarning "beta was not set, so defaulting to beta = 1e20")
        (set_alpha_beta (alpha self) (Some 1e20%R) self)
  | Some _ => self
  end.

(** Lines 328-329: the default of [A0]. *)
Definition fill_A0 (self : params) : params :=
  match A0 self with
  | None => set_guesses (Some (default_A0 (gamma self) (_n_tgts self)))
              (m0 self) self
  | Some _ => self
  end.

Section Guard.

(** [np.random.seed(s); np.random.rand(n)]: the [n] samples that the
    generator seeded with [s] draws first. *)
Variable random_rand : nat -> nat -> list R.

(** Lines 330-332: the default of [m0]. *)
Definition fill_m0 (self : params) : params :=
  match m0 self with
  | None =>
      let u := random_rand 1 (_n_tgts self) in
      set_guesses (A0 self) (Some (default_m0 u (_n_tgts self))) self
  | Some _ => self
  end.

Definition __post_init_guard (self : params) : result params :=
  if negb (existsb (String.eqb (lower (thresholder self)))
             ["l1"; "l2"; "weighted_l1"; "weighted_l2"]%string)
  then Raise (ValueError "Regularizer must be (weighted) L1 or L2") else
  let self := fill_steps self in
  e ← float_attr (eta self);
  if decide (e <= 0)%R then Raise (ValueError "eta must be positive") else
  let self := fill_beta (fill_alpha self) in
  am ← float_attr (alpha_m self);
  if bool_decide (am < 0)%R || bool_decide (am > e)%R
  then Raise (ValueError "0 <= alpha_m <= eta") else
  aA ← float_attr (alpha_A self);
  if bool_decide (aA < 0)%R || bool_decide (aA > e)%R
  then Raise (ValueError "0 <= alpha_A <= eta") else
  if decide (gamma self >= 0)%R
  then Raise (ValueError "gamma must be negative") else
  if bool_decide (tol self <= 0)%R || bool_decide (tol_m self <= 0)%R
     || bool_decide (eps_solver self <= 0)%R
  then Raise (ValueError "tol and tol_m must be positive") else
  if inequality_constraints self && bool_decide (threshold self = 0)%R
  then Raise (ValueError "Inequality constraints requires threshold!=0") else
  Ok (fill_m0 (fill_A0 self)).

(** [set_params]: the base class stores the keyword arguments (and may
    reject them), then the guard runs again. *)
Definition set_params (super_set_params : params -> result params)
    (self : params) : result params :=
  self ← super_set_params self;
  __post_init_guard self.

End Guard.

(** The values in effect once the guard has filled in the defaults: without
    [eta], all three of [eta], [alpha_m] and [alpha_A] are replaced; with it,
    only the step sizes that are absent. *)
Definition effective_eta (self : params) : R :=
  match eta self with
  | None => 1e20%R
  | Some e => e
  end.

Definition effective_alpha_m (self : params) : R :=
  match eta self, alpha_m self with
  | None, _ => 1e18%R
  | Some e, None => (e * 1e-2)%R
  | Some _, Some a => a
  end.

Definition effective_alpha_A (self : params) : R :=
  match eta self, alpha_A self with
  | None, _ => 1e20%R
  | Some e, None => e
  | Some _, Some a => a
  end.

Definition known_thresholder (s : string) : Prop :=
  lower s = "l1"%string \/ lower s = "l2"%string
  \/ lower s = "weighted_l1"%string \/ lower s = "weighted_l2"%string.

(** The invalid configurations, on the values in effect. *)
Definition invalid (self : params) : Prop :=
  ~ known_thresholder (thresholder self)
  \/ (effective_eta self <= 0)%R
  \/ (effective_alpha_m self < 0)%R
  \/ (effective_alpha_m self > effective_eta self)%R
  \/ (effective_alpha_A self < 0)%R
  \/ (effective_alpha_A self > effective_eta self)%R
  \/ (gamma self >= 0)%R
  \/ (tol self <= 0)%R \/ (tol_m self <= 0)%R \/ (eps_solver self <= 0)%R
  \/ (inequality_constraints self = true /\ threshold self = 0%R).

(** The invalid configurations, read on the values as configured: a step
    size that was given counts whether or not [eta] was given. *)
Definition invalid_as_configured (self : params) : Prop :=
  ~ known_thresholder (thresholder self)
  \/ (effective_eta self <= 0)%R
  \/ (exists a, alpha_m self = Some a
         /\ (a < 0 \/ a > effective_eta self)%R)
  \/ (exists a, alpha_A self = Some a
         /\ (a < 0 \/ a > effective_eta self)%R)
  \/ (gamma self >= 0)%R
  \/ (tol self <= 0)%R \/ (tol_m self <= 0)%R \/ (eps_solver self <= 0)%R
  \/ (inequality_constraints self = true /\ threshold self = 0%R).

(** A configuration with a negative step size and no [eta]. *)
Definition negative_step_no_eta : params :=
  {| thresholder := "l1"; eta := None; alpha_m := Some (-1)%R;
     alpha_A := None; alpha := None; beta := None; gamma := (-0.1)%R;
     tol := 1e-5%R; tol_m := 1e-5%R; eps_solver := 1e-7%R;
     threshold := 0.1%R; inequality_constraints := false; _n_tgts := 3;
     A0 := None; m0 := None; warned := [] |}.

End Config.

(** ** Tensor Builder: the remaining projections *)

Definition _build_PC (polyterms : list polyterm) : result ndarray :=
  info ← _build_lib_info polyterms;
  let n := n_targets info in
  let c_terms := map fst (filter (fun t => Py.sum t.2 = 0) polyterms) in
  let PC := zeros [n; n; n_features info] in
  match c_terms with
  | c :: _ => for_each (range n) (fun i => setitem [i; i; c] 1) PC
  | [] => Ok PC
  end.

Definition _build_PL (polyterms : list polyterm) : result (ndarray * ndarray) :=
  info ← _build_lib_info polyterms;
  let n := n_targets info in
  let PL_tensor_unsym := zeros [n; n; n; n_features info] in
  let tgts := range n in
  PL_tensor_unsym ←
    for_each (range n)
      (fun j PL =>
         col ← dict_get j (linear_terms info);
         for_each tgts (fun i => setitem [i; j; i; col] 1) PL)
      PL_tensor_unsym;
  let PL_tensor :=
    divide (add PL_tensor_unsym (transpose [1; 0; 2; 3] PL_tensor_unsym)) 2 in
  Ok (PL_tensor, PL_tensor_unsym).

Record Ptensors : Type := mk_Ptensors {
  PC_ : ndarray;
  PL_unsym_ : ndarray;
  PL_ : ndarray;
  PQ_ : ndarray;
  PT_ : ndarray;
  PM_ : ndarray
}.

(** [lib_powers] is [lib.powers_] of the degree-2 library fitted on
    [n_targets] variables. *)
Definition _set_Ptensors (lib_powers : list (list nat)) : result Ptensors :=
  let polyterms := enumerate lib_powers in
  PC_tensor ← _build_PC polyterms;
  '(PL_tensor, PL_tensor_unsym) ← _build_PL polyterms;
  PQ_tensor ← _build_PQ polyterms;
  let PT_tensor := transpose [1; 0; 2; 3; 4] PQ_tensor in
  let PM_tensor := add PQ_tensor PT_tensor in
  Ok {| PC_ := PC_tensor; PL_unsym_ := PL_tensor_unsym; PL_ := PL_tensor;
        PQ_ := PQ_tensor; PT_ := PT_tensor; PM_ := PM_tensor |}.

(** ** Certificate Update: clipping the eigenvalues *)

Section UpdateA.

(** [np.linalg.eigh] (eigenvalues and a matrix whose columns are
    eigenvectors) and [np.linalg.inv], both of LAPACK. *)
Variable eigh : ndarray -> list R * ndarray.
Variable inv : ndarray -> ndarray.

(** [eigvals[i]]. *)
Definition getitem_list (v : list R) (i : nat) : result R :=
  match v !! i with
  | Some x => Ok x
  | None => Raise IndexError
  end.

Definition _update_A (gamma : R) (A_old PW : ndarray) : result ndarray :=
  let '(eigvals, eigvecs) := eigh A_old in
  let '(eigPW, eigvecsPW) := eigh PW in
  let r := dim 0 A_old in
  let A := diag eigvals in
  A ← for_each (range r)
         (fun i A =>
            ev ← getitem_list eigvals i;
            if decide (ev > gamma)%R then setitem [i; i] gamma A else Ok A)
         A;
  VA ← matmul eigvecsPW A;
  matmul VA (inv eigvecsPW).

End UpdateA.

(** ** Contractions used by the updates *)

(** The contractions are written for operands whose contracted axes have
    the same extent, as they have in a fit of [r] variables; NumPy raises a
    [ValueError] on other operands.  The statements that conclude that an
    update or a fit returns a value assume these shapes. *)

(** [np.tensordot(PM, m, axes=([2], [0]))]. *)
Definition tensordot_PM_m (PM m : ndarray) : ndarray :=
  {| shape := [dim 0 PM; dim 1 PM; dim 3 PM; dim 4 PM];
     data := fun idx =>
       match idx with
       | [a; b; c; d] =>
           sum_range (dim 2 PM) (fun k => (data PM [a; b; k; c; d] * data m [k])%R)
       | _ => 0%R
       end |}.

(** [np.einsum("ya,abcd,bz->yzcd", S, p, S')]. *)
Definition einsum_ya_abcd_bz (S p S' : ndarray) : ndarray :=
  {| shape := [dim 0 S; dim 1 S'; dim 2 p; dim 3 p];
     data := fun idx =>
       match idx with
       | [y; z; c; d] =>
           sum_range (dim 0 p) (fun a =>
             sum_range (dim 1 p) (fun b =>
               (data S [y; a] * data p [a; b; c; d] * data S' [b; z])%R))
       | _ => 0%R
       end |}.

(** [np.einsum("ya,abc,bz->yzc", S, p, S')]. *)
Definition einsum_ya_abc_bz (S p S' : ndarray) : ndarray :=
  {| shape := [dim 0 S; dim 1 S'; dim 2 p];
     data := fun idx =>
       match idx with
       | [y; z; c] =>
           sum_range (dim 0 p) (fun a =>
             sum_range (dim 1 p) (fun b =>
               (data S [y; a] * data p [a; b; c] * data S' [b; z])%R))
       | _ => 0%R
       end |}.

(** [np.tensordot(p, w, axes=([3, 2], [0, 1]))]. *)
Definition tensordot_P_w (p w : ndarray) : ndarray :=
  {| shape := [dim 0 p; dim 1 p];
     data := fun idx =>
       match idx with
       | [y; z] =>
           sum_range (dim 3 p) (fun d =>
             sum_range (dim 2 p) (fun c =>
               (data p [y; z; c; d] * data w [d; c])%R))
       | _ => 0%R
       end |}.

(** [np.tensordot(PM, w, axes=([4, 3], [0, 1]))]. *)
Definition tensordot_PM_w (PM w : ndarray) : ndarray :=
  {| shape := [dim 0 PM; dim 1 PM; dim 2 PM];
     data := fun idx =>
       match idx with
       | [a; b; c] =>
           sum_range (dim 4 PM) (fun e =>
             sum_range (dim 3 PM) (fun d =>
               (data PM [a; b; c; d; e] * data w [e; d])%R))
       | _ => 0%R
       end |}.

(** [np.tensordot(PMW, A_b, axes=([2, 1], [0, 1]))]. *)
Definition tensordot_PMW_Ab (PMW A_b : ndarray) : ndarray :=
  {| shape := [dim 0 PMW];
     data := fun idx =>
       match idx with
       | [a] =>
           sum_range (dim 2 PMW) (fun c =>
             sum_range (dim 1 PMW) (fun b =>
               (data PMW [a; b; c] * data A_b [c; b])%R))
       | _ => 0%R
       end |}.

(** [np.einsum("ya,abcde,ed", mod, PQ, w)]: without an arrow, the output
    axes are the labels that occur once, in alphabetical order: [b, c, y]. *)
Definition einsum_ya_abcde_ed (M PQ w : ndarray) : ndarray :=
  {| shape := [dim 1 PQ; dim 2 PQ; dim 0 M];
     data := fun idx =>
       match idx with
       | [b; c; y] =>
           sum_range (dim 0 PQ) (fun a =>
             sum_range (dim 3 PQ) (fun d =>
               sum_range (dim 4 PQ) (fun e =>
                 (data M [y; a] * data PQ [a; b; c; d; e] * data w [e; d])%R)))
       | _ => 0%R
       end |}.

(** [xs[-n]]. *)
Definition neg_index {A} (xs : list A) (n : nat) : result A :=
  if (1 <=? n) && (n <=? length xs) then
    match xs !! (length xs - n) with
    | Some x => Ok x
    | None => Raise IndexError
    end
  else Raise IndexError.

(** ** Convergence criteria and the objective *)

Definition _convergence_criterion (history_ : list ndarray) : result R :=
  this_coef ← neg_index history_ 1;
  last_coef ← (if 1 <? length history_ then neg_index history_ 2
               else Ok (zeros_like this_coef));
  let err_coef := sqrt (np_sum (square (sub this_coef last_coef))) in
  Ok err_coef.

Definition _m_convergence_criterion (m_history_ : list ndarray) : result R :=
  a ← neg_index m_history_ 2;
  b ← neg_index m_history_ 1;
  Ok (np_sum (np_abs (sub a b))).

Section Objective.

Variables (mod_matrix PQ_ : ndarray) (threshold eta alpha beta : R).
Variable method : string.

Definition _objective (x y coef_sparse A PW : ndarray) : result R :=
  xw ← matmul x coef_sparse;
  let sindy_loss := square (sub y xw) in
  let relax_loss := square (sub A PW) in
  let Qijk := einsum_ya_abcde_ed mod_matrix PQ_ coef_sparse in
  let Qijk_permsum :=
    square (add (add Qijk (transpose [1; 2; 0] Qijk)) (transpose [2; 0; 1] Qijk)) in
  let L1 := (threshold * np_sum (np_abs coef_sparse))%R in
  let sindy_loss := (0.5 * np_sum sindy_loss)%R in
  let relax_loss := (0.5 * np_sum relax_loss / eta)%R in
  let nonlin_ens_loss := (0.5 * np_sum (square Qijk) / alpha)%R in
  let cubic_ens_loss := (0.5 * np_sum Qijk_permsum / beta)%R in
  let obj := (sindy_loss + relax_loss + L1)%R in
  let obj := if String.eqb method "local"
             then (obj + (nonlin_ens_loss + nonlin_ens_loss))%R else obj in
  Ok obj.

End Objective.

(** The terms of the objective as the specification names them, and their
    sum as it states it: in local mode both quadratic-stability penalties,
    each once. *)
Section ObjectiveTerms.

Variables (mod_matrix PQ_ : ndarray) (threshold eta alpha beta : R).

Definition data_fit_loss (x y w : ndarray) : result R :=
  xw ← matmul x w;
  Ok (0.5 * np_sum (square (sub y xw)))%R.

Definition relaxation_loss (A PW : ndarray) : R :=
  (0.5 * np_sum (square (sub A PW)) / eta)%R.

Definition sparsity_penalty (w : ndarray) : R :=
  (threshold * np_sum (np_abs w))%R.

Definition nonlinear_energy_penalty (w : ndarray) : R :=
  let Qijk := einsum_ya_abcde_ed mod_matrix PQ_ w in
  (0.5 * np_sum (square Qijk) / alpha)%R.

Definition cubic_symmetry_penalty (w : ndarray) : R :=
  let Qijk := einsum_ya_abcde_ed mod_matrix PQ_ w in
  let Qijk_permsum :=
    square (add (add Qijk (transpose [1; 2; 0] Qijk)) (transpose [2; 0; 1] Qijk)) in
  (0.5 * np_sum Qijk_permsum / beta)%R.

Definition objective_as_specified (method : string) (x y w A PW : ndarray)
  : result R :=
  fit ← data_fit_loss x y w;
  Ok (if String.eqb method "local"
      then (fit + relaxation_loss A PW + sparsity_penalty w
            + nonlinear_energy_penalty w + cubic_symmetry_penalty w)%R
      else (fit + relaxation_loss A PW + sparsity_penalty w)%R).

End ObjectiveTerms.

(** ** The alternating-minimisation driver *)

(** How the loop of [_reduce] was left: by one of its three [break]
    statements, in the iteration [k], or by running out of iterations. *)
Inductive loop_exit : Type :=
  | Exhausted
  | InfeasibleCoef (k : nat)
  | InfeasibleCenter (k : nat)
  | Converged (k : nat).

(** Modelled from the spec: the "non-fatal warning" that comes with
    numerical infeasibility.  It is issued inside the convex-program path of
    the base class, which is not part of this module; the specification
    does not give its text. *)
Definition infeasible_solve : warning := ConvergenceWarning "Infeasible solve".

(** Modelled from the spec: the convex-program path of the coefficient
    update, [_update_coef_cvxpy] of the base class, in which
    [_update_coef_sparse_rs] ends (line 524) and which is not part of this
    module.  It "returns [None] on solver infeasibility/failure (propagated
    as a recoverable signal, not an exception)", and numerical infeasibility
    comes with "a non-fatal warning".  [solved] is what the convex solver
    found for the cost it was given: an optimum, or nothing. *)
Definition _update_coef_cvxpy (solved : option ndarray)
  : option ndarray * list warning :=
  match solved with
  | Some coef => (Some coef, [])
  | None => (None, [infeasible_solve])
  end.

(** The attributes that [_reduce] assigns and the variables of its loop.
    [warned] holds the warnings that [_reduce] itself issues (lines 747-751),
    [solver_warned] those that the convex solver issued while it ran. *)
Record fit : Type := mk_fit {
  A_history_ : list ndarray;
  m_history_ : list ndarray;
  p_history_ : list ndarray;
  PW_history_ : list ndarray;
  PWeigs_history_ : list ndarray;
  history_ : list ndarray;
  objective_history : list R;
  coef_sparse : ndarray;
  trap_ctr : ndarray;
  A : ndarray;
  warned : list warning;
  solver_warned : list warning
}.

Inductive control : Type :=
  | Continue (st : fit)
  | Break (why : loop_exit) (st : fit).

(** [for k in ks: body] with [break]; the [else] branch of the loop runs
    exactly when the result is [Exhausted]. *)
Fixpoint for_break (ks : list nat) (body : nat -> fit -> result control)
    (st : fit) : result (fit * loop_exit) :=
  match ks with
  | [] => Ok (st, Exhausted)
  | k :: ks' =>
      c ← body k st;
      match c with
      | Continue st' => for_break ks' body st'
      | Break why st' => Ok (st', why)
      end
  end.

Section Driver.

Variables (eta alpha_m alpha_A alpha beta gamma : R).
Variables (tol tol_m threshold : R).
Variable inequality_constraints : bool.
Variable max_iter : nat.
Variable method : string.
Variables (mod_matrix rt_mod_mat rt_inv_mod_mat : ndarray).
Variables (A0 m0 : ndarray).

(** LAPACK: [np.linalg.eigh], [np.linalg.inv], and
    [np.sort(np.linalg.eig(PW)[0])]. *)
Variable eigh : ndarray -> list R * ndarray.
Variable inv : ndarray -> ndarray.
Variable sorted_eigvals : ndarray -> ndarray.

(** The convex solver (CVXPY) on the cost that [_update_coef_sparse_rs]
    builds, lines 508-522, from the samples [x] and [y] of the fit, the
    projection, [A] and the previous coefficients: the optimum it finds, or
    nothing when the problem is infeasible or the solver fails. *)
Variable cvxpy_solve : ndarray -> ndarray -> ndarray -> option ndarray.

(** The dense coefficient update, for the samples [x] and [y] of the fit:
    it ends in a pseudo-inverse and always has a value. *)
Variable _update_coef_nonsparse_rs : ndarray -> ndarray -> ndarray.

(** The sparse coefficient update hands its cost to
    [self._update_coef_cvxpy] and returns what that returns. *)
Definition _update_coef_sparse_rs (Pmatrix A coef_prev : ndarray)
  : option ndarray * list warning :=
  _update_coef_cvxpy (cvxpy_solve Pmatrix A coef_prev).

(** The certificate update as the loop calls it, [self._solve_m_relax_and_split]:
    a trap center that may be [None], and the new [A]. *)
Variable solve_m : ndarray -> ndarray -> ndarray -> result (option ndarray * ndarray).

(** [lib.powers_] of the degree-2 library fitted on the targets of [y]. *)
Variable lib_powers : list (list nat).

Section Loop.

(** The projection tensors that [_set_Ptensors] returned. *)
Variable tensors : Ptensors.

(** The projection at a trap center: the expression of lines 600-603 and
    702-706, for a trap center of shape [(r)], tensors of [r] variables and
    matrices of shape [(r, r)]. *)
Definition P_at (trap_ctr : ndarray) : ndarray :=
  let mPM := tensordot_PM_m (PM_ tensors) trap_ctr in
  let p := einsum_ya_abcd_bz rt_mod_mat (add (PL_ tensors) mPM) rt_inv_mod_mat in
  divide (add p (transpose [1; 0; 2; 3] p)) 2.

Definition _solve_m_relax_and_split (trap_ctr A coef_sparse : ndarray)
  : result (ndarray * ndarray) :=
  let p := P_at trap_ctr in
  let PW := tensordot_P_w p coef_sparse in
  let PMW := tensordot_PM_w (PM_ tensors) coef_sparse in
  let PMW := einsum_ya_abc_bz rt_mod_mat PMW rt_inv_mod_mat in
  let PMW := divide (add PMW (transpose [1; 0; 2] PMW)) 2 in
  let A_b := divide (sub A PW) eta in
  let PMT_PW := tensordot_PMW_Ab PMW A_b in
  let trap_new := sub trap_ctr (scale alpha_m PMT_PW) in
  A_new ← _update_A eigh inv gamma (sub A (scale alpha_A A_b)) PW;
  Ok (trap_new, A_new).

Definition append_p (P_A : ndarray) (st : fit) : fit :=
  {| A_history_ := A_history_ st; m_history_ := m_history_ st;
     p_history_ := p_history_ st ++ [P_A];
     PW_history_ := PW_history_ st; PWeigs_history_ := PWeigs_history_ st;
     history_ := history_ st; objective_history := objective_history st;
     coef_sparse := coef_sparse st; trap_ctr := trap_ctr st; A := A st;
     warned := warned st;
     solver_warned := solver_warned st |}.

Definition set_locals (coef trap A_new : ndarray) (st : fit) : fit :=
  {| A_history_ := A_history_ st; m_history_ := m_history_ st;
     p_history_ := p_history_ st;
     PW_history_ := PW_history_ st; PWeigs_history_ := PWeigs_history_ st;
     history_ := history_ st; objective_history := objective_history st;
     coef_sparse := coef; trap_ctr := trap; A := A_new;
     warned := warned st;
     solver_warned := solver_warned st |}.

(** Lines 729-737: the iterate enters the histories. *)
Definition append_iterate (PW : ndarray) (st : fit) : fit :=
  {| A_history_ := A_history_ st ++ [A st];
     m_history_ := m_history_ st ++ [trap_ctr st];
     p_history_ := p_history_ st;
     PW_history_ := PW_history_ st ++ [PW];
     PWeigs_history_ := PWeigs_history_ st ++ [sorted_eigvals PW];
     history_ := history_ st ++ [T (coef_sparse st)];
     objective_history := objective_history st;
     coef_sparse := coef_sparse st; trap_ctr := trap_ctr st; A := A st;
     warned := warned st;
     solver_warned := solver_warned st |}.

Definition append_objective (obj : R) (st : fit) : fit :=
  {| A_history_ := A_history_ st; m_history_ := m_history_ st;
     p_history_ := p_history_ st;
     PW_history_ := PW_history_ st; PWeigs_history_ := PWeigs_history_ st;
     history_ := history_ st;
     objective_history := objective_history st ++ [obj];
     coef_sparse := coef_sparse st; trap_ctr := trap_ctr st; A := A st;
     warned := warned st;
     solver_warned := solver_warned st |}.

Definition warn (w : warning) (st : fit) : fit :=
  {| A_history_ := A_history_ st; m_history_ := m_history_ st;
     p_history_ := p_history_ st;
     PW_history_ := PW_history_ st; PWeigs_history_ := PWeigs_history_ st;
     history_ := history_ st; objective_history := objective_history st;
     coef_sparse := coef_sparse st; trap_ctr := trap_ctr st; A := A st;
     warned := warned st ++ [w];
     solver_warned := solver_warned st |}.

(** The warnings of the solver enter its channel. *)
Definition solver_warn (ws : list warning) (st : fit) : fit :=
  match ws with
  | [] => st
  | _ =>
      {| A_history_ := A_history_ st; m_history_ := m_history_ st;
         p_history_ := p_history_ st;
         PW_history_ := PW_history_ st; PWeigs_history_ := PWeigs_history_ st;
         history_ := history_ st; objective_history := objective_history st;
         coef_sparse := coef_sparse st; trap_ctr := trap_ctr st; A := A st;
         warned := warned st;
         solver_warned := solver_warned st ++ ws |}
  end.

(** One pass through the body of the loop, lines 701-746. *)
Definition iteration (x y trap_prev_ctr : ndarray) (k : nat) (st : fit)
  : result control :=
  let P_A := P_at (trap_ctr st) in
  let Pmatrix := P_A in
  let st := append_p P_A st in
  let coef_prev := coef_sparse st in
  let '(coef_new, raised) :=
    if bool_decide (threshold > 0)%R || inequality_constraints
    then _update_coef_sparse_rs Pmatrix (A st) coef_prev
    else (Some (_update_coef_nonsparse_rs P_A (A st)), []) in
  let st := solver_warn raised st in
  match coef_new with
  | None =>
      Ok (Break (InfeasibleCoef k) (set_locals coef_prev (trap_ctr st) (A st) st))
  | Some coef =>
      '(trap_new, A_new) ← solve_m (trap_ctr st) (A st) coef;
      match trap_new with
      | None =>
          Ok (Break (InfeasibleCenter k) (set_locals coef trap_prev_ctr A_new st))
      | Some trap =>
          let st := set_locals coef trap A_new st in
          let PW := tensordot_P_w P_A coef in
          let st := append_iterate PW st in
          obj ← _objective mod_matrix (PQ_ tensors) threshold eta alpha beta
                  method x y coef A_new PW;
          let st := append_objective obj st in
          err_m ← _m_convergence_criterion (m_history_ st);
          converged ←
            (if decide (err_m < tol_m)%R then
               err_coef ← _convergence_criterion (history_ st);
               Ok (bool_decide (err_coef < tol)%R)
             else Ok false);
          Ok (if converged : bool then Break (Converged k) st else Continue st)
      end
  end.

End Loop.

(** The state when the loop is entered, lines 637-696; [coef_] is the
    initial guess for the coefficients. *)
Definition initial_fit (coef_ : ndarray) : fit :=
  {| A_history_ := [A0]; m_history_ := [m0]; p_history_ := [];
     PW_history_ := []; PWeigs_history_ := []; history_ := [];
     objective_history := [];
     coef_sparse := T coef_; trap_ctr := m0; A := A0;
     warned := [];
     solver_warned := [] |}.

(** [_reduce], from the state at the head of the loop on: the final state,
    how the loop ended, and the [coef_] it stores. *)
Definition _reduce (coef_ x y : ndarray) : result (fit * loop_exit * ndarray) :=
  tensors ← _set_Ptensors lib_powers;
  let trap_prev_ctr := m0 in
  '(st, why) ← for_break (range max_iter) (iteration tensors x y trap_prev_ctr)
                 (initial_fit coef_);
  let st :=
    match why with
    | Exhausted =>
        warn (ConvergenceWarning "TrappingSR3 did not converge after max_iter iters.") st
    | _ => st
    end in
  Ok (st, why, T (coef_sparse st)).

End Driver.

(** The certificate update of this module as the loop calls it: what
    [_solve_m_relax_and_split] returns is never [None]. *)
Definition certificate_update (eta alpha_m alpha_A gamma : R)
    (rt_mod_mat rt_inv_mod_mat : ndarray)
    (eigh : ndarray -> list R * ndarray) (inv : ndarray -> ndarray)
    (tensors : Ptensors) (trap_ctr A coef_sparse : ndarray)
  : result (option ndarray * ndarray) :=
  '(trap_new, A_new) ←
    _solve_m_relax_and_split eta alpha_m alpha_A gamma rt_mod_mat
      rt_inv_mod_mat eigh inv tensors trap_ctr A coef_sparse;
  Ok (Some trap_new, A_new).

(** The number of iterations that ran to the end of the loop body, and the
    number that were begun, for each way of leaving the loop. *)
Definition completed (max_iter : nat) (why : loop_exit) : nat :=
  match why with
  | Exhausted => max_iter
  | Converged k => S k
  | InfeasibleCoef k => k
  | InfeasibleCenter k => k
  end.

Definition started (max_iter : nat) (why : loop_exit) : nat :=
  match why with
  | Exhausted => max_iter
  | Converged k => S k
  | InfeasibleCoef k => S k
  | InfeasibleCenter k => S k
  end.

Definition state_of (c : control) : fit :=
  match c with
  | Continue st => st
  | Break _ st => st
  end.

(** The two changes that the convergence test compares with the tolerances,
    as the criteria compute them: for the coefficients, against the zero
    matrix when [history] holds no earlier iterate. *)
Definition coef_change (history : list ndarray) (this_coef : ndarray) : R :=
  let last_coef := match last history with
                   | Some h => h
                   | None => zeros_like this_coef
                   end in
  sqrt (np_sum (square (sub this_coef last_coef))).

Definition center_change (old new : ndarray) : R :=
  np_sum (np_abs (sub old new)).

(** The same change when the claim's reading is taken: the difference of
    the last two recorded iterates, which needs two of them. *)
Definition last_two_change (history : list ndarray) : option R :=
  match rev history with
  | b :: a :: _ => Some (sqrt (np_sum (square (sub b a))))
  | _ => None
  end.

(** The lengths of the buffers after [n] completed and [s] begun
    iterations: the trap-center and [A] histories also hold the initial
    values. *)
Record buffers (n s : nat) (st : fit) : Prop := {
  buf_history : length (history_ st) = n;
  buf_PW : length (PW_history_ st) = n;
  buf_PWeigs : length (PWeigs_history_ st) = n;
  buf_objective : length (objective_history st) = n;
  buf_m : length (m_history_ st) = S n;
  buf_A : length (A_history_ st) = S n;
  buf_p : length (p_history_ st) = s
}.

(** What holds each time the head of the loop is reached, [k] iterations
    having completed, for the initial guess [coef0]. *)
Record at_loop_head (coef0 : ndarray) (k : nat) (st : fit) : Prop := {
  head_buffers : buffers k k st;
  head_m : last (m_history_ st) = Some (trap_ctr st);
  head_A : last (A_history_ st) = Some (A st);
  head_coef : T (coef_sparse st) = default (T (T coef0)) (last (history_ st));
  head_warned : warned st = []
}.

(** Both changes measured on the recorded histories are below the
    tolerances. *)
Definition both_below (tol tol_m : R) (st : fit) : Prop :=
  exists hm a b hc c,
    m_history_ st = hm ++ [a; b] /\ history_ st = hc ++ [c]
    /\ (center_change a b < tol_m)%R /\ (coef_change hc c < tol)%R.

(** What holds when the loop has been left. *)
Record after_loop (tol tol_m : R) (coef0 trap_prev_ctr : ndarray)
    (first bound : nat) (why : loop_exit) (st : fit) : Prop := {
  end_buffers : buffers (completed bound why) (started bound why) st;
  end_warned : warned st = [];
  end_index :
    match why with
    | Exhausted => first <= bound
    | Converged k | InfeasibleCoef k | InfeasibleCenter k => first <= k < bound
    end;
  end_coef :
    match why with
    | InfeasibleCenter _ => True
    | _ => T (coef_sparse st) = default (T (T coef0)) (last (history_ st))
    end;
  end_center :
    match why with
    | InfeasibleCenter _ => trap_ctr st = trap_prev_ctr
    | _ => last (m_history_ st) = Some (trap_ctr st)
    end;
  end_converged :
    match why with
    | Converged _ => both_below tol tol_m st
    | Exhausted => first < bound -> ~ both_below tol tol_m st
    | _ => True
    end
}.

(** ** Well-formed libraries *)

(** The exponent vector, over [r] variables, of the product of the variables
    listed in [vars]. *)
Definition monomial (r : nat) (vars : list nat) : list nat :=
  map (fun i => count_occ Nat.eq_dec vars i) (seq 0 r).

(** A degree-2 polynomial term list for [r] variables: every term has one
    exponent per variable and degree at most two, and the square of every
    variable and the product of every two variables are among the terms. *)
Definition wf_library (r : nat) (powers : list (list nat)) : Prop :=
  Forall (fun e => length e = r /\ Py.sum e <= 2) powers
  /\ (forall j, j < r -> monomial r [j; j] ∈ powers)
  /\ (forall j k, j < k < r -> monomial r [j; k] ∈ powers).

(** The same, as a test that runs. *)
Definition wf_libraryb (r : nat) (powers : list (list nat)) : bool :=
  forallb (fun e => (length e =? r) && (Py.sum e <=? 2)) powers
  && forallb (fun j => bool_decide (monomial r [j; j] ∈ powers)) (range r)
  && forallb (fun j =>
                forallb (fun k => bool_decide (monomial r [j; k] ∈ powers))
                  (seq (S j) (r - S j)))
       (range r).

(** Modelled from the spec: the feature-enumeration collaborator
    ([PolynomialLibrary(2, include_bias=...).powers_]), which is not part of
    this module.  The terms of degree at most two in [r] variables: the
    constant when asked for, the variables, then the products [x_j x_k] for
    [j <= k], row by row. *)
Definition poly_powers (include_bias : bool) (r : nat) : list (list nat) :=
  (if include_bias then [monomial r []] else [])
  ++ map (fun j => monomial r [j]) (range r)
  ++ flat_map (fun j => map (fun k => monomial r [j; k]) (seq j (r - j)))
       (range r).

(** The column that [_build_PQ] writes for the pair of variables [(j, k)],
    and the weight it writes there. *)
Definition PQ_col (info : lib_info) (j k : nat) : nat :=
  if decide (j = k) then default 0 (dict_find j (pure_terms info))
  else default 0 (dict_find (frozenset [j; k]) (mixed_terms info)).

Definition PQ_weight (j k : nat) : R :=
  if decide (j = k) then 1%R else (1 / 2)%R.

Definition PQ_writes (info : lib_info) (r : nat) : list (list nat * R) :=
  flat_map (fun jk : nat * nat =>
              map (fun i => ([i; jk.1; jk.2; i; PQ_col info jk.1 jk.2],
                             PQ_weight jk.1 jk.2))
                (range r))
    (product (range r) (range r)).

(** ** Eigenvalues *)

(** [lam] is an eigenvalue of the [n] by [n] matrix [M]: some vector that is
    not zero is scaled by [lam]. *)
Definition is_eigenvalue (n : nat) (M : ndarray) (lam : R) : Prop :=
  exists v : nat -> R,
    (exists i, i < n /\ v i <> 0%R)
    /\ forall i, i < n ->
         sum_range n (fun k => (data M [i; k] * v k)%R) = (lam * v i)%R.

Definition delta (i j : nat) : R := if decide (i = j) then 1%R else 0%R.

(** [W] is the inverse of [V], both [n] by [n]. *)
Definition inverse_of (n : nat) (V W : ndarray) : Prop :=
  forall i j, i < n -> j < n ->
    sum_range n (fun k => (data V [i; k] * data W [k; j])%R) = delta i j
    /\ sum_range n (fun k => (data W [i; k] * data V [k; j])%R) = delta i j.

(** What [np.linalg.eigh] promises for a symmetric [n] by [n] matrix [M]:
    [n] eigenvalues [w] and a matrix [U] with orthonormal columns such that
    [M = U diag(w) U^T]. *)
Definition eigh_decomposition (n : nat) (M : ndarray) (w : list R)
    (U : ndarray) : Prop :=
  length w = n /\ shape U = [n; n] /\ inverse_of n U (T U)
  /\ forall i j, i < n -> j < n ->
       data M [i; j]
       = sum_range n (fun k => (data U [i; k] * nth k w 0 * data U [j; k])%R).

(** The eigenvalue [w[k]] after the loop of [_update_A] has clipped it. *)
Definition clipped (gamma : R) (w : list R) (k : nat) : R :=
  if decide (nth k w 0 > gamma)%R then gamma else nth k w 0%R.

(** ** Small inputs on which the statements are run *)

(** The 2 by 2 identity, and an eigen-solver that is right on diagonal 2 by 2
    matrices: the diagonal and the identity. *)
Definition eye2 : ndarray :=
  {| shape := [2; 2];
     data := fun idx =>
       match idx with
       | [i; j] => delta i j
       | _ => 0%R
       end |}.

Definition eigh_diag2 (M : ndarray) : list R * ndarray :=
  ([data M [0; 0]; data M [1; 1]], eye2).

Definition inv_eye (M : ndarray) : ndarray := M.

(** Coefficients for the library [x0, x1, x0^2, x0 x1, x1^2] of two
    variables: the only term is [x0 x1] in the first equation. *)
Definition coef_x0x1 : ndarray :=
  {| shape := [5; 2];
     data := fun idx => if decide (idx = [3; 0]) then 1%R else 0%R |}.

(** A fit on two variables: the library [x0, x1, x0^2, x0 x1, x1^2], one
    sample, identity modulation, a convex solver that reports infeasibility,
    a dense coefficient update that returns [w], and a certificate update
    that leaves the trap center and [A] as they are. *)
Definition lib2 : list (list nat) := poly_powers false 2.

Definition sparse_infeasible : ndarray -> ndarray -> ndarray -> option ndarray :=
  fun _ _ _ => None.

Definition nonsparse_const (w : ndarray) : ndarray -> ndarray -> ndarray :=
  fun _ _ => w.

Definition solve_m_keep
  : ndarray -> ndarray -> ndarray -> result (option ndarray * ndarray) :=
  fun m A _ => Ok (Some m, A).

Definition no_eigvals : ndarray -> ndarray := fun _ => zeros [2].

(** A generator whose samples depend on the seed and on the position: the
    sample at position [i] after seeding with [s] is [1 / (s + i + 2)]. *)
Definition seeded_samples (s n : nat) : list R :=
  map (fun i => (/ INR (s + i + 2))%R) (seq 0 n).

Definition zero_center : ndarray := zeros [2].

Definition example_init : fit :=
  initial_fit (Config.default_A0 (-0.1) 2) (zeros [2]) (zeros [2; 5]).

Definition example_step (threshold : R) (w : ndarray) (tensors : Ptensors)
  : nat -> fit -> result control :=
  iteration 1 1 1 1e-5 1e-5 threshold false "local" eye2 eye2 eye2
    no_eigvals sparse_infeasible (nonsparse_const w) solve_m_keep tensors
    (zeros [1; 5]) (zeros [1; 2]) (zeros [2]).

Definition example_run (threshold : R) (max_iter : nat) (w : ndarray)
  : result (fit * loop_exit * ndarray) :=
  _reduce 1 1 1 1e-5 1e-5 threshold false max_iter "local" eye2 eye2 eye2
    (Config.default_A0 (-0.1) 2) (zeros [2]) no_eigvals sparse_infeasible
    (nonsparse_const w) solve_m_keep lib2
    (zeros [2; 5]) (zeros [1; 5]) (zeros [1; 2]).

(** ** Definitions for the further properties *)

(** The position of the first term of degree zero in a library, the column
    that [_build_PC] writes. *)
Definition first_constant (powers : list (list nat)) (c : nat) : Prop :=
  exists e, powers !! c = Some e /\ Py.sum e = 0
    /\ forall c' e', c' < c -> powers !! c' = Some e' -> Py.sum e' <> 0.

(** The library has the term [x_j] of every variable. *)
Definition has_linear_terms (r : nat) (powers : list (list nat)) : Prop :=
  forall j, j < r -> monomial r [j] ∈ powers.

(** The column that [_build_PL] writes for the variable [j]. *)
Definition PL_col (info : lib_info) (j : nat) : nat :=
  default 0 (dict_find j (linear_terms info)).

Definition PL_writes (info : lib_info) (r : nat) : list (list nat * R) :=
  flat_map (fun j => map (fun i => ([i; j; i; PL_col info j], 1%R)) (range r))
    (range r).

(** A library of two variables that has no linear term. *)
Definition quadratic_only : list (list nat) := [[2; 0]; [1; 1]; [0; 2]].

(** The cells that the loops of the constraint builders write: one per item
    of the pure table, three per triple of variables, and two per item of
    the mixed table in each half of the double block. *)
Definition pure_writes (x : nat * (nat * nat)) : list nat * R :=
  ([x.1; x.2.2; x.2.1], 1%R).

Definition triple_writes (info : lib_info) (x : nat * list nat)
  : list (list nat * R) :=
  match x.2 with
  | [i; j; k] =>
      [([x.1; PQ_col info j k; i], 1%R); ([x.1; PQ_col info k i; j], 1%R);
       ([x.1; PQ_col info i j; k], 1%R)]
  | _ => []
  end.

Definition double_writes_1 (set_order : list nat -> list nat)
    (info : lib_info) (x : nat * (list nat * nat)) : list (list nat * R) :=
  match set_order x.2.1 with
  | [a; b] => [([x.1; x.2.2; a], 1%R); ([x.1; PQ_col info a a; b], 1%R)]
  | _ => []
  end.

Definition double_writes_2 (set_order : list nat -> list nat)
    (info : lib_info) (x : nat * (list nat * nat)) : list (list nat * R) :=
  match set_order x.2.1 with
  | [a; b] => [([x.1; x.2.2; b], 1%R); ([x.1; PQ_col info b b; a], 1%R)]
  | _ => []
  end.


(** The defaults of the guard applied one after the other, lines 284-332
    without the tests between them. *)
Definition guard_defaults (random_rand : nat -> nat -> list R)
    (self : Config.params) : Config.params :=
  Config.fill_m0 random_rand
    (Config.fill_A0
       (Config.fill_beta (Config.fill_alpha (Config.fill_steps self)))).

(** A configuration as the constructor leaves it when only [threshold] is
    given: every optional parameter is absent. *)
Definition bare_config : Config.params :=
  {| Config.thresholder := "l1"; Config.eta := None; Config.alpha_m := None;
     Config.alpha_A := None; Config.alpha := None; Config.beta := None;
     Config.gamma := (-0.1)%R; Config.tol := 1e-5%R; Config.tol_m := 1e-5%R;
     Config.eps_solver := 1e-7%R; Config.threshold := 0.1%R;
     Config.inequality_constraints := false; Config._n_tgts := 3;
     Config.A0 := None; Config.m0 := None; Config.warned := [] |}.

(** 1 for an absent optional parameter, 0 for one that has a value. *)
Definition absent {A} (o : option A) : nat :=
  match o with
  | Some _ => 0
  | None => 1
  end.

(** The attributes that the guard tests and never assigns are the same in
    two configurations. *)
Definition keeps (c s : Config.params) : Prop :=
  Config.thresholder s = Config.thresholder c
  /\ Config.gamma s = Config.gamma c /\ Config.tol s = Config.tol c
  /\ Config.tol_m s = Config.tol_m c
  /\ Config.eps_solver s = Config.eps_solver c
  /\ Config.threshold s = Config.threshold c
  /\ Config.inequality_constraints s = Config.inequality_constraints c
  /\ Config._n_tgts s = Config._n_tgts c.

Definition half_samples : nat -> nat -> list R := fun _ n => repeat 0.5%R n.


(** A run of [_reduce] on the small fit in which the certificate update is
    the one of this module, with the eigen-solver that is right on diagonal
    matrices. *)
Definition example_certificate (tensors : Ptensors)
  : ndarray -> ndarray -> ndarray -> result (option ndarray * ndarray) :=
  certificate_update 1 0 1 (-0.1) eye2 eye2 eigh_diag2 inv_eye tensors.

Definition example_certified_run (tensors : Ptensors) (max_iter : nat)
    (w : ndarray) : result (fit * loop_exit * ndarray) :=
  _reduce 1 1 1 1e-5 1e-5 0 false max_iter "local" eye2 eye2 eye2
    (Config.default_A0 (-0.1) 2) (zeros [2]) no_eigvals sparse_infeasible
    (nonsparse_const w) (example_certificate tensors) lib2
    (zeros [2; 5]) (zeros [1; 5]) (zeros [1; 2]).


(** ** The dense coefficient solve *)

(** NumPy broadcasting of two operands: the shapes are aligned at the last
    axis, and an axis of extent one is stretched. *)
Fixpoint broadcast_rev (ra rb : list nat) : option (list nat) :=
  match ra, rb with
  | [], s => Some s
  | s, [] => Some s
  | x :: ra', y :: rb' =>
      match broadcast_rev ra' rb' with
      | Some s =>
          if decide (x = y) then Some (x :: s)
          else if decide (x = 1) then Some (y :: s)
          else if decide (y = 1) then Some (x :: s)
          else None
      | None => None
      end
  end.

Definition broadcast_shape (sa sb : list nat) : option (list nat) :=
  match broadcast_rev (rev sa) (rev sb) with
  | Some s => Some (rev s)
  | None => None
  end.

(** The cell of an operand of shape [sh] that the cell [idx] of the result
    reads. *)
Definition broadcast_index (sh idx : list nat) : list nat :=
  zip_with (fun n i => if decide (n = 1) then 0 else i) sh
    (drop (length idx - length sh) idx).

Definition broadcast2 (f : R -> R -> R) (a b : ndarray) : result ndarray :=
  match broadcast_shape (shape a) (shape b) with
  | Some sh =>
      Ok {| shape := sh;
            data := fun idx =>
              f (data a (broadcast_index (shape a) idx))
                (data b (broadcast_index (shape b) idx)) |}
  | None =>
      Raise (ValueError "operands could not be broadcast together")
  end.

(** [a + b] and [a - b]. *)
Definition np_add : ndarray -> ndarray -> result ndarray := broadcast2 Rplus.
Definition np_subtract : ndarray -> ndarray -> result ndarray :=
  broadcast2 Rminus.

(** [a @ b] and [a.dot(b)] for a matrix [a] and a matrix or a vector [b]. *)
Definition np_matmul (a b : ndarray) : result ndarray :=
  match shape b with
  | [n] =>
      if decide (length (shape a) = 2 /\ dim 1 a = n) then
        Ok {| shape := [dim 0 a];
              data := fun idx =>
                match idx with
                | [i] =>
                    sum_range (dim 1 a)
                      (fun k => (data a [i; k] * data b [k])%R)
                | _ => 0%R
                end |}
      else Raise (ValueError "matmul: mismatch in core dimensions")
  | _ => matmul a b
  end.

Section LinearSolves.

(** LAPACK: [np.linalg.pinv(., rcond=1e-10)]. *)
Variable pinv : ndarray -> ndarray.

Definition _equality_constrained_linlsq
    (hess grad_const constraint_lhs constraint_rhs : ndarray)
  : result ndarray :=
  let C := constraint_lhs in
  let d := constraint_rhs in
  let inv1 := pinv hess in
  C_inv1 ← np_matmul C inv1;
  gram ← np_matmul C_inv1 (T C);
  let inv2 := pinv gram in
  CT_inv2 ← np_matmul (T C) inv2;
  C_inv1 ← np_matmul C inv1;
  C_inv1_g ← np_matmul C_inv1 grad_const;
  residual ← np_subtract d C_inv1_g;
  correction ← np_matmul CT_inv2 residual;
  rhs ← np_add grad_const correction;
  np_matmul inv1 rhs.

(** [self.use_constraints], [self.constraint_lhs] and
    [self.constraint_rhs] are attributes of the optimizer. *)
Definition _solve_nonsparse_relax_and_split (use_constraints : bool)
    (constraint_lhs constraint_rhs : ndarray)
    (hess gradient_constant : ndarray) : result ndarray :=
  if use_constraints then
    _equality_constrained_linlsq hess gradient_constant constraint_lhs
      constraint_rhs
  else
    let hess_inv := pinv hess in
    np_matmul hess_inv gradient_constant.

End LinearSolves.

(** A constraint on two coefficients: the first one is fixed. *)
Definition first_coefficient : ndarray :=
  {| shape := [1; 2];
     data := fun idx => if decide (idx = [0; 0]) then 1%R else 0%R |}.

(** A library of two variables without the squares, as
    [interaction_only=True] gives it. *)
Definition interaction_only2 : list (list nat) := [[1; 0]; [0; 1]; [1; 1]].

(** ** The dense coefficient update *)

(** The number of cells of a shape, and the position of a cell in C order
    and back. *)
Definition cell_count (sh : list nat) : nat := foldr Nat.mul 1 sh.

Fixpoint ravel (sh idx : list nat) : nat :=
  match sh, idx with
  | _ :: sh', i :: idx' => i * cell_count sh' + ravel sh' idx'
  | _, _ => 0
  end.

Fixpoint unravel (sh : list nat) (k : nat) : list nat :=
  match sh with
  | [] => []
  | _ :: sh' => (k / cell_count sh') :: unravel sh' (k mod cell_count sh')
  end.

(** [np.reshape(a, sh)] and [a.reshape(sh)]. *)
Definition reshape (sh : list nat) (a : ndarray) : result ndarray :=
  if decide (cell_count sh = cell_count (shape a)) then
    Ok {| shape := sh;
          data := fun idx => data a (unravel (shape a) (ravel sh idx)) |}
  else Raise (ValueError "cannot reshape array").

(** [hess[tgt, :, tgt, :] = value] on an array of four axes. *)
Definition set_target_block (tgt : nat) (value hess : ndarray)
  : result ndarray :=
  if decide (tgt < dim 0 hess /\ tgt < dim 2 hess) then
    if decide (broadcast_shape (shape value) [dim 1 hess; dim 3 hess]
               = Some [dim 1 hess; dim 3 hess]) then
      Ok {| shape := shape hess;
            data := fun idx =>
              match idx with
              | [a; f; b; f'] =>
                  if decide (a = tgt /\ b = tgt)
                  then data value (broadcast_index (shape value) [f; f'])
                  else data hess idx
              | _ => data hess idx
              end |}
    else Raise (ValueError "could not broadcast input array")
  else Raise IndexError.

(** [np.einsum("abcd,baef->cdef", p, q)]. *)
Definition einsum_abcd_baef (p q : ndarray) : ndarray :=
  {| shape := [dim 2 p; dim 3 p; dim 2 q; dim 3 q];
     data := fun idx =>
       match idx with
       | [c; d; e; f] =>
           sum_range (dim 0 p) (fun a =>
             sum_range (dim 1 p) (fun b =>
               (data p [a; b; c; d] * data q [b; a; e; f])%R))
       | _ => 0%R
       end |}.

(** [np.tensordot(u, v, axes=([0, 1, 2], [0, 1, 2]))]. *)
Definition tensordot_012 (u v : ndarray) : ndarray :=
  {| shape := [dim 3 u; dim 4 u; dim 3 v; dim 4 v];
     data := fun idx =>
       match idx with
       | [d; e; d'; e'] =>
           sum_range (dim 0 u) (fun a =>
             sum_range (dim 1 u) (fun b =>
               sum_range (dim 2 u) (fun c =>
                 (data u [a; b; c; d; e] * data v [a; b; c; d'; e'])%R)))
       | _ => 0%R
       end |}.

(** [np.einsum("ya,abcde->ybcde", M, PQ)]. *)
Definition einsum_ya_abcde (M PQ : ndarray) : ndarray :=
  {| shape := [dim 0 M; dim 1 PQ; dim 2 PQ; dim 3 PQ; dim 4 PQ];
     data := fun idx =>
       match idx with
       | [y; b; c; d; e] =>
           sum_range (dim 0 PQ) (fun a =>
             (data M [y; a] * data PQ [a; b; c; d; e])%R)
       | _ => 0%R
       end |}.

(** [np.einsum("bacd,ab->cd", p, A)], for [p] of shape [(r, r, T, F)] and
    [A] of shape [(r, r)]. *)
Definition einsum_bacd_ab (p A : ndarray) : ndarray :=
  {| shape := [dim 2 p; dim 3 p];
     data := fun idx =>
       match idx with
       | [c; d] =>
           sum_range (dim 1 p) (fun a =>
             sum_range (dim 0 p) (fun b =>
               (data p [b; a; c; d] * data A [a; b])%R))
       | _ => 0%R
       end |}.

Section NonsparseUpdate.

Variables (eta alpha beta : R) (method : string) (mod_matrix PQ_ : ndarray).

(** LAPACK's pseudo-inverse and the constraints stored on the optimizer,
    which [_solve_nonsparse_relax_and_split] reads. *)
Variable pinv : ndarray -> ndarray.
Variable use_constraints : bool.
Variables (constraint_lhs constraint_rhs : ndarray).

Definition _update_coef_nonsparse_rs (x y P_A quad_energy_coeff_A : ndarray)
  : result ndarray :=
  match shape P_A with
  | [_; _; n_tgts; n_features] =>
      let var_len := n_tgts * n_features in
      let hess := zeros [n_tgts; n_features; n_tgts; n_features] in
      xTx ← np_matmul (T x) x;
      hess ← for_each (range n_tgts)
               (fun tgt hess => set_target_block tgt xTx hess) hess;
      let pTp := einsum_abcd_baef P_A P_A in
      let hess := add hess (divide pTp eta) in
      let hess :=
        if String.eqb method "local" then
          let PQTPQ := tensordot_012 PQ_ PQ_ in
          let PQ := einsum_ya_abcde mod_matrix PQ_ in
          let PQ_ep :=
            add (add PQ (transpose [1; 2; 0; 3; 4] PQ))
              (transpose [2; 0; 1; 3; 4] PQ) in
          let PQTPQ_ep := tensordot_012 PQ_ep PQ_ep in
          add hess (add (divide PQTPQ alpha) (divide PQTPQ_ep beta))
        else hess in
      let PaTA := einsum_bacd_ab P_A quad_energy_coeff_A in
      xTy ← np_matmul (T x) y;
      let PaTA := T PaTA in
      grad_const ← np_add xTy (divide PaTA eta);
      let hess := transpose [1; 0; 3; 2] hess in
      hess ← reshape [var_len; var_len] hess;
      grad_const ← reshape [var_len] grad_const;
      coef_flat ←
        _solve_nonsparse_relax_and_split pinv use_constraints constraint_lhs
          constraint_rhs hess grad_const;
      reshape [n_features; n_tgts] coef_flat
  | _ => Raise (ValueError "not enough values to unpack")
  end.

(** The Hessian of the update before it is flattened, cell by cell: the
    data term on the diagonal blocks, the relaxation term, and in local mode
    the two penalties on the quadratic terms. *)
Definition hessian_cell (x P_A : ndarray) (t f t' f' : nat) : R :=
  let pTp := einsum_abcd_baef P_A P_A in
  let PQTPQ := tensordot_012 PQ_ PQ_ in
  let PQ := einsum_ya_abcde mod_matrix PQ_ in
  let PQ_ep :=
    add (add PQ (transpose [1; 2; 0; 3; 4] PQ))
      (transpose [2; 0; 1; 3; 4] PQ) in
  let PQTPQ_ep := tensordot_012 PQ_ep PQ_ep in
  ((if decide (t = t')
    then sum_range (dim 0 x) (fun s => data x [s; f] * data x [s; f'])
    else 0)
   + data pTp [t; f; t'; f'] / eta
   + (if String.eqb method "local"
      then data PQTPQ [t; f; t'; f'] / alpha
           + data PQTPQ_ep [t; f; t'; f'] / beta
      else 0))%R.

(** The constant part of the gradient, cell by cell. *)
Definition gradient_cell (x y P_A A : ndarray) (f t : nat) : R :=
  (sum_range (dim 0 x) (fun s => data x [s; f] * data y [s; t])
   + data (einsum_bacd_ab P_A A) [t; f] / eta)%R.

End NonsparseUpdate.

(** One sample of one feature, with the value 1. *)
Definition one_sample : ndarray := {| shape := [1; 1]; data := fun _ => 1%R |}.

(** * Properties *)

(** ** The error monad and loops *)

Lemma bind_Ok {A B} (m : result A) (f : A -> result B) (b : B) :
  (m ≫= f) = Ok b <-> exists a, m = Ok a /\ f a = Ok b.
Proof.
  destruct m as [a|e]; simpl; split.
  - intros H. exists a. split; [reflexivity | exact H].
  - intros (a' & Ha & Hf). inversion Ha. subst. exact Hf.
  - discriminate.
  - intros (a' & Ha & _). discriminate.
Qed.

Lemma for_each_app {A S} (xs ys : list A) (body : A -> S -> result S) (s : S) :
  for_each (xs ++ ys) body s = for_each xs body s ≫= for_each ys body.
Proof.
  revert s. induction xs as [|x xs IH]; intros s; simpl; [reflexivity|].
  destruct (body x s) as [s'|e]; simpl; [apply IH | reflexivity].
Qed.

(** A loop whose body keeps an invariant, and cannot fail under it, runs to
    its end and establishes the invariant. *)
Lemma for_each_invariant {A S} (I : S -> Prop) (xs : list A)
    (body : A -> S -> result S) (s : S) :
  I s ->
  (forall x s, x ∈ xs -> I s -> exists s', body x s = Ok s' /\ I s') ->
  exists s', for_each xs body s = Ok s' /\ I s'.
Proof.
  revert s. induction xs as [|x xs IH]; intros s Hs Hbody; simpl.
  - exists s. split; [reflexivity | exact Hs].
  - destruct (Hbody x s) as (s1 & Hx & Hs1); [left | exact Hs |].
    rewrite Hx. simpl. apply IH; [exact Hs1|].
    intros y t Hy Ht. apply Hbody; [right; exact Hy | exact Ht].
Qed.

Lemma for_each_ext {A S} (xs : list A) (f g : A -> S -> result S) (s : S) :
  (forall x t, x ∈ xs -> f x t = g x t) ->
  for_each xs f s = for_each xs g s.
Proof.
  revert s. induction xs as [|x xs IH]; intros s H; simpl; [reflexivity|].
  rewrite (H x s) by left.
  destruct (g x s) as [s'|e]; simpl; [|reflexivity].
  apply IH. intros y t Hy. apply H. right. exact Hy.
Qed.

Lemma for_each_flat_map {A B S} (g : A -> list B) (h : B -> S -> result S)
    (xs : list A) (s : S) :
  for_each xs (fun x t => for_each (g x) h t) s = for_each (flat_map g xs) h s.
Proof.
  revert s. induction xs as [|x xs IH]; intros s; simpl; [reflexivity|].
  rewrite for_each_app.
  destruct (for_each (g x) h s) as [s'|e]; simpl; [apply IH | reflexivity].
Qed.

(** ** Writing cells *)

Lemma setitem_Ok (idx : list nat) (v : R) (a a' : ndarray) :
  setitem idx v a = Ok a' ->
  in_bounds (shape a) idx = true /\ shape a' = shape a
  /\ forall i, data a' i = if decide (i = idx) then v else data a i.
Proof.
  unfold setitem. destruct (in_bounds (shape a) idx); [|discriminate].
  intros H. inversion H. subst. simpl. auto.
Qed.

Lemma setitem_in_bounds (idx : list nat) (v : R) (a : ndarray) :
  in_bounds (shape a) idx = true ->
  exists a', setitem idx v a = Ok a' /\ shape a' = shape a.
Proof.
  intros H. unfold setitem. rewrite H. eexists. split; reflexivity.
Qed.

(** A run of in-bounds writes that all agree with one table [spec] leaves
    [spec] in the cells it wrote and the old contents elsewhere. *)
Lemma writes_spec (spec : list nat -> R) (W : list (list nat * R)) (a : ndarray) :
  Forall (fun w => in_bounds (shape a) w.1 = true /\ w.2 = spec w.1) W ->
  exists a', for_each W (fun w => setitem w.1 w.2) a = Ok a'
    /\ shape a' = shape a
    /\ forall idx, data a' idx
         = if decide (idx ∈ map fst W) then spec idx else data a idx.
Proof.
  revert a. induction W as [|w W IH]; intros a HW.
  - exists a. simpl. split; [reflexivity|]. split; [reflexivity|].
    intros idx. destruct (decide (idx ∈ [])) as [H|H]; [inversion H | reflexivity].
  - inversion HW as [|? ? [Hb Hv] HW']; subst.
    destruct (setitem_in_bounds w.1 w.2 a Hb) as (a1 & Hset & Hsh1).
    destruct (IH a1) as (a' & Hrun & Hsh & Hdata).
    { rewrite Hsh1. exact HW'. }
    exists a'. simpl. rewrite Hset. simpl. split; [exact Hrun|].
    split; [congruence|].
    intros idx. rewrite Hdata.
    apply setitem_Ok in Hset as (_ & _ & Hd1).
    destruct (decide (idx ∈ map fst W)) as [Hin|Hnin].
    + rewrite decide_True; [reflexivity | right; exact Hin].
    + rewrite Hd1. destruct (decide (idx = w.1)) as [->|Hne].
      * rewrite decide_True; [exact Hv | left].
      * rewrite decide_False; [reflexivity|].
        intros Hin. inversion Hin; subst; contradiction.
Qed.

(** ** Dictionaries *)

Section DictFacts.
Context {K V : Type} `{EqDecision K}.
Implicit Types (d : dict K V) (k : K) (v : V).

Lemma dict_find_set_eq k v d : dict_find k (dict_set k v d) = Some v.
Proof.
  induction d as [|[k' v'] d IH]; simpl.
  - rewrite decide_True; reflexivity.
  - destruct (decide (k = k')) as [->|Hne]; simpl.
    + rewrite decide_True; reflexivity.
    + rewrite decide_False; [exact IH | exact Hne].
Qed.

Lemma dict_find_set_ne k k' v d :
  k <> k' -> dict_find k' (dict_set k v d) = dict_find k' d.
Proof.
  intros Hne. induction d as [|[k0 v0] d IH]; simpl.
  - rewrite decide_False; [reflexivity | congruence].
  - destruct (decide (k = k0)) as [->|Hne0]; simpl.
    + rewrite !decide_False by congruence. reflexivity.
    + destruct (decide (k' = k0)); [reflexivity | exact IH].
Qed.

Lemma dict_find_keys k d : is_Some (dict_find k d) <-> k ∈ dict_keys d.
Proof.
  unfold dict_keys. induction d as [|[k' v'] d IH]; simpl.
  - split; [intros [? H]; discriminate | intros H; inversion H].
  - destruct (decide (k = k')) as [->|Hne].
    + split; [intros _; left | intros _; eexists; reflexivity].
    + rewrite IH. split; [intros H; right; exact H|].
      intros H. inversion H; subst; [contradiction | assumption].
Qed.

Lemma dict_set_keys_NoDup k v d :
  NoDup (dict_keys d) -> NoDup (dict_keys (dict_set k v d)).
Proof.
  unfold dict_keys. induction d as [|[k' v'] d IH]; simpl; intros Hnd.
  - constructor; [intros H; inversion H | constructor].
  - inversion Hnd as [|? ? Hnin Hnd']; subst.
    destruct (decide (k = k')) as [->|Hne]; simpl.
    + constructor; assumption.
    + constructor; [|apply IH; exact Hnd'].
      intros Hin. apply Hnin.
      apply (dict_find_keys k' d).
      apply (dict_find_keys k' (dict_set k v d)) in Hin.
      rewrite dict_find_set_ne in Hin by exact Hne. exact Hin.
Qed.

Lemma dict_fold_find k d (kvs : list (K * V)) (v : V) :
  dict_find k (foldl (fun d kv => dict_set kv.1 kv.2 d) d kvs) = Some v ->
  (k, v) ∈ kvs \/ dict_find k d = Some v.
Proof.
  revert d. induction kvs as [|[k0 v0] kvs IH]; intros d; simpl.
  - intros H. right. exact H.
  - intros Hv. destruct (IH _ Hv) as [Hin|Hfind].
    + left. right. exact Hin.
    + destruct (decide (k0 = k)) as [->|Hne].
      * rewrite dict_find_set_eq in Hfind. inversion Hfind. subst.
        left. left.
      * rewrite dict_find_set_ne in Hfind by exact Hne. right. exact Hfind.
Qed.

Lemma dict_fold_defined k d (kvs : list (K * V)) :
  k ∈ map fst kvs \/ is_Some (dict_find k d) ->
  is_Some (dict_find k (foldl (fun d kv => dict_set kv.1 kv.2 d) d kvs)).
Proof.
  revert d. induction kvs as [|[k0 v0] kvs IH]; intros d; simpl.
  - intros [H|H]; [inversion H | exact H].
  - intros Hk. apply IH.
    destruct (decide (k0 = k)) as [->|Hne].
    + right. rewrite dict_find_set_eq. eexists. reflexivity.
    + destruct Hk as [Hk|Hk].
      * inversion Hk; subst; [contradiction | left; assumption].
      * right. rewrite dict_find_set_ne by exact Hne. exact Hk.
Qed.

Lemma dict_fold_NoDup d (kvs : list (K * V)) :
  NoDup (dict_keys d) ->
  NoDup (dict_keys (foldl (fun d kv => dict_set kv.1 kv.2 d) d kvs)).
Proof.
  revert d. induction kvs as [|[k0 v0] kvs IH]; intros d; simpl.
  - auto.
  - intros Hnd. apply IH. apply dict_set_keys_NoDup. exact Hnd.
Qed.

Lemma dict_of_find k v (kvs : list (K * V)) :
  dict_find k (dict_of kvs) = Some v -> (k, v) ∈ kvs.
Proof.
  intros H. destruct (dict_fold_find k [] kvs v H) as [Hin|Hf];
    [exact Hin | discriminate].
Qed.

Lemma dict_of_defined k (kvs : list (K * V)) :
  k ∈ map fst kvs <-> is_Some (dict_find k (dict_of kvs)).
Proof.
  split.
  - intros H. apply dict_fold_defined. left. exact H.
  - intros [v Hv]. apply dict_of_find in Hv.
    apply list_elem_of_fmap. exists (k, v). split; [reflexivity | exact Hv].
Qed.

Lemma dict_of_keys_NoDup (kvs : list (K * V)) : NoDup (dict_keys (dict_of kvs)).
Proof. apply dict_fold_NoDup. constructor. Qed.

Lemma dict_get_Ok k v d : dict_get k d = Ok v <-> dict_find k d = Some v.
Proof.
  unfold dict_get. destruct (dict_find k d); split; intros H;
    inversion H; reflexivity.
Qed.

End DictFacts.

(** ** Enumerations and comprehensions *)

Lemma elem_of_enumerate_from {A} (s i : nat) (x : A) (xs : list A) :
  (i, x) ∈ enumerate_from s xs <-> s <= i /\ xs !! (i - s) = Some x.
Proof.
  revert s. induction xs as [|y xs IH]; intros s; simpl.
  - split; [intros H; inversion H | intros [_ H]; discriminate].
  - rewrite elem_of_cons, IH. split.
    + intros [Heq|[Hle Hl]].
      * inversion Heq. subst. rewrite Nat.sub_diag. split; [lia | reflexivity].
      * split; [lia|]. replace (i - s) with (S (i - S s)) by lia. exact Hl.
    + intros [Hle Hl]. destruct (decide (i = s)) as [->|Hne].
      * rewrite Nat.sub_diag in Hl. simpl in Hl. inversion Hl. left. reflexivity.
      * right. split; [lia|].
        replace (i - s) with (S (i - S s)) in Hl by lia. exact Hl.
Qed.

Lemma elem_of_enumerate {A} (i : nat) (x : A) (xs : list A) :
  (i, x) ∈ enumerate xs <-> xs !! i = Some x.
Proof.
  unfold enumerate. rewrite elem_of_enumerate_from, Nat.sub_0_r.
  split; [intros [_ H]; exact H | intros H; split; [lia | exact H]].
Qed.

Lemma length_enumerate_from {A} (s : nat) (xs : list A) :
  length (enumerate_from s xs) = length xs.
Proof. revert s. induction xs; intros s; simpl; [|rewrite IHxs]; reflexivity. Qed.

Lemma comprehension_Ok {A B} (f : A -> result (option B)) (xs : list A) :
  Forall (fun x => exists o, f x = Ok o) xs ->
  exists ys, comprehension f xs = Ok ys
    /\ forall b, b ∈ ys <-> exists x, x ∈ xs /\ f x = Ok (Some b).
Proof.
  induction xs as [|x xs IH]; intros H; simpl.
  - exists []. split; [reflexivity|]. intros b. split.
    + intros Hb. inversion Hb.
    + intros (x & Hx & _). inversion Hx.
  - inversion H as [|? ? [o Ho] H']; subst.
    destruct (IH H') as (ys & Hys & Hmem). rewrite Ho, Hys. simpl.
    eexists. split; [reflexivity|]. intros b. split.
    + intros Hb. destruct o as [b0|].
      * apply elem_of_cons in Hb as [->|Hb].
        -- exists x. split; [left | exact Ho].
        -- apply Hmem in Hb as (x' & Hx' & Hf). exists x'.
           split; [right; exact Hx' | exact Hf].
      * apply Hmem in Hb as (x' & Hx' & Hf). exists x'.
        split; [right; exact Hx' | exact Hf].
    + intros (x' & Hx' & Hf). apply elem_of_cons in Hx' as [->|Hx'].
      * rewrite Ho in Hf. inversion Hf. subst. left.
      * assert (b ∈ ys) by (apply Hmem; eauto).
        destruct o; [right|]; assumption.
Qed.

(** ** Exponent vectors *)

Lemma map_seq_const {A} (f : nat -> A) (c : A) (a n : nat) :
  (forall i, a <= i < a + n -> f i = c) -> map f (seq a n) = repeat c n.
Proof.
  revert a. induction n as [|n IH]; intros a H; simpl; [reflexivity|].
  rewrite (H a) by lia. f_equal. apply IH. intros i Hi. apply H. lia.
Qed.

Lemma monomial_square (r j : nat) :
  j < r -> monomial r [j; j] = repeat 0 j ++ 2 :: repeat 0 (r - S j).
Proof.
  intros Hj. unfold monomial.
  replace r with (j + S (r - S j)) at 1 by lia.
  rewrite seq_app, map_app. simpl. f_equal; [|f_equal].
  - apply map_seq_const. intros i Hi.
    destruct (Nat.eq_dec j i); [lia | reflexivity].
  - destruct (Nat.eq_dec j j); [reflexivity | contradiction].
  - apply map_seq_const. intros i Hi.
    destruct (Nat.eq_dec j i); [lia | reflexivity].
Qed.

Lemma monomial_product (r j k : nat) :
  j < k < r ->
  monomial r [j; k]
  = repeat 0 j ++ 1 :: repeat 0 (k - S j) ++ 1 :: repeat 0 (r - S k).
Proof.
  intros Hjk. unfold monomial.
  replace r with (j + S ((k - S j) + S (r - S k))) at 1 by lia.
  rewrite seq_app, map_app. simpl. f_equal; [|f_equal].
  - apply map_seq_const. intros i Hi.
    destruct (Nat.eq_dec j i), (Nat.eq_dec k i); lia.
  - destruct (Nat.eq_dec j j), (Nat.eq_dec k j); lia.
  - rewrite seq_app, map_app. simpl. f_equal; [|f_equal].
    + apply map_seq_const. intros i Hi.
      destruct (Nat.eq_dec j i), (Nat.eq_dec k i); lia.
    + destruct (Nat.eq_dec j (S (j + (k - S j)))),
        (Nat.eq_dec k (S (j + (k - S j)))); lia.
    + apply map_seq_const. intros i Hi.
      destruct (Nat.eq_dec j i), (Nat.eq_dec k i); lia.
Qed.

Lemma sum_zeros (n : nat) (l : list nat) : Py.sum (repeat 0 n ++ l) = Py.sum l.
Proof. induction n; simpl; [reflexivity | exact IHn]. Qed.

Lemma foldl_max_zeros (n m : nat) (l : list nat) :
  foldl Nat.max m (repeat 0 n ++ l) = foldl Nat.max m l.
Proof.
  revert m. induction n as [|n IH]; intros m; simpl; [reflexivity|].
  rewrite Nat.max_0_r. apply IH.
Qed.

Lemma argmax_from_zeros (n pos best_pos best : nat) (l : list nat) :
  argmax_from pos best_pos best (repeat 0 n ++ l)
  = argmax_from (pos + n) best_pos best l.
Proof.
  revert pos. induction n as [|n IH]; intros pos; simpl.
  - rewrite Nat.add_0_r. reflexivity.
  - replace (best <? 0) with false by (symmetry; apply Nat.ltb_ge; lia).
    rewrite IH. f_equal. lia.
Qed.

Lemma argwhere_from_zeros (n pos : nat) (l : list nat) :
  argwhere_from pos 1 (repeat 0 n ++ l) = argwhere_from (pos + n) 1 l.
Proof.
  revert pos. induction n as [|n IH]; intros pos; simpl.
  - rewrite Nat.add_0_r. reflexivity.
  - rewrite IH. f_equal. lia.
Qed.

Lemma pure_entry_square (r j c : nat) :
  j < r -> pure_entry (c, monomial r [j; j]) = Ok (Some (j, c)).
Proof.
  intros Hj. unfold pure_entry. simpl. rewrite monomial_square by exact Hj.
  destruct j as [|j]; simpl.
  - rewrite <- (app_nil_r (repeat 0 (r - 1))), foldl_max_zeros,
      argmax_from_zeros. reflexivity.
  - rewrite foldl_max_zeros, argmax_from_zeros. simpl.
    rewrite <- (app_nil_r (repeat 0 (r - S (S j)))), foldl_max_zeros,
      argmax_from_zeros. reflexivity.
Qed.

Lemma mixed_entry_product (r j k c : nat) :
  j < k < r -> mixed_entry (c, monomial r [j; k]) = Ok (Some ([j; k], c)).
Proof.
  intros Hjk. unfold mixed_entry, argwhere. simpl.
  rewrite monomial_product by exact Hjk.
  rewrite sum_zeros, argwhere_from_zeros. simpl.
  rewrite sum_zeros, argwhere_from_zeros. simpl.
  rewrite <- (app_nil_r (repeat 0 (r - S k))), sum_zeros, argwhere_from_zeros.
  simpl.
  assert (Hmax : Py.max (repeat 0 j ++ 1 :: repeat 0 (k - S j) ++ 1
                           :: repeat 0 (r - S k) ++ []) = Ok 1).
  { destruct j as [|j]; simpl.
    - rewrite foldl_max_zeros. simpl. rewrite foldl_max_zeros. reflexivity.
    - rewrite foldl_max_zeros. simpl. rewrite foldl_max_zeros. simpl.
      rewrite foldl_max_zeros. reflexivity. }
  rewrite Hmax. simpl.
  replace (S (j + (k - S j))) with k by lia.
  replace (j <? k) with true by (symmetry; apply Nat.ltb_lt; lia).
  reflexivity.
Qed.

(** ** The term tables of a well-formed library *)

Lemma pymax_defined (e : list nat) : e <> [] -> exists m, Py.max e = Ok m.
Proof. destruct e; [contradiction | intros _; eexists; reflexivity]. Qed.

(** What [_build_lib_info] computes on a well-formed library: the tables
    [pure] and [mixed] are total on the variables and on the pairs of
    variables, and each entry points at a term of the kind it is filed under. *)
Record lib_tables (r : nat) (powers : list (list nat)) (info : lib_info)
    (pure : list (nat * nat)) (mixed : list (list nat * nat)) : Prop := {
  lt_info : _build_lib_info (enumerate powers) = Ok info;
  lt_pure : comprehension pure_entry (enumerate powers) = Ok pure;
  lt_mixed : comprehension mixed_entry (enumerate powers) = Ok mixed;
  lt_targets : n_targets info = r;
  lt_features : n_features info = length powers;
  lt_lengths : Forall (fun e => length e = r) powers;
  lt_pure_terms : pure_terms info = dict_of pure;
  lt_mixed_terms : mixed_terms info = dict_of mixed;
  lt_pure_defined : forall j, j < r -> exists c, dict_find j (dict_of pure) = Some c;
  lt_pure_value : forall j c, dict_find j (dict_of pure) = Some c ->
    exists e, powers !! c = Some e /\ Py.max e = Ok 2 /\ argmax e = j;
  lt_mixed_defined : forall j k, j < k < r ->
    exists c, dict_find [j; k] (dict_of mixed) = Some c;
  lt_mixed_value : forall key c, dict_find key (dict_of mixed) = Some c ->
    exists e, powers !! c = Some e /\ Py.max e = Ok 1 /\ Py.sum e = 2
      /\ key = frozenset (argwhere 1 e)
}.

Lemma lib_tables_wf (r : nat) (powers : list (list nat)) :
  1 <= r -> wf_library r powers ->
  exists info pure mixed, lib_tables r powers info pure mixed.
Proof.
  intros Hr (Hall & Hsq & Hprod).
  assert (Hne : Forall (fun t : polyterm => t.2 <> []) (enumerate powers)).
  { apply Forall_forall. intros [i e] Hin. apply elem_of_enumerate in Hin.
    rewrite Forall_forall in Hall.
    destruct (Hall e) as [Hlen _]; [eapply list_elem_of_lookup_2; exact Hin|].
    simpl. intros ->. simpl in Hlen. lia. }
  destruct (comprehension_Ok pure_entry (enumerate powers)) as (pure & Hpure & Hpm).
  { eapply Forall_impl; [exact Hne|]. intros [i e] He. unfold pure_entry.
    simpl in *. destruct (pymax_defined e He) as [m ->]. eexists. reflexivity. }
  destruct (comprehension_Ok mixed_entry (enumerate powers)) as (mixed & Hmixed & Hmm).
  { eapply Forall_impl; [exact Hne|]. intros [i e] He. unfold mixed_entry.
    simpl in *. destruct (pymax_defined e He) as [m ->]. eexists. reflexivity. }
  destruct (comprehension_Ok linear_entry (enumerate powers)) as (lin & Hlin & _).
  { apply Forall_forall. intros t _. eexists. reflexivity. }
  assert (Hsq0 := Hsq 0 Hr).
  apply list_elem_of_lookup in Hsq0 as [i0 Hi0].
  destruct powers as [|e0 powers']; [discriminate|].
  set (powers := e0 :: powers') in *.
  assert (He0 : length e0 = r).
  { rewrite Forall_forall in Hall. apply Hall. left. }
  eexists _, pure, mixed. split.
  - unfold _build_lib_info. change (enumerate powers) with
      ((0, e0) :: enumerate_from 1 powers') in *.
    cbv zeta. rewrite Hmixed, Hpure, Hlin. reflexivity.
  - exact Hpure.
  - exact Hmixed.
  - exact He0.
  - simpl. f_equal. apply length_enumerate_from.
  - eapply Forall_impl; [exact Hall|]. simpl. tauto.
  - reflexivity.
  - reflexivity.
  - intros j Hj. apply (dict_of_defined (V:=nat)).
    apply list_elem_of_fmap.
    destruct (proj1 (list_elem_of_lookup _ _) (Hsq j Hj)) as [c Hc].
    exists (j, c). split; [reflexivity|]. apply Hpm.
    exists (c, monomial r [j; j]). split.
    + apply elem_of_enumerate. exact Hc.
    + apply pure_entry_square. exact Hj.
  - intros j c Hf. apply dict_of_find in Hf. apply Hpm in Hf as ([i e] & Hin & He).
    apply elem_of_enumerate in Hin. unfold pure_entry in He. simpl in He.
    destruct (Py.max e) as [m|] eqn:Hm; [|discriminate]. simpl in He.
    destruct (m =? 2) eqn:Hm2; [|discriminate].
    inversion He. subst. exists e. apply Nat.eqb_eq in Hm2. subst. auto.
  - intros j k Hjk. apply (dict_of_defined (V:=nat)).
    apply list_elem_of_fmap.
    destruct (proj1 (list_elem_of_lookup _ _) (Hprod j k Hjk)) as [c Hc].
    exists ([j; k], c). split; [reflexivity|]. apply Hmm.
    exists (c, monomial r [j; k]). split.
    + apply elem_of_enumerate. exact Hc.
    + apply mixed_entry_product. exact Hjk.
  - intros key c Hf. apply dict_of_find in Hf. apply Hmm in Hf as ([i e] & Hin & He).
    apply elem_of_enumerate in Hin. unfold mixed_entry in He. simpl in He.
    destruct (Py.max e) as [m|] eqn:Hm; [|discriminate]. simpl in He.
    destruct (m =? 1) eqn:Hm1; [|discriminate].
    destruct (Py.sum e =? 2) eqn:Hs; [|discriminate]. simpl in He.
    inversion He. subst. exists e.
    apply Nat.eqb_eq in Hm1. apply Nat.eqb_eq in Hs. subst. auto.
Qed.

(** ** The quadratic projection *)

Lemma bind_ret {A} (m : result A) : (m ≫= Ok) = m.
Proof. destruct m; reflexivity. Qed.

Lemma for_each_map {A B S} (g : A -> B) (h : B -> S -> result S)
    (xs : list A) (s : S) :
  for_each (map g xs) h s = for_each xs (fun x => h (g x)) s.
Proof.
  revert s. induction xs as [|x xs IH]; intros s; simpl; [reflexivity|].
  destruct (h (g x) s); simpl; [apply IH | reflexivity].
Qed.

Lemma frozenset_pair (j k : nat) :
  j < k -> frozenset [j; k] = [j; k] /\ frozenset [k; j] = [j; k].
Proof.
  intros H. unfold frozenset. simpl.
  replace (j <? k) with true by (symmetry; apply Nat.ltb_lt; lia).
  replace (k <? j) with false by (symmetry; apply Nat.ltb_ge; lia).
  replace (k =? j) with false by (symmetry; apply Nat.eqb_neq; lia).
  split; reflexivity.
Qed.

Lemma frozenset_swap (j k : nat) : frozenset [j; k] = frozenset [k; j].
Proof.
  destruct (Nat.lt_trichotomy j k) as [H|[->|H]]; [|reflexivity|].
  - destruct (frozenset_pair j k H) as [-> ->]. reflexivity.
  - destruct (frozenset_pair k j H) as [-> ->]. reflexivity.
Qed.

Lemma elem_of_range (i n : nat) : i ∈ range n <-> i < n.
Proof. unfold range. rewrite elem_of_seq. lia. Qed.

Lemma elem_of_product {A B} (x : A) (y : B) (xs : list A) (ys : list B) :
  (x, y) ∈ product xs ys <-> x ∈ xs /\ y ∈ ys.
Proof.
  unfold product. rewrite !list_elem_of_In. apply in_prod_iff.
Qed.

Section QuadraticProjection.

Variables (r : nat) (powers : list (list nat)).
Variables (info : lib_info) (pure : list (nat * nat)) (mixed : list (list nat * nat)).
Hypothesis Htables : lib_tables r powers info pure mixed.

Lemma pure_lookup (j : nat) :
  j < r ->
  exists c, dict_get j (pure_terms info) = Ok c /\ c < length powers
    /\ PQ_col info j j = c.
Proof.
  intros Hj. rewrite (lt_pure_terms _ _ _ _ _ Htables).
  destruct (lt_pure_defined _ _ _ _ _ Htables j Hj) as [c Hc].
  exists c. split; [apply dict_get_Ok; exact Hc|]. split.
  - destruct (lt_pure_value _ _ _ _ _ Htables j c Hc) as (e & He & _).
    eapply lookup_lt_Some. exact He.
  - unfold PQ_col. rewrite decide_True by reflexivity.
    rewrite (lt_pure_terms _ _ _ _ _ Htables), Hc. reflexivity.
Qed.

Lemma mixed_lookup (j k : nat) :
  j < r -> k < r -> j <> k ->
  exists c, dict_get (frozenset [j; k]) (mixed_terms info) = Ok c
    /\ c < length powers /\ PQ_col info j k = c.
Proof.
  intros Hj Hk Hjk. rewrite (lt_mixed_terms _ _ _ _ _ Htables).
  assert (exists a b, a < b < r /\ frozenset [j; k] = [a; b]) as (a & b & Hab & Hfs).
  { destruct (Nat.lt_trichotomy j k) as [H|[H|H]]; [|contradiction|].
    - exists j, k. split; [lia | apply frozenset_pair; exact H].
    - exists k, j. split; [lia | apply frozenset_pair; exact H]. }
  destruct (lt_mixed_defined _ _ _ _ _ Htables a b Hab) as [c Hc].
  exists c. rewrite Hfs. split; [apply dict_get_Ok; exact Hc|]. split.
  - destruct (lt_mixed_value _ _ _ _ _ Htables _ c Hc) as (e & He & _).
    eapply lookup_lt_Some. exact He.
  - unfold PQ_col. rewrite decide_False by exact Hjk.
    rewrite (lt_mixed_terms _ _ _ _ _ Htables), Hfs, Hc. reflexivity.
Qed.

Lemma PQ_col_bound (j k : nat) : j < r -> k < r -> PQ_col info j k < length powers.
Proof.
  intros Hj Hk. destruct (decide (j = k)) as [->|Hne].
  - destruct (pure_lookup k Hk) as (c & _ & Hc & ->). exact Hc.
  - destruct (mixed_lookup j k Hj Hk Hne) as (c & _ & Hc & ->). exact Hc.
Qed.

(** The body of the loop of [_build_PQ] is a run of writes. *)
Lemma build_PQ_body (j k : nat) (PQ : ndarray) :
  j < r -> k < r ->
  (PQ ← (if decide (j = k) then
           col ← dict_get j (pure_terms info);
           set_target_diagonal (range r) j k col 1 PQ
         else Ok PQ);
   if decide (j <> k) then
     col ← dict_get (frozenset [j; k]) (mixed_terms info);
     set_target_diagonal (range r) j k col (1 / 2) PQ
   else Ok PQ)
  = for_each (map (fun i => ([i; j; k; i; PQ_col info j k], PQ_weight j k))
                (range r))
      (fun w => setitem w.1 w.2) PQ.
Proof.
  intros Hj Hk. rewrite for_each_map. unfold PQ_weight. cbn -[frozenset].
  destruct (decide (j = k)) as [->|Hne].
  - destruct (pure_lookup k Hk) as (c & -> & _ & ->). cbn -[frozenset].
    unfold set_target_diagonal.
    destruct (for_each (range r) _ PQ); cbn -[frozenset]; [|reflexivity].
    rewrite decide_False by (intros H; apply H; reflexivity). reflexivity.
  - cbn -[frozenset]. rewrite decide_True by exact Hne.
    destruct (mixed_lookup j k Hj Hk Hne) as (c & -> & _ & ->). reflexivity.
Qed.

Lemma elem_of_PQ_writes (i j k l c : nat) :
  [i; j; k; l; c] ∈ map fst (PQ_writes info r)
  <-> i = l /\ i < r /\ j < r /\ k < r /\ c = PQ_col info j k.
Proof.
  unfold PQ_writes. rewrite list_elem_of_fmap. split.
  - intros ([idx v] & Heq & Hin). simpl in Heq. subst idx.
    apply list_elem_of_In, in_flat_map in Hin as ([j' k'] & Hjk & Hin).
    apply list_elem_of_In, elem_of_product in Hjk as [Hj' Hk'].
    apply list_elem_of_In, list_elem_of_fmap in Hin as (i' & Heq & Hi').
    simpl in Heq. inversion Heq. subst.
    apply elem_of_range in Hj', Hk', Hi'. auto.
  - intros (-> & Hi & Hj & Hk & ->).
    exists ([l; j; k; l; PQ_col info j k], PQ_weight j k).
    split; [reflexivity|].
    apply list_elem_of_In, in_flat_map. exists (j, k). split.
    + apply list_elem_of_In, elem_of_product.
      split; apply elem_of_range; assumption.
    + apply list_elem_of_In, list_elem_of_fmap. exists l.
      split; [reflexivity | apply elem_of_range; exact Hi].
Qed.

Lemma build_PQ_cells :
  exists PQ, _build_PQ (enumerate powers) = Ok PQ
    /\ shape PQ = [r; r; r; r; length powers]
    /\ forall i j k l c, data PQ [i; j; k; l; c]
         = if decide (i = l /\ i < r /\ j < r /\ k < r /\ c = PQ_col info j k)
           then PQ_weight j k else 0%R.
Proof.
  unfold _build_PQ. rewrite (lt_info _ _ _ _ _ Htables). simpl.
  rewrite (lt_targets _ _ _ _ _ Htables), (lt_features _ _ _ _ _ Htables).
  set (sh := [r; r; r; r; length powers]).
  set (spec := fun idx : list nat =>
                 match idx with
                 | [i; j; k; l; c] => PQ_weight j k
                 | _ => 0%R
                 end).
  destruct (writes_spec spec (PQ_writes info r) (zeros sh)) as (PQ & Hrun & Hsh & Hdata).
  { apply Forall_forall. intros [idx v] Hin. unfold PQ_writes in Hin.
    apply list_elem_of_In, in_flat_map in Hin as ([j k] & Hjk & Hin).
    apply list_elem_of_In, elem_of_product in Hjk as [Hj Hk].
    apply list_elem_of_In, list_elem_of_fmap in Hin as (i & Heq & Hi).
    apply elem_of_range in Hj, Hk, Hi. inversion Heq. subst. simpl.
    split; [|reflexivity].
    assert (Hc := PQ_col_bound j k Hj Hk).
    repeat (apply andb_true_intro; split); try (apply Nat.ltb_lt; assumption).
    reflexivity. }
  exists PQ. split; [|split].
  - rewrite <- Hrun. unfold PQ_writes. rewrite <- for_each_flat_map.
    apply for_each_ext. intros [j k] t Hjk.
    apply elem_of_product in Hjk as [Hj Hk]. apply elem_of_range in Hj, Hk.
    apply (build_PQ_body j k t Hj Hk).
  - exact Hsh.
  - intros i j k l c. rewrite Hdata. simpl.
    destruct (decide ([i; j; k; l; c] ∈ map fst (PQ_writes info r))) as [Hin|Hnin].
    + rewrite decide_True; [reflexivity | apply elem_of_PQ_writes; exact Hin].
    + rewrite decide_False; [reflexivity|].
      intros H. apply Hnin, elem_of_PQ_writes. exact H.
Qed.

End QuadraticProjection.

Lemma wf_libraryb_spec (r : nat) (powers : list (list nat)) :
  wf_libraryb r powers = true -> wf_library r powers.
Proof.
  unfold wf_libraryb. rewrite !andb_true_iff, !forallb_forall.
  intros [[Hall Hsq] Hprod]. split; [|split].
  - apply Forall_forall. intros e He. apply list_elem_of_In, Hall in He.
    apply andb_true_iff in He as [Hl Hs].
    apply Nat.eqb_eq in Hl. apply Nat.leb_le in Hs. auto.
  - intros j Hj. eapply bool_decide_eq_true_1, Hsq.
    apply in_seq. lia.
  - intros j k Hjk. assert (Hj : In j (range r)) by (apply in_seq; lia).
    specialize (Hprod j Hj). rewrite forallb_forall in Hprod.
    eapply bool_decide_eq_true_1, Hprod. apply in_seq. lia.
Qed.

(** ** Positions found by [argmax] and [argwhere] *)

Lemma argmax_from_range (pos best_pos best : nat) (xs : list nat) :
  argmax_from pos best_pos best xs = best_pos
  \/ pos <= argmax_from pos best_pos best xs < pos + length xs.
Proof.
  revert pos best_pos best. induction xs as [|x xs IH]; intros pos bp b; simpl.
  - left. reflexivity.
  - destruct (b <? x).
    + destruct (IH (S pos) pos x) as [->|H]; right; lia.
    + destruct (IH (S pos) bp b) as [->|H]; [left; reflexivity | right; lia].
Qed.

Lemma argmax_lt (e : list nat) : e <> [] -> argmax e < length e.
Proof.
  destruct e as [|x xs]; [contradiction|]. intros _. simpl.
  destruct (argmax_from_range 1 0 x xs) as [->|H]; lia.
Qed.

Lemma foldl_max_ge (m : nat) (l : list nat) :
  m <= foldl Nat.max m l /\ Forall (fun x => x <= foldl Nat.max m l) l.
Proof.
  revert m. induction l as [|x l IH]; intros m; simpl.
  - split; [lia | constructor].
  - destruct (IH (Nat.max m x)) as [H1 H2]. split; [lia|].
    constructor; [lia | exact H2].
Qed.

Lemma pymax_bound (e : list nat) (m : nat) :
  Py.max e = Ok m -> Forall (fun x => x <= m) e.
Proof.
  destruct e as [|x xs]; [discriminate|]. simpl. intros H.
  injection H as <-.
  destruct (foldl_max_ge x xs) as [Hx Hxs]. constructor; assumption.
Qed.

Lemma argwhere_none (p : nat) (e : list nat) :
  Py.sum e = 0 -> argwhere_from p 1 e = [].
Proof.
  revert p. induction e as [|x e IH]; intros p; simpl; [reflexivity|].
  intros H. destruct x; [|lia]. simpl. apply IH. simpl in H. exact H.
Qed.

Lemma argwhere_one (p : nat) (e : list nat) :
  Forall (fun x => x <= 1) e -> Py.sum e = 1 ->
  exists b, b < length e /\ argwhere_from p 1 e = [p + b].
Proof.
  revert p. induction e as [|x e IH]; intros p Hall; simpl; [discriminate|].
  inversion Hall as [|? ? Hx Hall']; subst. intros Hs.
  destruct x as [|[|x]]; [| |lia]; simpl.
  - destruct (IH (S p) Hall' Hs) as (b & Hb & ->).
    exists (S b). split; [lia | f_equal; lia].
  - exists 0. split; [lia|]. rewrite argwhere_none by lia. f_equal. lia.
Qed.

Lemma argwhere_two (p : nat) (e : list nat) :
  Forall (fun x => x <= 1) e -> Py.sum e = 2 ->
  exists a b, a < b < length e /\ argwhere_from p 1 e = [p + a; p + b].
Proof.
  revert p. induction e as [|x e IH]; intros p Hall; simpl; [discriminate|].
  inversion Hall as [|? ? Hx Hall']; subst. intros Hs.
  destruct x as [|[|x]]; [| |lia]; simpl.
  - destruct (IH (S p) Hall' Hs) as (a & b & Hab & ->).
    exists (S a), (S b). split; [lia|].
    replace (p + S a) with (S p + a) by lia.
    replace (p + S b) with (S p + b) by lia. reflexivity.
  - destruct (argwhere_one (S p) e Hall') as (b & Hb & ->); [lia|].
    exists 0, (S b). split; [lia|].
    replace (p + 0) with p by lia.
    replace (p + S b) with (S p + b) by lia. reflexivity.
Qed.

(** The key of a mixed term is the ascending pair of its two variables. *)
Lemma mixed_key_pair (e : list nat) :
  Py.max e = Ok 1 -> Py.sum e = 2 ->
  exists a b, a < b < length e /\ frozenset (argwhere 1 e) = [a; b].
Proof.
  intros Hmax Hsum.
  destruct (argwhere_two 0 e (pymax_bound e 1 Hmax) Hsum) as (a & b & Hab & Hw).
  exists a, b. split; [exact Hab|]. unfold argwhere. rewrite Hw. simpl.
  apply frozenset_pair. lia.
Qed.

(** ** Combinations *)

Lemma length_combinations {A} (xs : list A) (k : nat) :
  length (combinations xs k) = comb (length xs) k.
Proof.
  revert k. induction xs as [|x xs IH]; intros [|k]; simpl; try reflexivity.
  rewrite length_app, length_map, !IH. reflexivity.
Qed.

Lemma elem_of_combinations_seq (s n k : nat) (l : list nat) :
  l ∈ combinations (seq s n) k
  <-> length l = k /\ StronglySorted lt l /\ Forall (fun x => s <= x < s + n) l.
Proof.
  revert s k l. induction n as [|n IH]; intros s k l.
  - destruct k as [|k]; simpl.
    + rewrite list_elem_of_singleton. split.
      * intros ->. repeat split; constructor.
      * intros (Hl & _). destruct l; [reflexivity | discriminate].
    + split; [intros H; inversion H|].
      intros (Hl & _ & Hall). destruct l as [|x l]; [discriminate|].
      inversion Hall; subst. lia.
  - destruct k as [|k]; simpl.
    + rewrite list_elem_of_singleton. split.
      * intros ->. repeat split; constructor.
      * intros (Hl & _). destruct l; [reflexivity | discriminate].
    + rewrite elem_of_app, list_elem_of_fmap. split.
      * intros [(l' & -> & Hl')|Hl].
        -- apply IH in Hl' as (Hlen & Hs & Hall). split; [simpl; lia|]. split.
           ++ constructor; [exact Hs|]. eapply Forall_impl; [exact Hall|].
              simpl. intros; lia.
           ++ constructor; [lia|]. eapply Forall_impl; [exact Hall|].
              simpl. intros; lia.
        -- apply IH in Hl as (Hlen & Hs & Hall). split; [exact Hlen|].
           split; [exact Hs|]. eapply Forall_impl; [exact Hall|].
           simpl. intros; lia.
      * intros (Hlen & Hs & Hall). destruct l as [|x l]; [discriminate|].
        inversion Hs as [|? ? Hs' Hlt]; subst.
        inversion Hall as [|? ? Hx Hall']; subst.
        destruct (decide (x = s)) as [->|Hne].
        -- left. exists l. split; [reflexivity|]. apply IH.
           split; [simpl in Hlen; lia|]. split; [exact Hs'|].
           rewrite Forall_forall in *. intros y Hy.
           specialize (Hlt y Hy). specialize (Hall' y Hy). lia.
        -- right. apply IH. split; [exact Hlen|]. split; [exact Hs|].
           constructor; [lia|].
           rewrite Forall_forall in *. intros y Hy.
           specialize (Hlt y Hy). specialize (Hall' y Hy). lia.
Qed.

Lemma NoDup_combinations_seq (s n k : nat) : NoDup (combinations (seq s n) k).
Proof.
  revert s k. induction n as [|n IH]; intros s [|k]; simpl.
  - apply NoDup_singleton.
  - constructor.
  - apply NoDup_singleton.
  - apply NoDup_app. split; [|split].
    + apply NoDup_fmap_2; [|apply IH]. intros l1 l2 H. inversion H. reflexivity.
    + intros l Hl Hl'. apply list_elem_of_fmap in Hl as (l' & -> & _).
      apply elem_of_combinations_seq in Hl' as (_ & _ & Hall).
      inversion Hall; subst. lia.
    + apply IH.
Qed.

(** ** The constraint blocks *)

Lemma dict_find_elem {K V} `{EqDecision K} (k : K) (v : V) (d : dict K V) :
  NoDup (dict_keys d) -> (k, v) ∈ d -> dict_find k d = Some v.
Proof.
  unfold dict_keys. induction d as [|[k' v'] d IH]; simpl; intros Hnd Hin.
  - inversion Hin.
  - inversion Hnd as [|? ? Hnin Hnd']; subst.
    apply elem_of_cons in Hin as [Heq|Hin].
    + inversion Heq. subst. rewrite decide_True; reflexivity.
    + rewrite decide_False; [apply IH; assumption|].
      intros ->. apply Hnin. apply list_elem_of_fmap.
      exists (k', v). split; [reflexivity | exact Hin].
Qed.

Lemma dict_find_items {K V} `{EqDecision K} (k : K) (v : V) (d : dict K V) :
  dict_find k d = Some v -> (k, v) ∈ dict_items d.
Proof.
  unfold dict_items. induction d as [|[k' v'] d IH]; simpl; [discriminate|].
  destruct (decide (k = k')) as [->|Hne].
  - intros H. inversion H. left.
  - intros H. right. apply IH. exact H.
Qed.

Lemma enumerate_index {A} (i : nat) (x : A) (xs : list A) :
  (i, x) ∈ enumerate xs -> i < length xs /\ x ∈ xs.
Proof.
  intros H. apply elem_of_enumerate in H. split.
  - eapply lookup_lt_Some. exact H.
  - eapply list_elem_of_lookup_2. exact H.
Qed.

Lemma concat0_shape (a b : ndarray) (n m : nat) (sh : list nat) :
  shape a = n :: sh -> shape b = m :: sh ->
  exists c, concat0 a b = Ok c /\ shape c = (n + m) :: sh
    /\ forall i rest, data c (i :: rest)
         = if i <? n then data a (i :: rest) else data b ((i - n) :: rest).
Proof.
  intros Ha Hb. unfold concat0, len. rewrite Ha, Hb. simpl.
  rewrite decide_True by (repeat split; congruence).
  eexists. split; [reflexivity|]. split; reflexivity.
Qed.

Section ConstraintBlocks.

Variables (r : nat) (powers : list (list nat)).
Variables (info : lib_info) (pure : list (nat * nat)) (mixed : list (list nat * nat)).
Hypothesis Htables : lib_tables r powers info pure mixed.

Let Hpure_lookup := pure_lookup r powers info pure mixed Htables.
Let Hmixed_lookup := mixed_lookup r powers info pure mixed Htables.

Lemma pure_item (tgt term : nat) :
  (tgt, term) ∈ dict_items (dict_of pure) -> tgt < r /\ term < length powers.
Proof.
  intros Hin. apply dict_find_elem in Hin; [|apply dict_of_keys_NoDup].
  destruct (lt_pure_value _ _ _ _ _ Htables tgt term Hin) as (e & He & Hmax & <-).
  split; [|eapply lookup_lt_Some; exact He].
  assert (Hlen : length e = r).
  { pose proof (lt_lengths _ _ _ _ _ Htables) as Hl. rewrite Forall_forall in Hl.
    apply Hl. eapply list_elem_of_lookup_2. exact He. }
  rewrite <- Hlen. apply argmax_lt. intros ->. discriminate.
Qed.

Lemma mixed_item (key : list nat) (term : nat) :
  (key, term) ∈ dict_items (dict_of mixed) ->
  term < length powers /\ exists a b, a < b < r /\ key = [a; b].
Proof.
  intros Hin. apply dict_find_elem in Hin; [|apply dict_of_keys_NoDup].
  destruct (lt_mixed_value _ _ _ _ _ Htables key term Hin)
    as (e & He & Hmax & Hsum & ->).
  split; [eapply lookup_lt_Some; exact He|].
  assert (Hlen : length e = r).
  { pose proof (lt_lengths _ _ _ _ _ Htables) as Hl. rewrite Forall_forall in Hl.
    apply Hl. eapply list_elem_of_lookup_2. exact He. }
  destruct (mixed_key_pair e Hmax Hsum) as (a & b & Hab & Hkey).
  exists a, b. split; [lia | exact Hkey].
Qed.

(** There is one mixed term for every pair of variables. *)
Lemma mixed_count : dict_len (dict_of mixed) = comb r 2.
Proof.
  unfold dict_len. rewrite <- (length_map fst).
  change (map fst (dict_of mixed)) with (dict_keys (dict_of mixed)).
  transitivity (length (combinations (seq 0 r) 2));
    [|rewrite length_combinations, length_seq; reflexivity].
  apply Permutation_length, NoDup_Permutation.
  - apply dict_of_keys_NoDup.
  - apply NoDup_combinations_seq.
  - intros key. rewrite elem_of_combinations_seq. split.
    + intros Hk. apply dict_find_keys in Hk as [term Hterm].
      destruct (lt_mixed_value _ _ _ _ _ Htables key term Hterm)
        as (e & He & Hmax & Hsum & ->).
      assert (Hlen : length e = r).
      { pose proof (lt_lengths _ _ _ _ _ Htables) as Hl.
        rewrite Forall_forall in Hl.
        apply Hl. eapply list_elem_of_lookup_2. exact He. }
      destruct (mixed_key_pair e Hmax Hsum) as (a & b & Hab & ->).
      split; [reflexivity|]. split.
      * repeat constructor. lia.
      * repeat constructor; lia.
    + intros (Hlen & Hs & Hall).
      destruct key as [|a [|b [|c key]]]; try discriminate.
      inversion Hs as [|? ? _ Hab]; subst. inversion Hab; subst.
      inversion Hall as [|? ? Ha Hall']; subst.
      inversion Hall' as [|? ? Hb _]; subst.
      apply dict_find_keys.
      destruct (lt_mixed_defined _ _ _ _ _ Htables a b) as [c Hc]; [lia|].
      exists c. exact Hc.
Qed.

(** There is one pure term for every variable. *)
Lemma pure_count : dict_len (dict_of pure) = r.
Proof.
  unfold dict_len. rewrite <- (length_map fst).
  change (map fst (dict_of pure)) with (dict_keys (dict_of pure)).
  transitivity (length (seq 0 r)); [|apply length_seq].
  apply Permutation_length, NoDup_Permutation.
  - apply dict_of_keys_NoDup.
  - apply NoDup_seq.
  - intros j. rewrite elem_of_seq. split.
    + intros Hk. apply dict_find_keys in Hk as [c Hc].
      apply dict_find_items in Hc. apply pure_item in Hc. lia.
    + intros Hj. apply dict_find_keys.
      apply (lt_pure_defined _ _ _ _ _ Htables). lia.
Qed.

End ConstraintBlocks.

(** ** Finite sums *)

Section Sums.
Local Open Scope R_scope.

Lemma sum_range_ext (n : nat) (f g : nat -> R) :
  (forall i, (i < n)%nat -> f i = g i) -> sum_range n f = sum_range n g.
Proof.
  induction n as [|n IH]; intros H; simpl; [reflexivity|].
  rewrite IH, (H n); [reflexivity | lia | intros i Hi; apply H; lia].
Qed.

Lemma sum_range_zero (n : nat) : sum_range n (fun _ => 0) = 0.
Proof. induction n as [|n IH]; simpl; [reflexivity | rewrite IH; lra]. Qed.

Lemma sum_range_add (n : nat) (f g : nat -> R) :
  sum_range n (fun i => f i + g i) = sum_range n f + sum_range n g.
Proof. induction n as [|n IH]; simpl; [lra | rewrite IH; lra]. Qed.

Lemma sum_range_scale_l (n : nat) (c : R) (f : nat -> R) :
  sum_range n (fun i => c * f i) = c * sum_range n f.
Proof. induction n as [|n IH]; simpl; [lra | rewrite IH; lra]. Qed.

Lemma sum_range_scale_r (n : nat) (c : R) (f : nat -> R) :
  sum_range n (fun i => f i * c) = sum_range n f * c.
Proof. induction n as [|n IH]; simpl; [lra | rewrite IH; lra]. Qed.

Lemma sum_range_exchange (n m : nat) (f : nat -> nat -> R) :
  sum_range n (fun i => sum_range m (fun j => f i j))
  = sum_range m (fun j => sum_range n (fun i => f i j)).
Proof.
  induction n as [|n IH]; simpl.
  - rewrite sum_range_zero. reflexivity.
  - rewrite IH, <- sum_range_add. reflexivity.
Qed.

(** A sum against a unit vector selects one term. *)
Lemma sum_range_delta_l (n k : nat) (f : nat -> R) :
  (k < n)%nat -> sum_range n (fun i => delta k i * f i) = f k.
Proof.
  unfold delta. induction n as [|n IH]; intros Hk; simpl; [lia|].
  destruct (decide (k = n)) as [->|Hne].
  - rewrite (sum_range_ext n _ (fun _ => 0)).
    + rewrite sum_range_zero. lra.
    + intros i Hi. rewrite decide_False by lia. lra.
  - rewrite IH by lia. lra.
Qed.

Lemma sum_range_delta_r (n k : nat) (f : nat -> R) :
  (k < n)%nat -> sum_range n (fun i => f i * delta i k) = f k.
Proof.
  intros Hk. rewrite <- (sum_range_delta_l n k f Hk).
  apply sum_range_ext. intros i _. unfold delta.
  destruct (decide (i = k)) as [->|Hne].
  - rewrite decide_True by reflexivity. lra.
  - rewrite decide_False by congruence. lra.
Qed.

(** Among finitely many reals, either all vanish or one does not. *)
Lemma all_zero_or_not (n : nat) (u : nat -> R) :
  (forall i, (i < n)%nat -> u i = 0) \/ (exists i, (i < n)%nat /\ u i <> 0).
Proof.
  induction n as [|n [IH|(i & Hi & Hu)]].
  - left. intros i Hi. lia.
  - destruct (Req_dec (u n) 0) as [Hz|Hnz].
    + left. intros i Hi. destruct (decide (i = n)) as [->|Hne];
        [exact Hz | apply IH; lia].
    + right. exists n. split; [lia | exact Hnz].
  - right. exists i. split; [lia | exact Hu].
Qed.

(** ** Matrices similar to a diagonal matrix *)

Section Similar.

Variables (n : nat) (V W M : ndarray) (d : nat -> R).
Hypothesis Hinv : inverse_of n V W.
Hypothesis HM : forall i j, (i < n)%nat -> (j < n)%nat ->
  data M [i; j] = sum_range n (fun k => data V [i; k] * d k * data W [k; j]).

(** Every column of [V] is an eigenvector of [M = V diag(d) W]. *)
Lemma similar_column (k i : nat) :
  (k < n)%nat -> (i < n)%nat ->
  sum_range n (fun j => data M [i; j] * data V [j; k]) = d k * data V [i; k].
Proof.
  intros Hk Hi.
  rewrite (sum_range_ext n _
    (fun j => sum_range n
       (fun l => data V [i; l] * d l * (data W [l; j] * data V [j; k])))).
  2:{ intros j Hj. rewrite HM by assumption. rewrite <- sum_range_scale_r.
      apply sum_range_ext. intros l _. lra. }
  rewrite sum_range_exchange.
  rewrite (sum_range_ext n _ (fun l => (data V [i; l] * d l) * delta l k)).
  2:{ intros l Hl. rewrite sum_range_scale_l.
      destruct (Hinv l k Hl Hk) as [_ ->]. reflexivity. }
  rewrite sum_range_delta_r by exact Hk. lra.
Qed.

Lemma column_nonzero (k : nat) :
  (k < n)%nat -> exists i, (i < n)%nat /\ data V [i; k] <> 0.
Proof.
  intros Hk.
  destruct (all_zero_or_not n (fun i => data V [i; k])) as [Hz|H]; [|exact H].
  exfalso. destruct (Hinv k k Hk Hk) as [_ Hkk].
  rewrite (sum_range_ext n _ (fun _ => 0)) in Hkk.
  - rewrite sum_range_zero in Hkk. unfold delta in Hkk.
    rewrite decide_True in Hkk by reflexivity. lra.
  - intros i Hi. simpl in Hz. rewrite (Hz i Hi). lra.
Qed.

(** The eigenvalues of [V diag(d) W] are the entries of [d]. *)
Lemma similar_eigenvalues (lam : R) :
  is_eigenvalue n M lam <-> exists k, (k < n)%nat /\ lam = d k.
Proof.
  split.
  - intros (v & (i0 & Hi0 & Hv0) & Hev).
    set (u := fun l => sum_range n (fun j => data W [l; j] * v j)).
    assert (Hu : forall l, (l < n)%nat -> d l * u l = lam * u l).
    { intros l Hl.
      set (S := sum_range n
        (fun i => data W [l; i] * sum_range n (fun k => data M [i; k] * v k))).
      assert (H1 : S = lam * u l).
      { unfold S, u. rewrite <- sum_range_scale_l. apply sum_range_ext.
        intros i Hi. rewrite Hev by exact Hi. lra. }
      assert (H2 : S = d l * u l); [|congruence].
      unfold S.
      rewrite (sum_range_ext n _
        (fun i => sum_range n (fun m =>
           data W [l; i] * data V [i; m] * (d m * u m)))).
      2:{ intros i Hi. rewrite <- sum_range_scale_l.
          rewrite (sum_range_ext n _
            (fun k => sum_range n (fun m =>
               data W [l; i] * data V [i; m] * (d m * (data W [m; k] * v k))))).
          2:{ intros k Hk. rewrite HM by assumption.
              rewrite <- sum_range_scale_r, <- sum_range_scale_l.
              apply sum_range_ext. intros m _. lra. }
          rewrite sum_range_exchange.
          apply sum_range_ext. intros m _. unfold u.
          rewrite sum_range_scale_l.
          rewrite <- (sum_range_scale_l n (d m)). reflexivity. }
      rewrite sum_range_exchange.
      rewrite (sum_range_ext n _ (fun m => delta l m * (d m * u m))).
      2:{ intros m Hm. rewrite sum_range_scale_r.
          destruct (Hinv l m Hl Hm) as [_ ->]. reflexivity. }
      apply sum_range_delta_l. exact Hl. }
    destruct (all_zero_or_not n u) as [Hz|(l & Hl & Hul)].
    + exfalso. apply Hv0.
      rewrite <- (sum_range_delta_l n i0 v Hi0).
      rewrite (sum_range_ext n _
        (fun j => sum_range n (fun l => data V [i0; l] * (data W [l; j] * v j)))).
      2:{ intros j Hj. destruct (Hinv i0 j Hi0 Hj) as [<- _].
          rewrite <- sum_range_scale_r. apply sum_range_ext. intros l _. lra. }
      rewrite sum_range_exchange.
      rewrite (sum_range_ext n _ (fun _ => 0)); [apply sum_range_zero|].
      intros l Hl. rewrite sum_range_scale_l. fold (u l). rewrite (Hz l Hl). lra.
    + exists l. split; [exact Hl|]. specialize (Hu l Hl).
      apply (Rmult_eq_reg_r (u l)); [lra | exact Hul].
  - intros (k & Hk & ->). exists (fun j => data V [j; k]).
    split; [apply column_nonzero; exact Hk|].
    intros i Hi. apply similar_column; assumption.
Qed.

End Similar.

End Sums.

(** ** Clipping the eigenvalues *)

Section UpdateAFacts.
Local Open Scope R_scope.

Variable gamma : R.
Variable w : list R.

Lemma clipped_min (k : nat) : clipped gamma w k = Rmin (nth k w 0) gamma.
Proof.
  unfold clipped, Rmin. destruct (decide (nth k w 0 > gamma)) as [H|H];
    destruct (Rle_dec (nth k w 0) gamma); lra.
Qed.

Lemma clip_loop (r s n : nat) (A : ndarray) :
  length w = r -> shape A = [r; r] -> (s + n <= r)%nat ->
  exists A',
    for_each (seq s n)
      (fun i A =>
         ev ← getitem_list w i;
         if decide (ev > gamma) then setitem [i; i] gamma A else Ok A) A
    = Ok A'
    /\ shape A' = [r; r]
    /\ forall i j, data A' [i; j]
         = if decide (i = j /\ (s <= i < s + n)%nat /\ nth i w 0 > gamma)
           then gamma else data A [i; j].
Proof.
  intros Hw. revert s A. induction n as [|n IH]; intros s A HA Hsn; simpl.
  - exists A. split; [reflexivity|]. split; [exact HA|].
    intros i j. rewrite decide_False; [reflexivity | intros (_ & H & _); lia].
  - assert (Hs : (s < length w)%nat) by lia.
    destruct (lookup_lt_is_Some_2 w s Hs) as [ev Hev].
    unfold getitem_list at 1. rewrite Hev. cbn [mbind result_bind Py.bind].
    assert (Hnth : nth s w 0 = ev) by (apply nth_lookup_Some with (d := 0); exact Hev).
    destruct (decide (ev > gamma)) as [Hgt|Hle].
    + destruct (setitem_in_bounds [s; s] gamma A) as (A1 & Hset & Hsh1).
      { rewrite HA. simpl. rewrite !andb_true_iff, !Nat.ltb_lt. lia. }
      rewrite Hset. cbn [mbind result_bind Py.bind].
      destruct (IH (S s) A1) as (A' & Hrun & Hsh & Hdata); [congruence | lia |].
      exists A'. split; [exact Hrun|]. split; [exact Hsh|].
      intros i j. rewrite Hdata.
      apply setitem_Ok in Hset as (_ & _ & Hd1). rewrite Hd1.
      destruct (decide (i = j /\ (S s <= i < S s + n)%nat /\ nth i w 0 > gamma))
        as [H|H].
      * rewrite decide_True; [reflexivity|].
        destruct H as (H1 & H2 & H3). split; [exact H1|]. split; [lia | exact H3].
      * destruct (decide ([i; j] = [s; s])) as [Heq|Hne].
        -- inversion Heq. subst. rewrite decide_True; [reflexivity|].
           split; [reflexivity|]. split; [lia | lra].
        -- rewrite decide_False; [reflexivity|].
           intros (-> & Hr & Hg). destruct (decide (j = s)) as [->|Hjs].
           ++ apply Hne. reflexivity.
           ++ apply H. split; [reflexivity|]. split; [lia | exact Hg].
    + destruct (IH (S s) A) as (A' & Hrun & Hsh & Hdata); [exact HA | lia |].
      exists A'. split; [exact Hrun|]. split; [exact Hsh|].
      intros i j. rewrite Hdata.
      destruct (decide (i = j /\ (S s <= i < S s + n)%nat /\ nth i w 0 > gamma))
        as [H|H].
      * rewrite decide_True; [reflexivity|].
        destruct H as (H1 & H2 & H3). split; [exact H1|]. split; [lia | exact H3].
      * rewrite decide_False; [reflexivity|].
        intros (-> & Hr & Hg). destruct (decide (j = s)) as [->|Hjs].
        -- rewrite Hnth in Hg. contradiction.
        -- apply H. split; [reflexivity|]. split; [lia | exact Hg].
Qed.

Variables (eigh : ndarray -> list R * ndarray) (inv : ndarray -> ndarray).

(** [_update_A] returns [V diag(clipped) inv(V)] for the eigenvector matrix
    [V] of [PW]. *)
Lemma update_A_cells (r : nat) (A_old PW U V : ndarray) (w' : list R) :
  shape A_old = [r; r] -> length w = r ->
  eigh A_old = (w, U) -> eigh PW = (w', V) ->
  shape V = [r; r] -> shape (inv V) = [r; r] ->
  exists A', _update_A eigh inv gamma A_old PW = Ok A'
    /\ shape A' = [r; r]
    /\ forall i j, (i < r)%nat -> (j < r)%nat ->
         data A' [i; j]
         = sum_range r (fun k => data V [i; k] * clipped gamma w k * data (inv V) [k; j]).
Proof.
  intros HA Hw HeA HeP HV HW. unfold _update_A. rewrite HeA, HeP.
  unfold dim. rewrite HA. cbn [nth].
  destruct (clip_loop r 0 r (diag w) Hw) as (Ac & Hrun & Hsh & Hdata).
  { unfold diag. simpl. rewrite Hw. reflexivity. }
  { lia. }
  unfold range. rewrite Hrun. cbn [mbind result_bind Py.bind].
  unfold matmul at 2. unfold dim. rewrite HV, Hsh. cbn [nth length].
  rewrite decide_True by auto. cbn [mbind result_bind Py.bind].
  unfold matmul, dim. cbn [shape nth length]. rewrite HW. cbn [nth length].
  rewrite decide_True by auto.
  eexists. split; [reflexivity|]. split; [reflexivity|].
  intros i j Hi Hj. cbn [data]. apply sum_range_ext. intros k Hk.
  f_equal.
  rewrite (sum_range_ext r _ (fun l => (data V [i; l] * clipped gamma w l) * delta l k)).
  - apply sum_range_delta_r. exact Hk.
  - intros l Hl. rewrite Hdata. unfold clipped, delta, diag. cbn [data].
    destruct (decide (l = k)) as [->|Hne].
    + destruct (decide (nth k w 0 > gamma)) as [Hg|Hg].
      * rewrite decide_True; [lra|]. split; [reflexivity|]. split; [lia | exact Hg].
      * rewrite decide_False by tauto. lra.
    + rewrite decide_False by tauto. lra.
Qed.

End UpdateAFacts.

(** C3. When [np.linalg.eigh] returns an eigendecomposition [(w, U)] of the
    symmetric [A_old] and the eigenvector matrix [V] of [PW], and
    [np.linalg.inv] returns the inverse of [V], then for any threshold
    [gamma] (negative or not) [_update_A] returns [V diag(c) inv(V)] where
    [c] is [w] clipped from above to [gamma]: the eigenvalues of the result
    are exactly the eigenvalues of [A_old] clipped to [gamma], so all of them
    are at most [gamma], and the columns of [V], the eigenvectors of [PW]
    and not those of [A_old], are the eigenvectors of the result. *)
Theorem update_A_eigenvalues (eigh : ndarray -> list R * ndarray)
    (inv : ndarray -> ndarray) (gamma : R) (r : nat)
    (A_old PW U V : ndarray) (w w' : list R) :
  shape A_old = [r; r] ->
  eigh A_old = (w, U) -> eigh_decomposition r A_old w U ->
  eigh PW = (w', V) -> shape V = [r; r] ->
  shape (inv V) = [r; r] -> inverse_of r V (inv V) ->
  exists A',
    _update_A eigh inv gamma A_old PW = Ok A'
    /\ shape A' = [r; r]
    /\ (forall i j, i < r -> j < r ->
          data A' [i; j]
          = sum_range r (fun k =>
              (data V [i; k] * Rmin (nth k w 0) gamma * data (inv V) [k; j])%R))
    /\ (forall lam, is_eigenvalue r A' lam
          <-> exists mu, is_eigenvalue r A_old mu /\ lam = Rmin mu gamma)
    /\ (forall lam, is_eigenvalue r A' lam -> (lam <= gamma)%R)
    /\ (forall k i, k < r -> i < r ->
          sum_range r (fun j => (data A' [i; j] * data V [j; k])%R)
          = (Rmin (nth k w 0) gamma * data V [i; k])%R).
Proof.
  intros HA HeA (Hw & HU & HUinv & HAold) HeP HV HW Hinv.
  destruct (update_A_cells gamma w eigh inv r A_old PW U V w' HA Hw HeA HeP HV HW)
    as (A' & Hrun & Hsh & Hcells).
  assert (Hold : forall mu, is_eigenvalue r A_old mu
                   <-> exists k, k < r /\ mu = nth k w 0%R).
  { apply (similar_eigenvalues r U (T U) A_old (fun k => nth k w 0%R) HUinv).
    intros i j Hi Hj. rewrite (HAold i j Hi Hj). reflexivity. }
  assert (Hnew : forall lam, is_eigenvalue r A' lam
                   <-> exists k, k < r /\ lam = clipped gamma w k).
  { apply (similar_eigenvalues r V (inv V) A' (clipped gamma w) Hinv).
    exact Hcells. }
  exists A'. split; [exact Hrun|]. split; [exact Hsh|]. split; [|split; [|split]].
  - intros i j Hi Hj. rewrite (Hcells i j Hi Hj). apply sum_range_ext.
    intros k _. rewrite clipped_min. reflexivity.
  - intros lam. rewrite Hnew. split.
    + intros (k & Hk & ->). exists (nth k w 0%R). split.
      * apply Hold. exists k. auto.
      * apply clipped_min.
    + intros (mu & Hmu & ->). apply Hold in Hmu as (k & Hk & ->).
      exists k. split; [exact Hk|]. symmetry. apply clipped_min.
  - intros lam Hlam. apply Hnew in Hlam as (k & Hk & ->).
    rewrite clipped_min. apply Rmin_r.
  - intros k i Hk Hi. rewrite <- clipped_min.
    apply (similar_column r V (inv V) A' (clipped gamma w) Hinv Hcells k i Hk Hi).
Qed.

Lemma inverse_of_eye2 : inverse_of 2 eye2 (T eye2).
Proof.
  intros i j Hi Hj.
  destruct i as [|[|i]]; [| |lia]; destruct j as [|[|j]]; try lia;
    simpl; unfold delta; simpl; split; lra.
Qed.

Lemma eigh_diag2_decomposition (a b : R) :
  eigh_decomposition 2 (diag [a; b]) (eigh_diag2 (diag [a; b])).1 eye2.
Proof.
  split; [reflexivity|]. split; [reflexivity|]. split; [exact inverse_of_eye2|].
  intros i j Hi Hj.
  destruct i as [|[|i]]; [| |lia]; destruct j as [|[|j]]; try lia;
    simpl; unfold delta; simpl; lra.
Qed.

Lemma update_A_eigenvalues_witness :
  shape (diag [1; -3]%R) = [2; 2]
  /\ eigh_decomposition 2 (diag [1; -3]%R) (eigh_diag2 (diag [1; -3]%R)).1 eye2
  /\ inverse_of 2 eye2 (inv_eye eye2)
  /\ exists A',
       _update_A eigh_diag2 inv_eye (-1 / 10) (diag [1; -3]%R) (diag [2; -1]%R)
       = Ok A'
       /\ shape A' = [2; 2]
       /\ (forall i j, i < 2 -> j < 2 ->
             data A' [i; j]
             = sum_range 2 (fun k =>
                 (data eye2 [i; k]
                  * Rmin (nth k (eigh_diag2 (diag [1; -3]%R)).1 0) (-1 / 10)
                  * data (inv_eye eye2) [k; j])%R))
       /\ (forall lam, is_eigenvalue 2 A' lam
             <-> exists mu, is_eigenvalue 2 (diag [1; -3]%R) mu
                   /\ lam = Rmin mu (-1 / 10))
       /\ (forall lam, is_eigenvalue 2 A' lam -> (lam <= -1 / 10)%R)
       /\ (forall k i, k < 2 -> i < 2 ->
             sum_range 2 (fun j => (data A' [i; j] * data eye2 [j; k])%R)
             = (Rmin (nth k (eigh_diag2 (diag [1; -3]%R)).1 0) (-1 / 10)
                * data eye2 [i; k])%R).
Proof.
  assert (Hinv : inverse_of 2 eye2 (inv_eye eye2)).
  { intros i j Hi Hj.
    destruct i as [|[|i]]; [| |lia]; destruct j as [|[|j]]; try lia;
      simpl; unfold delta; simpl; split; lra. }
  split; [reflexivity|].
  split; [apply eigh_diag2_decomposition|].
  split; [exact Hinv|].
  apply (update_A_eigenvalues eigh_diag2 inv_eye (-1 / 10) 2
           (diag [1; -3]%R) (diag [2; -1]%R) eye2 eye2
           (eigh_diag2 (diag [1; -3]%R)).1 (eigh_diag2 (diag [2; -1]%R)).1).
  - reflexivity.
  - reflexivity.
  - apply eigh_diag2_decomposition.
  - reflexivity.
  - reflexivity.
  - reflexivity.
  - exact Hinv.
Defined.

(** ** The configuration guard *)

Lemma thresholder_test (s : string) :
  existsb (String.eqb (lower s)) ["l1"; "l2"; "weighted_l1"; "weighted_l2"]%string
  = true <-> Config.known_thresholder s.
Proof.
  unfold Config.known_thresholder. simpl.
  rewrite orb_false_r, !orb_true_iff, !String.eqb_eq. tauto.
Qed.

(** The defaults leave alone what the later tests read. *)
Lemma fill_steps_fields (c : Config.params) :
  let s := Config.fill_steps c in
  Config.eta s = Some (Config.effective_eta c)
  /\ Config.alpha_m s = Some (Config.effective_alpha_m c)
  /\ Config.alpha_A s = Some (Config.effective_alpha_A c)
  /\ Config.gamma s = Config.gamma c /\ Config.tol s = Config.tol c
  /\ Config.tol_m s = Config.tol_m c
  /\ Config.eps_solver s = Config.eps_solver c
  /\ Config.threshold s = Config.threshold c
  /\ Config.inequality_constraints s = Config.inequality_constraints c
  /\ Config._n_tgts s = Config._n_tgts c
  /\ Config.A0 s = Config.A0 c /\ Config.m0 s = Config.m0 c.
Proof.
  unfold Config.fill_steps, Config.effective_eta, Config.effective_alpha_m,
    Config.effective_alpha_A.
  destruct (Config.eta c), (Config.alpha_m c), (Config.alpha_A c); simpl;
    repeat split; reflexivity.
Qed.

Lemma fill_alpha_beta_fields (c : Config.params) :
  let s := Config.fill_beta (Config.fill_alpha c) in
  Config.alpha_m s = Config.alpha_m c /\ Config.alpha_A s = Config.alpha_A c
  /\ Config.gamma s = Config.gamma c /\ Config.tol s = Config.tol c
  /\ Config.tol_m s = Config.tol_m c
  /\ Config.eps_solver s = Config.eps_solver c
  /\ Config.threshold s = Config.threshold c
  /\ Config.inequality_constraints s = Config.inequality_constraints c
  /\ Config._n_tgts s = Config._n_tgts c
  /\ Config.A0 s = Config.A0 c /\ Config.m0 s = Config.m0 c.
Proof.
  unfold Config.fill_beta, Config.fill_alpha.
  destruct (Config.alpha c), (Config.beta c); simpl; repeat split; reflexivity.
Qed.

(** The tests of the guard, on the values they read. *)
Lemma guard_tests (e am aA g tl tlm eps thr : R) (ineq : bool) (s : Config.params) :
  raises
    (if decide (e <= 0)%R then Raise (ValueError "eta must be positive") else
     if bool_decide (am < 0)%R || bool_decide (am > e)%R
     then Raise (ValueError "0 <= alpha_m <= eta") else
     if bool_decide (aA < 0)%R || bool_decide (aA > e)%R
     then Raise (ValueError "0 <= alpha_A <= eta") else
     if decide (g >= 0)%R
     then Raise (ValueError "gamma must be negative") else
     if bool_decide (tl <= 0)%R || bool_decide (tlm <= 0)%R
        || bool_decide (eps <= 0)%R
     then Raise (ValueError "tol and tol_m must be positive") else
     if ineq && bool_decide (thr = 0)%R
     then Raise (ValueError "Inequality constraints requires threshold!=0") else
     Ok s)
  <-> ((e <= 0)%R \/ (am < 0)%R \/ (am > e)%R \/ (aA < 0)%R \/ (aA > e)%R
       \/ (g >= 0)%R \/ (tl <= 0)%R \/ (tlm <= 0)%R \/ (eps <= 0)%R
       \/ (ineq = true /\ thr = 0%R)).
Proof.
  destruct (decide (e <= 0)%R); [simpl; tauto|].
  destruct (bool_decide_reflect (am < 0)%R); [simpl; tauto|].
  destruct (bool_decide_reflect (am > e)%R); [simpl; tauto|].
  destruct (bool_decide_reflect (aA < 0)%R); [simpl; tauto|].
  destruct (bool_decide_reflect (aA > e)%R); [simpl; tauto|].
  destruct (decide (g >= 0)%R); [simpl; tauto|].
  destruct (bool_decide_reflect (tl <= 0)%R); [simpl; tauto|].
  destruct (bool_decide_reflect (tlm <= 0)%R); [simpl; tauto|].
  destruct (bool_decide_reflect (eps <= 0)%R); [simpl; tauto|].
  destruct ineq; simpl.
  - destruct (bool_decide_reflect (thr = 0)%R); simpl; [tauto|].
    split; [intros [] | intros H; decompose [or and] H; contradiction].
  - split; [intros [] | intros H; decompose [or and] H;
                        contradiction || discriminate].
Qed.

Lemma guard_raises_iff (random_rand : nat -> nat -> list R) (c : Config.params) :
  raises (Config.__post_init_guard random_rand c) <-> Config.invalid c.
Proof.
  unfold Config.__post_init_guard, Config.invalid.
  destruct (existsb _ _) eqn:Hth; simpl.
  - apply thresholder_test in Hth.
    destruct (fill_steps_fields c)
      as (He & Ham & HaA & Hg & Htl & Htlm & Heps & Hthr & Hineq & _).
    destruct (fill_alpha_beta_fields (Config.fill_steps c))
      as (Ham' & HaA' & Hg' & Htl' & Htlm' & Heps' & Hthr' & Hineq' & _).
    cbv zeta in *.
    rewrite He. simpl.
    rewrite Ham', HaA', Hg', Htl', Htlm', Heps', Hthr', Hineq'.
    rewrite Ham, HaA, Hg, Htl, Htlm, Heps, Hthr, Hineq.
    destruct (decide (Config.effective_eta c <= 0)%R) as [Hle|Hgt];
      [simpl; tauto|].
    simpl.
    pose proof (guard_tests (Config.effective_eta c) (Config.effective_alpha_m c)
                  (Config.effective_alpha_A c) (Config.gamma c) (Config.tol c)
                  (Config.tol_m c) (Config.eps_solver c) (Config.threshold c)
                  (Config.inequality_constraints c)
                  (Config.fill_m0 random_rand
                     (Config.fill_A0
                        (Config.fill_beta (Config.fill_alpha (Config.fill_steps c))))))
      as Ht.
    rewrite decide_False in Ht by exact Hgt.
    rewrite Ht. split.
    + intros H. right. exact H.
    + intros [Hn|H]; [contradiction | exact H].
  - split; [intros _|intros _; exact I]. left. intros H.
    apply thresholder_test in H. congruence.
Qed.

(** C7, as amended.  The check that runs at the end of construction and after
    [set_params] raises exactly when one of the listed conditions holds for
    the values in effect once the defaults are filled in: without [eta],
    [eta = 1e20], [alpha_m = 1e18] and [alpha_A = 1e20] replace whatever was
    configured; with [eta], an absent [alpha_m] is [eta / 100] and an absent
    [alpha_A] is [eta].  [set_params] raises when the base class rejects the
    arguments or when the check raises on the updated attributes. *)
Theorem config_errors (random_rand : nat -> nat -> list R)
    (super_set_params : Config.params -> result Config.params)
    (c : Config.params) :
  (raises (Config.__post_init_guard random_rand c) <-> Config.invalid c)
  /\ (raises (Config.set_params random_rand super_set_params c)
      <-> raises (super_set_params c)
          \/ exists c', super_set_params c = Ok c' /\ Config.invalid c').
Proof.
  split; [apply guard_raises_iff|].
  unfold Config.set_params. destruct (super_set_params c) as [c'|e]; simpl.
  - rewrite guard_raises_iff. split.
    + intros H. right. exists c'. auto.
    + intros [[]|(c'' & Heq & H)]. inversion Heq. subst. exact H.
  - split; [intros _; left; exact I | intros _; exact I].
Qed.

(** C7, as stated, fails: a negative [alpha_m] configured without [eta] is
    outside [0, eta] for every [eta], yet the check replaces it and accepts
    the configuration. *)
Lemma config_errors_counterexample :
  ~ (raises (Config.__post_init_guard (fun _ n => repeat 0.5%R n)
               Config.negative_step_no_eta)
     <-> Config.invalid_as_configured Config.negative_step_no_eta).
Proof.
  intros [_ H].
  assert (Hbad : Config.invalid_as_configured Config.negative_step_no_eta).
  { right. right. left. exists (-1)%R. split; [reflexivity | left; lra]. }
  apply H, guard_raises_iff in Hbad.
  unfold Config.invalid, Config.effective_eta, Config.effective_alpha_m,
    Config.effective_alpha_A, Config.known_thresholder in Hbad.
  simpl in Hbad.
  decompose [or and] Hbad; try lra; try discriminate.
  match goal with Hn : ~ _ |- _ => apply Hn; left; reflexivity end.
Qed.

(** ** The default trap center *)

Lemma guard_tests_Ok (e am aA g tl tlm eps thr : R) (ineq : bool)
    (s c' : Config.params) :
  (if decide (e <= 0)%R then Raise (ValueError "eta must be positive") else
   if bool_decide (am < 0)%R || bool_decide (am > e)%R
   then Raise (ValueError "0 <= alpha_m <= eta") else
   if bool_decide (aA < 0)%R || bool_decide (aA > e)%R
   then Raise (ValueError "0 <= alpha_A <= eta") else
   if decide (g >= 0)%R
   then Raise (ValueError "gamma must be negative") else
   if bool_decide (tl <= 0)%R || bool_decide (tlm <= 0)%R
      || bool_decide (eps <= 0)%R
   then Raise (ValueError "tol and tol_m must be positive") else
   if ineq && bool_decide (thr = 0)%R
   then Raise (ValueError "Inequality constraints requires threshold!=0") else
   Ok s) = Ok c' -> c' = s.
Proof.
  destruct (decide (e <= 0)%R); [discriminate|].
  destruct (bool_decide_reflect (am < 0)%R); [discriminate|].
  destruct (bool_decide_reflect (am > e)%R); [discriminate|].
  destruct (bool_decide_reflect (aA < 0)%R); [discriminate|].
  destruct (bool_decide_reflect (aA > e)%R); [discriminate|].
  destruct (decide (g >= 0)%R); [discriminate|].
  destruct (bool_decide_reflect (tl <= 0)%R); [discriminate|].
  destruct (bool_decide_reflect (tlm <= 0)%R); [discriminate|].
  destruct (bool_decide_reflect (eps <= 0)%R); [discriminate|].
  destruct ineq; simpl.
  - destruct (bool_decide_reflect (thr = 0)%R); simpl; [discriminate|].
    intros H. inversion H. reflexivity.
  - intros H. inversion H. reflexivity.
Qed.

(** What the guard returns when it returns. *)
Lemma guard_Ok (random_rand : nat -> nat -> list R) (c c' : Config.params) :
  Config.__post_init_guard random_rand c = Ok c' ->
  c' = Config.fill_m0 random_rand
         (Config.fill_A0
            (Config.fill_beta (Config.fill_alpha (Config.fill_steps c)))).
Proof.
  unfold Config.__post_init_guard.
  destruct (existsb _ _); simpl; [|discriminate].
  destruct (fill_steps_fields c) as (He & _).
  cbv zeta in *. rewrite He. simpl.
  destruct (decide (Config.effective_eta c <= 0)%R) as [Hle|Hgt]; [discriminate|].
  destruct (Config.alpha_m _) as [am|]; [|discriminate]. simpl.
  destruct (bool_decide (am < 0)%R || bool_decide (am > _)%R); [discriminate|].
  destruct (Config.alpha_A _) as [aA|]; [|discriminate]. simpl.
  destruct (bool_decide (aA < 0)%R || bool_decide (aA > _)%R); [discriminate|].
  destruct (decide (_ >= 0)%R); [discriminate|].
  destruct (_ || _ || _); [discriminate|].
  destruct (_ && _); [discriminate|].
  intros H. inversion H. reflexivity.
Qed.

Lemma guard_accepts (random_rand : nat -> nat -> list R) (c : Config.params) :
  ~ Config.invalid c ->
  Config.__post_init_guard random_rand c
  = Ok (Config.fill_m0 random_rand
          (Config.fill_A0
             (Config.fill_beta (Config.fill_alpha (Config.fill_steps c))))).
Proof.
  intros Hvalid.
  destruct (Config.__post_init_guard random_rand c) as [c'|e] eqn:Hg.
  - apply guard_Ok in Hg. congruence.
  - exfalso. apply Hvalid, (guard_raises_iff random_rand). rewrite Hg. exact I.
Qed.

Lemma default_m0_of_guard (random_rand : nat -> nat -> list R)
    (c c' : Config.params) :
  Config.__post_init_guard random_rand c = Ok c' -> Config.m0 c = None ->
  Config.m0 c'
  = Some (Config.default_m0 (random_rand 1 (Config._n_tgts c)) (Config._n_tgts c)).
Proof.
  intros Hg Hm0. apply guard_Ok in Hg. subst c'.
  destruct (fill_steps_fields c) as (_ & _ & _ & _ & _ & _ & _ & _ & _ & Hn & _ & Hm).
  destruct (fill_alpha_beta_fields (Config.fill_steps c))
    as (_ & _ & _ & _ & _ & _ & _ & _ & Hn' & _ & Hm').
  cbv zeta in *.
  set (s := Config.fill_beta (Config.fill_alpha (Config.fill_steps c))) in *.
  assert (Hs : Config.m0 s = None) by congruence.
  assert (Hns : Config._n_tgts s = Config._n_tgts c) by congruence.
  unfold Config.fill_m0, Config.fill_A0.
  destruct (Config.A0 s); simpl; rewrite Hs; simpl; rewrite Hns; reflexivity.
Qed.

(** C10. When no [m0] is configured, the guard stores the vector whose
    element [i] is [(u_i - 1) * 2], where [u] are the [n_targets] samples
    that the generator draws first after it has been seeded with the fixed
    seed 1.  The vector depends on [n_targets] only, so two constructions
    with the same [n_targets] store the same vector, and since the samples
    lie in [0, 1) every element lies in [-2, 0). *)
Theorem default_m0_deterministic (random_rand : nat -> nat -> list R)
    (c c' : Config.params) :
  (forall s n, length (random_rand s n) = n
               /\ Forall (fun u => 0 <= u < 1)%R (random_rand s n)) ->
  Config.__post_init_guard random_rand c = Ok c' -> Config.m0 c = None ->
  exists m,
    Config.m0 c' = Some m
    /\ shape m = [Config._n_tgts c]
    /\ (forall i, i < Config._n_tgts c ->
          data m [i]
          = Rmult (Rminus (nth i (random_rand 1 (Config._n_tgts c)) 0%R) 1) 2)
    /\ (forall i, i < Config._n_tgts c -> (-2 <= data m [i] < 0)%R)
    /\ (forall d d', Config.__post_init_guard random_rand d = Ok d' ->
          Config.m0 d = None -> Config._n_tgts d = Config._n_tgts c ->
          Config.m0 d' = Some m).
Proof.
  intros Hrand Hg Hm0.
  exists (Config.default_m0 (random_rand 1 (Config._n_tgts c)) (Config._n_tgts c)).
  split; [apply default_m0_of_guard; assumption|]. split; [reflexivity|].
  split; [intros i _; reflexivity|]. split.
  - intros i Hi. simpl.
    destruct (Hrand 1 (Config._n_tgts c)) as [Hlen Hall].
    rewrite Forall_forall in Hall.
    assert (Hin : nth i (random_rand 1 (Config._n_tgts c)) 0%R
                  ∈ random_rand 1 (Config._n_tgts c)).
    { apply list_elem_of_In, nth_In. rewrite Hlen. exact Hi. }
    specialize (Hall _ Hin). lra.
  - intros d d' Hd Hd0 Hn. rewrite <- Hn. apply default_m0_of_guard; assumption.
Qed.

Lemma negative_step_no_eta_valid : ~ Config.invalid Config.negative_step_no_eta.
Proof.
  unfold Config.invalid, Config.effective_eta, Config.effective_alpha_m,
    Config.effective_alpha_A, Config.known_thresholder. simpl.
  intros H. decompose [or and] H; try lra; try discriminate.
  match goal with Hn : ~ _ |- _ => apply Hn; left; reflexivity end.
Qed.

Lemma seeded_samples_range (s n : nat) :
  length (seeded_samples s n) = n
  /\ Forall (fun u => 0 <= u < 1)%R (seeded_samples s n).
Proof.
  unfold seeded_samples. split; [rewrite length_map, length_seq; reflexivity|].
  apply Forall_forall. intros u Hu.
  apply list_elem_of_fmap in Hu as (i & -> & _).
  assert (Hx : (1 < INR (s + i + 2))%R).
  { rewrite plus_INR. pose proof (pos_INR (s + i)). simpl. lra. }
  split.
  - left. apply Rinv_0_lt_compat. lra.
  - rewrite <- Rinv_1. apply Rinv_lt_contravar; lra.
Qed.

Lemma default_m0_deterministic_witness :
  exists m,
    Config.m0
      (Config.fill_m0 seeded_samples
         (Config.fill_A0
            (Config.fill_beta
               (Config.fill_alpha (Config.fill_steps Config.negative_step_no_eta)))))
    = Some m
    /\ shape m = [3]
    /\ (forall i, i < 3 ->
          data m [i] = Rmult (Rminus (nth i (seeded_samples 1 3) 0%R) 1) 2)
    /\ (forall i, i < 3 -> (-2 <= data m [i] < 0)%R)
    /\ (forall d d',
          Config.__post_init_guard seeded_samples d = Ok d' ->
          Config.m0 d = None -> Config._n_tgts d = 3 ->
          Config.m0 d' = Some m).
Proof.
  apply (default_m0_deterministic seeded_samples Config.negative_step_no_eta).
  - apply seeded_samples_range.
  - apply guard_accepts. exact negative_step_no_eta_valid.
  - reflexivity.
Defined.

(** ** The recorded objective *)

(** What [_objective] returns: in local mode the nonlinear-energy penalty
    enters twice and the cubic-symmetry penalty not at all. *)
Lemma objective_value (mod_matrix PQ : ndarray) (threshold eta alpha beta : R)
    (method : string) (x y w A PW : ndarray) :
  _objective mod_matrix PQ threshold eta alpha beta method x y w A PW
  = (fit ← data_fit_loss x y w;
     Ok (if String.eqb method "local"
         then (fit + relaxation_loss eta A PW + sparsity_penalty threshold w
               + (nonlinear_energy_penalty mod_matrix PQ alpha w
                  + nonlinear_energy_penalty mod_matrix PQ alpha w))%R
         else (fit + relaxation_loss eta A PW + sparsity_penalty threshold w)%R)).
Proof.
  unfold _objective, data_fit_loss, relaxation_loss, sparsity_penalty,
    nonlinear_energy_penalty.
  destruct (matmul x w) as [xw|e]; [|reflexivity]. simpl.
  destruct (String.eqb method "local"); reflexivity.
Qed.

Lemma objective_global (mod_matrix PQ : ndarray) (threshold eta alpha beta : R)
    (x y w A PW : ndarray) :
  _objective mod_matrix PQ threshold eta alpha beta "global" x y w A PW
  = objective_as_specified mod_matrix PQ threshold eta alpha beta "global"
      x y w A PW.
Proof. rewrite objective_value. reflexivity. Qed.

(** C8 fails on the code in local mode.  For two variables, the library
    [x0, x1, x0^2, x0 x1, x1^2], the single coefficient 1 of [x0 x1] in the
    first equation, no samples' error, [A = PW], and
    [threshold = 0], [eta = alpha = beta = 1], the sum the specification
    states is [0.25 + 1.5 = 1.75], while [_objective] returns
    [0.25 + 0.25 = 0.5]. *)
Theorem objective_local_divergence :
  exists PQ,
    _build_PQ (enumerate (poly_powers false 2)) = Ok PQ
    /\ nonlinear_energy_penalty eye2 PQ 1 coef_x0x1 = 0.25%R
    /\ cubic_symmetry_penalty eye2 PQ 1 coef_x0x1 = 1.5%R
    /\ objective_as_specified eye2 PQ 0 1 1 1 "local"
         (zeros [1; 5]) (zeros [1; 2]) coef_x0x1 (zeros [2; 2]) (zeros [2; 2])
       = Ok 1.75%R
    /\ _objective eye2 PQ 0 1 1 1 "local"
         (zeros [1; 5]) (zeros [1; 2]) coef_x0x1 (zeros [2; 2]) (zeros [2; 2])
       = Ok 0.5%R.
Proof.
  destruct (_build_PQ (enumerate (poly_powers false 2))) as [PQ|e] eqn:H;
    cbv -[IZR Rplus Rmult Rinv Rdiv Rminus Ropp] in H; [|discriminate].
  inversion H. subst. clear H. eexists. split; [reflexivity|].
  split; [|split; [|split]];
    cbv -[IZR Rplus Rmult Rinv Rdiv Rminus Ropp Rabs]; try f_equal; lra.
Qed.

(** ** The convergence criteria *)

Lemma neg_index_last {A} (xs : list A) (x : A) : neg_index (xs ++ [x]) 1 = Ok x.
Proof.
  unfold neg_index.
  assert (Hc : (1 <=? 1) && (1 <=? length (xs ++ [x])) = true).
  { rewrite length_app. apply andb_true_intro.
    split; apply Nat.leb_le; simpl; lia. }
  rewrite Hc.
  replace (length (xs ++ [x]) - 1) with (length xs)
    by (rewrite length_app; simpl; lia).
  rewrite list_lookup_middle by reflexivity. reflexivity.
Qed.

Lemma neg_index_last_but_one {A} (xs : list A) (a b : A) :
  neg_index (xs ++ [a; b]) 2 = Ok a.
Proof.
  unfold neg_index.
  assert (Hc : (1 <=? 2) && (2 <=? length (xs ++ [a; b])) = true).
  { rewrite length_app. apply andb_true_intro.
    split; apply Nat.leb_le; simpl; lia. }
  rewrite Hc.
  replace (length (xs ++ [a; b]) - 2) with (length xs)
    by (rewrite length_app; simpl; lia).
  rewrite list_lookup_middle by reflexivity. reflexivity.
Qed.

Lemma m_criterion_value (h : list ndarray) (a b : ndarray) :
  _m_convergence_criterion (h ++ [a; b]) = Ok (center_change a b).
Proof.
  unfold _m_convergence_criterion. rewrite neg_index_last_but_one.
  change (h ++ [a; b]) with (h ++ [a] ++ [b]). rewrite app_assoc.
  rewrite neg_index_last. reflexivity.
Qed.

Lemma criterion_value (h : list ndarray) (b : ndarray) :
  _convergence_criterion (h ++ [b]) = Ok (coef_change h b).
Proof.
  unfold _convergence_criterion, coef_change. rewrite neg_index_last.
  cbn [mbind result_bind Py.bind].
  destruct (last h) as [a|] eqn:Hl.
  2:{ apply last_None in Hl. subst h. reflexivity. }
  apply last_Some in Hl as [h' ->].
  - replace (1 <? length ((h' ++ [a]) ++ [b])) with true
      by (symmetry; apply Nat.ltb_lt; rewrite !length_app; simpl; lia).
    rewrite <- app_assoc.
    change ([a] ++ [b]) with [a; b]. rewrite neg_index_last_but_one.
    cbn [mbind result_bind Py.bind]. reflexivity.
Qed.

(** ** One iteration of the driver *)

Lemma for_break_cons (k : nat) (ks : list nat)
    (body : nat -> fit -> result control) (st : fit) :
  for_break (k :: ks) body st
  = (c ← body k st;
     match c with
     | Continue st' => for_break ks body st'
     | Break why st' => Ok (st', why)
     end).
Proof. reflexivity. Qed.


Section DriverFacts.

Variables (eta alpha beta tol tol_m threshold : R).
Variable inequality_constraints : bool.
Variable method : string.
Variables (mod_matrix rt_mod_mat rt_inv_mod_mat : ndarray).
Variable sorted_eigvals : ndarray -> ndarray.
Variable sparse : ndarray -> ndarray -> ndarray -> option ndarray.
Variable nonsparse : ndarray -> ndarray -> ndarray.
Variable solve_m :
  ndarray -> ndarray -> ndarray -> result (option ndarray * ndarray).
Variables (tensors : Ptensors) (x y trap_prev_ctr : ndarray).

Let step :=
  iteration eta alpha beta tol tol_m threshold inequality_constraints method
    mod_matrix rt_mod_mat rt_inv_mod_mat sorted_eigvals sparse nonsparse
    solve_m tensors x y trap_prev_ctr.

Let P (st : fit) : ndarray := P_at rt_mod_mat rt_inv_mod_mat tensors (trap_ctr st).

(** The coefficient update that the loop chooses. *)
Let new_coef (st : fit) : option ndarray :=
  if bool_decide (threshold > 0)%R || inequality_constraints
  then sparse (P st) (A st) (coef_sparse st)
  else Some (nonsparse (P st) (A st)).

Let objective (w A' PW : ndarray) : result R :=
  _objective mod_matrix (PQ_ tensors) threshold eta alpha beta method
    x y w A' PW.

(** The state after an iteration in which the convex solver found
    nothing: the coefficients are the previous ones again, and the solver
    has warned. *)
Let infeasible (st : fit) : fit :=
  set_locals (coef_sparse st) (trap_ctr st) (A st)
    (solver_warn [infeasible_solve] (append_p (P st) st)).

(** The state after a completed iteration. *)
Let recorded (st : fit) (w m A' : ndarray) (obj : R) : fit :=
  append_objective obj
    (append_iterate sorted_eigvals (tensordot_P_w (P st) w)
       (set_locals w m A' (append_p (P st) st))).

Lemma step_unfold (k : nat) (st : fit) :
  step k st
  = match new_coef st with
    | None =>
        Ok (Break (InfeasibleCoef k) (infeasible st))
    | Some w =>
        '(trap_new, A') ← solve_m (trap_ctr st) (A st) w;
        match trap_new with
        | None =>
            Ok (Break (InfeasibleCenter k)
                  (set_locals w trap_prev_ctr A' (append_p (P st) st)))
        | Some m =>
            obj ← objective w A' (tensordot_P_w (P st) w);
            let st' := recorded st w m A' obj in
            err_m ← _m_convergence_criterion (m_history_ st');
            converged ←
              (if decide (err_m < tol_m)%R then
                 err_coef ← _convergence_criterion (history_ st');
                 Ok (bool_decide (err_coef < tol)%R)
               else Ok false);
            Ok (if converged : bool then Break (Converged k) st'
                else Continue st')
        end
    end.
Proof.
  unfold step, iteration, new_coef, infeasible, _update_coef_sparse_rs,
    _update_coef_cvxpy.
  destruct (bool_decide (threshold > 0)%R || inequality_constraints);
    [|reflexivity].
  cbn [coef_sparse A trap_ctr append_p]. fold (P st).
  destruct (sparse (P st) (A st) (coef_sparse st)); reflexivity.
Qed.

Lemma step_infeasible_coef (k : nat) (st : fit) :
  new_coef st = None ->
  step k st = Ok (Break (InfeasibleCoef k) (infeasible st)).
Proof. intros H. rewrite step_unfold, H. reflexivity. Qed.

Lemma step_infeasible_center (k : nat) (st : fit) (w A' : ndarray) :
  new_coef st = Some w ->
  solve_m (trap_ctr st) (A st) w = Ok (None, A') ->
  step k st
  = Ok (Break (InfeasibleCenter k)
          (set_locals w trap_prev_ctr A' (append_p (P st) st))).
Proof. intros Hw Hm. rewrite step_unfold, Hw, Hm. reflexivity. Qed.

Lemma step_completed (k : nat) (st : fit) (w m A' a : ndarray) (obj : R) :
  new_coef st = Some w ->
  solve_m (trap_ctr st) (A st) w = Ok (Some m, A') ->
  objective w A' (tensordot_P_w (P st) w) = Ok obj ->
  last (m_history_ st) = Some a ->
  step k st
  = Ok (if bool_decide (center_change a m < tol_m
                        /\ coef_change (history_ st) (T w) < tol)%R
        then Break (Converged k) (recorded st w m A' obj)
        else Continue (recorded st w m A' obj)).
Proof.
  intros Hw Hm Hobj Hlast. rewrite step_unfold, Hw, Hm.
  cbn [mbind result_bind Py.bind].
  rewrite Hobj. cbn [mbind result_bind Py.bind]. cbv zeta.
  apply last_Some in Hlast as [h Hh].
  assert (Hmh : m_history_ (recorded st w m A' obj) = m_history_ st ++ [m])
    by reflexivity.
  assert (Hch : history_ (recorded st w m A' obj) = history_ st ++ [T w])
    by reflexivity.
  rewrite Hmh, Hch.
  rewrite Hh, <- app_assoc. change ([a] ++ [m]) with [a; m].
  rewrite m_criterion_value. cbn [mbind result_bind Py.bind].
  destruct (decide (center_change a m < tol_m)%R) as [Hem|Hem].
  - rewrite criterion_value. cbn [mbind result_bind Py.bind].
    destruct (bool_decide_reflect (coef_change (history_ st) (T w) < tol)%R)
      as [Hc|Hc].
    + rewrite bool_decide_eq_true_2 by auto. reflexivity.
    + rewrite bool_decide_eq_false_2 by tauto. reflexivity.
  - cbn [mbind result_bind Py.bind].
    rewrite bool_decide_eq_false_2 by tauto. reflexivity.
Qed.

(** Every way in which the body of the loop can end. *)
Lemma step_inv (k : nat) (st : fit) (c : control) (a : ndarray) :
  last (m_history_ st) = Some a -> step k st = Ok c ->
  (new_coef st = None /\ c = Break (InfeasibleCoef k) (infeasible st))
  \/ (exists w A',
        new_coef st = Some w
        /\ solve_m (trap_ctr st) (A st) w = Ok (None, A')
        /\ c = Break (InfeasibleCenter k)
                 (set_locals w trap_prev_ctr A' (append_p (P st) st)))
  \/ (exists w m A' obj,
        new_coef st = Some w
        /\ solve_m (trap_ctr st) (A st) w = Ok (Some m, A')
        /\ objective w A' (tensordot_P_w (P st) w) = Ok obj
        /\ ((center_change a m < tol_m /\ coef_change (history_ st) (T w) < tol)%R
            /\ c = Break (Converged k) (recorded st w m A' obj)
            \/ ~ (center_change a m < tol_m
                  /\ coef_change (history_ st) (T w) < tol)%R
               /\ c = Continue (recorded st w m A' obj))).
Proof.
  intros Hlast Hstep.
  destruct (new_coef st) as [w|] eqn:Hw.
  2:{ left. rewrite step_infeasible_coef in Hstep by exact Hw.
      inversion Hstep. auto. }
  right.
  destruct (solve_m (trap_ctr st) (A st) w) as [[[m|] A']|e] eqn:Hm.
  - right.
    destruct (objective w A' (tensordot_P_w (P st) w)) as [obj|e] eqn:Hobj.
    + rewrite (step_completed k st w m A' a obj Hw Hm Hobj Hlast) in Hstep.
      exists w, m, A', obj. repeat (split; [reflexivity || assumption|]).
      destruct (bool_decide_reflect
                  (center_change a m < tol_m
                   /\ coef_change (history_ st) (T w) < tol)%R) as [Hc|Hc];
        inversion Hstep; [left | right]; auto.
    + exfalso. rewrite step_unfold, Hw, Hm in Hstep.
      cbn [mbind result_bind Py.bind] in Hstep.
      rewrite Hobj in Hstep. discriminate.
  - left. rewrite (step_infeasible_center k st w A' Hw Hm) in Hstep.
    inversion Hstep. exists w, A'. auto.
  - exfalso. rewrite step_unfold, Hw, Hm in Hstep. discriminate.
Qed.

(** The body of the loop only appends to the buffers. *)
Lemma step_appends (k : nat) (st : fit) (c : control) :
  step k st = Ok c ->
  history_ st `prefix_of` history_ (state_of c)
  /\ m_history_ st `prefix_of` m_history_ (state_of c)
  /\ A_history_ st `prefix_of` A_history_ (state_of c)
  /\ PW_history_ st `prefix_of` PW_history_ (state_of c)
  /\ PWeigs_history_ st `prefix_of` PWeigs_history_ (state_of c)
  /\ p_history_ st `prefix_of` p_history_ (state_of c)
  /\ objective_history st `prefix_of` objective_history (state_of c).
Proof.
  rewrite step_unfold. intros H.
  assert (Hrec : forall w m A' obj,
             let st' := recorded st w m A' obj in
             history_ st `prefix_of` history_ st'
             /\ m_history_ st `prefix_of` m_history_ st'
             /\ A_history_ st `prefix_of` A_history_ st'
             /\ PW_history_ st `prefix_of` PW_history_ st'
             /\ PWeigs_history_ st `prefix_of` PWeigs_history_ st'
             /\ p_history_ st `prefix_of` p_history_ st'
             /\ objective_history st `prefix_of` objective_history st').
  { intros w m A' obj. simpl. repeat split; apply prefix_app_r; reflexivity. }
  destruct (new_coef st) as [w|].
  2:{ inversion H. subst c. simpl.
      repeat split; try reflexivity. apply prefix_app_r. reflexivity. }
  destruct (solve_m (trap_ctr st) (A st) w) as [[[m|] A']|e]; [| |discriminate].
  2:{ inversion H. subst c. simpl.
      repeat split; try reflexivity. apply prefix_app_r. reflexivity. }
  cbn [mbind result_bind Py.bind] in H.
  destruct (objective w A' (tensordot_P_w (P st) w)) as [obj|e]; [|discriminate].
  cbn [mbind result_bind Py.bind] in H. cbv zeta in H.
  destruct (_m_convergence_criterion _) as [err_m|e]; [|discriminate].
  cbn [mbind result_bind Py.bind] in H.
  destruct (decide (err_m < tol_m)%R).
  - destruct (_convergence_criterion _) as [err_coef|e]; [|discriminate].
    cbn [mbind result_bind Py.bind] in H.
    destruct (bool_decide (err_coef < tol)%R); inversion H; subst c;
      apply Hrec.
  - cbn [mbind result_bind Py.bind] in H. inversion H. subst c. apply Hrec.
Qed.


(** ** The loop of the driver *)

Lemma recorded_at_loop_head (coef0 : ndarray) (k : nat) (st : fit)
    (w m A' : ndarray) (obj : R) :
  at_loop_head coef0 k st -> at_loop_head coef0 (S k) (recorded st w m A' obj).
Proof.
  intros [[H1 H2 H3 H4 H5 H6 H7] Hm HA Hc Hw]. split; [split|..]; simpl.
  - rewrite length_app, H1. simpl. lia.
  - rewrite length_app, H2. simpl. lia.
  - rewrite length_app, H3. simpl. lia.
  - rewrite length_app, H4. simpl. lia.
  - rewrite length_app, H5. simpl. lia.
  - rewrite length_app, H6. simpl. lia.
  - rewrite length_app, H7. simpl. lia.
  - apply last_snoc.
  - apply last_snoc.
  - rewrite last_snoc. reflexivity.
  - exact Hw.
Qed.

Lemma recorded_both_below (st : fit) (w m A' a : ndarray) (obj : R) :
  last (m_history_ st) = Some a ->
  both_below tol tol_m (recorded st w m A' obj)
  <-> (center_change a m < tol_m /\ coef_change (history_ st) (T w) < tol)%R.
Proof.
  intros Hlast. apply last_Some in Hlast as [h Hh]. split.
  - intros (hm & a' & b & hc & c & Hmh & Hch & Hlm & Hlc).
    change (m_history_ (recorded st w m A' obj)) with (m_history_ st ++ [m]) in Hmh.
    change (history_ (recorded st w m A' obj)) with (history_ st ++ [T w]) in Hch.
    rewrite Hh in Hmh.
    change (hm ++ [a'; b]) with (hm ++ [a'] ++ [b]) in Hmh.
    rewrite app_assoc in Hmh.
    apply app_inj_tail in Hmh as [Hmh <-].
    apply app_inj_tail in Hmh as [_ <-].
    apply app_inj_tail in Hch as [<- <-]. auto.
  - intros [Hlm Hlc]. exists h, a, m, (history_ st), (T w).
    change (m_history_ (recorded st w m A' obj)) with (m_history_ st ++ [m]).
    change (history_ (recorded st w m A' obj)) with (history_ st ++ [T w]).
    rewrite Hh, <- app_assoc. auto.
Qed.

Lemma loop_after (coef0 : ndarray) (first n : nat) :
  forall (k : nat) (st st' : fit) (why : loop_exit),
    first <= k -> at_loop_head coef0 k st ->
    (first < k -> ~ both_below tol tol_m st) ->
    for_break (seq k n) step st = Ok (st', why) ->
    after_loop tol tol_m coef0 trap_prev_ctr first (k + n) why st'.
Proof.
  induction n as [|n IH]; intros k st st' why Hfirst Hhead Hnot Hrun.
  - simpl in Hrun. inversion Hrun. subst. rewrite Nat.add_0_r.
    destruct Hhead as [Hb Hm HA Hc Hw].
    split; simpl; auto.
  - simpl in Hrun.
    destruct (step k st) as [c|e] eqn:Hstep; [|discriminate].
    cbn [mbind result_bind Py.bind] in Hrun.
    destruct (step_inv k st c (trap_ctr st) (head_m _ _ _ Hhead) Hstep)
      as [[Hw ->]|[(w & A' & Hw & Hm & ->)|(w & m & A' & obj & Hw & Hm & Hobj & Hc)]].
    + inversion Hrun. subst.
      destruct Hhead as [[H1 H2 H3 H4 H5 H6 H7] Hhm HA Hhc Hhw].
      split; simpl; auto; [split; simpl; auto|lia].
      rewrite length_app, H7. simpl. lia.
    + inversion Hrun. subst.
      destruct Hhead as [[H1 H2 H3 H4 H5 H6 H7] Hhm HA Hhc Hhw].
      split; simpl; auto; [split; simpl; auto|lia].
      rewrite length_app, H7. simpl. lia.
    + pose proof (recorded_at_loop_head coef0 k st w m A' obj Hhead) as Hnext.
      pose proof (recorded_both_below st w m A' (trap_ctr st) obj
                    (head_m _ _ _ Hhead)) as Hboth.
      destruct Hc as [[Hlt ->]|[Hnlt ->]].
      * inversion Hrun. subst.
        destruct Hnext as [Hb Hhm HA Hhc Hhw].
        split; simpl; auto; [lia | apply Hboth; exact Hlt].
      * replace (k + S n) with (S k + n) by lia.
        apply (IH (S k) (recorded st w m A' obj)); [lia | exact Hnext | | exact Hrun].
        intros _ H. apply Hnlt, Hboth. exact H.
Qed.


(** The loop is left on an infeasible trap center only if the certificate
    update returned [None] for it. *)
Lemma loop_infeasible_center (ks : list nat) :
  forall (st st' : fit) (k : nat),
    for_break ks step st = Ok (st', InfeasibleCenter k) ->
    exists m A w A', solve_m m A w = Ok (None, A').
Proof.
  induction ks as [|j ks IH]; intros st st' k Hrun; [discriminate|].
  rewrite for_break_cons, step_unfold in Hrun.
  destruct (new_coef st) as [w|]; [|discriminate].
  destruct (solve_m (trap_ctr st) (A st) w) as [[[m|] A']|e] eqn:Hm;
    [| |discriminate].
  2:{ exists (trap_ctr st), (A st), w, A'. exact Hm. }
  cbn [mbind result_bind Py.bind] in Hrun.
  destruct (objective w A' (tensordot_P_w (P st) w)) as [obj|e]; [|discriminate].
  cbn [mbind result_bind Py.bind] in Hrun. cbv zeta in Hrun.
  destruct (_m_convergence_criterion _) as [err_m|e]; [|discriminate].
  cbn [mbind result_bind Py.bind] in Hrun.
  destruct (decide (err_m < tol_m)%R).
  - destruct (_convergence_criterion _) as [err_coef|e]; [|discriminate].
    cbn [mbind result_bind Py.bind] in Hrun.
    destruct (bool_decide (err_coef < tol)%R); [discriminate|].
    exact (IH _ _ _ Hrun).
  - cbn [mbind result_bind Py.bind] in Hrun. exact (IH _ _ _ Hrun).
Qed.

End DriverFacts.

(** ** Runs of [_reduce] *)

Section ReduceFacts.

Variables (eta alpha beta tol tol_m threshold : R).
Variable inequality_constraints : bool.
Variable max_iter : nat.
Variable method : string.
Variables (mod_matrix rt_mod_mat rt_inv_mod_mat A0 m0 : ndarray).
Variable sorted_eigvals : ndarray -> ndarray.
Variable sparse : ndarray -> ndarray -> ndarray -> option ndarray.
Variable nonsparse : ndarray -> ndarray -> ndarray.
Variable solve_m :
  ndarray -> ndarray -> ndarray -> result (option ndarray * ndarray).
Variable lib_powers : list (list nat).

Let step (tensors : Ptensors) (x y : ndarray) :=
  iteration eta alpha beta tol tol_m threshold inequality_constraints method
    mod_matrix rt_mod_mat rt_inv_mod_mat sorted_eigvals sparse nonsparse
    solve_m tensors x y m0.

Let run :=
  _reduce eta alpha beta tol tol_m threshold inequality_constraints max_iter
    method mod_matrix rt_mod_mat rt_inv_mod_mat A0 m0 sorted_eigvals sparse
    nonsparse solve_m lib_powers.

Lemma initial_at_loop_head (coef_ : ndarray) :
  at_loop_head coef_ 0 (initial_fit A0 m0 coef_).
Proof. split; [split|..]; reflexivity. Qed.

(** A run that returns went through the loop from its initial state, and
    warns exactly when the loop was not left by a [break]. *)
Lemma reduce_run (coef_ x y : ndarray) (st : fit) (why : loop_exit)
    (coef : ndarray) :
  run coef_ x y = Ok (st, why, coef) ->
  exists tensors st0,
    _set_Ptensors lib_powers = Ok tensors
    /\ for_break (range max_iter) (step tensors x y) (initial_fit A0 m0 coef_)
       = Ok (st0, why)
    /\ after_loop tol tol_m coef_ m0 0 max_iter why st0
    /\ coef = T (coef_sparse st0)
    /\ st = match why with
            | Exhausted =>
                warn (ConvergenceWarning
                        "TrappingSR3 did not converge after max_iter iters.") st0
            | _ => st0
            end.
Proof.
  unfold run, _reduce. intros Hrun.
  destruct (_set_Ptensors lib_powers) as [tensors|e]; [|discriminate].
  cbn [mbind result_bind Py.bind] in Hrun.
  fold (step tensors x y) in Hrun.
  destruct (for_break (range max_iter) (step tensors x y)
              (initial_fit A0 m0 coef_)) as [[st0 why0]|e] eqn:Hloop;
    [|discriminate].
  cbn [mbind result_bind Py.bind] in Hrun.
  assert (Hafter : after_loop tol tol_m coef_ m0 0 max_iter why0 st0).
  { apply (loop_after eta alpha beta tol tol_m threshold inequality_constraints
             method mod_matrix rt_mod_mat rt_inv_mod_mat sorted_eigvals sparse
             nonsparse solve_m tensors x y m0 coef_ 0 max_iter 0
             (initial_fit A0 m0 coef_) st0 why0);
      [lia | apply initial_at_loop_head | lia | exact Hloop]. }
  exists tensors, st0.
  destruct why0; inversion Hrun; subst; auto.
Qed.

End ReduceFacts.

(** ** The driver: what the specification states *)

Section DriverClaims.

Variables (eta alpha beta tol tol_m threshold : R).
Variable inequality_constraints : bool.
Variable max_iter : nat.
Variable method : string.
Variables (mod_matrix rt_mod_mat rt_inv_mod_mat A0 m0 : ndarray).
Variable sorted_eigvals : ndarray -> ndarray.
Variable sparse : ndarray -> ndarray -> ndarray -> option ndarray.
Variable nonsparse : ndarray -> ndarray -> ndarray.
Variable solve_m :
  ndarray -> ndarray -> ndarray -> result (option ndarray * ndarray).
Variable lib_powers : list (list nat).

Let step (tensors : Ptensors) (x y : ndarray) :=
  iteration eta alpha beta tol tol_m threshold inequality_constraints method
    mod_matrix rt_mod_mat rt_inv_mod_mat sorted_eigvals sparse nonsparse
    solve_m tensors x y m0.

Let run :=
  _reduce eta alpha beta tol tol_m threshold inequality_constraints max_iter
    method mod_matrix rt_mod_mat rt_inv_mod_mat A0 m0 sorted_eigvals sparse
    nonsparse solve_m lib_powers.

Let P (tensors : Ptensors) (st : fit) : ndarray :=
  P_at rt_mod_mat rt_inv_mod_mat tensors (trap_ctr st).

Let new_coef (tensors : Ptensors) (st : fit) : option ndarray :=
  if bool_decide (threshold > 0)%R || inequality_constraints
  then sparse (P tensors st) (A st) (coef_sparse st)
  else Some (nonsparse (P tensors st) (A st)).

Let objective (tensors : Ptensors) (x y w A' PW : ndarray) : result R :=
  _objective mod_matrix (PQ_ tensors) threshold eta alpha beta method
    x y w A' PW.

Let recorded (tensors : Ptensors) (st : fit) (w m A' : ndarray) (obj : R) : fit :=
  append_objective obj
    (append_iterate sorted_eigvals (tensordot_P_w (P tensors st) w)
       (set_locals w m A' (append_p (P tensors st) st))).

Let not_converged : warning :=
  ConvergenceWarning "TrappingSR3 did not converge after max_iter iters.".

(** C9, as amended.  During a fit every buffer is only appended to.  The
    coefficient, [PW] and [PW]-eigenvalue histories (and the objective
    history) receive one entry per completed iteration; the trap-center and
    [A] histories hold the initial value and then one entry per completed
    iteration, so they are one longer; the P-matrix history receives one
    entry per iteration begun, so it is one longer than the number of
    completed iterations when the loop stops on infeasibility. *)
Theorem history_buffers (coef_ x y : ndarray) (st : fit) (why : loop_exit)
    (coef : ndarray) :
  run coef_ x y = Ok (st, why, coef) ->
  buffers (completed max_iter why) (started max_iter why) st
  /\ forall tensors k s c,
       step tensors x y k s = Ok c ->
       history_ s `prefix_of` history_ (state_of c)
       /\ m_history_ s `prefix_of` m_history_ (state_of c)
       /\ A_history_ s `prefix_of` A_history_ (state_of c)
       /\ PW_history_ s `prefix_of` PW_history_ (state_of c)
       /\ PWeigs_history_ s `prefix_of` PWeigs_history_ (state_of c)
       /\ p_history_ s `prefix_of` p_history_ (state_of c)
       /\ objective_history s `prefix_of` objective_history (state_of c).
Proof.
  intros Hrun. split.
  - destruct (reduce_run eta alpha beta tol tol_m threshold
              inequality_constraints max_iter method mod_matrix rt_mod_mat
              rt_inv_mod_mat A0 m0 sorted_eigvals sparse nonsparse solve_m
              lib_powers coef_ x y st why coef Hrun)
      as (tensors & st0 & _ & _ & Hafter & _ & ->).
    destruct Hafter as [[H1 H2 H3 H4 H5 H6 H7] _ _ _ _ _].
    destruct why; split; assumption.
  - intros tensors k s c. apply step_appends.
Qed.

(** C6.  When the loop runs through all [max_iter] iterations, none of them
    leaving it, [_reduce] issues the [ConvergenceWarning] (and only then),
    every iteration is recorded, and the stored result is the last computed
    coefficient matrix (the initial guess if [max_iter] is zero).  With
    [max_iter = 1], a run whose single iteration recorded coefficients of
    norm at least [tol] ends this way: the warning is issued and those
    coefficients are the result. *)
Theorem max_iter_warning (coef_ x y : ndarray) (st : fit) (why : loop_exit)
    (coef : ndarray) :
  run coef_ x y = Ok (st, why, coef) ->
  (why = Exhausted <-> warned st = [not_converged])
  /\ (why <> Exhausted -> warned st = [])
  /\ coef = T (coef_sparse st)
  /\ (why = Exhausted ->
      buffers max_iter max_iter st
      /\ coef = default (T (T coef_)) (last (history_ st))
      /\ (0 < max_iter -> ~ both_below tol tol_m st))
  /\ (max_iter = 1 ->
      forall c, history_ st = [c] -> (tol <= coef_change [] c)%R ->
      why = Exhausted /\ warned st = [not_converged] /\ coef = c).
Proof.
  intros Hrun.
  destruct (reduce_run eta alpha beta tol tol_m threshold
              inequality_constraints max_iter method mod_matrix rt_mod_mat
              rt_inv_mod_mat A0 m0 sorted_eigvals sparse nonsparse solve_m
              lib_powers coef_ x y st why coef Hrun)
    as (tensors & st0 & _ & _ & Hafter & -> & Hst).
  destruct Hafter as [Hb Hw Hi Hc Hm Hconv].
  assert (Hwarned : why = Exhausted <-> warned st = [not_converged]).
  { destruct why; subst st; simpl; rewrite Hw; simpl;
      (split; [reflexivity || discriminate | reflexivity || discriminate]). }
  assert (Hcoef : T (coef_sparse st0) = T (coef_sparse st))
    by (destruct why; subst st; reflexivity).
  assert (Hhist : history_ st = history_ st0)
    by (destruct why; subst st; reflexivity).
  split; [exact Hwarned|].
  split; [intros Hne; destruct why; subst st; try exact Hw; contradiction|].
  split; [exact Hcoef|].
  split.
  - intros ->. subst st. simpl in *. split; [|split].
    + destruct Hb. split; assumption.
    + exact Hc.
    + exact Hconv.
  - intros Hone c Hc1 Htol. rewrite Hhist in Hc1.
    assert (Hex : why = Exhausted).
    { destruct why as [|j|j|j]; [reflexivity|..]; exfalso.
      - destruct Hb as [Hlen _ _ _ _ _ _]. simpl in Hlen, Hi.
        rewrite Hc1 in Hlen. simpl in Hlen. lia.
      - destruct Hb as [Hlen _ _ _ _ _ _]. simpl in Hlen, Hi.
        rewrite Hc1 in Hlen. simpl in Hlen. lia.
      - simpl in Hconv.
        destruct Hconv as (hm & a & b & hc & c' & _ & Hch & _ & Hlt).
        rewrite Hc1 in Hch.
        destruct hc as [|h0 hc].
        + inversion Hch. subst c'. lra.
        + destruct hc; discriminate. }
    split; [exact Hex|]. split; [apply Hwarned; exact Hex|].
    subst why. simpl in Hc. rewrite Hc, Hc1. reflexivity.
Qed.

(** C4, as amended.  From a state whose trap-center history ends in [a],
    the body of the loop leaves the loop as converged exactly when the
    iteration completes and both changes are below their tolerances: the L1
    norm of the difference between [a] and the new trap center is below
    [tol_m], and the L2 norm of the difference between the new coefficients
    and the last recorded ones, or of the new coefficients alone when none
    was recorded before, as in the first iteration, is below [tol].  When
    the iteration completes and one of the two fails, the loop continues.
    These are the values that [_m_convergence_criterion] and
    [_convergence_criterion] compute on the updated histories. *)
Theorem convergence_exit (tensors : Ptensors) (x y : ndarray) (k : nat)
    (s : fit) (a : ndarray) :
  last (m_history_ s) = Some a ->
  (forall s',
     step tensors x y k s = Ok (Break (Converged k) s')
     <-> exists w m A' obj,
           new_coef tensors s = Some w
           /\ solve_m (trap_ctr s) (A s) w = Ok (Some m, A')
           /\ objective tensors x y w A' (tensordot_P_w (P tensors s) w) = Ok obj
           /\ s' = recorded tensors s w m A' obj
           /\ (center_change a m < tol_m)%R
           /\ (coef_change (history_ s) (T w) < tol)%R)
  /\ (forall s',
        step tensors x y k s = Ok (Continue s')
        <-> exists w m A' obj,
              new_coef tensors s = Some w
              /\ solve_m (trap_ctr s) (A s) w = Ok (Some m, A')
              /\ objective tensors x y w A' (tensordot_P_w (P tensors s) w)
                 = Ok obj
              /\ s' = recorded tensors s w m A' obj
              /\ ~ (center_change a m < tol_m
                    /\ coef_change (history_ s) (T w) < tol)%R)
  /\ (forall h b c,
        _m_convergence_criterion (h ++ [b; c])
        = Ok (np_sum (np_abs (sub b c))))
  /\ (forall h b c,
        _convergence_criterion (h ++ [b; c])
        = Ok (sqrt (np_sum (square (sub c b)))))
  /\ (forall c,
        _convergence_criterion [c]
        = Ok (sqrt (np_sum (square (sub c (zeros_like c)))))).
Proof.
  intros Hlast. split; [|split; [|split; [|split]]].
  - intros s'. split.
    + intros Hstep.
      destruct (step_inv eta alpha beta tol tol_m threshold
                  inequality_constraints method mod_matrix rt_mod_mat
                  rt_inv_mod_mat sorted_eigvals sparse nonsparse solve_m
                  tensors x y m0 k s _ a Hlast Hstep)
        as [[_ Heq]|[(w & A' & _ & _ & Heq)
                    |(w & m & A' & obj & Hw & Hm & Hobj & Hc)]];
        try discriminate.
      destruct Hc as [[[Hlm Hlc] Heq]|[_ Heq]]; [|discriminate].
      inversion Heq. exists w, m, A', obj. auto 10.
    + intros (w & m & A' & obj & Hw & Hm & Hobj & -> & Hlm & Hlc).
      unfold step.
      rewrite (step_completed eta alpha beta tol tol_m threshold
                 inequality_constraints method mod_matrix rt_mod_mat
                 rt_inv_mod_mat sorted_eigvals sparse nonsparse solve_m
                 tensors x y m0 k s w m A' a obj Hw Hm Hobj Hlast).
      rewrite bool_decide_eq_true_2 by auto. reflexivity.
  - intros s'. split.
    + intros Hstep.
      destruct (step_inv eta alpha beta tol tol_m threshold
                  inequality_constraints method mod_matrix rt_mod_mat
                  rt_inv_mod_mat sorted_eigvals sparse nonsparse solve_m
                  tensors x y m0 k s _ a Hlast Hstep)
        as [[_ Heq]|[(w & A' & _ & _ & Heq)
                    |(w & m & A' & obj & Hw & Hm & Hobj & Hc)]];
        try discriminate.
      destruct Hc as [[_ Heq]|[Hn Heq]]; [discriminate|].
      inversion Heq. exists w, m, A', obj. auto 10.
    + intros (w & m & A' & obj & Hw & Hm & Hobj & -> & Hn).
      unfold step.
      rewrite (step_completed eta alpha beta tol tol_m threshold
                 inequality_constraints method mod_matrix rt_mod_mat
                 rt_inv_mod_mat sorted_eigvals sparse nonsparse solve_m
                 tensors x y m0 k s w m A' a obj Hw Hm Hobj Hlast).
      rewrite bool_decide_eq_false_2 by exact Hn. reflexivity.
  - intros h b c. apply m_criterion_value.
  - intros h b c. change (h ++ [b; c]) with (h ++ [b] ++ [c]).
    rewrite app_assoc, criterion_value. unfold coef_change.
    rewrite last_snoc. reflexivity.
  - intros c. apply (criterion_value [] c).
Qed.

End DriverClaims.

(** ** Runs on a small fit *)

Lemma tensors_lib2 : exists tensors, _set_Ptensors lib2 = Ok tensors.
Proof.
  destruct (_set_Ptensors lib2) as [t|e] eqn:H; [exists t; reflexivity|].
  exfalso. cbv -[IZR Rplus Rmult Rinv Rdiv Rminus Ropp] in H. discriminate.
Qed.

Lemma example_run_unfold (threshold : R) (max_iter : nat) (w : ndarray)
    (tensors : Ptensors) :
  _set_Ptensors lib2 = Ok tensors ->
  example_run threshold max_iter w
  = ('(st, why) ← for_break (range max_iter) (example_step threshold w tensors)
                    example_init;
     let st :=
       match why with
       | Exhausted =>
           warn (ConvergenceWarning
                   "TrappingSR3 did not converge after max_iter iters.") st
       | _ => st
       end in
     Ok (st, why, T (coef_sparse st))).
Proof. intros H. unfold example_run, _reduce. rewrite H. reflexivity. Qed.

Lemma objective_defined (M PQ : ndarray) (thr e al be : R) (method : string)
    (n k m : nat) (x y w A PW : ndarray) :
  shape x = [n; k] -> shape w = [k; m] ->
  exists obj, _objective M PQ thr e al be method x y w A PW = Ok obj.
Proof.
  intros Hx Hw. rewrite objective_value. unfold data_fit_loss, matmul, dim.
  rewrite Hx, Hw. cbn [length nth]. rewrite decide_True by auto.
  eexists. reflexivity.
Qed.

(** With a zero threshold the dense update is used; one iteration with it
    completes. *)
Lemma first_step_completes (w : ndarray) (tensors : Ptensors) :
  shape w = [5; 2] ->
  exists obj,
    let st' :=
      append_objective obj
        (append_iterate no_eigvals
           (tensordot_P_w (P_at eye2 eye2 tensors (zeros [2])) w)
           (set_locals w (zeros [2]) (Config.default_A0 (-0.1) 2)
              (append_p (P_at eye2 eye2 tensors (zeros [2])) example_init))) in
    example_step 0 w tensors 0 example_init
    = Ok (if bool_decide ((center_change zero_center zero_center < 1e-5)%R
                          /\ (coef_change [] (T w) < 1e-5)%R)
          then Break (Converged 0) st' else Continue st').
Proof.
  intros Hw.
  destruct (objective_defined eye2 (PQ_ tensors) 0 1 1 1 "local" 1 5 2
              (zeros [1; 5]) (zeros [1; 2]) w (Config.default_A0 (-0.1) 2)
              (tensordot_P_w (P_at eye2 eye2 tensors (zeros [2])) w)
              eq_refl Hw) as [obj Hobj].
  exists obj. unfold example_step.
  apply (step_completed 1 1 1 1e-5 1e-5 0 false "local" eye2 eye2 eye2
           no_eigvals sparse_infeasible (nonsparse_const w) solve_m_keep
           tensors (zeros [1; 5]) (zeros [1; 2]) (zeros [2]) 0 example_init
           w (zeros [2]) (Config.default_A0 (-0.1) 2) (zeros [2]) obj).
  - rewrite bool_decide_eq_false_2 by lra. reflexivity.
  - reflexivity.
  - exact Hobj.
  - reflexivity.
Qed.

Lemma single_iteration_run (w : ndarray) :
  shape w = [5; 2] ->
  exists st why coef,
    example_run 0 1 w = Ok (st, why, coef) /\ history_ st = [T w].
Proof.
  intros Hw. destruct tensors_lib2 as [t Ht].
  rewrite (example_run_unfold _ _ _ t Ht).
  change (range 1) with [0]. rewrite for_break_cons.
  destruct (first_step_completes w t Hw) as [obj Hstep]. cbv zeta in Hstep.
  rewrite Hstep. cbn [mbind result_bind Py.bind].
  destruct (bool_decide _); cbn [for_break mbind result_bind Py.bind];
    eexists _, _, _; split; reflexivity.
Qed.

Lemma center_change_zero : center_change zero_center zero_center = 0%R.
Proof.
  cbv -[IZR Rplus Rmult Rinv Rdiv Rminus Ropp Rabs].
  replace (0 - 0)%R with 0%R by lra. rewrite Rabs_R0. lra.
Qed.

Lemma coef_change_zeros : coef_change [] (T (zeros [5; 2])) = 0%R.
Proof.
  cbv -[IZR Rplus Rmult Rinv Rdiv Rminus Ropp Rabs sqrt].
  match goal with |- sqrt ?e = _ => replace e with 0%R by lra end.
  apply sqrt_0.
Qed.

Lemma coef_change_x0x1 : coef_change [] (T coef_x0x1) = 1%R.
Proof.
  cbv -[IZR Rplus Rmult Rinv Rdiv Rminus Ropp Rabs sqrt].
  match goal with |- sqrt ?e = _ => replace e with 1%R by lra end.
  apply sqrt_1.
Qed.

(** When the first coefficients are zero and the trap center does not move,
    the loop is left as converged in its first iteration, with a single
    coefficient iterate recorded. *)
Lemma converged_first_iteration :
  exists st coef,
    example_run 0 30 (zeros [5; 2]) = Ok (st, Converged 0, coef)
    /\ history_ st = [T (zeros [5; 2])].
Proof.
  destruct tensors_lib2 as [t Ht].
  rewrite (example_run_unfold _ _ _ t Ht).
  change (range 30) with (0 :: seq 1 29). rewrite for_break_cons.
  destruct (first_step_completes (zeros [5; 2]) t eq_refl) as [obj Hstep].
  cbv zeta in Hstep. rewrite Hstep.
  rewrite bool_decide_eq_true_2.
  - cbn [mbind result_bind Py.bind]. eexists _, _. split; reflexivity.
  - rewrite center_change_zero, coef_change_zeros. split; lra.
Qed.

(** C4, as stated, fails in the first iteration: the loop is left as
    converged although only one coefficient iterate has been recorded, so
    there is no difference of the last two recorded iterates to be below the
    tolerance. *)
Lemma convergence_exit_counterexample :
  ~ (forall st k coef,
       example_run 0 30 (zeros [5; 2]) = Ok (st, Converged k, coef) ->
       exists d, last_two_change (history_ st) = Some d /\ (d < 1e-5)%R).
Proof.
  intros H. destruct converged_first_iteration as (st & coef & Hrun & Hhist).
  destruct (H st 0 coef Hrun) as (d & Hd & _).
  rewrite Hhist in Hd. discriminate.
Qed.

Lemma convergence_exit_witness :
  exists tensors,
    _set_Ptensors lib2 = Ok tensors
    /\ last (m_history_ example_init) = Some zero_center
    /\ forall s',
         example_step 0 (zeros [5; 2]) tensors 0 example_init
         = Ok (Break (Converged 0) s')
         <-> exists w m A' obj,
               Some (nonsparse_const (zeros [5; 2])
                       (P_at eye2 eye2 tensors (trap_ctr example_init))
                       (A example_init)) = Some w
               /\ solve_m_keep (trap_ctr example_init) (A example_init) w
                  = Ok (Some m, A')
               /\ _objective eye2 (PQ_ tensors) 0 1 1 1 "local"
                    (zeros [1; 5]) (zeros [1; 2]) w A'
                    (tensordot_P_w
                       (P_at eye2 eye2 tensors (trap_ctr example_init)) w)
                  = Ok obj
               /\ s' = append_objective obj
                         (append_iterate no_eigvals
                            (tensordot_P_w
                               (P_at eye2 eye2 tensors (trap_ctr example_init)) w)
                            (set_locals w m A'
                               (append_p
                                  (P_at eye2 eye2 tensors (trap_ctr example_init))
                                  example_init)))
               /\ (center_change zero_center m < 1e-5)%R
               /\ (coef_change (history_ example_init) (T w) < 1e-5)%R.
Proof.
  destruct tensors_lib2 as [t Ht]. exists t.
  split; [exact Ht|]. split; [reflexivity|].
  intros s'.
  pose proof (convergence_exit 1 1 1 1e-5 1e-5 0 false "local" eye2 eye2 eye2
                zero_center no_eigvals sparse_infeasible
                (nonsparse_const (zeros [5; 2])) solve_m_keep
                t (zeros [1; 5]) (zeros [1; 2]) 0 example_init zero_center
                eq_refl) as (Hconv & _).
  specialize (Hconv s'). cbv zeta in Hconv.
  rewrite (bool_decide_eq_false_2 (0 > 0)%R) in Hconv by lra.
  exact Hconv.
Defined.

(** C9, as stated, fails: after a fit of one iteration the trap-center
    history holds the initial center and the new one, the coefficient
    history one entry. *)
Lemma history_buffers_counterexample :
  ~ (forall st why coef,
       example_run 0 1 coef_x0x1 = Ok (st, why, coef) ->
       length (m_history_ st) = length (history_ st)).
Proof.
  intros H.
  destruct (single_iteration_run coef_x0x1 eq_refl)
    as (st & why & coef & Hrun & _).
  specialize (H st why coef Hrun).
  destruct (reduce_run 1 1 1 1e-5 1e-5 0 false 1 "local" eye2 eye2 eye2
              (Config.default_A0 (-0.1) 2) (zeros [2]) no_eigvals
              sparse_infeasible (nonsparse_const coef_x0x1) solve_m_keep lib2
              (zeros [2; 5]) (zeros [1; 5]) (zeros [1; 2]) st why coef Hrun)
    as (t & st0 & _ & _ & Hafter & _ & Hst).
  destruct Hafter as [[H1 _ _ _ H5 _ _] _ _ _ _ _].
  assert (Hm : m_history_ st = m_history_ st0) by (destruct why; subst st; reflexivity).
  assert (Hh : history_ st = history_ st0) by (destruct why; subst st; reflexivity).
  rewrite Hm, Hh, H1, H5 in H. lia.
Qed.

Lemma history_buffers_witness :
  exists st why coef,
    example_run 0 1 coef_x0x1 = Ok (st, why, coef)
    /\ buffers (completed 1 why) (started 1 why) st.
Proof.
  destruct (single_iteration_run coef_x0x1 eq_refl)
    as (st & why & coef & Hrun & _).
  exists st, why, coef. split; [exact Hrun|].
  exact (proj1 (history_buffers 1 1 1 1e-5 1e-5 0 false 1 "local" eye2 eye2 eye2
                  (Config.default_A0 (-0.1) 2) (zeros [2]) no_eigvals
                  sparse_infeasible (nonsparse_const coef_x0x1) solve_m_keep lib2
                  (zeros [2; 5]) (zeros [1; 5]) (zeros [1; 2])
                  st why coef Hrun)).
Defined.

Lemma max_iter_warning_witness :
  exists st,
    example_run 0 1 coef_x0x1 = Ok (st, Exhausted, T coef_x0x1)
    /\ warned st
       = [ConvergenceWarning "TrappingSR3 did not converge after max_iter iters."]
    /\ buffers 1 1 st.
Proof.
  destruct (single_iteration_run coef_x0x1 eq_refl)
    as (st & why & coef & Hrun & Hhist).
  destruct (max_iter_warning 1 1 1 1e-5 1e-5 0 false 1 "local" eye2 eye2 eye2
              (Config.default_A0 (-0.1) 2) (zeros [2]) no_eigvals
              sparse_infeasible (nonsparse_const coef_x0x1) solve_m_keep lib2
              (zeros [2; 5]) (zeros [1; 5]) (zeros [1; 2])
              st why coef Hrun)
    as (_ & _ & _ & Hfull & Hone).
  destruct (Hone eq_refl (T coef_x0x1) Hhist) as (Hwhy & Hwarn & Hcoef).
  { rewrite coef_change_x0x1. lra. }
  subst why coef. exists st. split; [exact Hrun|]. split; [exact Hwarn|].
  exact (proj1 (Hfull eq_refl)).
Defined.

(** ** The certificate update of this module *)

(** [_solve_m_relax_and_split] has no path that returns [None]: with it, the
    loop is never left on an infeasible trap center. *)
Lemma certificate_update_not_None (eta alpha_m alpha_A gamma : R)
    (rt_mod_mat rt_inv_mod_mat : ndarray)
    (eigh : ndarray -> list R * ndarray) (inv : ndarray -> ndarray)
    (tensors : Ptensors) (m A w A' : ndarray) :
  certificate_update eta alpha_m alpha_A gamma rt_mod_mat rt_inv_mod_mat
    eigh inv tensors m A w <> Ok (None, A').
Proof.
  unfold certificate_update.
  destruct (_solve_m_relax_and_split _ _ _ _ _ _ _ _ _ _ _ _) as [[t A1]|e];
    simpl; discriminate.
Qed.

Lemma source_loop_never_infeasible_center
    (eta alpha_m alpha_A alpha beta gamma tol tol_m threshold : R)
    (inequality_constraints : bool) (method : string)
    (mod_matrix rt_mod_mat rt_inv_mod_mat : ndarray)
    (eigh : ndarray -> list R * ndarray) (inv : ndarray -> ndarray)
    (sorted_eigvals : ndarray -> ndarray)
    (sparse : ndarray -> ndarray -> ndarray -> option ndarray)
    (nonsparse : ndarray -> ndarray -> ndarray)
    (tensors : Ptensors) (x y trap_prev_ctr : ndarray)
    (ks : list nat) (st st' : fit) (why : loop_exit) (k : nat) :
  for_break ks
    (iteration eta alpha beta tol tol_m threshold inequality_constraints method
       mod_matrix rt_mod_mat rt_inv_mod_mat sorted_eigvals sparse nonsparse
       (certificate_update eta alpha_m alpha_A gamma rt_mod_mat rt_inv_mod_mat
          eigh inv tensors)
       tensors x y trap_prev_ctr) st
  = Ok (st', why) ->
  why <> InfeasibleCenter k.
Proof.
  intros Hrun ->.
  destruct (loop_infeasible_center _ _ _ _ _ _ _ _ _ _ _ _ _ _ _ _ _ _ _ _ _ _ _ Hrun)
    as (m & A & w & A' & H).
  exact (certificate_update_not_None _ _ _ _ _ _ _ _ _ _ _ _ _ H).
Qed.

(** ** Leaving the loop on infeasibility *)

Section InfeasibleExit.

Variables (eta alpha_m alpha_A alpha beta gamma tol tol_m threshold : R).
Variable inequality_constraints : bool.
Variable max_iter : nat.
Variable method : string.
Variables (mod_matrix rt_mod_mat rt_inv_mod_mat A0 m0 : ndarray).
Variable eigh : ndarray -> list R * ndarray.
Variable inv : ndarray -> ndarray.
Variable sorted_eigvals : ndarray -> ndarray.
Variable cvxpy_solve : ndarray -> ndarray -> ndarray -> option ndarray.
Variable nonsparse : ndarray -> ndarray -> ndarray.
Variable lib_powers : list (list nat).
Variable tensors : Ptensors.

(** The two sub-solvers of the loop: the certificate update of this module,
    and the sparse coefficient update, which ends in the convex solver. *)
Let solve_m :=
  certificate_update eta alpha_m alpha_A gamma rt_mod_mat rt_inv_mod_mat
    eigh inv tensors.

Let step (x y : ndarray) :=
  iteration eta alpha beta tol tol_m threshold inequality_constraints method
    mod_matrix rt_mod_mat rt_inv_mod_mat sorted_eigvals cvxpy_solve nonsparse
    solve_m tensors x y m0.

Let run :=
  _reduce eta alpha beta tol tol_m threshold inequality_constraints max_iter
    method mod_matrix rt_mod_mat rt_inv_mod_mat A0 m0 sorted_eigvals
    cvxpy_solve nonsparse solve_m lib_powers.


End InfeasibleExit.



(** ** The modelled library is well formed *)

Lemma sum_indicator (v a n : nat) :
  Py.sum (map (fun i => if Nat.eq_dec v i then 1 else 0) (seq a n)) <= 1
  /\ (v < a -> Py.sum (map (fun i => if Nat.eq_dec v i then 1 else 0) (seq a n)) = 0).
Proof.
  revert a. induction n as [|n IH]; intros a; simpl; [split; lia|].
  destruct (IH (S a)) as [IH1 IH2].
  destruct (Nat.eq_dec v a) as [->|Hne].
  - rewrite IH2 by lia. split; lia.
  - split; [exact IH1 | intros Hlt; apply IH2; lia].
Qed.

Lemma sum_count_occ (vars l : list nat) (a n : nat) :
  l = seq a n ->
  Py.sum (map (fun i => count_occ Nat.eq_dec vars i) l) <= length vars.
Proof.
  intros ->. induction vars as [|v vars IH].
  - simpl. induction (seq a n) as [|i l IHl]; simpl; lia.
  - assert (Hsplit : forall l,
              Py.sum (map (fun i => count_occ Nat.eq_dec (v :: vars) i) l)
              = Py.sum (map (fun i => if Nat.eq_dec v i then 1 else 0) l)
                + Py.sum (map (fun i => count_occ Nat.eq_dec vars i) l)).
    { induction l as [|i l IHl]; [reflexivity|].
      cbn [map Py.sum]. cbn [map Py.sum] in IHl.
      change (Py.sum (?x :: ?t)) with (x + Py.sum t).
      rewrite IHl. simpl count_occ. destruct (Nat.eq_dec v i); lia. }
    rewrite Hsplit.
    destruct (sum_indicator v a n) as [H1 _]. simpl length. lia.
Qed.

Lemma sum_monomial (r : nat) (vars : list nat) :
  Py.sum (monomial r vars) <= length vars.
Proof. unfold monomial. exact (sum_count_occ vars _ 0 r eq_refl). Qed.

Lemma length_monomial (r : nat) (vars : list nat) : length (monomial r vars) = r.
Proof. unfold monomial. rewrite length_map, length_seq. reflexivity. Qed.

(** The well-formed libraries exist for every number of variables: the
    modelled enumeration is one, with or without the constant term. *)
Lemma poly_powers_wf (include_bias : bool) (r : nat) :
  wf_library r (poly_powers include_bias r).
Proof.
  unfold wf_library, poly_powers. split; [|split].
  - rewrite !Forall_app. split; [|split].
    + destruct include_bias; repeat constructor.
      * apply length_monomial.
      * apply (Nat.le_trans _ _ _ (sum_monomial r [])). simpl. lia.
    + apply Forall_forall. intros e He.
      apply list_elem_of_fmap in He as (j & -> & _). split.
      * apply length_monomial.
      * apply (Nat.le_trans _ _ _ (sum_monomial r [j])). simpl. lia.
    + apply Forall_forall. intros e He.
      apply list_elem_of_In, in_flat_map in He as (j & _ & He).
      apply list_elem_of_In, list_elem_of_fmap in He as (k & -> & _). split.
      * apply length_monomial.
      * apply (sum_monomial r [j; k]).
  - intros j Hj. rewrite !elem_of_app. right. right.
    apply list_elem_of_In, in_flat_map. exists j. split.
    + apply in_seq. lia.
    + apply list_elem_of_In, list_elem_of_fmap. exists j.
      split; [reflexivity|]. apply elem_of_seq. lia.
  - intros j k Hjk. rewrite !elem_of_app. right. right.
    apply list_elem_of_In, in_flat_map. exists j. split.
    + apply in_seq. lia.
    + apply list_elem_of_In, list_elem_of_fmap. exists k.
      split; [reflexivity|]. apply elem_of_seq. lia.
Qed.

(** * Further properties of the code *)

(** ** The term tables of any library *)

Lemma comprehension_Raise {A B} (f : A -> result (option B)) (xs : list A)
    (e : exn) :
  comprehension f xs = Raise e -> exists x, x ∈ xs /\ f x = Raise e.
Proof.
  induction xs as [|x xs IH]; simpl; [discriminate|].
  destruct (f x) as [o|e'] eqn:Hf; simpl.
  - destruct (comprehension f xs) as [ys|e'']; simpl; [discriminate|].
    intros H. inversion H; subst.
    destruct (IH eq_refl) as (x' & Hx' & Hf'). exists x'.
    split; [right|]; assumption.
  - intros H. inversion H; subst. exists x. split; [left | exact Hf].
Qed.

Lemma comprehension_elem {A B} (f : A -> result (option B)) (xs : list A)
    (ys : list B) :
  comprehension f xs = Ok ys ->
  forall b, b ∈ ys <-> exists x, x ∈ xs /\ f x = Ok (Some b).
Proof.
  intros Hrun.
  assert (Hall : Forall (fun x => exists o, f x = Ok o) xs).
  { clear -Hrun. revert ys Hrun. induction xs as [|x xs IH]; intros ys; simpl.
    - constructor.
    - destruct (f x) as [o|e] eqn:Hf; simpl; [|discriminate].
      destruct (comprehension f xs) as [zs|e] eqn:Hc; simpl; [|discriminate].
      intros _. constructor; [exists o; exact Hf | eapply IH; reflexivity]. }
  destruct (comprehension_Ok f xs Hall) as (ys' & Hys' & Hmem).
  rewrite Hrun in Hys'. inversion Hys'. subst. exact Hmem.
Qed.

(** What [_build_lib_info] returned was assembled from the three
    comprehensions. *)
Lemma build_lib_info_Ok (polyterms : list polyterm) (info : lib_info) :
  _build_lib_info polyterms = Ok info ->
  exists t0 mixed pure linear,
    head polyterms = Some t0
    /\ comprehension mixed_entry polyterms = Ok mixed
    /\ comprehension pure_entry polyterms = Ok pure
    /\ comprehension linear_entry polyterms = Ok linear
    /\ info = {| n_targets := length t0.2; n_features := length polyterms;
                 linear_terms := dict_of linear; pure_terms := dict_of pure;
                 mixed_terms := dict_of mixed |}.
Proof.
  unfold _build_lib_info. destruct polyterms as [|t0 ts]; [discriminate|].
  set (ps := t0 :: ts).
  destruct (comprehension mixed_entry ps) as [mixed|e]; [|discriminate].
  destruct (comprehension pure_entry ps) as [pure|e]; [|discriminate].
  destruct (comprehension linear_entry ps) as [linear|e]; [|discriminate].
  simpl. intros H. inversion H. exists t0, mixed, pure, linear. auto.
Qed.

Lemma entries_defined (t : polyterm) :
  t.2 <> [] ->
  (exists o, mixed_entry t = Ok o) /\ (exists o, pure_entry t = Ok o).
Proof.
  intros Hne. unfold mixed_entry, pure_entry.
  destruct (pymax_defined t.2 Hne) as [m ->]. simpl. split; eexists; reflexivity.
Qed.

(** X1. [_build_lib_info] returns exactly on a term list that is not empty
    and whose every term has at least one exponent; it then reports the
    number of terms and the number of exponents of the first term.  On the
    empty list, and on a term without exponents (where [max(exps)] fails),
    it raises a [ValueError]. *)
Theorem build_lib_info_errors (polyterms : list polyterm) :
  match _build_lib_info polyterms with
  | Ok info =>
      Forall (fun t : polyterm => t.2 <> []) polyterms
      /\ n_features info = length polyterms
      /\ exists t0, head polyterms = Some t0 /\ n_targets info = length t0.2
  | Raise e =>
      (exists msg, e = ValueError msg)
      /\ (polyterms = [] \/ Exists (fun t : polyterm => t.2 = []) polyterms)
  end.
Proof.
  destruct (_build_lib_info polyterms) as [info|e] eqn:Hrun.
  - apply build_lib_info_Ok in Hrun
      as (t0 & mixed & pure & linear & Hhd & Hmixed & _ & _ & ->).
    split; [|split; [reflexivity | exists t0; auto]].
    apply Forall_forall. intros t Ht Hnil.
    assert (Hraise : exists e, mixed_entry t = Raise e).
    { unfold mixed_entry. rewrite Hnil. eexists. reflexivity. }
    destruct Hraise as [e He].
    assert (Hall : forall ys, comprehension mixed_entry polyterms <> Ok ys).
    { clear -Ht He. induction polyterms as [|x xs IH]; [inversion Ht|].
      intros ys. simpl. apply elem_of_cons in Ht as [<-|Ht].
      - rewrite He. discriminate.
      - destruct (mixed_entry x); simpl; [|discriminate].
        destruct (comprehension mixed_entry xs) as [zs|] eqn:Hzs; simpl;
          [|discriminate].
        exfalso. exact (IH Ht zs eq_refl). }
    exact (Hall mixed Hmixed).
  - unfold _build_lib_info in Hrun. destruct polyterms as [|t0 ts].
    { inversion Hrun. split; [eexists; reflexivity | left; reflexivity]. }
    set (ps := t0 :: ts) in *.
    assert (Hmax : forall t e', mixed_entry t = Raise e' \/ pure_entry t = Raise e' ->
                     t.2 = [] /\ exists msg, e' = ValueError msg).
    { intros t e' H. unfold mixed_entry, pure_entry in H.
      destruct t.2 as [|x xs]; simpl in H.
      - split; [reflexivity|]. destruct H as [H|H]; inversion H; eexists; reflexivity.
      - destruct H; discriminate. }
    destruct (comprehension mixed_entry ps) as [mixed|e1] eqn:Hm.
    2:{ inversion Hrun. subst. apply comprehension_Raise in Hm as (t & Ht & He).
        destruct (Hmax t e (or_introl He)) as [Hnil Hmsg].
        split; [exact Hmsg|]. right. apply Exists_exists. exists t.
        split; [exact Ht | exact Hnil]. }
    destruct (comprehension pure_entry ps) as [pure|e1] eqn:Hp.
    2:{ inversion Hrun. subst. apply comprehension_Raise in Hp as (t & Ht & He).
        destruct (Hmax t e (or_intror He)) as [Hnil Hmsg].
        split; [exact Hmsg|]. right. apply Exists_exists. exists t.
        split; [exact Ht | exact Hnil]. }
    destruct (comprehension linear_entry ps) as [linear|e1] eqn:Hl.
    2:{ apply comprehension_Raise in Hl as (t & _ & He). discriminate. }
    discriminate.
Qed.

(** ** Exponent vectors of degree one and two *)

Lemma monomial_single (r j : nat) :
  j < r -> monomial r [j] = repeat 0 j ++ 1 :: repeat 0 (r - S j).
Proof.
  intros Hj. unfold monomial.
  replace r with (j + S (r - S j)) at 1 by lia.
  rewrite seq_app, map_app. simpl. f_equal; [|f_equal].
  - apply map_seq_const. intros i Hi.
    destruct (Nat.eq_dec j i); [lia | reflexivity].
  - destruct (Nat.eq_dec j j); [reflexivity | contradiction].
  - apply map_seq_const. intros i Hi.
    destruct (Nat.eq_dec j i); [lia | reflexivity].
Qed.

Lemma linear_entry_single (r j c : nat) :
  j < r -> linear_entry (c, monomial r [j]) = Ok (Some (j, c)).
Proof.
  intros Hj. unfold linear_entry. simpl. rewrite monomial_single by exact Hj.
  rewrite sum_zeros. simpl.
  rewrite <- (app_nil_r (repeat 0 (r - S j))), sum_zeros. simpl.
  destruct j as [|j]; simpl.
  - rewrite argmax_from_zeros. reflexivity.
  - rewrite argmax_from_zeros. simpl. rewrite argmax_from_zeros. reflexivity.
Qed.

Lemma sum_zero_shape (e : list nat) : Py.sum e = 0 -> e = repeat 0 (length e).
Proof.
  induction e as [|x e IH]; simpl; [reflexivity|].
  intros H. destruct x; [|lia]. f_equal. apply IH. exact H.
Qed.

Lemma sum_one_shape (e : list nat) :
  Py.sum e = 1 ->
  exists j, j < length e /\ e = repeat 0 j ++ 1 :: repeat 0 (length e - S j).
Proof.
  induction e as [|x e IH]; simpl; [discriminate|]. intros H.
  destruct x as [|[|x]]; [| |lia].
  - destruct (IH H) as (j & Hj & He). exists (S j). split; [lia|].
    simpl. f_equal. exact He.
  - exists 0. split; [lia|]. simpl. f_equal. rewrite Nat.sub_0_r.
    apply sum_zero_shape. simpl in H. lia.
Qed.

Lemma elem_le_sum (x : nat) (e : list nat) : x ∈ e -> x <= Py.sum e.
Proof.
  induction e as [|y e IH]; intros H; [inversion H|].
  apply elem_of_cons in H as [->|H]; simpl; [lia|]. specialize (IH H). lia.
Qed.

Lemma foldl_max_elem (m : nat) (l : list nat) : foldl Nat.max m l ∈ m :: l.
Proof.
  revert m. induction l as [|x l IH]; intros m; simpl; [left|].
  specialize (IH (Nat.max m x)). apply elem_of_cons in IH as [Heq|Hin].
  - rewrite Heq. destruct (Nat.max_dec m x) as [->| ->]; [left | right; left].
  - right. right. exact Hin.
Qed.

Lemma pymax_elem (e : list nat) (m : nat) : Py.max e = Ok m -> m ∈ e.
Proof.
  destruct e as [|x xs]; [discriminate|]. simpl. intros H. injection H as <-.
  apply foldl_max_elem.
Qed.

Lemma square_shape (e : list nat) :
  2 ∈ e -> Py.sum e <= 2 ->
  exists j, j < length e /\ e = repeat 0 j ++ 2 :: repeat 0 (length e - S j).
Proof.
  induction e as [|x e IH]; intros Hin Hs; [inversion Hin|].
  simpl in Hs. apply elem_of_cons in Hin as [<-|Hin].
  - exists 0. split; [simpl; lia|]. simpl. f_equal. rewrite Nat.sub_0_r.
    apply sum_zero_shape. lia.
  - pose proof (elem_le_sum 2 e Hin) as Hle.
    destruct x; [|lia].
    destruct (IH Hin) as (j & Hj & He); [lia|]. exists (S j).
    split; [simpl; lia|]. simpl. f_equal. exact He.
Qed.

Lemma product_shape (e : list nat) :
  Forall (fun x => x <= 1) e -> Py.sum e = 2 ->
  exists j k, j < k < length e
    /\ e = repeat 0 j ++ 1 :: repeat 0 (k - S j) ++ 1 :: repeat 0 (length e - S k).
Proof.
  induction e as [|x e IH]; intros Hall Hs; [discriminate|].
  inversion Hall as [|? ? Hx Hall']; subst. simpl in Hs.
  destruct x as [|[|x]]; [| |lia].
  - destruct (IH Hall' Hs) as (j & k & Hjk & He). exists (S j), (S k).
    split; [simpl; lia|]. simpl. f_equal. exact He.
  - destruct (sum_one_shape e) as (b & Hb & He); [lia|].
    exists 0, (S b). split; [simpl; lia|]. simpl. f_equal.
    rewrite Nat.sub_0_r. exact He.
Qed.

(** The three kinds of term that the tables file, for exponent vectors of
    [r] variables and degree at most two. *)
Lemma linear_entry_spec (r c c' k : nat) (e : list nat) :
  length e = r ->
  linear_entry (c, e) = Ok (Some (k, c'))
  <-> c' = c /\ k < r /\ e = monomial r [k].
Proof.
  intros Hlen. split.
  - intros H. assert (Hs : Py.sum e = 1).
    { unfold linear_entry in H. simpl in H.
      destruct (Py.sum e =? 1) eqn:Hs; [apply Nat.eqb_eq; exact Hs | discriminate]. }
    destruct (sum_one_shape e Hs) as (j & Hj & He).
    rewrite Hlen in Hj, He. rewrite <- monomial_single in He by exact Hj.
    subst e. rewrite linear_entry_single in H by exact Hj.
    inversion H; subst. auto.
  - intros (-> & Hk & ->). apply linear_entry_single. exact Hk.
Qed.

Lemma pure_entry_spec (r c c' k : nat) (e : list nat) :
  length e = r -> Py.sum e <= 2 ->
  pure_entry (c, e) = Ok (Some (k, c'))
  <-> c' = c /\ k < r /\ e = monomial r [k; k].
Proof.
  intros Hlen Hsum. split.
  - intros H. assert (Hm : Py.max e = Ok 2).
    { unfold pure_entry in H. simpl in H.
      destruct (Py.max e) as [m|]; [|discriminate]. simpl in H.
      destruct (m =? 2) eqn:Hm2; [|discriminate].
      apply Nat.eqb_eq in Hm2. subst m. reflexivity. }
    destruct (square_shape e (pymax_elem e 2 Hm) Hsum) as (j & Hj & He).
    rewrite Hlen in Hj, He. rewrite <- monomial_square in He by exact Hj.
    subst e. rewrite pure_entry_square in H by exact Hj.
    inversion H; subst. auto.
  - intros (-> & Hk & ->). apply pure_entry_square. exact Hk.
Qed.

Lemma mixed_entry_spec (r c c' : nat) (key e : list nat) :
  length e = r ->
  mixed_entry (c, e) = Ok (Some (key, c'))
  <-> c' = c /\ exists j k, j < k < r /\ key = [j; k] /\ e = monomial r [j; k].
Proof.
  intros Hlen. split.
  - intros H. assert (Hm : Py.max e = Ok 1 /\ Py.sum e = 2).
    { unfold mixed_entry in H. simpl in H.
      destruct (Py.max e) as [m|]; [|discriminate]. simpl in H.
      destruct (m =? 1) eqn:Hm1; [|discriminate].
      destruct (Py.sum e =? 2) eqn:Hs; [|discriminate].
      apply Nat.eqb_eq in Hm1, Hs. subst m. auto. }
    destruct Hm as [Hm Hs].
    destruct (product_shape e (pymax_bound e 1 Hm) Hs) as (j & k & Hjk & He).
    rewrite Hlen in Hjk, He. rewrite <- monomial_product in He by exact Hjk.
    subst e. rewrite mixed_entry_product in H by exact Hjk.
    inversion H; subst. split; [reflexivity|]. exists j, k. auto.
  - intros (-> & j & k & Hjk & -> & ->). apply mixed_entry_product. exact Hjk.
Qed.

Lemma monomial_swap (r j k : nat) : monomial r [j; k] = monomial r [k; j].
Proof.
  unfold monomial. apply map_ext. intros i. simpl.
  destruct (Nat.eq_dec j i), (Nat.eq_dec k i); reflexivity.
Qed.

(** The column that the pure table gives for a variable holds its square,
    and the column that the mixed table gives for a pair holds the product
    of the two. *)
Lemma pure_term_column (r : nat) (powers : list (list nat)) (info : lib_info)
    (pure : list (nat * nat)) (mixed : list (list nat * nat)) :
  lib_tables r powers info pure mixed -> wf_library r powers ->
  forall j c, dict_find j (dict_of pure) = Some c ->
    j < r /\ powers !! c = Some (monomial r [j; j]).
Proof.
  intros Ht (Hall & _ & _) j c Hf. apply dict_of_find in Hf.
  apply (comprehension_elem _ _ _ (lt_pure _ _ _ _ _ Ht)) in Hf
    as ([i e] & Hin & He).
  apply elem_of_enumerate in Hin. rewrite Forall_forall in Hall.
  destruct (Hall e) as [Hlen Hsum]; [eapply list_elem_of_lookup_2; exact Hin|].
  apply (pure_entry_spec r i c j e Hlen Hsum) in He as (-> & Hj & ->). auto.
Qed.

Lemma mixed_term_column (r : nat) (powers : list (list nat)) (info : lib_info)
    (pure : list (nat * nat)) (mixed : list (list nat * nat)) :
  lib_tables r powers info pure mixed -> wf_library r powers ->
  forall key c, dict_find key (dict_of mixed) = Some c ->
    exists a b, a < b < r /\ key = [a; b]
      /\ powers !! c = Some (monomial r [a; b]).
Proof.
  intros Ht (Hall & _ & _) key c Hf. apply dict_of_find in Hf.
  apply (comprehension_elem _ _ _ (lt_mixed _ _ _ _ _ Ht)) in Hf
    as ([i e] & Hin & He).
  apply elem_of_enumerate in Hin. rewrite Forall_forall in Hall.
  destruct (Hall e) as [Hlen _]; [eapply list_elem_of_lookup_2; exact Hin|].
  apply (mixed_entry_spec r i c key e Hlen) in He
    as (-> & a & b & Hab & -> & ->).
  exists a, b. auto.
Qed.

Lemma pair_term_column (r : nat) (powers : list (list nat)) (info : lib_info)
    (pure : list (nat * nat)) (mixed : list (list nat * nat)) :
  lib_tables r powers info pure mixed -> wf_library r powers ->
  forall j k, j < r -> k < r ->
    powers !! PQ_col info j k = Some (monomial r [j; k]).
Proof.
  intros Ht Hwf j k Hj Hk. destruct (decide (j = k)) as [->|Hne].
  - destruct (pure_lookup r powers info pure mixed Ht k Hk) as (c & Hg & _ & ->).
    rewrite (lt_pure_terms _ _ _ _ _ Ht) in Hg. apply dict_get_Ok in Hg.
    apply (pure_term_column r powers info pure mixed Ht Hwf k c Hg).
  - destruct (mixed_lookup r powers info pure mixed Ht j k Hj Hk Hne)
      as (c & Hg & _ & ->).
    rewrite (lt_mixed_terms _ _ _ _ _ Ht) in Hg. apply dict_get_Ok in Hg.
    destruct (mixed_term_column r powers info pure mixed Ht Hwf _ c Hg)
      as (a & b & Hab & Hkey & Hcol).
    destruct (Nat.lt_trichotomy j k) as [Hlt|[Heq|Hlt]]; [|contradiction|].
    + destruct (frozenset_pair j k Hlt) as [Hfs _]. rewrite Hfs in Hkey.
      inversion Hkey. subst a b. exact Hcol.
    + destruct (frozenset_pair k j Hlt) as [_ Hfs]. rewrite Hfs in Hkey.
      inversion Hkey. subst a b. rewrite monomial_swap. exact Hcol.
Qed.

(** C1. For a well-formed degree-2 term list over [r >= 2] variables,
    [_build_PQ] returns the tensor of shape [(r, r, r, r, p)] whose cell
    [(i, j, k, l, c)] is 1.0 when [i = l], [j = k] and [c] is the column
    that the table of pure terms gives for [j], which holds the term
    [x_j^2]; is 0.5 when [i = l], [j <> k] and [c] is the column that the
    table of mixed terms gives for the unordered pair [{j, k}], which holds
    the term [x_j x_k]; and is zero everywhere else.  Both tables are total
    on the variables.  A cell that is not zero is thus on the target
    diagonal, in a column that holds the product of its two variables, and
    carries the weight of that pair.  Hence the tensor is unchanged when its
    two variable axes (axes 1 and 2) are swapped, and in the column of a
    pure term it vanishes off the diagonal [j = k] of those axes. *)
Theorem build_PQ_entries (r : nat) (powers : list (list nat)) :
  2 <= r -> wf_library r powers ->
  exists info PQ,
    _build_lib_info (enumerate powers) = Ok info
    /\ _build_PQ (enumerate powers) = Ok PQ
    /\ shape PQ = [r; r; r; r; length powers]
    /\ (forall j, j < r ->
          exists c, c < length powers /\ dict_get j (pure_terms info) = Ok c
            /\ powers !! c = Some (monomial r [j; j]))
    /\ (forall j k, j < r -> k < r -> j <> k ->
          exists c, c < length powers
            /\ dict_get (frozenset [j; k]) (mixed_terms info) = Ok c
            /\ powers !! c = Some (monomial r [j; k]))
    /\ (forall i j c, i < r -> j < r ->
          dict_get j (pure_terms info) = Ok c ->
          data PQ [i; j; j; i; c] = 1%R)
    /\ (forall i j k c, i < r -> j < r -> k < r -> j <> k ->
          dict_get (frozenset [j; k]) (mixed_terms info) = Ok c ->
          data PQ [i; j; k; i; c] = (1 / 2)%R)
    /\ (forall i j k l c,
          ~ (i = l /\ i < r /\ j < r /\ k < r
             /\ ((j = k /\ dict_get j (pure_terms info) = Ok c)
                 \/ (j <> k
                     /\ dict_get (frozenset [j; k]) (mixed_terms info) = Ok c))) ->
          data PQ [i; j; k; l; c] = 0%R)
    /\ (forall i j k l c, data PQ [i; j; k; l; c] <> 0%R ->
          i = l /\ i < r /\ j < r /\ k < r
          /\ powers !! c = Some (monomial r [j; k])
          /\ data PQ [i; j; k; l; c] = PQ_weight j k)
    /\ (forall i j k l c, data PQ [i; j; k; l; c] = data PQ [i; k; j; l; c])
    /\ (forall i j k l c m,
          dict_get m (pure_terms info) = Ok c ->
          data PQ [i; j; k; l; c] <> 0%R -> j = k).
Proof.
  intros Hr Hwf.
  destruct (lib_tables_wf r powers) as (info & pure & mixed & Ht); [lia | exact Hwf |].
  destruct (build_PQ_cells r powers info pure mixed Ht) as (PQ & HPQ & Hsh & Hcell).
  pose proof (pair_term_column r powers info pure mixed Ht Hwf) as Hcolumn.
  assert (Hzero : forall i j k l c,
             ~ (i = l /\ i < r /\ j < r /\ k < r
                /\ ((j = k /\ dict_get j (pure_terms info) = Ok c)
                    \/ (j <> k
                        /\ dict_get (frozenset [j; k]) (mixed_terms info) = Ok c))) ->
             data PQ [i; j; k; l; c] = 0%R).
  { intros i j k l c Hnot. rewrite Hcell.
    destruct (decide _) as [(-> & Hi & Hj & Hk & Hc)|]; [|reflexivity].
    exfalso. apply Hnot. repeat (split; [assumption || reflexivity|]).
    destruct (decide (j = k)) as [->|Hne].
    - left. split; [reflexivity|].
      destruct (pure_lookup r powers info pure mixed Ht k Hk) as (c' & Hg & _ & Hc').
      congruence.
    - right. split; [exact Hne|].
      destruct (mixed_lookup r powers info pure mixed Ht j k Hj Hk Hne)
        as (c' & Hg & _ & Hc').
      congruence. }
  exists info, PQ.
  split; [exact (lt_info _ _ _ _ _ Ht)|]. split; [exact HPQ|].
  split; [exact Hsh|].
  split; [|split; [|split; [|split; [|split; [|split; [|split]]]]]].
  - intros j Hj.
    destruct (pure_lookup r powers info pure mixed Ht j Hj) as (c & Hg & Hc & Hcol).
    exists c. split; [exact Hc|]. split; [exact Hg|].
    rewrite <- Hcol. apply Hcolumn; exact Hj.
  - intros j k Hj Hk Hne.
    destruct (mixed_lookup r powers info pure mixed Ht j k Hj Hk Hne)
      as (c & Hg & Hc & Hcol).
    exists c. split; [exact Hc|]. split; [exact Hg|].
    rewrite <- Hcol. apply Hcolumn; assumption.
  - intros i j c Hi Hj Hg. rewrite Hcell.
    destruct (pure_lookup r powers info pure mixed Ht j Hj) as (c' & Hg' & _ & Hc').
    rewrite decide_True.
    + unfold PQ_weight. rewrite decide_True; reflexivity.
    + repeat (split; [assumption || reflexivity|]). congruence.
  - intros i j k c Hi Hj Hk Hne Hg. rewrite Hcell.
    destruct (mixed_lookup r powers info pure mixed Ht j k Hj Hk Hne)
      as (c' & Hg' & _ & Hc').
    rewrite decide_True.
    + unfold PQ_weight. rewrite decide_False by exact Hne. reflexivity.
    + repeat (split; [assumption || reflexivity|]). congruence.
  - exact Hzero.
  - intros i j k l c Hnz. rewrite Hcell in Hnz |- *.
    destruct (decide _) as [(-> & Hi & Hj & Hk & ->)|]; [|contradiction].
    repeat (split; [assumption || reflexivity|]).
    split; [apply Hcolumn; assumption | reflexivity].
  - intros i j k l c. rewrite !Hcell.
    assert (Hcol : PQ_col info j k = PQ_col info k j).
    { destruct (decide (j = k)) as [->|Hne]; [reflexivity|].
      unfold PQ_col. rewrite !decide_False by congruence.
      rewrite frozenset_swap. reflexivity. }
    assert (Hw : PQ_weight j k = PQ_weight k j).
    { destruct (decide (j = k)) as [->|Hne]; [reflexivity|].
      unfold PQ_weight. rewrite !decide_False by congruence. reflexivity. }
    rewrite Hcol, Hw.
    destruct (decide (i = l /\ i < r /\ j < r /\ k < r /\ c = PQ_col info k j))
      as [H|H].
    + rewrite decide_True by tauto. reflexivity.
    + rewrite decide_False by tauto. reflexivity.
  - intros i j k l c m Hm Hnz. destruct (decide (j = k)) as [|Hne]; [assumption|].
    exfalso. apply Hnz. apply Hzero.
    intros (-> & Hi & Hj & Hk & [[Heq _]|[_ Hmix]]); [contradiction|].
    rewrite (lt_pure_terms _ _ _ _ _ Ht) in Hm.
    rewrite (lt_mixed_terms _ _ _ _ _ Ht) in Hmix.
    apply dict_get_Ok in Hm, Hmix.
    destruct (lt_pure_value _ _ _ _ _ Ht m c Hm) as (e & He & Hmax & _).
    destruct (lt_mixed_value _ _ _ _ _ Ht _ c Hmix) as (e' & He' & Hmax' & _).
    rewrite He in He'. inversion He'. subst e'.
    rewrite Hmax in Hmax'. discriminate.
Qed.

Lemma build_PQ_entries_witness :
  2 <= 3 /\ wf_library 3 (poly_powers false 3)
  /\ exists info PQ,
       _build_lib_info (enumerate (poly_powers false 3)) = Ok info
       /\ _build_PQ (enumerate (poly_powers false 3)) = Ok PQ
       /\ shape PQ = [3; 3; 3; 3; length (poly_powers false 3)]
       /\ (forall j, j < 3 ->
             exists c, c < length (poly_powers false 3)
               /\ dict_get j (pure_terms info) = Ok c
               /\ poly_powers false 3 !! c = Some (monomial 3 [j; j]))
       /\ (forall j k, j < 3 -> k < 3 -> j <> k ->
             exists c, c < length (poly_powers false 3)
               /\ dict_get (frozenset [j; k]) (mixed_terms info) = Ok c
               /\ poly_powers false 3 !! c = Some (monomial 3 [j; k]))
       /\ (forall i j c, i < 3 -> j < 3 ->
             dict_get j (pure_terms info) = Ok c ->
             data PQ [i; j; j; i; c] = 1%R)
       /\ (forall i j k c, i < 3 -> j < 3 -> k < 3 -> j <> k ->
             dict_get (frozenset [j; k]) (mixed_terms info) = Ok c ->
             data PQ [i; j; k; i; c] = (1 / 2)%R)
       /\ (forall i j k l c,
             ~ (i = l /\ i < 3 /\ j < 3 /\ k < 3
                /\ ((j = k /\ dict_get j (pure_terms info) = Ok c)
                    \/ (j <> k
                        /\ dict_get (frozenset [j; k]) (mixed_terms info) = Ok c))) ->
             data PQ [i; j; k; l; c] = 0%R)
       /\ (forall i j k l c, data PQ [i; j; k; l; c] <> 0%R ->
             i = l /\ i < 3 /\ j < 3 /\ k < 3
             /\ poly_powers false 3 !! c = Some (monomial 3 [j; k])
             /\ data PQ [i; j; k; l; c] = PQ_weight j k)
       /\ (forall i j k l c, data PQ [i; j; k; l; c] = data PQ [i; k; j; l; c])
       /\ (forall i j k l c m,
             dict_get m (pure_terms info) = Ok c ->
             data PQ [i; j; k; l; c] <> 0%R -> j = k).
Proof.
  assert (Hwf : wf_library 3 (poly_powers false 3))
    by (apply wf_libraryb_spec; vm_compute; reflexivity).
  split; [lia|]. split; [exact Hwf|].
  apply (build_PQ_entries 3 (poly_powers false 3)); [lia | exact Hwf].
Defined.

(** A table built by a dict comprehension over the enumerated terms maps a
    key to the position of the one term that the comprehension files under
    it, when no term occurs twice. *)
Lemma table_lookup {K} `{EqDecision K} (entry : polyterm -> result (option (K * nat)))
    (spec : K -> list nat -> Prop) (powers : list (list nat))
    (kvs : list (K * nat)) :
  NoDup powers ->
  comprehension entry (enumerate powers) = Ok kvs ->
  (forall c e k c', powers !! c = Some e ->
     entry (c, e) = Ok (Some (k, c')) <-> c' = c /\ spec k e) ->
  (forall k e e', spec k e -> spec k e' -> e = e') ->
  forall k c, dict_find k (dict_of kvs) = Some c
    <-> exists e, powers !! c = Some e /\ spec k e.
Proof.
  intros Hnd Hrun Hentry Hfun.
  assert (Hto : forall k c, dict_find k (dict_of kvs) = Some c ->
                  exists e, powers !! c = Some e /\ spec k e).
  { intros k c Hf. apply dict_of_find in Hf.
    apply (comprehension_elem _ _ _ Hrun) in Hf as ([i e] & Hin & He).
    apply elem_of_enumerate in Hin.
    apply (Hentry i e k c Hin) in He as [-> Hs]. exists e. auto. }
  intros k c. split; [apply Hto|].
  intros (e & He & Hs).
  assert (Hin : (k, c) ∈ kvs).
  { apply (comprehension_elem _ _ _ Hrun). exists (c, e). split.
    - apply elem_of_enumerate. exact He.
    - apply (Hentry c e k c He). auto. }
  assert (Hdef : is_Some (dict_find k (dict_of kvs))).
  { apply dict_of_defined. apply list_elem_of_fmap. exists (k, c). auto. }
  destruct Hdef as [c' Hc']. rewrite Hc'. f_equal.
  destruct (Hto k c' Hc') as (e' & He' & Hs').
  assert (e' = e) by (eapply Hfun; eassumption). subst e'.
  eapply NoDup_lookup; eassumption.
Qed.

(** X2. On a degree-2 library of [r] variables without repeated terms, the
    tables of [_build_lib_info] invert the enumeration of the terms: the
    linear table maps the variable [j] to the position of the term [x_j],
    the pure table maps it to the position of [x_j^2], and the mixed table
    maps the pair [{j, k}], [j < k], to the position of [x_j x_k]; no table
    has any other key. *)
Theorem lib_info_tables (r : nat) (powers : list (list nat)) :
  1 <= r -> wf_library r powers -> NoDup powers ->
  exists info,
    _build_lib_info (enumerate powers) = Ok info
    /\ n_targets info = r /\ n_features info = length powers
    /\ (forall j c, dict_find j (linear_terms info) = Some c
          <-> j < r /\ powers !! c = Some (monomial r [j]))
    /\ (forall j c, dict_find j (pure_terms info) = Some c
          <-> j < r /\ powers !! c = Some (monomial r [j; j]))
    /\ (forall key c, dict_find key (mixed_terms info) = Some c
          <-> exists j k, j < k < r /\ key = [j; k]
                /\ powers !! c = Some (monomial r [j; k])).
Proof.
  intros Hr Hwf Hnd.
  destruct (lib_tables_wf r powers Hr Hwf) as (info & pure & mixed & Ht).
  pose proof (lt_info _ _ _ _ _ Ht) as Hinfo.
  destruct (build_lib_info_Ok _ _ Hinfo)
    as (t0 & mixed' & pure' & linear & _ & Hmixed & Hpure & Hlinear & Heq).
  destruct Hwf as (Hall & _ & _). rewrite Forall_forall in Hall.
  assert (Hlen : forall c e, powers !! c = Some e -> length e = r /\ Py.sum e <= 2).
  { intros c e He. apply Hall. eapply list_elem_of_lookup_2. exact He. }
  exists info. split; [exact Hinfo|].
  split; [exact (lt_targets _ _ _ _ _ Ht)|].
  split; [exact (lt_features _ _ _ _ _ Ht)|].
  rewrite Heq. cbn [linear_terms pure_terms mixed_terms].
  split; [|split].
  - intros j c.
    rewrite (table_lookup linear_entry (fun k e => k < r /\ e = monomial r [k])
               powers linear Hnd Hlinear).
    + split.
      * intros (e & He & Hj & ->). auto.
      * intros (Hj & He). eexists. eauto.
    + intros c0 e k c' He. apply linear_entry_spec. apply (Hlen c0 e He).
    + intros k e e' [_ ->] [_ ->]. reflexivity.
  - intros j c.
    rewrite (table_lookup pure_entry (fun k e => k < r /\ e = monomial r [k; k])
               powers pure' Hnd Hpure).
    + split.
      * intros (e & He & Hj & ->). auto.
      * intros (Hj & He). eexists. eauto.
    + intros c0 e k c' He. destruct (Hlen c0 e He). apply pure_entry_spec; assumption.
    + intros k e e' [_ ->] [_ ->]. reflexivity.
  - intros key c.
    rewrite (table_lookup mixed_entry
               (fun key e => exists j k, j < k < r /\ key = [j; k]
                               /\ e = monomial r [j; k])
               powers mixed' Hnd Hmixed).
    + split.
      * intros (e & He & j & k & Hjk & -> & ->). exists j, k. auto.
      * intros (j & k & Hjk & -> & He). eexists. split; [exact He|].
        exists j, k. auto.
    + intros c0 e k c' He. apply mixed_entry_spec. apply (Hlen c0 e He).
    + intros k e e' (j & k' & _ & -> & ->) (j' & k'' & _ & Heq' & ->).
      inversion Heq'. reflexivity.
Qed.

Lemma lib_info_tables_witness :
  exists info,
    _build_lib_info (enumerate (poly_powers true 3)) = Ok info
    /\ n_targets info = 3 /\ n_features info = length (poly_powers true 3)
    /\ (forall j c, dict_find j (linear_terms info) = Some c
          <-> j < 3 /\ poly_powers true 3 !! c = Some (monomial 3 [j]))
    /\ (forall j c, dict_find j (pure_terms info) = Some c
          <-> j < 3 /\ poly_powers true 3 !! c = Some (monomial 3 [j; j]))
    /\ (forall key c, dict_find key (mixed_terms info) = Some c
          <-> exists j k, j < k < 3 /\ key = [j; k]
                /\ poly_powers true 3 !! c = Some (monomial 3 [j; k])).
Proof.
  apply (lib_info_tables 3 (poly_powers true 3)).
  - lia.
  - apply wf_libraryb_spec. vm_compute. reflexivity.
  - apply (bool_decide_eq_true_1 (NoDup (poly_powers true 3))). vm_compute. reflexivity.
Defined.

(** ** The constant projection *)

Lemma c_terms_nil (s : nat) (xs : list (list nat)) :
  map fst (filter (fun t : polyterm => Py.sum t.2 = 0) (enumerate_from s xs)) = [] ->
  Forall (fun e => Py.sum e <> 0) xs.
Proof.
  revert s. induction xs as [|x xs IH]; intros s; simpl; [constructor|].
  rewrite filter_cons. simpl. destruct (decide (Py.sum x = 0)) as [Hz|Hnz].
  - discriminate.
  - intros H. constructor; [exact Hnz | exact (IH _ H)].
Qed.

Lemma c_terms_cons (s c : nat) (rest : list nat) (xs : list (list nat)) :
  map fst (filter (fun t : polyterm => Py.sum t.2 = 0) (enumerate_from s xs))
  = c :: rest ->
  s <= c /\ exists e, xs !! (c - s) = Some e /\ Py.sum e = 0
    /\ forall c' e', c' < c - s -> xs !! c' = Some e' -> Py.sum e' <> 0.
Proof.
  revert s. induction xs as [|x xs IH]; intros s; simpl; [discriminate|].
  rewrite filter_cons. simpl. destruct (decide (Py.sum x = 0)) as [Hz|Hnz].
  - simpl. intros H. inversion H. subst. split; [lia|].
    rewrite Nat.sub_diag. exists x. split; [reflexivity|]. split; [exact Hz|].
    intros c' e' Hc'. lia.
  - intros H. destruct (IH _ H) as (Hle & e & He & Hs & Hbefore).
    split; [lia|]. exists e.
    replace (c - s) with (S (c - S s)) by lia. split; [exact He|].
    split; [exact Hs|].
    intros [|c'] e' Hc' He'; simpl in He'.
    + inversion He'. subst. exact Hnz.
    + apply (Hbefore c' e'); [lia | exact He'].
Qed.

Lemma first_constant_unique (powers : list (list nat)) (c c' : nat) :
  first_constant powers c -> first_constant powers c' -> c = c'.
Proof.
  intros (e & He & Hs & Hb) (e' & He' & Hs' & Hb').
  destruct (Nat.lt_trichotomy c c') as [H|[H|H]]; [|exact H|].
  - exfalso. exact (Hb' c e H He Hs).
  - exfalso. exact (Hb c' e' H He' Hs').
Qed.

Lemma info_features (powers : list (list nat)) (info : lib_info) :
  _build_lib_info (enumerate powers) = Ok info ->
  n_features info = length powers.
Proof.
  intros H. apply build_lib_info_Ok in H as (t0 & m & p & l & _ & _ & _ & _ & ->).
  simpl. apply length_enumerate_from.
Qed.

Lemma build_PC_run (powers : list (list nat)) :
  match _build_lib_info (enumerate powers) with
  | Raise e => _build_PC (enumerate powers) = Raise e
  | Ok info =>
      exists PC,
        _build_PC (enumerate powers) = Ok PC
        /\ shape PC = [n_targets info; n_targets info; length powers]
        /\ (forall i c, i < n_targets info -> first_constant powers c ->
              data PC [i; i; c] = 1%R)
        /\ (forall i j c,
              ~ (i = j /\ i < n_targets info /\ first_constant powers c) ->
              data PC [i; j; c] = 0%R)
  end.
Proof.
  destruct (_build_lib_info (enumerate powers)) as [info|e] eqn:Hinfo.
  2:{ unfold _build_PC. rewrite Hinfo. reflexivity. }
  unfold _build_PC. rewrite Hinfo. cbn [mbind result_bind Py.bind].
  rewrite (info_features powers info Hinfo).
  set (n := n_targets info).
  match goal with
  | |- context [map fst ?l] => destruct (map fst l) as [|c rest] eqn:Hc
  end; unfold enumerate in Hc.
  - apply c_terms_nil in Hc. rewrite Forall_forall in Hc.
    eexists. split; [reflexivity|]. split; [reflexivity|]. split.
    + intros i c _ (e & He & Hs & _). exfalso.
      apply (Hc e); [eapply list_elem_of_lookup_2; exact He | exact Hs].
    + reflexivity.
  - apply c_terms_cons in Hc as (_ & e & He & Hs & Hbefore).
    rewrite Nat.sub_0_r in He, Hbefore.
    assert (Hfirst : first_constant powers c) by (exists e; auto).
    assert (Hcp : c < length powers) by (eapply lookup_lt_Some; exact He).
    destruct (writes_spec (fun _ => 1%R)
                (map (fun i => ([i; i; c], 1%R)) (range n))
                (zeros [n; n; length powers])) as (PC & Hrun & Hsh & Hdata).
    { apply Forall_forall. intros [idx v] Hin.
      apply list_elem_of_fmap in Hin as (i & Heq & Hi). inversion Heq. subst.
      apply elem_of_range in Hi. simpl. split; [|reflexivity].
      rewrite !andb_true_iff, !Nat.ltb_lt. auto. }
    rewrite for_each_map in Hrun. exists PC. split; [exact Hrun|].
    split; [exact Hsh|].
    assert (Hmem : forall i j f,
               [i; j; f] ∈ map fst (map (fun i => ([i; i; c], 1%R)) (range n))
               <-> i = j /\ i < n /\ f = c).
    { intros i j f. rewrite map_map. simpl. rewrite list_elem_of_fmap. split.
      - intros (i' & Heq & Hi'). inversion Heq. subst.
        apply elem_of_range in Hi'. auto.
      - intros (-> & Hi & ->). exists j. split; [reflexivity|].
        apply elem_of_range. exact Hi. }
    split.
    + intros i c' Hi Hc'. rewrite Hdata.
      rewrite (first_constant_unique _ _ _ Hc' Hfirst).
      rewrite decide_True; [reflexivity | apply Hmem; auto].
    + intros i j c' Hnot. rewrite Hdata.
      rewrite decide_False; [reflexivity|].
      intros Hin. apply Hmem in Hin as (-> & Hi & ->). apply Hnot. auto.
Qed.

(** X3. [_build_PC] fails exactly as [_build_lib_info] does.  Otherwise it
    returns a tensor of shape [(n, n, p)] that holds 1 at [(i, i, c)] for
    every target [i], where [c] is the position of the first term of degree
    zero, and 0 in every other cell; without such a term (a library without
    bias) the tensor is zero. *)
Theorem build_PC_cells (powers : list (list nat)) :
  match _build_lib_info (enumerate powers) with
  | Raise e => _build_PC (enumerate powers) = Raise e
  | Ok info =>
      exists PC,
        _build_PC (enumerate powers) = Ok PC
        /\ shape PC = [n_targets info; n_targets info; length powers]
        /\ (forall i c, i < n_targets info -> first_constant powers c ->
              data PC [i; i; c] = 1%R)
        /\ (forall i j c,
              ~ (i = j /\ i < n_targets info /\ first_constant powers c) ->
              data PC [i; j; c] = 0%R)
  end.
Proof. exact (build_PC_run powers). Qed.

(** ** The linear projection *)

Section LinearProjection.

Variables (r : nat) (powers : list (list nat)) (info : lib_info).
Hypothesis Hinfo : _build_lib_info (enumerate powers) = Ok info.
Hypothesis Htargets : n_targets info = r.

Lemma linear_col_bound (j c : nat) :
  dict_find j (linear_terms info) = Some c -> c < length powers.
Proof.
  intros Hf.
  destruct (build_lib_info_Ok _ _ Hinfo)
    as (t0 & m & p & l & _ & _ & _ & Hl & Heq).
  rewrite Heq in Hf. simpl in Hf. apply dict_of_find in Hf.
  apply (comprehension_elem _ _ _ Hl) in Hf as ([i e] & Hin & He).
  unfold linear_entry in He. simpl in He.
  destruct (Py.sum e =? 1); [|discriminate]. inversion He. subst.
  apply elem_of_enumerate in Hin. eapply lookup_lt_Some. exact Hin.
Qed.

(** One pass of the outer loop of [_build_PL], while the linear term of the
    variable is there. *)
Lemma build_PL_body (j c : nat) (PL : ndarray) :
  dict_find j (linear_terms info) = Some c ->
  (col ← dict_get j (linear_terms info);
   for_each (range r) (fun i => setitem [i; j; i; col] 1) PL)
  = for_each (map (fun i => ([i; j; i; PL_col info j], 1%R)) (range r))
      (fun w => setitem w.1 w.2) PL.
Proof.
  intros Hf. unfold PL_col, dict_get. rewrite Hf. simpl.
  rewrite for_each_map. reflexivity.
Qed.

Lemma elem_of_PL_writes (i j k c : nat) :
  [i; j; k; c] ∈ map fst (PL_writes info r)
  <-> i = k /\ i < r /\ j < r /\ c = PL_col info j.
Proof.
  unfold PL_writes. rewrite list_elem_of_fmap. split.
  - intros ([idx v] & Heq & Hin). simpl in Heq. subst idx.
    apply list_elem_of_In, in_flat_map in Hin as (j' & Hj' & Hin).
    apply list_elem_of_In, elem_of_range in Hj'.
    apply list_elem_of_In, list_elem_of_fmap in Hin as (i' & Heq & Hi').
    inversion Heq. subst. apply elem_of_range in Hi'. auto.
  - intros (-> & Hi & Hj & ->).
    exists ([k; j; k; PL_col info j], 1%R). split; [reflexivity|].
    apply list_elem_of_In, in_flat_map. exists j. split.
    + apply list_elem_of_In, elem_of_range. exact Hj.
    + apply list_elem_of_In, list_elem_of_fmap. exists k.
      split; [reflexivity | apply elem_of_range; exact Hi].
Qed.

Lemma build_PL_cells_col :
  (forall j, j < r -> is_Some (dict_find j (linear_terms info))) ->
  exists PL PLu,
    _build_PL (enumerate powers) = Ok (PL, PLu)
    /\ shape PLu = [r; r; r; length powers]
    /\ shape PL = [r; r; r; length powers]
    /\ (forall i j k c, data PLu [i; j; k; c]
          = if decide (i = k /\ i < r /\ j < r /\ c = PL_col info j)
            then 1%R else 0%R)
    /\ (forall i j k c, data PL [i; j; k; c]
          = ((data PLu [i; j; k; c] + data PLu [j; i; k; c]) / 2)%R).
Proof.
  intros Hdef. unfold _build_PL. rewrite Hinfo. cbn [mbind result_bind Py.bind].
  rewrite Htargets, (info_features powers info Hinfo).
  set (sh := [r; r; r; length powers]).
  destruct (writes_spec (fun _ => 1%R) (PL_writes info r) (zeros sh))
    as (PLu & Hrun & Hsh & Hdata).
  { apply Forall_forall. intros [idx v] Hin. unfold PL_writes in Hin.
    apply list_elem_of_In, in_flat_map in Hin as (j & Hj & Hin).
    apply list_elem_of_In, elem_of_range in Hj.
    apply list_elem_of_In, list_elem_of_fmap in Hin as (i & Heq & Hi).
    apply elem_of_range in Hi. inversion Heq. subst. simpl.
    split; [|reflexivity].
    destruct (Hdef j Hj) as [c Hc].
    assert (Hb := linear_col_bound j c Hc).
    unfold PL_col. rewrite Hc. simpl.
    rewrite !andb_true_iff, !Nat.ltb_lt. auto. }
  assert (Hloop : for_each (range r)
                    (fun j PL =>
                       col ← dict_get j (linear_terms info);
                       for_each (range r) (fun i => setitem [i; j; i; col] 1) PL)
                    (zeros sh) = Ok PLu).
  { rewrite <- Hrun. unfold PL_writes. rewrite <- for_each_flat_map.
    apply for_each_ext. intros j t Hj. apply elem_of_range in Hj.
    destruct (Hdef j Hj) as [c Hc]. apply (build_PL_body j c t Hc). }
  rewrite Hloop. cbn [mbind result_bind Py.bind].
  eexists _, PLu. split; [reflexivity|]. split; [exact Hsh|].
  split; [simpl; exact Hsh|]. split.
  - intros i j k c. rewrite Hdata. simpl.
    destruct (decide ([i; j; k; c] ∈ map fst (PL_writes info r))) as [Hin|Hnin].
    + rewrite decide_True; [reflexivity | apply elem_of_PL_writes; exact Hin].
    + rewrite decide_False; [reflexivity|].
      intros H. apply Hnin, elem_of_PL_writes. exact H.
  - intros i j k c. reflexivity.
Qed.

(** The loop stops with a [KeyError] at the first variable without a linear
    term. *)
Lemma build_PL_loop_KeyError (js : list nat) (PL : ndarray) :
  shape PL = [r; r; r; length powers] ->
  Forall (fun j => j < r) js ->
  Exists (fun j => dict_find j (linear_terms info) = None) js ->
  for_each js
    (fun j PL =>
       col ← dict_get j (linear_terms info);
       for_each (range r) (fun i => setitem [i; j; i; col] 1) PL) PL
  = Raise KeyError.
Proof.
  revert PL. induction js as [|j js IH]; intros PL Hsh Hall Hex.
  - inversion Hex.
  - apply Forall_cons in Hall as [Hj Hall']. simpl.
    destruct (dict_find j (linear_terms info)) as [c|] eqn:Hf.
    2:{ unfold dict_get. rewrite Hf. reflexivity. }
    unfold dict_get at 1. rewrite Hf. cbn [mbind result_bind Py.bind].
    assert (Hb := linear_col_bound j c Hf).
    destruct (for_each_invariant (fun a => shape a = [r; r; r; length powers])
                (range r) (fun i => setitem [i; j; i; c] 1) PL Hsh)
      as (PL' & Hrun & Hsh').
    { intros i a Hi Ha. apply elem_of_range in Hi.
      destruct (setitem_in_bounds [i; j; i; c] 1 a) as (a' & Hset & Hsa).
      - rewrite Ha. simpl. rewrite !andb_true_iff, !Nat.ltb_lt. auto.
      - exists a'. split; [exact Hset | congruence]. }
    rewrite Hrun. cbn [mbind result_bind Py.bind].
    apply IH; [exact Hsh' | exact Hall'|].
    apply Exists_cons in Hex as [Hex|Hex]; [congruence | exact Hex].
Qed.

End LinearProjection.

Lemma transpose_swap4 (a : ndarray) (i j k c : nat) :
  data (transpose [1; 0; 2; 3] a) [i; j; k; c] = data a [j; i; k; c].
Proof. reflexivity. Qed.

Lemma transpose_swap5 (a : ndarray) (i j k l c : nat) :
  data (transpose [1; 0; 2; 3; 4] a) [i; j; k; l; c] = data a [j; i; k; l; c].
Proof. reflexivity. Qed.

Lemma linear_terms_defined (r : nat) (powers : list (list nat)) (info : lib_info) :
  _build_lib_info (enumerate powers) = Ok info ->
  has_linear_terms r powers ->
  forall j, j < r -> is_Some (dict_find j (linear_terms info)).
Proof.
  intros Hinfo Hlin j Hj.
  destruct (build_lib_info_Ok _ _ Hinfo)
    as (t0 & m & p & l & _ & _ & _ & Hl & ->). simpl.
  apply dict_of_defined. apply list_elem_of_fmap.
  destruct (proj1 (list_elem_of_lookup _ _) (Hlin j Hj)) as [c Hc].
  exists (j, c). split; [reflexivity|].
  apply (comprehension_elem _ _ _ Hl). exists (c, monomial r [j]). split.
  - apply elem_of_enumerate. exact Hc.
  - apply linear_entry_single. exact Hj.
Qed.

Lemma linear_terms_position (r : nat) (powers : list (list nat)) (info : lib_info) :
  _build_lib_info (enumerate powers) = Ok info ->
  Forall (fun e => length e = r) powers -> NoDup powers ->
  forall j c, dict_find j (linear_terms info) = Some c
    <-> j < r /\ powers !! c = Some (monomial r [j]).
Proof.
  intros Hinfo Hall Hnd j c.
  destruct (build_lib_info_Ok _ _ Hinfo)
    as (t0 & m & p & l & _ & _ & _ & Hl & ->). simpl.
  rewrite Forall_forall in Hall.
  rewrite (table_lookup linear_entry (fun k e => k < r /\ e = monomial r [k])
             powers l Hnd Hl).
  - split.
    + intros (e & He & Hj & ->). auto.
    + intros (Hj & He). eexists. eauto.
  - intros c0 e k c' He. apply linear_entry_spec. apply Hall.
    eapply list_elem_of_lookup_2. exact He.
  - intros k e e' [_ ->] [_ ->]. reflexivity.
Qed.

(** X4. On a degree-2 library of [r] variables that has every linear term
    and no repeated term, [_build_PL] returns two tensors of shape
    [(r, r, r, p)]: the unsymmetrized one holds 1 at [(i, j, i, c)] where [c]
    is the position of the term [x_j], and 0 elsewhere; the other is its
    average with its transpose in the first two axes, hence symmetric in
    them. *)
Theorem build_PL_cells (r : nat) (powers : list (list nat)) :
  1 <= r -> wf_library r powers -> has_linear_terms r powers -> NoDup powers ->
  exists PL PLu,
    _build_PL (enumerate powers) = Ok (PL, PLu)
    /\ shape PLu = [r; r; r; length powers]
    /\ shape PL = [r; r; r; length powers]
    /\ (forall i j c, i < r -> j < r -> powers !! c = Some (monomial r [j]) ->
          data PLu [i; j; i; c] = 1%R)
    /\ (forall i j k c,
          ~ (i = k /\ i < r /\ j < r /\ powers !! c = Some (monomial r [j])) ->
          data PLu [i; j; k; c] = 0%R)
    /\ (forall i j k c, data PL [i; j; k; c]
          = ((data PLu [i; j; k; c] + data PLu [j; i; k; c]) / 2)%R)
    /\ (forall i j k c, data PL [i; j; k; c] = data PL [j; i; k; c]).
Proof.
  intros Hr Hwf Hlin Hnd.
  destruct (lib_tables_wf r powers Hr Hwf) as (info & pure & mixed & Ht).
  pose proof (lt_info _ _ _ _ _ Ht) as Hinfo.
  pose proof (lt_targets _ _ _ _ _ Ht) as Htg.
  pose proof (linear_terms_defined r powers info Hinfo Hlin) as Hdef.
  pose proof (linear_terms_position r powers info Hinfo
                (lt_lengths _ _ _ _ _ Ht) Hnd) as Hpos.
  destruct (build_PL_cells_col r powers info Hinfo Htg Hdef)
    as (PL & PLu & Hrun & Hshu & Hsh & Hu & Hs).
  assert (Hcol : forall j c, j < r ->
             c = PL_col info j <-> powers !! c = Some (monomial r [j])).
  { intros j c Hj. destruct (Hdef j Hj) as [c' Hc'].
    unfold PL_col. rewrite Hc'. simpl. split.
    - intros ->. apply Hpos. exact Hc'.
    - intros Hc. assert (dict_find j (linear_terms info) = Some c)
        by (apply Hpos; auto). congruence. }
  exists PL, PLu. split; [exact Hrun|]. split; [exact Hshu|]. split; [exact Hsh|].
  split; [|split; [|split]].
  - intros i j c Hi Hj Hc. rewrite Hu. rewrite decide_True; [reflexivity|].
    split; [reflexivity|]. split; [exact Hi|]. split; [exact Hj|].
    apply Hcol; assumption.
  - intros i j k c Hnot. rewrite Hu. rewrite decide_False; [reflexivity|].
    intros (-> & Hi & Hj & Hc). apply Hnot. split; [reflexivity|].
    split; [exact Hi|]. split; [exact Hj|]. apply Hcol; assumption.
  - exact Hs.
  - intros i j k c. rewrite !Hs. lra.
Qed.

Lemma poly_powers_linear (include_bias : bool) (r : nat) :
  has_linear_terms r (poly_powers include_bias r).
Proof.
  intros j Hj. unfold poly_powers. rewrite !elem_of_app. right. left.
  apply list_elem_of_fmap. exists j. split; [reflexivity|].
  apply elem_of_range. exact Hj.
Qed.

Lemma build_PL_cells_witness :
  exists PL PLu,
    _build_PL (enumerate (poly_powers true 2)) = Ok (PL, PLu)
    /\ shape PLu = [2; 2; 2; length (poly_powers true 2)]
    /\ shape PL = [2; 2; 2; length (poly_powers true 2)]
    /\ (forall i j c, i < 2 -> j < 2 ->
          poly_powers true 2 !! c = Some (monomial 2 [j]) ->
          data PLu [i; j; i; c] = 1%R)
    /\ (forall i j k c,
          ~ (i = k /\ i < 2 /\ j < 2
             /\ poly_powers true 2 !! c = Some (monomial 2 [j])) ->
          data PLu [i; j; k; c] = 0%R)
    /\ (forall i j k c, data PL [i; j; k; c]
          = ((data PLu [i; j; k; c] + data PLu [j; i; k; c]) / 2)%R)
    /\ (forall i j k c, data PL [i; j; k; c] = data PL [j; i; k; c]).
Proof.
  apply (build_PL_cells 2 (poly_powers true 2)).
  - lia.
  - apply poly_powers_wf.
  - apply poly_powers_linear.
  - apply (bool_decide_eq_true_1 (NoDup (poly_powers true 2))).
    vm_compute. reflexivity.
Defined.

(** X5. When some variable has no term of degree one in the library,
    [_build_PL] raises a [KeyError]: its lookup of the linear term of that
    variable fails. *)
Theorem build_PL_missing_linear (powers : list (list nat)) (info : lib_info)
    (j : nat) :
  _build_lib_info (enumerate powers) = Ok info ->
  j < n_targets info ->
  (forall e, e ∈ powers -> Py.sum e = 1 -> argmax e <> j) ->
  _build_PL (enumerate powers) = Raise KeyError.
Proof.
  intros Hinfo Hj Hnone. unfold _build_PL. rewrite Hinfo.
  cbn [mbind result_bind Py.bind].
  rewrite (build_PL_loop_KeyError (n_targets info) powers info Hinfo).
  - reflexivity.
  - simpl. rewrite (info_features powers info Hinfo). reflexivity.
  - apply Forall_forall. intros i Hi. apply elem_of_range. exact Hi.
  - apply Exists_exists. exists j. split; [apply elem_of_range; exact Hj|].
    destruct (dict_find j (linear_terms info)) as [c|] eqn:Hf; [|reflexivity].
    exfalso.
    destruct (build_lib_info_Ok _ _ Hinfo)
      as (t0 & m & p & l & _ & _ & _ & Hl & Heq).
    rewrite Heq in Hf. simpl in Hf. apply dict_of_find in Hf.
    apply (comprehension_elem _ _ _ Hl) in Hf as ([i e] & Hin & He).
    unfold linear_entry in He. simpl in He.
    destruct (Py.sum e =? 1) eqn:Hs; [|discriminate].
    apply Nat.eqb_eq in Hs. inversion He. subst.
    apply enumerate_index in Hin as [_ Hin].
    exact (Hnone e Hin Hs eq_refl).
Qed.

Lemma build_PL_missing_linear_witness :
  _build_PL (enumerate quadratic_only) = Raise KeyError.
Proof.
  destruct (_build_lib_info (enumerate quadratic_only)) as [info|e] eqn:Hinfo;
    [|vm_compute in Hinfo; discriminate].
  apply (build_PL_missing_linear quadratic_only info 0 Hinfo).
  - vm_compute in Hinfo. inversion Hinfo. simpl. lia.
  - intros e He Hs. unfold quadratic_only in He.
    repeat (apply elem_of_cons in He as [->|He]; [simpl in Hs; lia|]).
    inversion He.
Defined.

(** ** The six projection tensors *)

(** The six tensors on a well-formed library. *)
Lemma set_Ptensors_run (r : nat) (powers : list (list nat)) :
  1 <= r -> wf_library r powers -> has_linear_terms r powers ->
  exists t,
    _set_Ptensors powers = Ok t
    /\ shape (PC_ t) = [r; r; length powers]
    /\ shape (PL_unsym_ t) = [r; r; r; length powers]
    /\ shape (PL_ t) = [r; r; r; length powers]
    /\ shape (PQ_ t) = [r; r; r; r; length powers]
    /\ shape (PT_ t) = [r; r; r; r; length powers]
    /\ shape (PM_ t) = [r; r; r; r; length powers]
    /\ (forall i j k l c,
          data (PT_ t) [i; j; k; l; c] = data (PQ_ t) [j; i; k; l; c])
    /\ (forall i j k l c,
          data (PM_ t) [i; j; k; l; c]
          = (data (PQ_ t) [i; j; k; l; c] + data (PQ_ t) [j; i; k; l; c])%R)
    /\ (forall i j k l c,
          data (PM_ t) [i; j; k; l; c] = data (PM_ t) [j; i; k; l; c]).
Proof.
  intros Hr Hwf Hlin.
  destruct (lib_tables_wf r powers Hr Hwf) as (info & pure & mixed & Ht).
  pose proof (lt_info _ _ _ _ _ Ht) as Hinfo.
  pose proof (lt_targets _ _ _ _ _ Ht) as Htg.
  pose proof (build_PC_run powers) as HPC. rewrite Hinfo in HPC.
  destruct HPC as (PC & HPC & HshC & _). rewrite Htg in HshC.
  destruct (build_PL_cells_col r powers info Hinfo Htg
              (linear_terms_defined r powers info Hinfo Hlin))
    as (PL & PLu & HPL & Hshu & Hsh & _).
  destruct (build_PQ_cells r powers info pure mixed Ht) as (PQ & HPQ & HshQ & _).
  unfold _set_Ptensors. rewrite HPC. cbn [mbind result_bind Py.bind].
  rewrite HPL. cbn [mbind result_bind Py.bind].
  rewrite HPQ. cbn [mbind result_bind Py.bind].
  eexists. split; [reflexivity|]. cbn [PC_ PL_unsym_ PL_ PQ_ PT_ PM_].
  split; [exact HshC|]. split; [exact Hshu|]. split; [exact Hsh|].
  split; [exact HshQ|].
  split; [unfold transpose; simpl; rewrite HshQ; reflexivity|].
  split; [simpl; exact HshQ|].
  split; [intros; reflexivity|]. split; [intros; reflexivity|].
  intros i j k l c. simpl. lra.
Qed.

(** X6. On a degree-2 library of [r] variables that has every linear term,
    [_set_Ptensors] returns its six tensors with the documented shapes;
    [PT_] is [PQ_] with its first two axes exchanged, and [PM_], their sum,
    is symmetric in its first two axes. *)
Theorem set_Ptensors_shapes (r : nat) (powers : list (list nat)) :
  1 <= r -> wf_library r powers -> has_linear_terms r powers ->
  exists t,
    _set_Ptensors powers = Ok t
    /\ shape (PC_ t) = [r; r; length powers]
    /\ shape (PL_unsym_ t) = [r; r; r; length powers]
    /\ shape (PL_ t) = [r; r; r; length powers]
    /\ shape (PQ_ t) = [r; r; r; r; length powers]
    /\ shape (PT_ t) = [r; r; r; r; length powers]
    /\ shape (PM_ t) = [r; r; r; r; length powers]
    /\ (forall i j k l c,
          data (PT_ t) [i; j; k; l; c] = data (PQ_ t) [j; i; k; l; c])
    /\ (forall i j k l c,
          data (PM_ t) [i; j; k; l; c]
          = (data (PQ_ t) [i; j; k; l; c] + data (PQ_ t) [j; i; k; l; c])%R)
    /\ (forall i j k l c,
          data (PM_ t) [i; j; k; l; c] = data (PM_ t) [j; i; k; l; c]).
Proof. exact (set_Ptensors_run r powers). Qed.

Lemma set_Ptensors_shapes_witness :
  exists t,
    _set_Ptensors (poly_powers false 3) = Ok t
    /\ shape (PC_ t) = [3; 3; length (poly_powers false 3)]
    /\ shape (PL_unsym_ t) = [3; 3; 3; length (poly_powers false 3)]
    /\ shape (PL_ t) = [3; 3; 3; length (poly_powers false 3)]
    /\ shape (PQ_ t) = [3; 3; 3; 3; length (poly_powers false 3)]
    /\ shape (PT_ t) = [3; 3; 3; 3; length (poly_powers false 3)]
    /\ shape (PM_ t) = [3; 3; 3; 3; length (poly_powers false 3)]
    /\ (forall i j k l c,
          data (PT_ t) [i; j; k; l; c] = data (PQ_ t) [j; i; k; l; c])
    /\ (forall i j k l c,
          data (PM_ t) [i; j; k; l; c]
          = (data (PQ_ t) [i; j; k; l; c] + data (PQ_ t) [j; i; k; l; c])%R)
    /\ (forall i j k l c,
          data (PM_ t) [i; j; k; l; c] = data (PM_ t) [j; i; k; l; c]).
Proof.
  apply (set_Ptensors_shapes 3 (poly_powers false 3)).
  - lia.
  - apply poly_powers_wf.
  - apply poly_powers_linear.
Defined.

(** ** The cells of the constraint blocks *)

Lemma elem_of_zip_seq {A} (s n i : nat) (x : A) (l : list A) :
  (i, x) ∈ zip (seq s n) l <-> s <= i < s + n /\ l !! (i - s) = Some x.
Proof.
  revert s l. induction n as [|n IH]; intros s l; simpl.
  - split; [intros H; inversion H | intros [H _]; lia].
  - destruct l as [|y l]; simpl.
    + split; [intros H; inversion H | intros [_ H]; discriminate].
    + rewrite elem_of_cons, IH. split.
      * intros [Heq|[Hr Hl]].
        -- inversion Heq. subst. rewrite Nat.sub_diag. split; [lia | reflexivity].
        -- split; [lia|]. replace (i - s) with (S (i - S s)) by lia. exact Hl.
      * intros [Hr Hl]. destruct (decide (i = s)) as [->|Hne].
        -- rewrite Nat.sub_diag in Hl. inversion Hl. left. reflexivity.
        -- right. split; [lia|].
           replace (i - s) with (S (i - S s)) in Hl by lia. exact Hl.
Qed.

Lemma elem_of_zip_range {A} (n i : nat) (x : A) (l : list A) :
  (i, x) ∈ zip (range n) l <-> i < n /\ l !! i = Some x.
Proof.
  unfold range. rewrite elem_of_zip_seq, Nat.sub_0_r. split.
  - intros [H1 H2]. split; [lia | exact H2].
  - intros [H1 H2]. split; [lia | exact H2].
Qed.

(** The cells that [_pure_constraints] writes. *)
Lemma pure_constraints_run (n_tgts n_terms : nat) (pure_terms : dict nat nat) :
  (forall i t f, i < n_tgts -> dict_items pure_terms !! i = Some (t, f) ->
     f < n_terms /\ t < n_tgts) ->
  exists c,
    _pure_constraints n_tgts n_terms pure_terms = Ok c
    /\ shape c = [n_tgts; n_terms; n_tgts]
    /\ forall i f t, data c [i; f; t]
         = if decide (i < n_tgts /\ dict_items pure_terms !! i = Some (t, f))
           then 1%R else 0%R.
Proof.
  intros Hb. unfold _pure_constraints.
  set (xs := zip (range n_tgts) (dict_items pure_terms)).
  destruct (writes_spec (fun _ => 1%R) (map pure_writes xs)
              (zeros [n_tgts; n_terms; n_tgts])) as (c & Hrun & Hsh & Hdata).
  { apply Forall_forall. intros [idx v] Hin.
    apply list_elem_of_fmap in Hin as ([i [t f]] & Heq & Hi).
    apply elem_of_zip_range in Hi as [Hi Hl]. inversion Heq. subst.
    destruct (Hb i t f Hi Hl) as [Hf Ht]. simpl. split; [|reflexivity].
    rewrite !andb_true_iff, !Nat.ltb_lt. auto. }
  rewrite for_each_map in Hrun. exists c. split.
  - rewrite <- Hrun. apply for_each_ext. intros [i [t f]] a _. reflexivity.
  - split; [exact Hsh|]. intros i f t. rewrite Hdata. simpl.
    assert (Hmem : [i; f; t] ∈ map fst (map pure_writes xs)
                   <-> i < n_tgts /\ dict_items pure_terms !! i = Some (t, f)).
    { rewrite map_map, list_elem_of_fmap. split.
      - intros ([i' [t' f']] & Heq & Hin). inversion Heq. subst.
        apply elem_of_zip_range in Hin. exact Hin.
      - intros H. exists (i, (t, f)). split; [reflexivity|].
        apply elem_of_zip_range. exact H. }
    destruct (decide ([i; f; t] ∈ map fst (map pure_writes xs))) as [Hin|Hnin].
    + rewrite decide_True; [reflexivity | apply Hmem; exact Hin].
    + rewrite decide_False; [reflexivity|]. intros H. apply Hnin, Hmem. exact H.
Qed.

(** X7. [_pure_constraints] returns the matrix of shape
    [(n_tgts, n_terms, n_tgts)] whose row [i] holds a single 1, at
    [(i, term, tgt)], where [(tgt, term)] is the [i]-th item of the pure
    table in insertion order; the rows beyond the items of the table are
    zero.  It needs the items it reads to lie within the matrix. *)
Theorem pure_constraints_cells (n_tgts n_terms : nat) (pure_terms : dict nat nat) :
  (forall i t f, i < n_tgts -> dict_items pure_terms !! i = Some (t, f) ->
     f < n_terms /\ t < n_tgts) ->
  exists c,
    _pure_constraints n_tgts n_terms pure_terms = Ok c
    /\ shape c = [n_tgts; n_terms; n_tgts]
    /\ forall i f t, data c [i; f; t]
         = if decide (i < n_tgts /\ dict_items pure_terms !! i = Some (t, f))
           then 1%R else 0%R.
Proof.
  exact (pure_constraints_run n_tgts n_terms pure_terms).
Qed.

Lemma pure_constraints_cells_witness :
  exists c,
    _pure_constraints 2 5 [(0, 2); (1, 4)] = Ok c
    /\ shape c = [2; 5; 2]
    /\ forall i f t, data c [i; f; t]
         = if decide (i < 2 /\ dict_items [(0, 2); (1, 4)] !! i = Some (t, f))
           then 1%R else 0%R.
Proof.
  apply (pure_constraints_cells 2 5 [(0, 2); (1, 4)]).
  intros i t f Hi Hl. destruct i as [|[|i]]; [| |lia]; inversion Hl; lia.
Defined.

(** Two loops that run side by side over a pair of arrays. *)
Lemma for_each_pair {A S} (I1 I2 : S -> Prop) (xs : list A)
    (body : A -> S * S -> result (S * S)) (f1 f2 : A -> S -> result S)
    (a b : S) :
  I1 a -> I2 b ->
  (forall x a b, x ∈ xs -> I1 a -> I2 b ->
     exists a' b', f1 x a = Ok a' /\ f2 x b = Ok b' /\ I1 a' /\ I2 b'
       /\ body x (a, b) = Ok (a', b')) ->
  exists a' b',
    for_each xs f1 a = Ok a' /\ for_each xs f2 b = Ok b'
    /\ for_each xs body (a, b) = Ok (a', b').
Proof.
  revert a b. induction xs as [|x xs IH]; intros a b Ha Hb Hbody; simpl.
  - exists a, b. auto.
  - destruct (Hbody x a b) as (a1 & b1 & H1 & H2 & Ha1 & Hb1 & Hx);
      [left | exact Ha | exact Hb |].
    rewrite H1, H2, Hx. simpl. apply IH; [exact Ha1 | exact Hb1 |].
    intros y a' b' Hy. apply Hbody. right. exact Hy.
Qed.

Section ConstraintCells.

Variables (r : nat) (powers : list (list nat)).
Variables (info : lib_info) (pure : list (nat * nat)) (mixed : list (list nat * nat)).
Hypothesis Htables : lib_tables r powers info pure mixed.
Variable set_order : list nat -> list nat.
Hypothesis Horder : orders_pairs set_order.

Let Hpure_lookup := pure_lookup r powers info pure mixed Htables.
Let Hmixed_lookup := mixed_lookup r powers info pure mixed Htables.

Lemma ordered_triple (ci : nat) (triple : list nat) :
  combinations (range r) 3 !! ci = Some triple ->
  ci < comb r 3 /\ exists i j k, triple = [i; j; k] /\ i < j /\ j < k /\ k < r.
Proof.
  intros Hl. split.
  - apply lookup_lt_Some in Hl. rewrite length_combinations in Hl.
    unfold range in Hl. rewrite length_seq in Hl. exact Hl.
  - apply list_elem_of_lookup_2 in Hl. unfold range in Hl.
    apply elem_of_combinations_seq in Hl as (Hlen & Hs & Hall).
    destruct triple as [|i [|j [|k [|]]]]; try discriminate.
    inversion Hs as [|? ? Hs' Hi]; subst. inversion Hi as [|? ? Hij Hi']; subst.
    inversion Hs' as [|? ? _ Hj]; subst. inversion Hj as [|? ? Hjk _]; subst.
    inversion Hall as [|? ? _ Hall']; subst.
    inversion Hall' as [|? ? _ Hall'']; subst.
    inversion Hall'' as [|? ? Hkr _]; subst.
    exists i, j, k. split; [reflexivity|]. lia.
Qed.

Lemma triple_lookups (i j k : nat) :
  i < j -> j < k -> k < r ->
  find_symm_term (mixed_terms info) j k = Ok (PQ_col info j k)
  /\ find_symm_term (mixed_terms info) k i = Ok (PQ_col info k i)
  /\ find_symm_term (mixed_terms info) i j = Ok (PQ_col info i j)
  /\ PQ_col info j k < length powers /\ PQ_col info k i < length powers
  /\ PQ_col info i j < length powers.
Proof.
  intros Hij Hjk Hk. unfold find_symm_term.
  destruct (Hmixed_lookup j k) as (t1 & Hg1 & Ht1 & <-); [lia..|].
  destruct (Hmixed_lookup k i) as (t2 & Hg2 & Ht2 & <-); [lia..|].
  destruct (Hmixed_lookup i j) as (t3 & Hg3 & Ht3 & <-); [lia..|].
  auto 10.
Qed.

Lemma triple_constraints_cells_col :
  exists c3,
    _antisymm_triple_constraints r (length powers) (mixed_terms info) = Ok c3
    /\ shape c3 = [comb r 3; length powers; r]
    /\ forall idx, data c3 idx
         = if decide (idx ∈ map fst (flat_map (triple_writes info)
                                      (enumerate (combinations (range r) 3))))
           then 1%R else 0%R.
Proof.
  unfold _antisymm_triple_constraints.
  set (xs := enumerate (combinations (range r) 3)).
  set (sh := [comb r 3; length powers; r]).
  destruct (writes_spec (fun _ => 1%R) (flat_map (triple_writes info) xs) (zeros sh))
    as (c3 & Hrun & Hsh & Hdata).
  { apply Forall_forall. intros [idx v] Hin.
    apply list_elem_of_In, in_flat_map in Hin as ([ci triple] & Hx & Hin).
    apply list_elem_of_In, elem_of_enumerate in Hx.
    destruct (ordered_triple ci triple Hx) as (Hci & i & j & k & -> & Hij & Hjk & Hk).
    destruct (triple_lookups i j k Hij Hjk Hk) as (_ & _ & _ & H1 & H2 & H3).
    unfold triple_writes in Hin. simpl in Hin.
    destruct Hin as [Heq|[Heq|[Heq|[]]]]; inversion Heq; subst; simpl;
      (split; [|reflexivity]); rewrite !andb_true_iff, !Nat.ltb_lt;
      repeat split; lia. }
  exists c3. split; [|split; [exact Hsh | exact Hdata]].
  rewrite <- Hrun, <- for_each_flat_map. apply for_each_ext.
  intros [ci triple] a Hx. apply elem_of_enumerate in Hx.
  destruct (ordered_triple ci triple Hx) as (Hci & i & j & k & -> & Hij & Hjk & Hk).
  destruct (triple_lookups i j k Hij Hjk Hk) as (-> & -> & -> & _).
  unfold triple_writes. cbn -[frozenset PQ_col].
  destruct (setitem [ci; PQ_col info j k; i] 1 a) as [a1|]; [|reflexivity].
  cbn -[frozenset PQ_col].
  destruct (setitem [ci; PQ_col info k i; j] 1 a1) as [a2|]; [|reflexivity].
  cbn -[frozenset PQ_col].
  destruct (setitem [ci; PQ_col info i j; k] 1 a2) as [a3|]; reflexivity.
Qed.

Lemma elem_of_triple_writes (ci f t : nat) :
  [ci; f; t] ∈ map fst (flat_map (triple_writes info)
                         (enumerate (combinations (range r) 3)))
  <-> exists i j k, combinations (range r) 3 !! ci = Some [i; j; k]
        /\ ((f = PQ_col info j k /\ t = i) \/ (f = PQ_col info k i /\ t = j)
            \/ (f = PQ_col info i j /\ t = k)).
Proof.
  rewrite list_elem_of_fmap. split.
  - intros ([idx v] & Heq & Hin). simpl in Heq. subst idx.
    apply list_elem_of_In, in_flat_map in Hin as ([ci' triple] & Hx & Hin).
    apply list_elem_of_In, elem_of_enumerate in Hx.
    destruct (ordered_triple ci' triple Hx) as (_ & i & j & k & -> & _).
    unfold triple_writes in Hin. simpl in Hin.
    destruct Hin as [Heq|[Heq|[Heq|[]]]]; exists i, j, k; inversion Heq; subst;
      (split; [exact Hx|]); auto.
  - intros (i & j & k & Hx & Hcase).
    assert (Hin : forall w, In w (triple_writes info (ci, [i; j; k])) ->
              w ∈ flat_map (triple_writes info)
                    (enumerate (combinations (range r) 3))).
    { intros w Hw. apply list_elem_of_In, in_flat_map. exists (ci, [i; j; k]).
      split; [apply list_elem_of_In, elem_of_enumerate; exact Hx | exact Hw]. }
    destruct Hcase as [[-> ->]|[[-> ->]|[-> ->]]].
    + exists ([ci; PQ_col info j k; i], 1%R). split; [reflexivity|].
      apply Hin. left. reflexivity.
    + exists ([ci; PQ_col info k i; j], 1%R). split; [reflexivity|].
      apply Hin. right. left. reflexivity.
    + exists ([ci; PQ_col info i j; k], 1%R). split; [reflexivity|].
      apply Hin. right. right. left. reflexivity.
Qed.

(** The rows of the triple block, by the triple of variables. *)
Lemma triple_constraints_run :
  exists c3,
    _antisymm_triple_constraints r (length powers) (mixed_terms info) = Ok c3
    /\ shape c3 = [comb r 3; length powers; r]
    /\ forall ci i j k, combinations (range r) 3 !! ci = Some [i; j; k] ->
         i < j /\ j < k /\ k < r
         /\ find_symm_term (mixed_terms info) j k = Ok (PQ_col info j k)
         /\ find_symm_term (mixed_terms info) k i = Ok (PQ_col info k i)
         /\ find_symm_term (mixed_terms info) i j = Ok (PQ_col info i j)
         /\ forall f t, data c3 [ci; f; t]
              = if decide ((f = PQ_col info j k /\ t = i)
                           \/ (f = PQ_col info k i /\ t = j)
                           \/ (f = PQ_col info i j /\ t = k))
                then 1%R else 0%R.
Proof.
  destruct triple_constraints_cells_col as (c3 & Hrun & Hsh & Hdata).
  exists c3. split; [exact Hrun|]. split; [exact Hsh|].
  intros ci i j k Hx.
  destruct (ordered_triple ci _ Hx) as (_ & i' & j' & k' & Heq & Hij & Hjk & Hk).
  inversion Heq. subst i' j' k'.
  split; [exact Hij|]. split; [exact Hjk|]. split; [exact Hk|].
  destruct (triple_lookups i j k Hij Hjk Hk) as (H1 & H2 & H3 & _).
  split; [exact H1|]. split; [exact H2|]. split; [exact H3|].
  intros f t. rewrite Hdata.
  destruct (decide ([ci; f; t] ∈ _)) as [Hin|Hnin].
  - apply elem_of_triple_writes in Hin as (i' & j' & k' & Hx' & Hcase).
    rewrite Hx in Hx'. inversion Hx'. subst i' j' k'.
    rewrite decide_True; [reflexivity | exact Hcase].
  - rewrite decide_False; [reflexivity|]. intros Hcase. apply Hnin.
    apply elem_of_triple_writes. exists i, j, k. auto.
Qed.

(** A key of the mixed table is a pair of variables, and unpacking it gives
    the two of them. *)
Lemma unpacked_item (key : list nat) (term : nat) :
  (key, term) ∈ dict_items (dict_of mixed) ->
  term < length powers
  /\ exists a b, a < b < r /\ key = [a; b]
       /\ exists i j, set_order key = [i; j]
            /\ ((i = a /\ j = b) \/ (i = b /\ j = a)).
Proof.
  intros Hin.
  apply (mixed_item r powers info pure mixed Htables) in Hin
    as (Hterm & a & b & Hab & ->).
  split; [exact Hterm|]. exists a, b. split; [exact Hab|].
  split; [reflexivity|].
  destruct (Horder a b) as [Hso|Hso]; [lia| |]; rewrite Hso.
  - exists a, b. auto.
  - exists b, a. auto.
Qed.

(** The two halves of the double block. *)
Lemma double_halves :
  exists m1 m2,
    for_each (enumerate (dict_items (dict_of mixed)))
      (fun '(constr_ind, (key, mix_term)) '(m1, m2) =>
         match set_order key with
         | [tgt_i; tgt_j] =>
             m1 ← setitem [constr_ind; mix_term; tgt_i] 1 m1;
             pure_i ← dict_get tgt_i (dict_of pure);
             m1 ← setitem [constr_ind; pure_i; tgt_j] 1 m1;
             m2 ← setitem [constr_ind; mix_term; tgt_j] 1 m2;
             pure_j ← dict_get tgt_j (dict_of pure);
             m2 ← setitem [constr_ind; pure_j; tgt_i] 1 m2;
             Ok (m1, m2)
         | _ => Raise (ValueError "wrong number of values to unpack")
         end)
      (zeros [comb r 2; length powers; r], zeros [comb r 2; length powers; r])
    = Ok (m1, m2)
    /\ shape m1 = [comb r 2; length powers; r]
    /\ shape m2 = [comb r 2; length powers; r]
    /\ (forall idx, data m1 idx
          = if decide (idx ∈ map fst (flat_map (double_writes_1 set_order info)
                                       (enumerate (dict_items (dict_of mixed)))))
            then 1%R else 0%R)
    /\ (forall idx, data m2 idx
          = if decide (idx ∈ map fst (flat_map (double_writes_2 set_order info)
                                       (enumerate (dict_items (dict_of mixed)))))
            then 1%R else 0%R).
Proof.
  set (xs := enumerate (dict_items (dict_of mixed))).
  set (sh := [comb r 2; length powers; r]).
  assert (Hitem : forall ci key term, (ci, (key, term)) ∈ xs ->
            ci < comb r 2 /\ term < length powers
            /\ exists i j, i < r /\ j < r /\ set_order key = [i; j]
                 /\ dict_get i (dict_of pure) = Ok (PQ_col info i i)
                 /\ dict_get j (dict_of pure) = Ok (PQ_col info j j)
                 /\ PQ_col info i i < length powers
                 /\ PQ_col info j j < length powers).
  { intros ci key term Hin. apply enumerate_index in Hin as [Hci Hitem].
    change (length (dict_items (dict_of mixed)))
      with (dict_len (dict_of mixed)) in Hci.
    rewrite (mixed_count r powers info pure mixed Htables) in Hci.
    apply unpacked_item in Hitem
      as (Hterm & a & b & Hab & _ & i & j & Hso & Hij).
    assert (Hi : i < r) by (destruct Hij as [[-> ->]|[-> ->]]; lia).
    assert (Hj : j < r) by (destruct Hij as [[-> ->]|[-> ->]]; lia).
    destruct (Hpure_lookup i Hi) as (pa & Hga & Hpa & <-).
    destruct (Hpure_lookup j Hj) as (pb & Hgb & Hpb & <-).
    rewrite (lt_pure_terms _ _ _ _ _ Htables) in Hga, Hgb.
    split; [exact Hci|]. split; [exact Hterm|]. exists i, j. auto 10. }
  destruct (writes_spec (fun _ => 1%R)
              (flat_map (double_writes_1 set_order info) xs) (zeros sh))
    as (m1 & Hrun1 & Hsh1 & Hdata1).
  { apply Forall_forall. intros [idx v] Hin.
    apply list_elem_of_In, in_flat_map in Hin as ([ci [key term]] & Hx & Hin).
    apply list_elem_of_In in Hx.
    destruct (Hitem ci key term Hx)
      as (Hci & Hterm & i & j & Hi & Hj & Hso & _ & _ & Hpi & Hpj).
    unfold double_writes_1 in Hin. cbn [fst snd] in Hin. rewrite Hso in Hin.
    destruct Hin as [Heq|[Heq|[]]]; inversion Heq; subst; simpl;
      (split; [|reflexivity]); rewrite !andb_true_iff, !Nat.ltb_lt;
      repeat split; lia. }
  destruct (writes_spec (fun _ => 1%R)
              (flat_map (double_writes_2 set_order info) xs) (zeros sh))
    as (m2 & Hrun2 & Hsh2 & Hdata2).
  { apply Forall_forall. intros [idx v] Hin.
    apply list_elem_of_In, in_flat_map in Hin as ([ci [key term]] & Hx & Hin).
    apply list_elem_of_In in Hx.
    destruct (Hitem ci key term Hx)
      as (Hci & Hterm & i & j & Hi & Hj & Hso & _ & _ & Hpi & Hpj).
    unfold double_writes_2 in Hin. cbn [fst snd] in Hin. rewrite Hso in Hin.
    destruct Hin as [Heq|[Heq|[]]]; inversion Heq; subst; simpl;
      (split; [|reflexivity]); rewrite !andb_true_iff, !Nat.ltb_lt;
      repeat split; lia. }
  rewrite <- for_each_flat_map in Hrun1, Hrun2.
  match goal with
  | |- exists m1 m2, for_each xs ?body _ = _ /\ _ =>
      destruct (for_each_pair (fun a => shape a = sh) (fun a => shape a = sh)
                  xs body
                  (fun x t => for_each (double_writes_1 set_order info x)
                                (fun w => setitem w.1 w.2) t)
                  (fun x t => for_each (double_writes_2 set_order info x)
                                (fun w => setitem w.1 w.2) t)
                  (zeros sh) (zeros sh) eq_refl eq_refl)
        as (m1' & m2' & H1 & H2 & Hboth)
  end.
  { intros [ci [key term]] a b Hx Ha Hb.
    destruct (Hitem ci key term Hx)
      as (Hci & Hterm & i & j & Hi & Hj & Hso & Hgi & Hgj & Hpi & Hpj).
    unfold double_writes_1, double_writes_2. cbn [fst snd]. rewrite Hso.
    cbn -[PQ_col].
    destruct (setitem_in_bounds [ci; term; i] 1 a) as (a1 & Hs1 & Hsa1).
    { rewrite Ha. simpl. rewrite !andb_true_iff, !Nat.ltb_lt. repeat split; lia. }
    destruct (setitem_in_bounds [ci; PQ_col info i i; j] 1 a1) as (a2 & Hs2 & Hsa2).
    { rewrite Hsa1, Ha. simpl. rewrite !andb_true_iff, !Nat.ltb_lt.
      repeat split; lia. }
    destruct (setitem_in_bounds [ci; term; j] 1 b) as (b1 & Hs3 & Hsb1).
    { rewrite Hb. simpl. rewrite !andb_true_iff, !Nat.ltb_lt. repeat split; lia. }
    destruct (setitem_in_bounds [ci; PQ_col info j j; i] 1 b1) as (b2 & Hs4 & Hsb2).
    { rewrite Hsb1, Hb. simpl. rewrite !andb_true_iff, !Nat.ltb_lt.
      repeat split; lia. }
    exists a2, b2. rewrite Hs1. cbn -[PQ_col]. rewrite Hs2. cbn -[PQ_col].
    rewrite Hs3. cbn -[PQ_col]. rewrite Hs4. cbn -[PQ_col].
    rewrite Hgi. cbn -[PQ_col]. rewrite Hs2. cbn -[PQ_col].
    rewrite Hgj. cbn -[PQ_col]. rewrite Hs4. cbn -[PQ_col].
    repeat split; congruence. }
  rewrite Hrun1 in H1. rewrite Hrun2 in H2.
  assert (m1' = m1) by congruence. assert (m2' = m2) by congruence.
  subst m1' m2'. exists m1, m2. auto.
Qed.

Lemma elem_of_double_writes_1 (ci f t : nat) :
  [ci; f; t] ∈ map fst (flat_map (double_writes_1 set_order info)
                         (enumerate (dict_items (dict_of mixed))))
  <-> exists key mix i j, dict_items (dict_of mixed) !! ci = Some (key, mix)
        /\ set_order key = [i; j]
        /\ ((f = mix /\ t = i) \/ (f = PQ_col info i i /\ t = j)).
Proof.
  rewrite list_elem_of_fmap. split.
  - intros ([idx v] & Heq & Hin). simpl in Heq. subst idx.
    apply list_elem_of_In, in_flat_map in Hin as ([ci' [key term]] & Hx & Hin).
    apply list_elem_of_In in Hx. pose proof Hx as Hx'.
    apply elem_of_enumerate in Hx'. apply enumerate_index in Hx as [_ Hitem].
    apply unpacked_item in Hitem as (_ & _ & _ & _ & _ & i & j & Hso & _).
    unfold double_writes_1 in Hin. cbn [fst snd] in Hin. rewrite Hso in Hin.
    destruct Hin as [Heq|[Heq|[]]]; exists key, term, i, j; inversion Heq; subst;
      (split; [exact Hx'|]); auto.
  - intros (key & mix & i & j & Hx & Hso & Hcase).
    assert (Hin : forall w, In w [([ci; mix; i], 1%R);
                                  ([ci; PQ_col info i i; j], 1%R)] ->
              w ∈ flat_map (double_writes_1 set_order info)
                    (enumerate (dict_items (dict_of mixed)))).
    { intros w Hw. apply list_elem_of_In, in_flat_map.
      exists (ci, (key, mix)).
      split; [apply list_elem_of_In, elem_of_enumerate; exact Hx|].
      unfold double_writes_1. cbn [fst snd]. rewrite Hso. exact Hw. }
    destruct Hcase as [[-> ->]|[-> ->]].
    + exists ([ci; mix; i], 1%R). split; [reflexivity|]. apply Hin. left. reflexivity.
    + exists ([ci; PQ_col info i i; j], 1%R). split; [reflexivity|].
      apply Hin. right. left. reflexivity.
Qed.

Lemma elem_of_double_writes_2 (ci f t : nat) :
  [ci; f; t] ∈ map fst (flat_map (double_writes_2 set_order info)
                         (enumerate (dict_items (dict_of mixed))))
  <-> exists key mix i j, dict_items (dict_of mixed) !! ci = Some (key, mix)
        /\ set_order key = [i; j]
        /\ ((f = mix /\ t = j) \/ (f = PQ_col info j j /\ t = i)).
Proof.
  rewrite list_elem_of_fmap. split.
  - intros ([idx v] & Heq & Hin). simpl in Heq. subst idx.
    apply list_elem_of_In, in_flat_map in Hin as ([ci' [key term]] & Hx & Hin).
    apply list_elem_of_In in Hx. pose proof Hx as Hx'.
    apply elem_of_enumerate in Hx'. apply enumerate_index in Hx as [_ Hitem].
    apply unpacked_item in Hitem as (_ & _ & _ & _ & _ & i & j & Hso & _).
    unfold double_writes_2 in Hin. cbn [fst snd] in Hin. rewrite Hso in Hin.
    destruct Hin as [Heq|[Heq|[]]]; exists key, term, i, j; inversion Heq; subst;
      (split; [exact Hx'|]); auto.
  - intros (key & mix & i & j & Hx & Hso & Hcase).
    assert (Hin : forall w, In w [([ci; mix; j], 1%R);
                                  ([ci; PQ_col info j j; i], 1%R)] ->
              w ∈ flat_map (double_writes_2 set_order info)
                    (enumerate (dict_items (dict_of mixed)))).
    { intros w Hw. apply list_elem_of_In, in_flat_map.
      exists (ci, (key, mix)).
      split; [apply list_elem_of_In, elem_of_enumerate; exact Hx|].
      unfold double_writes_2. cbn [fst snd]. rewrite Hso. exact Hw. }
    destruct Hcase as [[-> ->]|[-> ->]].
    + exists ([ci; mix; j], 1%R). split; [reflexivity|]. apply Hin. left. reflexivity.
    + exists ([ci; PQ_col info j j; i], 1%R). split; [reflexivity|].
      apply Hin. right. left. reflexivity.
Qed.

(** The rows of the double block for an item of the mixed table, by the
    order in which its key is unpacked. *)
Lemma double_rows_unpacked :
  exists c2,
    _antisymm_double_constraint set_order r (length powers) (dict_of pure)
      (dict_of mixed) = Ok c2
    /\ shape c2 = [2 * comb r 2; length powers; r]
    /\ forall ci key mix i j,
         dict_items (dict_of mixed) !! ci = Some (key, mix) ->
         set_order key = [i; j] ->
         (forall f t, data c2 [ci; f; t]
            = if decide ((f = mix /\ t = i) \/ (f = PQ_col info i i /\ t = j))
              then 1%R else 0%R)
         /\ (forall f t, data c2 [comb r 2 + ci; f; t]
               = if decide ((f = mix /\ t = j) \/ (f = PQ_col info j j /\ t = i))
                 then 1%R else 0%R).
Proof.
  destruct double_halves as (m1 & m2 & Hrun & Hs1 & Hs2 & Hd1 & Hd2).
  destruct (concat0_shape m1 m2 (comb r 2) (comb r 2) [length powers; r] Hs1 Hs2)
    as (c2 & Hcat & Hsh & Hdata).
  pose proof (mixed_count r powers info pure mixed Htables) as Hcount.
  exists c2. split.
  { unfold _antisymm_double_constraint. rewrite Hcount, Hrun.
    cbn [mbind result_bind Py.bind]. unfold concatenate.
    cbn [mbind result_bind Py.bind]. exact Hcat. }
  split; [rewrite Hsh; f_equal; lia|].
  intros ci key mix i j Hx Hso.
  assert (Hci : ci < comb r 2).
  { apply lookup_lt_Some in Hx. rewrite <- Hcount. exact Hx. }
  split.
  - intros f t. rewrite Hdata.
    replace (ci <? comb r 2) with true by (symmetry; apply Nat.ltb_lt; exact Hci).
    rewrite Hd1. destruct (decide ([ci; f; t] ∈ _)) as [Hin|Hnin].
    + apply elem_of_double_writes_1 in Hin
        as (key' & mix' & i' & j' & Hx' & Hso' & Hcase).
      rewrite Hx in Hx'. inversion Hx'. subst key' mix'.
      rewrite Hso in Hso'. inversion Hso'. subst i' j'.
      rewrite decide_True; [reflexivity | exact Hcase].
    + rewrite decide_False; [reflexivity|]. intros Hcase. apply Hnin.
      apply elem_of_double_writes_1. exists key, mix, i, j. auto.
  - intros f t. rewrite Hdata.
    replace (comb r 2 + ci <? comb r 2) with false
      by (symmetry; apply Nat.ltb_ge; lia).
    replace (comb r 2 + ci - comb r 2) with ci by lia.
    rewrite Hd2. destruct (decide ([ci; f; t] ∈ _)) as [Hin|Hnin].
    + apply elem_of_double_writes_2 in Hin
        as (key' & mix' & i' & j' & Hx' & Hso' & Hcase).
      rewrite Hx in Hx'. inversion Hx'. subst key' mix'.
      rewrite Hso in Hso'. inversion Hso'. subst i' j'.
      rewrite decide_True; [reflexivity | exact Hcase].
    + rewrite decide_False; [reflexivity|]. intros Hcase. apply Hnin.
      apply elem_of_double_writes_2. exists key, mix, i, j. auto.
Qed.

(** The same by the pair of variables [a < b] of the item: which of the two
    rows comes in the first half goes by the order in which the key is
    unpacked. *)
Lemma double_constraint_run :
  exists c2,
    _antisymm_double_constraint set_order r (length powers) (dict_of pure)
      (dict_of mixed) = Ok c2
    /\ shape c2 = [2 * comb r 2; length powers; r]
    /\ forall ci key mix,
         dict_items (dict_of mixed) !! ci = Some (key, mix) ->
         exists a b,
           key = [a; b] /\ a < b < r
           /\ ((set_order key = [a; b]
                /\ (forall f t, data c2 [ci; f; t]
                      = if decide ((f = mix /\ t = a)
                                   \/ (f = PQ_col info a a /\ t = b))
                        then 1%R else 0%R)
                /\ (forall f t, data c2 [comb r 2 + ci; f; t]
                      = if decide ((f = mix /\ t = b)
                                   \/ (f = PQ_col info b b /\ t = a))
                        then 1%R else 0%R))
               \/ (set_order key = [b; a]
                   /\ (forall f t, data c2 [ci; f; t]
                         = if decide ((f = mix /\ t = b)
                                   \/ (f = PQ_col info b b /\ t = a))
                        then 1%R else 0%R)
                   /\ (forall f t, data c2 [comb r 2 + ci; f; t]
                         = if decide ((f = mix /\ t = a)
                                   \/ (f = PQ_col info a a /\ t = b))
                        then 1%R else 0%R))).
Proof.
  destruct double_rows_unpacked as (c2 & Hrun & Hsh & Hrows).
  exists c2. split; [exact Hrun|]. split; [exact Hsh|].
  intros ci key mix Hx.
  pose proof (list_elem_of_lookup_2 _ _ _ Hx) as Hitem.
  apply unpacked_item in Hitem as (_ & a & b & Hab & Hkey & i & j & Hso & Hij).
  exists a, b. split; [exact Hkey|]. split; [exact Hab|].
  destruct (Hrows ci key mix i j Hx Hso) as [H1 H2].
  destruct Hij as [[-> ->]|[-> ->]]; [left | right];
    (split; [exact Hso|]); split; intros f t;
    [apply H1 | apply H2 | apply H1 | apply H2].
Qed.

End ConstraintCells.

(** X8. On a degree-2 library of [r] variables, the triple block has one row
    for each triple of variables [i < j < k], in the order in which
    [itertools.combinations] yields them, and the row holds exactly three
    ones: the coefficient of [x_j x_k] in equation [i], of [x_k x_i] in
    equation [j] and of [x_i x_j] in equation [k]. *)
Theorem triple_constraints_cells (r : nat) (powers : list (list nat)) :
  1 <= r -> wf_library r powers ->
  exists info c3,
    _build_lib_info (enumerate powers) = Ok info
    /\ _antisymm_triple_constraints r (length powers) (mixed_terms info) = Ok c3
    /\ shape c3 = [comb r 3; length powers; r]
    /\ length (combinations (range r) 3) = comb r 3
    /\ forall ci i j k, combinations (range r) 3 !! ci = Some [i; j; k] ->
         i < j /\ j < k /\ k < r
         /\ exists tjk tki tij,
              find_symm_term (mixed_terms info) j k = Ok tjk
              /\ find_symm_term (mixed_terms info) k i = Ok tki
              /\ find_symm_term (mixed_terms info) i j = Ok tij
              /\ forall f t, data c3 [ci; f; t]
                   = if decide ((f = tjk /\ t = i) \/ (f = tki /\ t = j)
                                \/ (f = tij /\ t = k))
                     then 1%R else 0%R.
Proof.
  intros Hr Hwf.
  destruct (lib_tables_wf r powers Hr Hwf) as (info & pure & mixed & Ht).
  destruct (triple_constraints_cells_col r powers info pure mixed Ht)
    as (c3 & Hrun & Hsh & Hdata).
  exists info, c3. split; [exact (lt_info _ _ _ _ _ Ht)|].
  split; [exact Hrun|]. split; [exact Hsh|].
  split; [rewrite length_combinations; unfold range; rewrite length_seq; reflexivity|].
  intros ci i j k Hx.
  destruct (ordered_triple r ci _ Hx) as (_ & i' & j' & k' & Heq & Hij & Hjk & Hk).
  inversion Heq. subst i' j' k'.
  split; [exact Hij|]. split; [exact Hjk|]. split; [exact Hk|].
  destruct (triple_lookups r powers info pure mixed Ht i j k Hij Hjk Hk)
    as (H1 & H2 & H3 & _).
  exists (PQ_col info j k), (PQ_col info k i), (PQ_col info i j).
  split; [exact H1|]. split; [exact H2|]. split; [exact H3|].
  intros f t. rewrite Hdata.
  destruct (decide ([ci; f; t] ∈ _)) as [Hin|Hnin].
  - apply (elem_of_triple_writes r) in Hin as (i' & j' & k' & Hx' & Hcase).
    rewrite Hx in Hx'. inversion Hx'. subst i' j' k'.
    rewrite decide_True; [reflexivity | exact Hcase].
  - rewrite decide_False; [reflexivity|]. intros Hcase. apply Hnin.
    apply (elem_of_triple_writes r). exists i, j, k. auto.
Qed.

Lemma triple_constraints_cells_witness :
  exists info c3,
    _build_lib_info (enumerate (poly_powers false 3)) = Ok info
    /\ _antisymm_triple_constraints 3 (length (poly_powers false 3))
         (mixed_terms info) = Ok c3
    /\ shape c3 = [comb 3 3; length (poly_powers false 3); 3]
    /\ length (combinations (range 3) 3) = comb 3 3
    /\ forall ci i j k, combinations (range 3) 3 !! ci = Some [i; j; k] ->
         i < j /\ j < k /\ k < 3
         /\ exists tjk tki tij,
              find_symm_term (mixed_terms info) j k = Ok tjk
              /\ find_symm_term (mixed_terms info) k i = Ok tki
              /\ find_symm_term (mixed_terms info) i j = Ok tij
              /\ forall f t, data c3 [ci; f; t]
                   = if decide ((f = tjk /\ t = i) \/ (f = tki /\ t = j)
                                \/ (f = tij /\ t = k))
                     then 1%R else 0%R.
Proof.
  apply (triple_constraints_cells 3 (poly_powers false 3));
    [lia | apply poly_powers_wf].
Defined.

Lemma slot_order_pairs : orders_pairs slot_order.
Proof.
  intros a b _. unfold slot_order. destruct (b mod 8 <? a mod 8); auto.
Qed.

(** It unpacks the pair [{1, 8}] as [(8, 1)], and [{1, 2}] as [(1, 2)]. *)
Lemma slot_order_descending :
  slot_order [1; 8] = [8; 1] /\ slot_order [1; 2] = [1; 2].
Proof. split; reflexivity. Qed.

(** X9. On a degree-2 library of [r] variables, and for any order in which
    a pair is unpacked, the double block has two rows for each item
    [({a, b}, mix)] of the mixed table, [a < b]: one holds ones at the
    coefficient of [x_a x_b] in equation [a] and of [x_a^2] in equation [b],
    the other at the coefficient of [x_a x_b] in equation [b] and of
    [x_b^2] in equation [a]; all other cells of the two rows are zero.  The
    first of the two is row [ci] of the first half when the key is unpacked
    as [(a, b)], and row [ci] of the second half when it is unpacked as
    [(b, a)]. *)
Theorem double_constraint_cells (set_order : list nat -> list nat) (r : nat)
    (powers : list (list nat)) :
  1 <= r -> wf_library r powers -> orders_pairs set_order ->
  exists info c2,
    _build_lib_info (enumerate powers) = Ok info
    /\ _antisymm_double_constraint set_order r (length powers) (pure_terms info)
         (mixed_terms info) = Ok c2
    /\ shape c2 = [2 * comb r 2; length powers; r]
    /\ dict_len (mixed_terms info) = comb r 2
    /\ forall ci key mix,
         dict_items (mixed_terms info) !! ci = Some (key, mix) ->
         exists a b pa pb,
           key = [a; b] /\ a < b < r
           /\ dict_get a (pure_terms info) = Ok pa
           /\ dict_get b (pure_terms info) = Ok pb
           /\ ((set_order key = [a; b]
                /\ (forall f t, data c2 [ci; f; t]
                      = if decide ((f = mix /\ t = a) \/ (f = pa /\ t = b))
                        then 1%R else 0%R)
                /\ (forall f t, data c2 [comb r 2 + ci; f; t]
                      = if decide ((f = mix /\ t = b) \/ (f = pb /\ t = a))
                        then 1%R else 0%R))
               \/ (set_order key = [b; a]
                   /\ (forall f t, data c2 [ci; f; t]
                         = if decide ((f = mix /\ t = b) \/ (f = pb /\ t = a))
                           then 1%R else 0%R)
                   /\ (forall f t, data c2 [comb r 2 + ci; f; t]
                         = if decide ((f = mix /\ t = a) \/ (f = pa /\ t = b))
                           then 1%R else 0%R))).
Proof.
  intros Hr Hwf Horder.
  destruct (lib_tables_wf r powers Hr Hwf) as (info & pure & mixed & Ht).
  destruct (double_constraint_run r powers info pure mixed Ht set_order Horder)
    as (c2 & Hrun & Hsh & Hrows).
  exists info, c2. split; [exact (lt_info _ _ _ _ _ Ht)|].
  rewrite (lt_pure_terms _ _ _ _ _ Ht), (lt_mixed_terms _ _ _ _ _ Ht).
  split; [exact Hrun|]. split; [exact Hsh|].
  split; [exact (mixed_count r powers info pure mixed Ht)|].
  intros ci key mix Hx.
  destruct (Hrows ci key mix Hx) as (a & b & Hkey & Hab & Hcase).
  destruct (pure_lookup r powers info pure mixed Ht a) as (pa & Hga & _ & Hpa); [lia|].
  destruct (pure_lookup r powers info pure mixed Ht b) as (pb & Hgb & _ & Hpb); [lia|].
  rewrite (lt_pure_terms _ _ _ _ _ Ht) in Hga, Hgb.
  exists a, b, pa, pb. split; [exact Hkey|]. split; [exact Hab|].
  split; [exact Hga|]. split; [exact Hgb|].
  rewrite <- Hpa, <- Hpb. exact Hcase.
Qed.

Lemma double_constraint_cells_witness :
  exists info c2,
    _build_lib_info (enumerate (poly_powers false 3)) = Ok info
    /\ _antisymm_double_constraint slot_order 3 (length (poly_powers false 3))
         (pure_terms info) (mixed_terms info) = Ok c2
    /\ shape c2 = [2 * comb 3 2; length (poly_powers false 3); 3]
    /\ dict_len (mixed_terms info) = comb 3 2
    /\ forall ci key mix,
         dict_items (mixed_terms info) !! ci = Some (key, mix) ->
         exists a b pa pb,
           key = [a; b] /\ a < b < 3
           /\ dict_get a (pure_terms info) = Ok pa
           /\ dict_get b (pure_terms info) = Ok pb
           /\ ((slot_order key = [a; b]
                /\ (forall f t, data c2 [ci; f; t]
                      = if decide ((f = mix /\ t = a) \/ (f = pa /\ t = b))
                        then 1%R else 0%R)
                /\ (forall f t, data c2 [comb 3 2 + ci; f; t]
                      = if decide ((f = mix /\ t = b) \/ (f = pb /\ t = a))
                        then 1%R else 0%R))
               \/ (slot_order key = [b; a]
                   /\ (forall f t, data c2 [ci; f; t]
                         = if decide ((f = mix /\ t = b) \/ (f = pb /\ t = a))
                           then 1%R else 0%R)
                   /\ (forall f t, data c2 [comb 3 2 + ci; f; t]
                         = if decide ((f = mix /\ t = a) \/ (f = pa /\ t = b))
                           then 1%R else 0%R))).
Proof.
  apply (double_constraint_cells slot_order 3 (poly_powers false 3));
    [lia | apply poly_powers_wf | apply slot_order_pairs].
Defined.

(** C2. For a well-formed degree-2 library over [r >= 2] variables, and
    for any order in which a pair is unpacked, [_make_constraints] returns a
    homogeneous system: the right-hand side is the zero vector, and the
    constraint matrix has [r + 2*C(r,2) + C(r,3)] rows, which are the [r]
    rows of the pure-cube block, then the [2*C(r,2)] rows of the double
    block, then the [C(r,3)] rows of the triple block; the triple block has
    no row when [r = 2].  The rows are these.  The pure table has [r]
    items, and row [i] of the pure-cube block holds a single one, at the
    coefficient of [x_tgt^2] in equation [tgt], for the [i]-th item
    [(tgt, term)] of the table.  The mixed table has [C(r,2)] items, and for
    the [ci]-th item [({a, b}, mix)], [a < b], the rows [ci] and
    [C(r,2) + ci] of the double block hold, one, ones at the coefficients of
    [x_a x_b] in equation [a] and of [x_a^2] in equation [b], the other, ones
    at the coefficients of [x_a x_b] in equation [b] and of [x_b^2] in
    equation [a], in the order in which the key is unpacked.  Row [ci] of
    the triple block holds three ones, at the coefficients of [x_j x_k] in
    equation [i], of [x_k x_i] in equation [j] and of [x_i x_j] in equation
    [k], for the [ci]-th triple [i < j < k].  All other cells are zero. *)
Theorem make_constraints_rows (set_order : list nat -> list nat) (r : nat)
    (powers : list (list nat)) :
  2 <= r -> wf_library r powers -> orders_pairs set_order ->
  exists info c1 c2 c3 rhs lhs,
    _build_lib_info (enumerate powers) = Ok info
    /\ _pure_constraints r (length powers) (pure_terms info) = Ok c1
    /\ shape c1 = [r; length powers; r]
    /\ _antisymm_double_constraint set_order r (length powers) (pure_terms info)
         (mixed_terms info) = Ok c2
    /\ shape c2 = [2 * comb r 2; length powers; r]
    /\ _antisymm_triple_constraints r (length powers) (mixed_terms info) = Ok c3
    /\ shape c3 = [comb r 3; length powers; r]
    /\ (r = 2 -> len c3 = 0)
    /\ _make_constraints set_order powers r = Ok (rhs, lhs)
    /\ shape lhs = [r + 2 * comb r 2 + comb r 3; length powers; r]
    /\ len lhs = r + 2 * comb r 2 + comb r 3
    /\ (forall i rest, data lhs (i :: rest)
          = if i <? r then data c1 (i :: rest)
            else if i <? r + 2 * comb r 2 then data c2 ((i - r) :: rest)
            else data c3 ((i - r - 2 * comb r 2) :: rest))
    /\ shape rhs = [r + 2 * comb r 2 + comb r 3]
    /\ (forall idx, data rhs idx = 0%R)
    /\ dict_len (pure_terms info) = r
    /\ (forall i tgt term,
          dict_items (pure_terms info) !! i = Some (tgt, term) ->
          tgt < r /\ powers !! term = Some (monomial r [tgt; tgt])
          /\ forall f t, data c1 [i; f; t]
               = if decide (f = term /\ t = tgt) then 1%R else 0%R)
    /\ dict_len (mixed_terms info) = comb r 2
    /\ (forall ci key mix,
          dict_items (mixed_terms info) !! ci = Some (key, mix) ->
          exists a b pa pb,
            key = [a; b] /\ a < b < r
            /\ powers !! mix = Some (monomial r [a; b])
            /\ dict_get a (pure_terms info) = Ok pa
            /\ powers !! pa = Some (monomial r [a; a])
            /\ dict_get b (pure_terms info) = Ok pb
            /\ powers !! pb = Some (monomial r [b; b])
            /\ ((set_order key = [a; b]
                 /\ (forall f t, data c2 [ci; f; t]
                       = if decide ((f = mix /\ t = a) \/ (f = pa /\ t = b))
                         then 1%R else 0%R)
                 /\ (forall f t, data c2 [comb r 2 + ci; f; t]
                       = if decide ((f = mix /\ t = b) \/ (f = pb /\ t = a))
                         then 1%R else 0%R))
                \/ (set_order key = [b; a]
                    /\ (forall f t, data c2 [ci; f; t]
                          = if decide ((f = mix /\ t = b) \/ (f = pb /\ t = a))
                            then 1%R else 0%R)
                    /\ (forall f t, data c2 [comb r 2 + ci; f; t]
                          = if decide ((f = mix /\ t = a) \/ (f = pa /\ t = b))
                            then 1%R else 0%R))))
    /\ length (combinations (range r) 3) = comb r 3
    /\ (forall ci i j k,
          combinations (range r) 3 !! ci = Some [i; j; k] ->
          i < j /\ j < k /\ k < r
          /\ exists tjk tki tij,
               find_symm_term (mixed_terms info) j k = Ok tjk
               /\ powers !! tjk = Some (monomial r [j; k])
               /\ find_symm_term (mixed_terms info) k i = Ok tki
               /\ powers !! tki = Some (monomial r [k; i])
               /\ find_symm_term (mixed_terms info) i j = Ok tij
               /\ powers !! tij = Some (monomial r [i; j])
               /\ forall f t, data c3 [ci; f; t]
                    = if decide ((f = tjk /\ t = i) \/ (f = tki /\ t = j)
                                 \/ (f = tij /\ t = k))
                      then 1%R else 0%R).
Proof.
  intros Hr Hwf Horder.
  destruct (lib_tables_wf r powers) as (info & pure & mixed & Ht); [lia | exact Hwf |].
  pose proof (pair_term_column r powers info pure mixed Ht Hwf) as Hcolumn.
  pose proof (pure_count r powers info pure mixed Ht) as Hpc.
  destruct (pure_constraints_run r (length powers) (dict_of pure))
    as (c1 & Hc1 & Hs1 & Hd1).
  { intros i t f _ Hl. apply list_elem_of_lookup_2 in Hl.
    apply (pure_item r powers info pure mixed Ht) in Hl. tauto. }
  destruct (double_constraint_run r powers info pure mixed Ht set_order Horder)
    as (c2 & Hc2 & Hs2 & Hd2).
  destruct (triple_constraints_run r powers info pure mixed Ht)
    as (c3 & Hc3 & Hs3 & Hd3).
  destruct (concat0_shape c2 c3 _ _ _ Hs2 Hs3) as (c23 & Hc23 & Hs23 & Hd23).
  destruct (concat0_shape c1 c23 _ _ _ Hs1 Hs23) as (lhs & Hlhs & Hsl & Hdl).
  assert (Hshape : shape lhs = [r + 2 * comb r 2 + comb r 3; length powers; r]).
  { rewrite Hsl. f_equal. lia. }
  exists info, c1, c2, c3, (zeros [len lhs]), lhs.
  rewrite (lt_mixed_terms _ _ _ _ _ Ht) in Hc3, Hd3 |- *.
  rewrite (lt_pure_terms _ _ _ _ _ Ht).
  split; [exact (lt_info _ _ _ _ _ Ht)|].
  split; [exact Hc1|]. split; [exact Hs1|].
  split; [exact Hc2|]. split; [exact Hs2|].
  split; [exact Hc3|]. split; [exact Hs3|].
  split; [intros ->; unfold len; rewrite Hs3; reflexivity|].
  split.
  { unfold _make_constraints.
    rewrite (lt_info _ _ _ _ _ Ht), (lt_pure _ _ _ _ _ Ht),
      (lt_mixed _ _ _ _ _ Ht).
    cbn [mbind result_bind Py.bind].
    rewrite (lt_features _ _ _ _ _ Ht), Hc1. cbn [mbind result_bind Py.bind].
    rewrite Hc2. cbn [mbind result_bind Py.bind].
    rewrite Hc3. cbn [mbind result_bind Py.bind].
    unfold vstack, concatenate. cbn [mbind result_bind Py.bind].
    rewrite Hc23. cbn [mbind result_bind Py.bind].
    rewrite Hlhs. reflexivity. }
  split; [exact Hshape|].
  split; [unfold len; rewrite Hshape; reflexivity|].
  split.
  { intros i rest. rewrite Hdl. destruct (i <? r) eqn:Hi; [reflexivity|].
    apply Nat.ltb_ge in Hi. rewrite Hd23.
    destruct (i - r <? 2 * comb r 2) eqn:Hi2.
    - apply Nat.ltb_lt in Hi2.
      replace (i <? r + 2 * comb r 2) with true
        by (symmetry; apply Nat.ltb_lt; lia).
      reflexivity.
    - apply Nat.ltb_ge in Hi2.
      replace (i <? r + 2 * comb r 2) with false
        by (symmetry; apply Nat.ltb_ge; lia).
      reflexivity. }
  split; [simpl; unfold len; rewrite Hshape; reflexivity|].
  split; [reflexivity|].
  split; [exact Hpc|].
  split.
  { intros i tgt term Hl.
    assert (Hi : i < r) by (apply lookup_lt_Some in Hl; rewrite <- Hpc; exact Hl).
    pose proof (list_elem_of_lookup_2 _ _ _ Hl) as Hin.
    apply dict_find_elem in Hin; [|apply dict_of_keys_NoDup].
    destruct (pure_term_column r powers info pure mixed Ht Hwf tgt term Hin)
      as [Htgt Hcol].
    split; [exact Htgt|]. split; [exact Hcol|].
    intros f t. rewrite Hd1.
    destruct (decide (f = term /\ t = tgt)) as [[-> ->]|Hne].
    - rewrite decide_True; [reflexivity | auto].
    - rewrite decide_False; [reflexivity|]. intros [_ Hl'].
      rewrite Hl in Hl'. inversion Hl'. auto. }
  split; [exact (mixed_count r powers info pure mixed Ht)|].
  split.
  { intros ci key mix Hx.
    destruct (Hd2 ci key mix Hx) as (a & b & Hkey & Hab & Hcase).
    pose proof (list_elem_of_lookup_2 _ _ _ Hx) as Hin.
    apply dict_find_elem in Hin; [|apply dict_of_keys_NoDup].
    destruct (mixed_term_column r powers info pure mixed Ht Hwf key mix Hin)
      as (a' & b' & _ & Hkey' & Hcol).
    rewrite Hkey in Hkey'. inversion Hkey'. subst a' b'.
    destruct (pure_lookup r powers info pure mixed Ht a) as (pa & Hga & _ & Hpa); [lia|].
    destruct (pure_lookup r powers info pure mixed Ht b) as (pb & Hgb & _ & Hpb); [lia|].
    rewrite (lt_pure_terms _ _ _ _ _ Ht) in Hga, Hgb.
    exists a, b, pa, pb. split; [exact Hkey|]. split; [exact Hab|].
    split; [exact Hcol|].
    split; [exact Hga|]. split; [rewrite <- Hpa; apply Hcolumn; lia|].
    split; [exact Hgb|]. split; [rewrite <- Hpb; apply Hcolumn; lia|].
    rewrite <- Hpa, <- Hpb. exact Hcase. }
  split; [rewrite length_combinations; unfold range; rewrite length_seq; reflexivity|].
  intros ci i j k Hx.
  destruct (Hd3 ci i j k Hx) as (Hij & Hjk & Hk & H1 & H2 & H3 & Hcells).
  split; [exact Hij|]. split; [exact Hjk|]. split; [exact Hk|].
  exists (PQ_col info j k), (PQ_col info k i), (PQ_col info i j).
  split; [exact H1|]. split; [apply Hcolumn; lia|].
  split; [exact H2|]. split; [apply Hcolumn; lia|].
  split; [exact H3|]. split; [apply Hcolumn; lia|].
  exact Hcells.
Qed.

Lemma make_constraints_rows_witness :
  2 <= 3 /\ wf_library 3 (poly_powers false 3) /\ orders_pairs slot_order
  /\
  exists info c1 c2 c3 rhs lhs,
    _build_lib_info (enumerate (poly_powers false 3)) = Ok info
    /\ _pure_constraints 3 (length (poly_powers false 3)) (pure_terms info) = Ok c1
    /\ shape c1 = [3; length (poly_powers false 3); 3]
    /\ _antisymm_double_constraint slot_order 3 (length (poly_powers false 3)) (pure_terms info)
         (mixed_terms info) = Ok c2
    /\ shape c2 = [2 * comb 3 2; length (poly_powers false 3); 3]
    /\ _antisymm_triple_constraints 3 (length (poly_powers false 3)) (mixed_terms info) = Ok c3
    /\ shape c3 = [comb 3 3; length (poly_powers false 3); 3]
    /\ (3 = 2 -> len c3 = 0)
    /\ _make_constraints slot_order (poly_powers false 3) 3 = Ok (rhs, lhs)
    /\ shape lhs = [3 + 2 * comb 3 2 + comb 3 3; length (poly_powers false 3); 3]
    /\ len lhs = 3 + 2 * comb 3 2 + comb 3 3
    /\ (forall i rest, data lhs (i :: rest)
          = if i <? 3 then data c1 (i :: rest)
            else if i <? 3 + 2 * comb 3 2 then data c2 ((i - 3) :: rest)
            else data c3 ((i - 3 - 2 * comb 3 2) :: rest))
    /\ shape rhs = [3 + 2 * comb 3 2 + comb 3 3]
    /\ (forall idx, data rhs idx = 0%R)
    /\ dict_len (pure_terms info) = 3
    /\ (forall i tgt term,
          dict_items (pure_terms info) !! i = Some (tgt, term) ->
          tgt < 3
        /\ (poly_powers false 3) !! term = Some (monomial 3 [tgt; tgt])
          /\ forall f t, data c1 [i; f; t]
               = if decide (f = term /\ t = tgt) then 1%R else 0%R)
    /\ dict_len (mixed_terms info) = comb 3 2
    /\ (forall ci key mix,
          dict_items (mixed_terms info) !! ci = Some (key, mix) ->
          exists a b pa pb,
            key = [a; b] /\ a < b < 3
            /\ (poly_powers false 3) !! mix = Some (monomial 3 [a; b])
            /\ dict_get a (pure_terms info) = Ok pa
            /\ (poly_powers false 3) !! pa = Some (monomial 3 [a; a])
            /\ dict_get b (pure_terms info) = Ok pb
            /\ (poly_powers false 3) !! pb = Some (monomial 3 [b; b])
            /\ ((slot_order key = [a; b]
                 /\ (forall f t, data c2 [ci; f; t]
                       = if decide ((f = mix /\ t = a) \/ (f = pa /\ t = b))
                         then 1%R else 0%R)
                 /\ (forall f t, data c2 [comb 3 2 + ci; f; t]
                       = if decide ((f = mix /\ t = b) \/ (f = pb /\ t = a))
                         then 1%R else 0%R))
                \/ (slot_order key = [b; a]
                    /\ (forall f t, data c2 [ci; f; t]
                          = if decide ((f = mix /\ t = b) \/ (f = pb /\ t = a))
                            then 1%R else 0%R)
                    /\ (forall f t, data c2 [comb 3 2 + ci; f; t]
                          = if decide ((f = mix /\ t = a) \/ (f = pa /\ t = b))
                            then 1%R else 0%R))))
    /\ length (combinations (range 3) 3) = comb 3 3
    /\ (forall ci i j k,
          combinations (range 3) 3 !! ci = Some [i; j; k] ->
          i < j /\ j < k /\ k < 3
          /\ exists tjk tki tij,
               find_symm_term (mixed_terms info) j k = Ok tjk
               /\ (poly_powers false 3) !! tjk = Some (monomial 3 [j; k])
               /\ find_symm_term (mixed_terms info) k i = Ok tki
               /\ (poly_powers false 3) !! tki = Some (monomial 3 [k; i])
               /\ find_symm_term (mixed_terms info) i j = Ok tij
               /\ (poly_powers false 3) !! tij = Some (monomial 3 [i; j])
               /\ forall f t, data c3 [ci; f; t]
                    = if decide ((f = tjk /\ t = i) \/ (f = tki /\ t = j)
                                 \/ (f = tij /\ t = k))
                      then 1%R else 0%R).
Proof.
  assert (Hwf : wf_library 3 (poly_powers false 3))
    by (apply wf_libraryb_spec; vm_compute; reflexivity).
  split; [lia|]. split; [exact Hwf|]. split; [exact slot_order_pairs|].
  apply (make_constraints_rows slot_order 3 (poly_powers false 3));
    [lia | exact Hwf | exact slot_order_pairs].
Defined.

(** ** The guard run twice *)

(** Where every optional parameter has a value the defaults change
    nothing. *)
Lemma guard_defaults_fixed (random_rand : nat -> nat -> list R)
    (s : Config.params) :
  is_Some (Config.eta s) -> is_Some (Config.alpha_m s) ->
  is_Some (Config.alpha_A s) -> is_Some (Config.alpha s) ->
  is_Some (Config.beta s) -> is_Some (Config.A0 s) -> is_Some (Config.m0 s) ->
  guard_defaults random_rand s = s.
Proof.
  destruct s as [th e am aA a b g tl tlm eps thr ineq n A m w]. simpl.
  intros [? ->] [? ->] [? ->] [? ->] [? ->] [? ->] [? ->]. reflexivity.
Qed.

(** Each default, attribute by attribute. *)
Lemma fill_steps_all (c : Config.params) :
  let s := Config.fill_steps c in
  keeps c s
  /\ Config.eta s = Some (Config.effective_eta c)
  /\ Config.alpha_m s = Some (Config.effective_alpha_m c)
  /\ Config.alpha_A s = Some (Config.effective_alpha_A c)
  /\ Config.alpha s = Config.alpha c /\ Config.beta s = Config.beta c
  /\ Config.A0 s = Config.A0 c /\ Config.m0 s = Config.m0 c
  /\ exists ws, Config.warned s = Config.warned c ++ ws
       /\ length ws = absent (Config.eta c).
Proof.
  unfold keeps, Config.fill_steps, Config.effective_eta,
    Config.effective_alpha_m, Config.effective_alpha_A.
  destruct (Config.eta c), (Config.alpha_m c), (Config.alpha_A c); simpl;
    (split; [repeat split; reflexivity|]);
    repeat (split; [reflexivity|]);
    first [ exists []; split; [symmetry; apply app_nil_r | reflexivity]
          | eexists [_]; split; reflexivity ].
Qed.

Lemma fill_alpha_all (c : Config.params) :
  let s := Config.fill_alpha c in
  keeps c s
  /\ Config.eta s = Config.eta c /\ Config.alpha_m s = Config.alpha_m c
  /\ Config.alpha_A s = Config.alpha_A c
  /\ Config.alpha s = Some (default 1e20%R (Config.alpha c))
  /\ Config.beta s = Config.beta c
  /\ Config.A0 s = Config.A0 c /\ Config.m0 s = Config.m0 c
  /\ exists ws, Config.warned s = Config.warned c ++ ws
       /\ length ws = absent (Config.alpha c).
Proof.
  unfold keeps, Config.fill_alpha.
  destruct (Config.alpha c) eqn:Ha; simpl;
    (split; [repeat split; reflexivity|]);
    repeat (split; [reflexivity || assumption|]);
    first [ exists []; split; [symmetry; apply app_nil_r | reflexivity]
          | eexists [_]; split; reflexivity ].
Qed.

Lemma fill_beta_all (c : Config.params) :
  let s := Config.fill_beta c in
  keeps c s
  /\ Config.eta s = Config.eta c /\ Config.alpha_m s = Config.alpha_m c
  /\ Config.alpha_A s = Config.alpha_A c
  /\ Config.alpha s = Config.alpha c
  /\ Config.beta s = Some (default 1e20%R (Config.beta c))
  /\ Config.A0 s = Config.A0 c /\ Config.m0 s = Config.m0 c
  /\ exists ws, Config.warned s = Config.warned c ++ ws
       /\ length ws = absent (Config.beta c).
Proof.
  unfold keeps, Config.fill_beta.
  destruct (Config.beta c) eqn:Hb; simpl;
    (split; [repeat split; reflexivity|]);
    repeat (split; [reflexivity || assumption|]);
    first [ exists []; split; [symmetry; apply app_nil_r | reflexivity]
          | eexists [_]; split; reflexivity ].
Qed.

Lemma fill_A0_all (c : Config.params) :
  let s := Config.fill_A0 c in
  keeps c s
  /\ Config.eta s = Config.eta c /\ Config.alpha_m s = Config.alpha_m c
  /\ Config.alpha_A s = Config.alpha_A c
  /\ Config.alpha s = Config.alpha c /\ Config.beta s = Config.beta c
  /\ Config.A0 s
     = Some (default (Config.default_A0 (Config.gamma c) (Config._n_tgts c))
               (Config.A0 c))
  /\ Config.m0 s = Config.m0 c
  /\ Config.warned s = Config.warned c.
Proof.
  unfold keeps, Config.fill_A0.
  destruct (Config.A0 c) eqn:HA; simpl;
    (split; [repeat split; reflexivity|]);
    repeat (split; [reflexivity || assumption|]); reflexivity.
Qed.

Lemma fill_m0_all (random_rand : nat -> nat -> list R) (c : Config.params) :
  let s := Config.fill_m0 random_rand c in
  keeps c s
  /\ Config.eta s = Config.eta c /\ Config.alpha_m s = Config.alpha_m c
  /\ Config.alpha_A s = Config.alpha_A c
  /\ Config.alpha s = Config.alpha c /\ Config.beta s = Config.beta c
  /\ Config.A0 s = Config.A0 c
  /\ Config.m0 s
     = Some (default (Config.default_m0 (random_rand 1 (Config._n_tgts c))
                        (Config._n_tgts c)) (Config.m0 c))
  /\ Config.warned s = Config.warned c.
Proof.
  unfold keeps, Config.fill_m0.
  destruct (Config.m0 c) eqn:Hm; simpl;
    (split; [repeat split; reflexivity|]);
    repeat (split; [reflexivity || assumption|]); reflexivity.
Qed.

Lemma keeps_trans (a b c : Config.params) : keeps a b -> keeps b c -> keeps a c.
Proof.
  unfold keeps. intros (H1 & H2 & H3 & H4 & H5 & H6 & H7 & H8)
    (K1 & K2 & K3 & K4 & K5 & K6 & K7 & K8).
  repeat split; congruence.
Qed.

(** What the defaults leave: every optional parameter has a value, the
    values in effect are those of the configuration, and the warnings are
    those of the absent [eta], [alpha] and [beta]. *)
Lemma guard_defaults_fields (random_rand : nat -> nat -> list R)
    (c : Config.params) :
  let s := guard_defaults random_rand c in
  Config.eta s = Some (Config.effective_eta c)
  /\ Config.alpha_m s = Some (Config.effective_alpha_m c)
  /\ Config.alpha_A s = Some (Config.effective_alpha_A c)
  /\ Config.alpha s = Some (default 1e20%R (Config.alpha c))
  /\ Config.beta s = Some (default 1e20%R (Config.beta c))
  /\ Config.A0 s
     = Some (default (Config.default_A0 (Config.gamma c) (Config._n_tgts c))
               (Config.A0 c))
  /\ Config.m0 s
     = Some (default (Config.default_m0 (random_rand 1 (Config._n_tgts c))
                        (Config._n_tgts c)) (Config.m0 c))
  /\ keeps c s
  /\ exists ws,
       Config.warned s = Config.warned c ++ ws
       /\ length ws = absent (Config.eta c)
                      + absent (Config.alpha c)
                      + absent (Config.beta c).
Proof.
  unfold guard_defaults.
  pose (s1 := Config.fill_steps c).
  pose (s2 := Config.fill_alpha s1).
  pose (s3 := Config.fill_beta s2).
  pose (s4 := Config.fill_A0 s3).
  destruct (fill_steps_all c)
    as (K1 & He1 & Ham1 & HaA1 & Ha1 & Hb1 & HA1 & Hm1 & w1 & Hw1 & Hl1).
  destruct (fill_alpha_all s1)
    as (K2 & He2 & Ham2 & HaA2 & Ha2 & Hb2 & HA2 & Hm2 & w2 & Hw2 & Hl2).
  destruct (fill_beta_all s2)
    as (K3 & He3 & Ham3 & HaA3 & Ha3 & Hb3 & HA3 & Hm3 & w3 & Hw3 & Hl3).
  destruct (fill_A0_all s3)
    as (K4 & He4 & Ham4 & HaA4 & Ha4 & Hb4 & HA4 & Hm4 & Hw4).
  destruct (fill_m0_all random_rand s4)
    as (K5 & He5 & Ham5 & HaA5 & Ha5 & Hb5 & HA5 & Hm5 & Hw5).
  subst s1 s2 s3 s4.
  assert (K13 : keeps c (Config.fill_beta (Config.fill_alpha (Config.fill_steps c)))) by (eapply keeps_trans; [eapply keeps_trans|]; eassumption).
  assert (K14 : keeps c (Config.fill_A0 (Config.fill_beta
                             (Config.fill_alpha (Config.fill_steps c)))))
    by (eapply keeps_trans; eassumption).
  assert (K15 : keeps c (Config.fill_m0 random_rand
                           (Config.fill_A0 (Config.fill_beta
                              (Config.fill_alpha (Config.fill_steps c))))))
    by (eapply keeps_trans; eassumption).
  split; [congruence|]. split; [congruence|]. split; [congruence|].
  split; [congruence|]. split; [congruence|].
  split.
  { rewrite HA5, HA4. destruct K13 as (_ & -> & _ & _ & _ & _ & _ & ->).
    congruence. }
  split.
  { rewrite Hm5. destruct K14 as (_ & _ & _ & _ & _ & _ & _ & ->). congruence. }
  split; [exact K15|].
  exists (w1 ++ w2 ++ w3). split.
  - rewrite Hw5, Hw4, Hw3, Hw2, Hw1, <- !app_assoc. reflexivity.
  - rewrite !length_app, Hl1, Hl2, Hl3, Ha1, Hb2, Hb1. lia.
Qed.

Lemma invalid_after_defaults (random_rand : nat -> nat -> list R)
    (c : Config.params) :
  Config.invalid (guard_defaults random_rand c) <-> Config.invalid c.
Proof.
  destruct (guard_defaults_fields random_rand c)
    as (He & Ham & HaA & _ & _ & _ & _
        & (Hth & Hg & Htl & Htlm & Heps & Hthr & Hineq & _) & _).
  cbv zeta in *. unfold Config.invalid.
  assert (E1 : Config.effective_eta (guard_defaults random_rand c)
               = Config.effective_eta c).
  { unfold Config.effective_eta at 1. rewrite He. reflexivity. }
  assert (E2 : Config.effective_alpha_m (guard_defaults random_rand c)
               = Config.effective_alpha_m c).
  { unfold Config.effective_alpha_m at 1. rewrite He, Ham. reflexivity. }
  assert (E3 : Config.effective_alpha_A (guard_defaults random_rand c)
               = Config.effective_alpha_A c).
  { unfold Config.effective_alpha_A at 1. rewrite He, HaA. reflexivity. }
  rewrite E1, E2, E3, Hth, Hg, Htl, Htlm, Heps, Hthr, Hineq. reflexivity.
Qed.

Lemma guard_returns_defaults (random_rand : nat -> nat -> list R)
    (c c' : Config.params) :
  Config.__post_init_guard random_rand c = Ok c' ->
  ~ Config.invalid c /\ c' = guard_defaults random_rand c.
Proof.
  intros Hg. split.
  - intros Hinv. apply (guard_raises_iff random_rand) in Hinv.
    rewrite Hg in Hinv. exact Hinv.
  - exact (guard_Ok random_rand c c' Hg).
Qed.

Lemma guard_accepts_defaults (random_rand : nat -> nat -> list R)
    (c : Config.params) :
  ~ Config.invalid c ->
  Config.__post_init_guard random_rand c = Ok (guard_defaults random_rand c).
Proof. exact (guard_accepts random_rand c). Qed.

Lemma guard_fixed_point (random_rand : nat -> nat -> list R)
    (c c' : Config.params) :
  Config.__post_init_guard random_rand c = Ok c' ->
  Config.__post_init_guard random_rand c' = Ok c'.
Proof.
  intros Hg. apply guard_returns_defaults in Hg as [Hvalid ->].
  rewrite guard_accepts_defaults
    by (rewrite invalid_after_defaults; exact Hvalid).
  f_equal.
  destruct (guard_defaults_fields random_rand c)
    as (He & Ham & HaA & Ha & Hb & HA & Hm & _).
  apply guard_defaults_fixed; eexists; eassumption.
Qed.

(** X10. The guard is idempotent: on a configuration that it has accepted
    it succeeds again and changes nothing, and it adds no warning.  So
    [set_params] on a fitted configuration, when the base class stores
    nothing new, leaves the configuration as it is. *)
Theorem guard_idempotent (random_rand : nat -> nat -> list R)
    (c c' : Config.params) :
  Config.__post_init_guard random_rand c = Ok c' ->
  Config.__post_init_guard random_rand c' = Ok c'
  /\ forall super_set_params,
       super_set_params c' = Ok c' ->
       Config.set_params random_rand super_set_params c' = Ok c'.
Proof.
  intros Hg. pose proof (guard_fixed_point random_rand c c' Hg) as Hfix.
  split; [exact Hfix|].
  intros super Hs. unfold Config.set_params. rewrite Hs. exact Hfix.
Qed.

Lemma bare_config_valid : ~ Config.invalid bare_config.
Proof.
  unfold Config.invalid, Config.effective_eta, Config.effective_alpha_m,
    Config.effective_alpha_A, Config.known_thresholder. simpl.
  intros H. decompose [or and] H; try lra; try discriminate.
  match goal with Hn : ~ _ |- _ => apply Hn; left; reflexivity end.
Qed.

Lemma guard_idempotent_witness :
  Config.__post_init_guard half_samples (guard_defaults half_samples bare_config)
  = Ok (guard_defaults half_samples bare_config)
  /\ forall super_set_params,
       super_set_params (guard_defaults half_samples bare_config)
       = Ok (guard_defaults half_samples bare_config) ->
       Config.set_params half_samples super_set_params
         (guard_defaults half_samples bare_config)
       = Ok (guard_defaults half_samples bare_config).
Proof.
  apply (guard_idempotent half_samples bare_config).
  apply guard_accepts_defaults. exact bare_config_valid.
Defined.

(** X11. A configuration that the guard accepts leaves it complete and
    within range: every optional parameter has a value ([eta], [alpha_m]
    and [alpha_A] those in effect, [alpha] and [beta] the given one or 1e20,
    [A0] the given one or [diag(gamma)]), [eta > 0], both step sizes lie in
    [[0, eta]], [gamma < 0] and the three tolerances are positive; and the
    guard has added one warning for each of [eta], [alpha], [beta] that was
    absent, and none for the other absent parameters. *)
Theorem guard_postconditions (random_rand : nat -> nat -> list R)
    (c c' : Config.params) :
  Config.__post_init_guard random_rand c = Ok c' ->
  exists e am aA m ws,
    Config.eta c' = Some e /\ Config.alpha_m c' = Some am
    /\ Config.alpha_A c' = Some aA
    /\ Config.alpha c' = Some (default 1e20%R (Config.alpha c))
    /\ Config.beta c' = Some (default 1e20%R (Config.beta c))
    /\ Config.A0 c'
       = Some (default (Config.default_A0 (Config.gamma c) (Config._n_tgts c))
                 (Config.A0 c))
    /\ Config.m0 c' = Some m
    /\ (forall v, Config.m0 c = Some v -> m = v)
    /\ (forall v, Config.eta c = Some v -> e = v)
    /\ (forall v w, Config.eta c = Some v -> Config.alpha_m c = Some w -> am = w)
    /\ (forall v w, Config.eta c = Some v -> Config.alpha_A c = Some w -> aA = w)
    /\ (0 < e /\ 0 <= am <= e /\ 0 <= aA <= e)%R
    /\ (Config.gamma c' < 0 /\ 0 < Config.tol c' /\ 0 < Config.tol_m c'
        /\ 0 < Config.eps_solver c')%R
    /\ Config.warned c' = Config.warned c ++ ws
    /\ length ws = absent (Config.eta c)
                   + absent (Config.alpha c)
                   + absent (Config.beta c).
Proof.
  intros Hg. apply guard_returns_defaults in Hg as [Hvalid ->].
  destruct (guard_defaults_fields random_rand c)
    as (He & Ham & HaA & Ha & Hb & HA & Hm
        & (_ & Hgm & Htl & Htlm & Heps & _ & _ & _) & ws & Hws & Hlen).
  exists (Config.effective_eta c), (Config.effective_alpha_m c),
    (Config.effective_alpha_A c),
    (default (Config.default_m0 (random_rand 1 (Config._n_tgts c))
                (Config._n_tgts c)) (Config.m0 c)), ws.
  rewrite Hgm, Htl, Htlm, Heps.
  unfold Config.invalid in Hvalid.
  repeat (split; [assumption|]).
  split; [intros v ->; reflexivity|].
  split; [intros v Hv; unfold Config.effective_eta; rewrite Hv; reflexivity|].
  split; [intros v w Hv Hw; unfold Config.effective_alpha_m;
          rewrite Hv, Hw; reflexivity|].
  split; [intros v w Hv Hw; unfold Config.effective_alpha_A;
          rewrite Hv, Hw; reflexivity|].
  split.
  { repeat split.
    - apply Rnot_le_lt. intros H. apply Hvalid. tauto.
    - apply Rnot_lt_le. intros H. apply Hvalid. tauto.
    - apply Rnot_gt_le. intros H. apply Hvalid. tauto.
    - apply Rnot_lt_le. intros H. apply Hvalid. tauto.
    - apply Rnot_gt_le. intros H. apply Hvalid. tauto. }
  split.
  { repeat split.
    - apply Rnot_ge_lt. intros H. apply Hvalid. tauto.
    - apply Rnot_le_lt. intros H. apply Hvalid. tauto.
    - apply Rnot_le_lt. intros H. apply Hvalid. tauto.
    - apply Rnot_le_lt. intros H. apply Hvalid. tauto. }
  split; assumption.
Qed.

Lemma guard_postconditions_witness :
  exists e am aA m ws,
    Config.eta (guard_defaults half_samples bare_config) = Some e
    /\ Config.alpha_m (guard_defaults half_samples bare_config) = Some am
    /\ Config.alpha_A (guard_defaults half_samples bare_config) = Some aA
    /\ Config.alpha (guard_defaults half_samples bare_config)
       = Some (default 1e20%R (Config.alpha bare_config))
    /\ Config.beta (guard_defaults half_samples bare_config)
       = Some (default 1e20%R (Config.beta bare_config))
    /\ Config.A0 (guard_defaults half_samples bare_config)
       = Some (default (Config.default_A0 (Config.gamma bare_config)
                          (Config._n_tgts bare_config))
                 (Config.A0 bare_config))
    /\ Config.m0 (guard_defaults half_samples bare_config) = Some m
    /\ (forall v, Config.m0 bare_config = Some v -> m = v)
    /\ (forall v, Config.eta bare_config = Some v -> e = v)
    /\ (forall v w, Config.eta bare_config = Some v ->
          Config.alpha_m bare_config = Some w -> am = w)
    /\ (forall v w, Config.eta bare_config = Some v ->
          Config.alpha_A bare_config = Some w -> aA = w)
    /\ (0 < e /\ 0 <= am <= e /\ 0 <= aA <= e)%R
    /\ (Config.gamma (guard_defaults half_samples bare_config) < 0
        /\ 0 < Config.tol (guard_defaults half_samples bare_config)
        /\ 0 < Config.tol_m (guard_defaults half_samples bare_config)
        /\ 0 < Config.eps_solver (guard_defaults half_samples bare_config))%R
    /\ Config.warned (guard_defaults half_samples bare_config)
       = Config.warned bare_config ++ ws
    /\ length ws = absent (Config.eta bare_config)
                   + absent (Config.alpha bare_config)
                   + absent (Config.beta bare_config).
Proof.
  apply (guard_postconditions half_samples bare_config).
  apply guard_accepts_defaults. exact bare_config_valid.
Defined.

(** ** Sums of non-negative cells *)

Section NonnegativeSums.
Local Open Scope R_scope.

Lemma sum_range_nonneg (n : nat) (f : nat -> R) :
  (forall i, (i < n)%nat -> 0 <= f i) -> 0 <= sum_range n f.
Proof.
  induction n as [|n IH]; intros H; simpl; [lra|].
  assert (0 <= sum_range n f) by (apply IH; intros i Hi; apply H; lia).
  assert (0 <= f n) by (apply H; lia). lra.
Qed.


Lemma sum_cells_nonneg (sh : list nat) (f : list nat -> R) :
  (forall idx, 0 <= f idx) -> 0 <= sum_cells sh f.
Proof.
  revert f. induction sh as [|n sh IH]; intros f H; simpl; [apply H|].
  apply sum_range_nonneg. intros i _. apply IH. intros idx. apply H.
Qed.


Lemma np_sum_square_nonneg (a : ndarray) : 0 <= np_sum (square a).
Proof.
  unfold np_sum. apply sum_cells_nonneg. intros idx. simpl. nra.
Qed.

Lemma np_sum_abs_nonneg (a : ndarray) : 0 <= np_sum (np_abs a).
Proof.
  unfold np_sum. apply sum_cells_nonneg. intros idx. simpl. apply Rabs_pos.
Qed.



End NonnegativeSums.





(** ** The objective is bounded below *)

(** X14. For a non-negative threshold and positive [eta] and [alpha], the
    value that [_objective] returns is non-negative, in both modes: each
    term of the sum is. *)
Theorem objective_nonneg (mod_matrix PQ : ndarray)
    (threshold eta alpha beta : R) (method : string)
    (x y w A PW : ndarray) (v : R) :
  _objective mod_matrix PQ threshold eta alpha beta method x y w A PW = Ok v ->
  (0 <= threshold)%R -> (0 < eta)%R -> (0 < alpha)%R ->
  (0 <= v)%R.
Proof.
  intros Hobj Hthr Heta Halpha. rewrite objective_value in Hobj.
  unfold data_fit_loss in Hobj.
  destruct (matmul x w) as [xw|e]; [|discriminate].
  cbn [mbind result_bind Py.bind] in Hobj.
  assert (Hfit : (0 <= 0.5 * np_sum (square (sub y xw)))%R).
  { pose proof (np_sum_square_nonneg (sub y xw)). lra. }
  assert (Hrelax : (0 <= relaxation_loss eta A PW)%R).
  { unfold relaxation_loss. pose proof (np_sum_square_nonneg (sub A PW)).
    apply Rmult_le_pos; [lra | left; apply Rinv_0_lt_compat; exact Heta]. }
  assert (Hsparse : (0 <= sparsity_penalty threshold w)%R).
  { unfold sparsity_penalty. apply Rmult_le_pos;
      [exact Hthr | apply np_sum_abs_nonneg]. }
  assert (Hnl : (0 <= nonlinear_energy_penalty mod_matrix PQ alpha w)%R).
  { unfold nonlinear_energy_penalty.
    pose proof (np_sum_square_nonneg (einsum_ya_abcde_ed mod_matrix PQ w)).
    apply Rmult_le_pos; [lra | left; apply Rinv_0_lt_compat; exact Halpha]. }
  destruct (String.eqb method "local"); inversion Hobj; lra.
Qed.

Lemma objective_nonneg_witness :
  exists v,
    _objective eye2 (zeros [2; 2; 2; 2; 5]) 0.1 1 1 1 "local"
      (zeros [1; 5]) (zeros [1; 2]) coef_x0x1 (zeros [2; 2]) (zeros [2; 2])
    = Ok v
    /\ (0 <= v)%R.
Proof.
  eexists. split; [reflexivity|].
  eapply (objective_nonneg eye2 (zeros [2; 2; 2; 2; 5]) 0.1 1 1 1 "local"
            (zeros [1; 5]) (zeros [1; 2]) coef_x0x1 (zeros [2; 2]) (zeros [2; 2]));
    [reflexivity | lra | lra | lra].
Defined.

(** ** The certificate update *)

Section CertificateUpdate.

Variables (eta alpha_m alpha_A gamma : R).
Variables (rt_mod_mat rt_inv_mod_mat : ndarray).
Variable eigh : ndarray -> list R * ndarray.
Variable inv : ndarray -> ndarray.
Variable tensors : Ptensors.

Let PW (trap_ctr coef_sparse : ndarray) : ndarray :=
  tensordot_P_w (P_at rt_mod_mat rt_inv_mod_mat tensors trap_ctr) coef_sparse.

Lemma solve_m_unfold (alpha_A' : R) (m A w : ndarray) :
  _solve_m_relax_and_split eta alpha_m alpha_A' gamma rt_mod_mat rt_inv_mod_mat
    eigh inv tensors m A w
  = (A_new ← _update_A eigh inv gamma
               (sub A (scale alpha_A' (divide (sub A (PW m w)) eta))) (PW m w);
     Ok (sub m (scale alpha_m
                  (tensordot_PMW_Ab
                     (divide
                        (add (einsum_ya_abc_bz rt_mod_mat
                                (tensordot_PM_w (PM_ tensors) w) rt_inv_mod_mat)
                           (transpose [1; 0; 2]
                              (einsum_ya_abc_bz rt_mod_mat
                                 (tensordot_PM_w (PM_ tensors) w)
                                 rt_inv_mod_mat))) 2)
                     (divide (sub A (PW m w)) eta))),
         A_new)).
Proof. reflexivity. Qed.

Lemma solve_m_center_cells (m A w m' A' : ndarray) :
  _solve_m_relax_and_split eta alpha_m alpha_A gamma rt_mod_mat rt_inv_mod_mat
    eigh inv tensors m A w = Ok (m', A') ->
  alpha_m = 0%R \/ (forall c b, data A [c; b] = data (PW m w) [c; b]) ->
  shape m' = shape m /\ forall idx, data m' idx = data m idx.
Proof.
  intros Hrun Hcase. rewrite solve_m_unfold in Hrun.
  destruct (_update_A _ _ _ _ _) as [A1|e]; [|discriminate].
  cbn [mbind result_bind Py.bind] in Hrun. inversion Hrun. subst m' A'.
  split; [reflexivity|]. intros idx.
  destruct Hcase as [->|Hagree].
  - cbn [data sub scale zip_cells map_cells]. lra.
  - cbn [data sub scale zip_cells map_cells tensordot_PMW_Ab].
    destruct idx as [|a [|a' idx]]; try lra.
    rewrite (sum_range_ext _ _ (fun _ => 0%R)).
    + rewrite sum_range_zero. lra.
    + intros c _. rewrite (sum_range_ext _ _ (fun _ => 0%R)).
      * apply sum_range_zero.
      * intros b _. cbn [data divide sub zip_cells map_cells].
        rewrite Hagree. unfold Rdiv. ring.
Qed.

Lemma solve_m_step_eta (m A w m' A' : ndarray) :
  eta <> 0%R -> shape A = shape (PW m w) ->
  _solve_m_relax_and_split eta alpha_m eta gamma rt_mod_mat rt_inv_mod_mat
    eigh inv tensors m A w = Ok (m', A') ->
  _update_A eigh inv gamma (PW m w) (PW m w) = Ok A'.
Proof.
  intros Heta Hsh Hrun. rewrite solve_m_unfold in Hrun.
  assert (E : sub A (scale eta (divide (sub A (PW m w)) eta)) = PW m w).
  { destruct (PW m w) as [sh d]. simpl in Hsh.
    unfold sub, scale, divide, zip_cells, map_cells. simpl. rewrite Hsh.
    f_equal. apply functional_extensionality. intros idx. field. exact Heta. }
  rewrite E in Hrun.
  destruct (_update_A eigh inv gamma (PW m w) (PW m w)) as [A1|e];
    [|discriminate].
  cbn [mbind result_bind Py.bind] in Hrun. inversion Hrun. reflexivity.
Qed.

End CertificateUpdate.

(** X15. The certificate update leaves the trap center where it is, cell for
    cell, when the step size [alpha_m] is zero, and when [A] already equals
    the projection [PW] of the coefficients at the current trap center (the
    relaxation is exact, so the gradient in [m] vanishes). *)
Theorem solve_m_center_fixed (eta alpha_m alpha_A gamma : R)
    (rt_mod_mat rt_inv_mod_mat : ndarray)
    (eigh : ndarray -> list R * ndarray) (inv : ndarray -> ndarray)
    (tensors : Ptensors) (m A w m' A' : ndarray) :
  _solve_m_relax_and_split eta alpha_m alpha_A gamma rt_mod_mat rt_inv_mod_mat
    eigh inv tensors m A w = Ok (m', A') ->
  alpha_m = 0%R
  \/ (forall c b, data A [c; b]
        = data (tensordot_P_w (P_at rt_mod_mat rt_inv_mod_mat tensors m) w)
            [c; b]) ->
  shape m' = shape m /\ forall idx, data m' idx = data m idx.
Proof. apply solve_m_center_cells. Qed.

(** The certificate update on the small fit returns. *)
Lemma example_certificate_returns (eta alpha_m alpha_A gamma : R)
    (tensors : Ptensors) (m A w : ndarray) :
  shape A = [2; 2] ->
  exists m' A',
    _solve_m_relax_and_split eta alpha_m alpha_A gamma eye2 eye2 eigh_diag2
      inv_eye tensors m A w = Ok (m', A')
    /\ shape A' = [2; 2] /\ shape m' = shape m.
Proof.
  intros HA. rewrite solve_m_unfold.
  set (PW := tensordot_P_w _ w).
  set (A_old := sub A (scale alpha_A _)).
  destruct (update_A_cells gamma [data A_old [0; 0]; data A_old [1; 1]]
              eigh_diag2 inv_eye 2 A_old PW eye2 eye2
              [data PW [0; 0]; data PW [1; 1]])
    as (A' & HA' & Hsh & _); try reflexivity.
  { exact HA. }
  rewrite HA'. cbn [mbind result_bind Py.bind]. eexists _, A'.
  split; [reflexivity|]. split; [exact Hsh | reflexivity].
Qed.

Lemma solve_m_center_fixed_witness :
  exists m' A',
    _solve_m_relax_and_split 1 0 1 (-0.1) eye2 eye2 eigh_diag2 inv_eye
      {| PC_ := zeros [2; 2; 5]; PL_unsym_ := zeros [2; 2; 2; 5];
         PL_ := zeros [2; 2; 2; 5]; PQ_ := zeros [2; 2; 2; 2; 5];
         PT_ := zeros [2; 2; 2; 2; 5]; PM_ := zeros [2; 2; 2; 2; 5] |}
      (zeros [2]) (Config.default_A0 (-0.1) 2) coef_x0x1 = Ok (m', A')
    /\ shape m' = shape (zeros [2])
    /\ forall idx, data m' idx = data (zeros [2]) idx.
Proof.
  destruct (example_certificate_returns 1 0 1 (-0.1)
              {| PC_ := zeros [2; 2; 5]; PL_unsym_ := zeros [2; 2; 2; 5];
                 PL_ := zeros [2; 2; 2; 5]; PQ_ := zeros [2; 2; 2; 2; 5];
                 PT_ := zeros [2; 2; 2; 2; 5]; PM_ := zeros [2; 2; 2; 2; 5] |}
              (zeros [2]) (Config.default_A0 (-0.1) 2) coef_x0x1 eq_refl)
    as (m' & A' & Hrun & _).
  exists m', A'. split; [exact Hrun|].
  apply (solve_m_center_fixed _ _ _ _ _ _ _ _ _ _ _ _ _ _ Hrun).
  left. reflexivity.
Defined.

(** X16. With the step size [alpha_A = eta], which is the default, the
    matrix that the certificate update projects is [PW] itself (over the
    reals, [A - eta * (A - PW) / eta = PW]): the new [A] is
    [_update_A(PW, PW)] and does not depend on the previous [A]. *)
Theorem solve_m_default_step (eta alpha_m gamma : R)
    (rt_mod_mat rt_inv_mod_mat : ndarray)
    (eigh : ndarray -> list R * ndarray) (inv : ndarray -> ndarray)
    (tensors : Ptensors) (m A w m' A' : ndarray) :
  eta <> 0%R ->
  shape A = shape (tensordot_P_w (P_at rt_mod_mat rt_inv_mod_mat tensors m) w) ->
  _solve_m_relax_and_split eta alpha_m eta gamma rt_mod_mat rt_inv_mod_mat
    eigh inv tensors m A w = Ok (m', A') ->
  _update_A eigh inv gamma
    (tensordot_P_w (P_at rt_mod_mat rt_inv_mod_mat tensors m) w)
    (tensordot_P_w (P_at rt_mod_mat rt_inv_mod_mat tensors m) w) = Ok A'.
Proof. apply solve_m_step_eta. Qed.

Lemma solve_m_default_step_witness :
  exists m' A',
    _solve_m_relax_and_split 1 0 1 (-0.1) eye2 eye2 eigh_diag2 inv_eye
      {| PC_ := zeros [2; 2; 5]; PL_unsym_ := zeros [2; 2; 2; 5];
         PL_ := zeros [2; 2; 2; 5]; PQ_ := zeros [2; 2; 2; 2; 5];
         PT_ := zeros [2; 2; 2; 2; 5]; PM_ := zeros [2; 2; 2; 2; 5] |}
      (zeros [2]) (Config.default_A0 (-0.1) 2) coef_x0x1 = Ok (m', A')
    /\ _update_A eigh_diag2 inv_eye (-0.1)
         (tensordot_P_w
            (P_at eye2 eye2
               {| PC_ := zeros [2; 2; 5]; PL_unsym_ := zeros [2; 2; 2; 5];
                  PL_ := zeros [2; 2; 2; 5]; PQ_ := zeros [2; 2; 2; 2; 5];
                  PT_ := zeros [2; 2; 2; 2; 5]; PM_ := zeros [2; 2; 2; 2; 5] |}
               (zeros [2])) coef_x0x1)
         (tensordot_P_w
            (P_at eye2 eye2
               {| PC_ := zeros [2; 2; 5]; PL_unsym_ := zeros [2; 2; 2; 5];
                  PL_ := zeros [2; 2; 2; 5]; PQ_ := zeros [2; 2; 2; 2; 5];
                  PT_ := zeros [2; 2; 2; 2; 5]; PM_ := zeros [2; 2; 2; 2; 5] |}
               (zeros [2])) coef_x0x1) = Ok A'.
Proof.
  destruct (example_certificate_returns 1 0 1 (-0.1)
              {| PC_ := zeros [2; 2; 5]; PL_unsym_ := zeros [2; 2; 2; 5];
                 PL_ := zeros [2; 2; 2; 5]; PQ_ := zeros [2; 2; 2; 2; 5];
                 PT_ := zeros [2; 2; 2; 2; 5]; PM_ := zeros [2; 2; 2; 2; 5] |}
              (zeros [2]) (Config.default_A0 (-0.1) 2) coef_x0x1 eq_refl)
    as (m' & A' & Hrun & _).
  exists m', A'. split; [exact Hrun|].
  apply (solve_m_default_step 1 0 (-0.1) eye2 eye2 eigh_diag2 inv_eye _
           (zeros [2]) (Config.default_A0 (-0.1) 2) coef_x0x1 m' A');
    [lra | reflexivity | exact Hrun].
Defined.

(** ** The loop runs to a result *)

Section LoopReturns.

Variables (eta alpha beta tol tol_m threshold : R).
Variable inequality_constraints : bool.
Variable method : string.
Variables (mod_matrix rt_mod_mat rt_inv_mod_mat : ndarray).
Variable sorted_eigvals : ndarray -> ndarray.
Variable sparse : ndarray -> ndarray -> ndarray -> option ndarray.
Variable nonsparse : ndarray -> ndarray -> ndarray.
Variable solve_m :
  ndarray -> ndarray -> ndarray -> result (option ndarray * ndarray).
Variables (tensors : Ptensors) (x y trap_prev_ctr : ndarray).

(** What the certificate update keeps about the trap center and [A], and
    the shapes of the samples and of the coefficients. *)
Variable Inv : ndarray -> ndarray -> Prop.
Variables (n p q : nat).
Hypothesis Hsolve : forall m A w, Inv m A -> shape w = [p; q] ->
  exists m' A', solve_m m A w = Ok (m', A')
    /\ forall m'', m' = Some m'' -> Inv m'' A'.
Hypothesis Hx : shape x = [n; p].
Hypothesis Hsparse : forall P A c w, sparse P A c = Some w -> shape w = [p; q].
Hypothesis Hnonsparse : forall P A, shape (nonsparse P A) = [p; q].

Let step :=
  iteration eta alpha beta tol tol_m threshold inequality_constraints method
    mod_matrix rt_mod_mat rt_inv_mod_mat sorted_eigvals sparse nonsparse
    solve_m tensors x y trap_prev_ctr.

Lemma step_returns (k : nat) (st : fit) :
  Inv (trap_ctr st) (A st) -> m_history_ st <> [] ->
  exists c, step k st = Ok c
    /\ match c with
       | Continue st' => Inv (trap_ctr st') (A st') /\ m_history_ st' <> []
       | Break _ _ => True
       end.
Proof.
  intros HI Hne. unfold step. rewrite step_unfold.
  destruct (if bool_decide (threshold > 0)%R || inequality_constraints
            then sparse _ (A st) (coef_sparse st)
            else Some (nonsparse _ (A st))) as [w|] eqn:Hw.
  2:{ eexists. split; [reflexivity | exact I]. }
  assert (Hshape : shape w = [p; q]).
  { destruct (bool_decide (threshold > 0)%R || inequality_constraints).
    - eapply Hsparse. exact Hw.
    - inversion Hw. apply Hnonsparse. }
  destruct (Hsolve (trap_ctr st) (A st) w HI Hshape) as (m' & A' & Hm & Hkeep).
  rewrite Hm. cbn [mbind result_bind Py.bind].
  destruct m' as [m|].
  2:{ eexists. split; [reflexivity | exact I]. }
  destruct (objective_defined mod_matrix (PQ_ tensors) threshold eta alpha beta
              method n p q x y w A'
              (tensordot_P_w (P_at rt_mod_mat rt_inv_mod_mat tensors
                                (trap_ctr st)) w) Hx Hshape) as [obj Hobj].
  rewrite Hobj. cbn [mbind result_bind Py.bind]. cbv zeta.
  destruct (last (m_history_ st)) as [a|] eqn:Hlast.
  2:{ apply last_None in Hlast. contradiction. }
  apply last_Some in Hlast as [h Hh].
  match goal with
  | |- context [_m_convergence_criterion (m_history_ ?s)] =>
      assert (Hmh : m_history_ s = m_history_ st ++ [m]) by reflexivity;
      assert (Hch : history_ s = history_ st ++ [T w]) by reflexivity;
      assert (Htr : trap_ctr s = m) by reflexivity;
      assert (HA : A s = A') by reflexivity;
      set (st' := s) in *
  end.
  rewrite Hmh, Hch, Hh, <- app_assoc. change ([a] ++ [m]) with [a; m].
  rewrite m_criterion_value. cbn [mbind result_bind Py.bind].
  assert (Hnext : Inv (trap_ctr st') (A st') /\ m_history_ st' <> []).
  { rewrite Htr, HA, Hmh. split; [apply Hkeep; reflexivity|].
    intros Hnil. apply app_eq_nil in Hnil as [_ Hnil]. discriminate. }
  destruct (decide (center_change a m < tol_m)%R).
  - rewrite criterion_value. cbn [mbind result_bind Py.bind].
    eexists. split; [reflexivity|].
    destruct (bool_decide (coef_change _ _ < tol)%R); [exact I | exact Hnext].
  - cbn [mbind result_bind Py.bind]. eexists. split; [reflexivity | exact Hnext].
Qed.

Lemma loop_returns (ks : list nat) (st : fit) :
  Inv (trap_ctr st) (A st) -> m_history_ st <> [] ->
  exists st' why, for_break ks step st = Ok (st', why).
Proof.
  revert st. induction ks as [|k ks IH]; intros st HI Hne.
  - eexists _, _. reflexivity.
  - rewrite for_break_cons.
    destruct (step_returns k st HI Hne) as (c & -> & Hc).
    cbn [mbind result_bind Py.bind]. destruct c as [st'|why st'].
    + destruct Hc as [HI' Hne']. apply IH; assumption.
    + eexists _, _. reflexivity.
Qed.

End LoopReturns.

(** X17. Where the shapes fit, [_reduce] returns a result: for a degree-2
    library of [r] variables that has every linear term, samples [x] with a
    column for each term and [y] with a column for each variable, an initial
    guess, a trap center and matrices of the matching shapes, a certificate
    update that does not raise on the trap centers, the matrices [A] and the
    coefficient matrices of these shapes that it reaches, and coefficient
    updates that return matrices of the shape of the coefficients.  The
    projection tensors are built, the loop itself never fails, and in
    particular the convergence criteria always find the history entries
    that they read.  (The reordering of the constraints before the loop is
    the work of an outside helper and is not part of [_reduce] here.) *)
Theorem reduce_returns (eta alpha beta tol tol_m threshold : R)
    (inequality_constraints : bool) (max_iter : nat) (method : string)
    (mod_matrix rt_mod_mat rt_inv_mod_mat A0 m0 : ndarray)
    (sorted_eigvals : ndarray -> ndarray)
    (sparse : ndarray -> ndarray -> ndarray -> option ndarray)
    (nonsparse : ndarray -> ndarray -> ndarray)
    (solve_m : ndarray -> ndarray -> ndarray -> result (option ndarray * ndarray))
    (lib_powers : list (list nat)) (coef_ x y : ndarray)
    (Inv : ndarray -> ndarray -> Prop) (n r : nat) :
  1 <= r -> wf_library r lib_powers -> has_linear_terms r lib_powers ->
  shape x = [n; length lib_powers] -> shape y = [n; r] ->
  shape coef_ = [r; length lib_powers] ->
  shape mod_matrix = [r; r] -> shape rt_mod_mat = [r; r] ->
  shape rt_inv_mod_mat = [r; r] ->
  (forall m A, Inv m A -> shape m = [r] /\ shape A = [r; r]) ->
  Inv m0 A0 ->
  (forall m A w, Inv m A -> shape w = [length lib_powers; r] ->
     exists m' A', solve_m m A w = Ok (m', A')
       /\ forall m'', m' = Some m'' -> Inv m'' A') ->
  (forall P A c w, sparse P A c = Some w -> shape w = [length lib_powers; r]) ->
  (forall P A, shape (nonsparse P A) = [length lib_powers; r]) ->
  exists tensors st why coef,
    _set_Ptensors lib_powers = Ok tensors
    /\ _reduce eta alpha beta tol tol_m threshold inequality_constraints
         max_iter method mod_matrix rt_mod_mat rt_inv_mod_mat A0 m0
         sorted_eigvals sparse nonsparse solve_m lib_powers coef_ x y
       = Ok (st, why, coef).
Proof.
  intros Hr Hwf Hlin Hx _ _ _ _ _ _ HI Hsolve Hsparse Hnonsparse.
  destruct (set_Ptensors_run r lib_powers Hr Hwf Hlin) as (tensors & Ht & _).
  exists tensors. unfold _reduce. rewrite Ht.
  cbn [mbind result_bind Py.bind].
  destruct (loop_returns eta alpha beta tol tol_m threshold
              inequality_constraints method mod_matrix rt_mod_mat
              rt_inv_mod_mat sorted_eigvals sparse nonsparse solve_m tensors
              x y m0 Inv n (length lib_powers) r Hsolve Hx Hsparse Hnonsparse
              (range max_iter) (initial_fit A0 m0 coef_) HI)
    as (st & why & Hloop).
  { discriminate. }
  rewrite Hloop. cbn [mbind result_bind Py.bind]. eexists _, _, _.
  split; reflexivity.
Qed.

Lemma example_certificate_keeps (tensors : Ptensors) (m A w : ndarray) :
  shape m = [2] /\ shape A = [2; 2] ->
  exists m' A', example_certificate tensors m A w = Ok (m', A')
    /\ forall m'', m' = Some m'' -> shape m'' = [2] /\ shape A' = [2; 2].
Proof.
  intros [Hm HA]. unfold example_certificate, certificate_update.
  destruct (example_certificate_returns 1 0 1 (-0.1) tensors m A w HA)
    as (m' & A' & -> & Hsh & Hshm).
  cbn [mbind result_bind Py.bind]. eexists _, _. split; [reflexivity|].
  intros m'' Heq. inversion Heq. subst m''. split; [congruence | exact Hsh].
Qed.

Lemma example_certified_run_returns (tensors : Ptensors) (max_iter : nat)
    (w : ndarray) :
  _set_Ptensors lib2 = Ok tensors -> shape w = [5; 2] ->
  exists st why coef,
    example_certified_run tensors max_iter w = Ok (st, why, coef).
Proof.
  intros Ht Hw. unfold example_certified_run, _reduce. rewrite Ht.
  cbn [mbind result_bind Py.bind].
  edestruct loop_returns
    with (Inv := fun (m A : ndarray) => shape m = [2] /\ shape A = [2; 2])
         (n := 1) (p := 5) (q := 2) as (st & why & Hloop); cycle -1.
  - rewrite Hloop. cbn [mbind result_bind Py.bind]. eexists _, _, _.
    reflexivity.
  - intros m A w' HA _. apply example_certificate_keeps. exact HA.
  - reflexivity.
  - intros P A c w' H. discriminate H.
  - intros P A. exact Hw.
  - split; reflexivity.
  - discriminate.
Qed.

Lemma reduce_returns_witness :
  exists tensors st why coef,
    _set_Ptensors lib2 = Ok tensors
    /\ example_certified_run tensors 30 coef_x0x1 = Ok (st, why, coef).
Proof.
  destruct tensors_lib2 as [t Ht].
  destruct (reduce_returns 1 1 1 1e-5 1e-5 0 false 30 "local" eye2 eye2 eye2
              (Config.default_A0 (-0.1) 2) (zeros [2]) no_eigvals
              sparse_infeasible (nonsparse_const coef_x0x1)
              (example_certificate t) lib2 (zeros [2; 5]) (zeros [1; 5])
              (zeros [1; 2])
              (fun m A => shape m = [2] /\ shape A = [2; 2]) 1 2
              (le_S 1 1 (le_n 1)) (poly_powers_wf false 2)
              (poly_powers_linear false 2) eq_refl eq_refl eq_refl eq_refl
              eq_refl eq_refl (fun m A H => H) (conj eq_refl eq_refl)
              (fun m A w HA _ => example_certificate_keeps t m A w HA)
              (fun P A c w (H : sparse_infeasible P A c = Some w) =>
                 match H in _ = o
                       return match o with Some _ => shape w = [5; 2]
                                         | None => True end
                 with eq_refl => I end)
              (fun _ _ => eq_refl)) as (t' & st & why & coef & Ht' & Hrun).
  rewrite Ht in Ht'. inversion Ht'. subst t'.
  exists t, st, why, coef. split; [exact Ht | exact Hrun].
Defined.

(** X18. A fit whose certificate update is the one of this module,
    [_solve_m_relax_and_split], never leaves the loop of [_reduce] on an
    infeasible trap center: that method returns a trap center on every
    path, so the branch of the loop for [trap_new is None] is not taken. *)
Theorem reduce_never_infeasible_center
    (eta alpha_m alpha_A alpha beta gamma tol tol_m threshold : R)
    (inequality_constraints : bool) (max_iter : nat) (method : string)
    (mod_matrix rt_mod_mat rt_inv_mod_mat A0 m0 : ndarray)
    (eigh : ndarray -> list R * ndarray) (inv : ndarray -> ndarray)
    (sorted_eigvals : ndarray -> ndarray)
    (sparse : ndarray -> ndarray -> ndarray -> option ndarray)
    (nonsparse : ndarray -> ndarray -> ndarray)
    (lib_powers : list (list nat)) (coef_ x y : ndarray)
    (tensors : Ptensors) (st : fit) (why : loop_exit) (coef : ndarray) :
  _set_Ptensors lib_powers = Ok tensors ->
  _reduce eta alpha beta tol tol_m threshold inequality_constraints max_iter
    method mod_matrix rt_mod_mat rt_inv_mod_mat A0 m0 sorted_eigvals sparse
    nonsparse
    (certificate_update eta alpha_m alpha_A gamma rt_mod_mat rt_inv_mod_mat
       eigh inv tensors)
    lib_powers coef_ x y = Ok (st, why, coef) ->
  forall k, why <> InfeasibleCenter k.
Proof.
  intros Ht Hrun k. unfold _reduce in Hrun. rewrite Ht in Hrun.
  cbn [mbind result_bind Py.bind] in Hrun.
  destruct (for_break _ _ _) as [[st0 why0]|e] eqn:Hloop; [|discriminate].
  cbn [mbind result_bind Py.bind] in Hrun.
  assert (why = why0) by (inversion Hrun; reflexivity). subst why0.
  exact (source_loop_never_infeasible_center _ _ _ _ _ _ _ _ _ _ _ _ _ _ _ _ _
           _ _ _ _ _ _ _ _ _ _ k Hloop).
Qed.

Lemma reduce_never_infeasible_center_witness :
  exists tensors st why coef,
    _set_Ptensors lib2 = Ok tensors
    /\ example_certified_run tensors 30 coef_x0x1 = Ok (st, why, coef)
    /\ forall k, why <> InfeasibleCenter k.
Proof.
  destruct tensors_lib2 as [t Ht].
  destruct (example_certified_run_returns t 30 coef_x0x1 Ht eq_refl)
    as (st & why & coef & Hrun).
  exists t, st, why, coef. split; [exact Ht|]. split; [exact Hrun|].
  exact (reduce_never_infeasible_center 1 0 1 1 1 (-0.1) 1e-5 1e-5 0 false 30
           "local" eye2 eye2 eye2 (Config.default_A0 (-0.1) 2) (zeros [2])
           eigh_diag2 inv_eye no_eigvals sparse_infeasible
           (nonsparse_const coef_x0x1) lib2 (zeros [2; 5]) (zeros [1; 5])
           (zeros [1; 2]) t st why coef Ht Hrun).
Defined.

(** ** Products and sums of arrays *)

Lemma np_matmul_mat (a b : ndarray) (r k s : nat) :
  shape a = [r; k] -> shape b = [k; s] ->
  np_matmul a b
  = Ok {| shape := [r; s];
          data := fun idx =>
            match idx with
            | [i; j] =>
                sum_range k (fun l => (data a [i; l] * data b [l; j])%R)
            | _ => 0%R
            end |}.
Proof.
  intros Ha Hb. unfold np_matmul, matmul, dim. rewrite Ha, Hb.
  cbn [nth length]. rewrite decide_True by auto. reflexivity.
Qed.

Lemma np_matmul_vec (a v : ndarray) (r k : nat) :
  shape a = [r; k] -> shape v = [k] ->
  np_matmul a v
  = Ok {| shape := [r];
          data := fun idx =>
            match idx with
            | [i] => sum_range k (fun l => (data a [i; l] * data v [l])%R)
            | _ => 0%R
            end |}.
Proof.
  intros Ha Hv. unfold np_matmul, dim. rewrite Ha, Hv.
  cbn [nth length]. rewrite decide_True by auto. reflexivity.
Qed.

Lemma T_shape (a : ndarray) (r s : nat) :
  shape a = [r; s] -> shape (T a) = [s; r].
Proof. intros H. unfold T, transpose. simpl. rewrite H. reflexivity. Qed.

Lemma T_data (a : ndarray) (i j : nat) : data (T a) [i; j] = data a [j; i].
Proof. reflexivity. Qed.

Lemma broadcast_shape_vec (n : nat) : broadcast_shape [n] [n] = Some [n].
Proof.
  unfold broadcast_shape. simpl. rewrite decide_True by reflexivity.
  reflexivity.
Qed.

Lemma broadcast_index_vec (n i : nat) :
  i < n -> broadcast_index [n] [i] = [i].
Proof.
  intros Hi. unfold broadcast_index. simpl.
  destruct (decide (n = 1)) as [->|_]; [|reflexivity].
  f_equal. lia.
Qed.

Lemma broadcast2_vec (f : R -> R -> R) (a b : ndarray) (n : nat) :
  shape a = [n] -> shape b = [n] ->
  exists c, broadcast2 f a b = Ok c /\ shape c = [n]
    /\ forall i, i < n -> data c [i] = f (data a [i]) (data b [i]).
Proof.
  intros Ha Hb. unfold broadcast2. rewrite Ha, Hb, broadcast_shape_vec.
  eexists. split; [reflexivity|]. split; [reflexivity|].
  intros i Hi. cbn [data]. rewrite broadcast_index_vec by exact Hi.
  reflexivity.
Qed.

Section SumAlgebra.
Local Open Scope R_scope.

Lemma sum_range_assoc (n m : nat) (a : nat -> R) (b : nat -> nat -> R)
    (c : nat -> R) :
  sum_range n (fun k => a k * sum_range m (fun l => b k l * c l))
  = sum_range m (fun l => sum_range n (fun k => a k * b k l) * c l).
Proof.
  rewrite (sum_range_ext n _
             (fun k => sum_range m (fun l => a k * b k l * c l))).
  2:{ intros k _. rewrite <- sum_range_scale_l. apply sum_range_ext.
      intros l _. ring. }
  rewrite sum_range_exchange. apply sum_range_ext. intros l _.
  rewrite sum_range_scale_r. reflexivity.
Qed.

(** The algebra behind the constrained solve: with [x = inv1 (g + C^T inv2
    (d - C inv1 g))] and [inv2] a right inverse of [C inv1 C^T], the
    constraint [C x = d] holds. *)
Lemma constrained_solution_algebra (n c : nat) (Cm I1 I2 : nat -> nat -> R)
    (gv dv : nat -> R) (i : nat) :
  (i < c)%nat ->
  (forall m, (m < c)%nat ->
     sum_range c
       (fun j =>
          sum_range n
            (fun l => sum_range n (fun k => Cm i k * I1 k l) * Cm j l)
          * I2 j m) = delta i m) ->
  sum_range n
    (fun k =>
       Cm i k
       * sum_range n
           (fun l =>
              I1 k l
              * (gv l
                 + sum_range c
                     (fun m =>
                        sum_range c (fun j => Cm j l * I2 j m)
                        * (dv m
                           - sum_range n
                               (fun l' =>
                                  sum_range n (fun k' => Cm m k' * I1 k' l')
                                  * gv l'))))))
  = dv i.
Proof.
  intros Hi Hinv.
  set (CI := fun m l => sum_range n (fun k => Cm m k * I1 k l)).
  set (v := fun m => dv m - sum_range n (fun l' => CI m l' * gv l')).
  rewrite sum_range_assoc. fold (CI i).
  rewrite (sum_range_ext n _
             (fun l => CI i l * gv l
                       + CI i l * sum_range c
                           (fun m => sum_range c (fun j => Cm j l * I2 j m)
                                     * v m))).
  2:{ intros l _. unfold v, CI. ring. }
  rewrite sum_range_add.
  rewrite (sum_range_assoc n c (CI i)
             (fun l m => sum_range c (fun j => Cm j l * I2 j m)) v).
  rewrite (sum_range_ext c _ (fun m => delta i m * v m)).
  2:{ intros m Hm. f_equal.
      rewrite (sum_range_assoc n c (CI i) (fun l j => Cm j l)
                 (fun j => I2 j m)).
      apply Hinv. exact Hm. }
  rewrite sum_range_delta_l by exact Hi. unfold v. lra.
Qed.

(** With [inv1] a right inverse of the Hessian, the same [x] is stationary
    for the Lagrangian: [H x = g + C^T lam] for the multipliers
    [lam = inv2 (d - C inv1 g)]. *)
Lemma stationary_solution_algebra (n c : nat) (Hm Cm I1 I2 : nat -> nat -> R)
    (gv v : nat -> R) (i : nat) :
  (i < n)%nat ->
  (forall l, (l < n)%nat ->
     sum_range n (fun k => Hm i k * I1 k l) = delta i l) ->
  sum_range n
    (fun k =>
       Hm i k
       * sum_range n
           (fun l =>
              I1 k l
              * (gv l
                 + sum_range c
                     (fun m => sum_range c (fun j => Cm j l * I2 j m) * v m))))
  = gv i
    + sum_range c (fun j => Cm j i * sum_range c (fun m => I2 j m * v m)).
Proof.
  intros Hi Hinv. rewrite sum_range_assoc.
  rewrite (sum_range_ext n _
             (fun l => delta i l
                       * (gv l
                          + sum_range c
                              (fun m =>
                                 sum_range c (fun j => Cm j l * I2 j m)
                                 * v m)))).
  2:{ intros l Hl. rewrite Hinv by exact Hl. reflexivity. }
  rewrite sum_range_delta_l by exact Hi. f_equal.
  symmetry. apply sum_range_assoc.
Qed.

End SumAlgebra.

(** ** The constrained solve *)

Section ConstrainedSolve.

Variable pinv : ndarray -> ndarray.
Variables (n c : nat) (hess g C d gram : ndarray).
Hypothesis Hhess : shape hess = [n; n].
Hypothesis Hg : shape g = [n].
Hypothesis HC : shape C = [c; n].
Hypothesis Hd : shape d = [c].
Hypothesis Hinv1 : shape (pinv hess) = [n; n].
Hypothesis Hgram :
  (C_inv1 ← np_matmul C (pinv hess); np_matmul C_inv1 (T C)) = Ok gram.
Hypothesis Hinv2 : shape (pinv gram) = [c; c].

(** The multipliers [inv2 (d - C inv1 g)]. *)
Let residual (m : nat) : R :=
  (data d [m]
   - sum_range n
       (fun l =>
          sum_range n (fun k => data C [m; k] * data (pinv hess) [k; l])
          * data g [l]))%R.

Lemma gram_cells (i j : nat) :
  data gram [i; j]
  = sum_range n
      (fun l =>
         sum_range n (fun k => data C [i; k] * data (pinv hess) [k; l])
         * data C [j; l])%R.
Proof.
  rewrite (np_matmul_mat C (pinv hess) c n n HC Hinv1) in Hgram.
  cbn [mbind result_bind Py.bind] in Hgram.
  match type of Hgram with
  | np_matmul ?a _ = _ =>
      rewrite (np_matmul_mat a (T C) c n c eq_refl (T_shape C c n HC))
        in Hgram
  end.
  inversion Hgram. reflexivity.
Qed.

Lemma linlsq_cells :
  exists x,
    _equality_constrained_linlsq pinv hess g C d = Ok x
    /\ shape x = [n]
    /\ forall k, k < n ->
         data x [k]
         = sum_range n
             (fun l =>
                data (pinv hess) [k; l]
                * (data g [l]
                   + sum_range c
                       (fun m =>
                          sum_range c
                            (fun j => data C [j; l] * data (pinv gram) [j; m])
                          * residual m)))%R.
Proof.
  unfold _equality_constrained_linlsq.
  pose proof Hgram as Hgram'.
  rewrite (np_matmul_mat C (pinv hess) c n n HC Hinv1) in Hgram' |- *.
  cbn [mbind result_bind Py.bind] in Hgram' |- *.
  rewrite Hgram'. cbn [mbind result_bind Py.bind].
  rewrite (np_matmul_mat (T C) (pinv gram) n c c (T_shape C c n HC) Hinv2).
  cbn [mbind result_bind Py.bind].
  match goal with
  | |- context [np_matmul ?a g] =>
      rewrite (np_matmul_vec a g c n eq_refl Hg)
  end.
  cbn [mbind result_bind Py.bind].
  match goal with
  | |- context [np_subtract d ?b] =>
      destruct (broadcast2_vec Rminus d b c Hd eq_refl)
        as (res & Hres & Hres_sh & Hres_data)
  end.
  unfold np_subtract. rewrite Hres. cbn [mbind result_bind Py.bind].
  match goal with
  | |- context [np_matmul ?a res] =>
      rewrite (np_matmul_vec a res n c eq_refl Hres_sh)
  end.
  cbn [mbind result_bind Py.bind].
  match goal with
  | |- context [np_add g ?b] =>
      destruct (broadcast2_vec Rplus g b n Hg eq_refl)
        as (rhs & Hrhs & Hrhs_sh & Hrhs_data)
  end.
  unfold np_add. rewrite Hrhs. cbn [mbind result_bind Py.bind].
  rewrite (np_matmul_vec (pinv hess) rhs n n Hinv1 Hrhs_sh).
  eexists. split; [reflexivity|]. split; [reflexivity|].
  intros k Hk. cbn [data]. apply sum_range_ext. intros l Hl.
  rewrite (Hrhs_data l Hl). cbn [data]. f_equal. f_equal.
  apply sum_range_ext. intros m Hm. rewrite (Hres_data m Hm). cbn [data].
  reflexivity.
Qed.

Lemma linlsq_constraint_cells :
  (forall i m, i < c -> m < c ->
     sum_range c (fun j => data gram [i; j] * data (pinv gram) [j; m])%R
     = delta i m) ->
  exists x,
    _equality_constrained_linlsq pinv hess g C d = Ok x
    /\ shape x = [n]
    /\ exists Cx,
         np_matmul C x = Ok Cx /\ shape Cx = [c]
         /\ forall i, i < c -> data Cx [i] = data d [i].
Proof.
  intros Hright. destruct linlsq_cells as (x & Hx & Hsh & Hdata).
  exists x. split; [exact Hx|]. split; [exact Hsh|].
  rewrite (np_matmul_vec C x c n HC Hsh). eexists.
  split; [reflexivity|]. split; [reflexivity|].
  intros i Hi. cbn [data].
  rewrite (sum_range_ext n _ _
             (fun k Hk => f_equal (Rmult (data C [i; k])) (Hdata k Hk))).
  apply (constrained_solution_algebra n c
           (fun i k => data C [i; k]) (fun k l => data (pinv hess) [k; l])
           (fun j m => data (pinv gram) [j; m])
           (fun l => data g [l]) (fun m => data d [m]) i Hi).
  intros m Hm. rewrite <- (Hright i m Hi Hm).
  apply sum_range_ext. intros j _. rewrite gram_cells. reflexivity.
Qed.

Lemma linlsq_stationary_cells :
  (forall i l, i < n -> l < n ->
     sum_range n (fun k => data hess [i; k] * data (pinv hess) [k; l])%R
     = delta i l) ->
  exists x lam,
    _equality_constrained_linlsq pinv hess g C d = Ok x
    /\ shape x = [n]
    /\ forall i, i < n ->
         sum_range n (fun k => data hess [i; k] * data x [k])%R
         = (data g [i] + sum_range c (fun j => data C [j; i] * lam j))%R.
Proof.
  intros Hright. destruct linlsq_cells as (x & Hx & Hsh & Hdata).
  exists x,
    (fun j => sum_range c (fun m => data (pinv gram) [j; m] * residual m)%R).
  split; [exact Hx|]. split; [exact Hsh|].
  intros i Hi.
  rewrite (sum_range_ext n _ _
             (fun k Hk => f_equal (Rmult (data hess [i; k])) (Hdata k Hk))).
  apply (stationary_solution_algebra n c
           (fun i k => data hess [i; k])
           (fun i k => data C [i; k]) (fun k l => data (pinv hess) [k; l])
           (fun j m => data (pinv gram) [j; m])
           (fun l => data g [l]) residual i Hi).
  intros l Hl. apply Hright; assumption.
Qed.

End ConstrainedSolve.

(** X19. When the pseudo-inverse of [C inv1 C^T] is a right inverse of it
    (the constraints are independent), the vector that
    [_equality_constrained_linlsq] returns satisfies the constraints:
    [C x = d]. *)
Theorem linlsq_constraints_hold (pinv : ndarray -> ndarray) (n c : nat)
    (hess g C d gram : ndarray) :
  shape hess = [n; n] -> shape g = [n] -> shape C = [c; n] -> shape d = [c] ->
  shape (pinv hess) = [n; n] ->
  (C_inv1 ← np_matmul C (pinv hess); np_matmul C_inv1 (T C)) = Ok gram ->
  shape (pinv gram) = [c; c] ->
  (forall i m, i < c -> m < c ->
     sum_range c (fun j => data gram [i; j] * data (pinv gram) [j; m])%R
     = delta i m) ->
  exists x,
    _equality_constrained_linlsq pinv hess g C d = Ok x
    /\ shape x = [n]
    /\ exists Cx,
         np_matmul C x = Ok Cx /\ shape Cx = [c]
         /\ forall i, i < c -> data Cx [i] = data d [i].
Proof.
  intros Hhess Hg HC Hd Hinv1 Hgram Hinv2.
  exact (linlsq_constraint_cells pinv n c hess g C d gram Hg HC Hd Hinv1
           Hgram Hinv2).
Qed.

Lemma linlsq_constraints_hold_witness :
  exists x,
    _equality_constrained_linlsq inv_eye eye2 (zeros [2]) first_coefficient
      (zeros [1]) = Ok x
    /\ shape x = [2]
    /\ exists Cx,
         np_matmul first_coefficient x = Ok Cx /\ shape Cx = [1]
         /\ forall i, i < 1 -> data Cx [i] = data (zeros [1]) [i].
Proof.
  eapply (linlsq_constraints_hold inv_eye 2 1 eye2 (zeros [2])
            first_coefficient (zeros [1])); try reflexivity.
  intros i m Hi Hm. replace i with 0 by lia. replace m with 0 by lia.
  cbv -[IZR Rplus Rmult Rinv Rdiv Rminus Ropp]. lra.
Defined.

(** X20. When the pseudo-inverse of the Hessian is a right inverse of it,
    the vector that [_equality_constrained_linlsq] returns is stationary
    for the Lagrangian: [H x = g + C^T lam] for some multipliers [lam].
    With the constraints of X19 these are the optimality conditions of the
    constrained least squares problem. *)
Theorem linlsq_stationary (pinv : ndarray -> ndarray) (n c : nat)
    (hess g C d gram : ndarray) :
  shape hess = [n; n] -> shape g = [n] -> shape C = [c; n] -> shape d = [c] ->
  shape (pinv hess) = [n; n] ->
  (C_inv1 ← np_matmul C (pinv hess); np_matmul C_inv1 (T C)) = Ok gram ->
  shape (pinv gram) = [c; c] ->
  (forall i l, i < n -> l < n ->
     sum_range n (fun k => data hess [i; k] * data (pinv hess) [k; l])%R
     = delta i l) ->
  exists x lam,
    _equality_constrained_linlsq pinv hess g C d = Ok x
    /\ shape x = [n]
    /\ forall i, i < n ->
         sum_range n (fun k => data hess [i; k] * data x [k])%R
         = (data g [i] + sum_range c (fun j => data C [j; i] * lam j))%R.
Proof.
  intros Hhess Hg HC Hd Hinv1 Hgram Hinv2.
  exact (linlsq_stationary_cells pinv n c hess g C d gram Hg HC Hd Hinv1
           Hgram Hinv2).
Qed.

Lemma linlsq_stationary_witness :
  exists x lam,
    _equality_constrained_linlsq inv_eye eye2 (zeros [2]) first_coefficient
      (zeros [1]) = Ok x
    /\ shape x = [2]
    /\ forall i, i < 2 ->
         sum_range 2 (fun k => data eye2 [i; k] * data x [k])%R
         = (data (zeros [2%nat]) [i]
            + sum_range 1%nat
                (fun j => data first_coefficient [j; i] * lam j))%R.
Proof.
  eapply (linlsq_stationary inv_eye 2 1 eye2 (zeros [2])
            first_coefficient (zeros [1])); try reflexivity.
  intros i l Hi Hl.
  assert (Hi' : i = 0 \/ i = 1) by lia. assert (Hl' : l = 0 \/ l = 1) by lia.
  destruct Hi' as [-> | ->], Hl' as [-> | ->];
    cbv -[IZR Rplus Rmult Rinv Rdiv Rminus Ropp]; lra.
Defined.

(** ** The unconstrained solve *)

Lemma solve_unconstrained_cells (pinv : ndarray -> ndarray)
    (n : nat) (constraint_lhs constraint_rhs hess g : ndarray) :
  shape g = [n] -> shape (pinv hess) = [n; n] ->
  (forall i l, i < n -> l < n ->
     sum_range n (fun k => data hess [i; k] * data (pinv hess) [k; l])%R
     = delta i l) ->
  exists x,
    _solve_nonsparse_relax_and_split pinv false constraint_lhs constraint_rhs
      hess g = Ok x
    /\ shape x = [n]
    /\ forall i, i < n ->
         sum_range n (fun k => data hess [i; k] * data x [k])%R = data g [i].
Proof.
  intros Hg Hinv Hright. unfold _solve_nonsparse_relax_and_split.
  rewrite (np_matmul_vec (pinv hess) g n n Hinv Hg). eexists.
  split; [reflexivity|]. split; [reflexivity|].
  intros i Hi. cbn [data].
  rewrite (sum_range_assoc n n (fun k => data hess [i; k])
             (fun k l => data (pinv hess) [k; l]) (fun l => data g [l])).
  rewrite (sum_range_ext n _ (fun l => delta i l * data g [l])%R).
  2:{ intros l Hl. rewrite Hright by assumption. reflexivity. }
  apply sum_range_delta_l. exact Hi.
Qed.

(** X21. Without constraints, [_solve_nonsparse_relax_and_split] returns
    [pinv(hess) g]; when the pseudo-inverse is a right inverse of the
    Hessian, this solves the normal equations [hess x = g].  The
    constraints stored on the optimizer are not read. *)
Theorem solve_nonsparse_normal_equations (pinv : ndarray -> ndarray)
    (n : nat) (constraint_lhs constraint_rhs hess g : ndarray) :
  shape hess = [n; n] -> shape g = [n] -> shape (pinv hess) = [n; n] ->
  (forall i l, i < n -> l < n ->
     sum_range n (fun k => data hess [i; k] * data (pinv hess) [k; l])%R
     = delta i l) ->
  exists x,
    _solve_nonsparse_relax_and_split pinv false constraint_lhs constraint_rhs
      hess g = Ok x
    /\ shape x = [n]
    /\ forall i, i < n ->
         sum_range n (fun k => data hess [i; k] * data x [k])%R = data g [i].
Proof.
  intros _. apply solve_unconstrained_cells.
Qed.

Lemma solve_nonsparse_normal_equations_witness :
  exists x,
    _solve_nonsparse_relax_and_split inv_eye false first_coefficient
      (zeros [1]) eye2 (zeros [2]) = Ok x
    /\ shape x = [2]
    /\ forall i, i < 2 ->
         sum_range 2 (fun k => data eye2 [i; k] * data x [k])%R
         = data (zeros [2]) [i].
Proof.
  apply (solve_nonsparse_normal_equations inv_eye 2 first_coefficient
           (zeros [1]) eye2 (zeros [2])); try reflexivity.
  intros i l Hi Hl.
  assert (Hi' : i = 0 \/ i = 1) by lia. assert (Hl' : l = 0 \/ l = 1) by lia.
  destruct Hi' as [-> | ->], Hl' as [-> | ->];
    cbv -[IZR Rplus Rmult Rinv Rdiv Rminus Ropp]; lra.
Defined.

(** ** The quadratic projection of an incomplete library *)

Section QuadraticProjectionErrors.

Variables (powers : list (list nat)) (info : lib_info).
Hypothesis Hinfo : _build_lib_info (enumerate powers) = Ok info.

Lemma pure_terms_source (j c : nat) :
  dict_find j (pure_terms info) = Some c ->
  exists e, powers !! c = Some e /\ Py.max e = Ok 2 /\ argmax e = j.
Proof.
  intros Hf.
  destruct (build_lib_info_Ok _ _ Hinfo)
    as (t0 & m & p & l & _ & _ & Hp & _ & Heq).
  rewrite Heq in Hf. simpl in Hf. apply dict_of_find in Hf.
  apply (comprehension_elem _ _ _ Hp) in Hf as ([i e] & Hin & He).
  unfold pure_entry in He. simpl in He.
  destruct (Py.max e) as [mx|err] eqn:Hmx; [|discriminate]. simpl in He.
  destruct (mx =? 2) eqn:H2; [|discriminate]. inversion He. subst.
  apply Nat.eqb_eq in H2. subst mx.
  apply elem_of_enumerate in Hin. exists e. auto.
Qed.

Lemma mixed_terms_source (key : list nat) (c : nat) :
  dict_find key (mixed_terms info) = Some c ->
  exists e, powers !! c = Some e /\ Py.max e = Ok 1 /\ Py.sum e = 2
    /\ frozenset (argwhere 1 e) = key.
Proof.
  intros Hf.
  destruct (build_lib_info_Ok _ _ Hinfo)
    as (t0 & m & p & l & _ & Hm & _ & _ & Heq).
  rewrite Heq in Hf. simpl in Hf. apply dict_of_find in Hf.
  apply (comprehension_elem _ _ _ Hm) in Hf as ([i e] & Hin & He).
  unfold mixed_entry in He. simpl in He.
  destruct (Py.max e) as [mx|err] eqn:Hmx; [|discriminate]. simpl in He.
  destruct (mx =? 1) eqn:H1; [|discriminate].
  destruct (Py.sum e =? 2) eqn:H2; [|discriminate].
  simpl in He. inversion He. subst.
  apply Nat.eqb_eq in H1, H2. subst mx.
  apply elem_of_enumerate in Hin. exists e. auto.
Qed.

Lemma set_target_diagonal_shape (j k col : nat) (v : R) (PQ : ndarray) :
  shape PQ = [n_targets info; n_targets info; n_targets info; n_targets info;
              length powers] ->
  j < n_targets info -> k < n_targets info -> col < length powers ->
  exists PQ',
    set_target_diagonal (range (n_targets info)) j k col v PQ = Ok PQ'
    /\ shape PQ' = shape PQ.
Proof.
  intros Hsh Hj Hk Hc. unfold set_target_diagonal.
  destruct (for_each_invariant (fun a => shape a = shape PQ)
              (range (n_targets info))
              (fun i => setitem [i; j; k; i; col] v) PQ eq_refl)
    as (PQ' & Hrun & Hsh'); [|eauto].
  intros i a Hi Ha. apply elem_of_range in Hi.
  destruct (setitem_in_bounds [i; j; k; i; col] v a) as (a' & Hset & Hsa).
  - rewrite Ha, Hsh. simpl. rewrite !andb_true_iff, !Nat.ltb_lt. tauto.
  - exists a'. split; [exact Hset | congruence].
Qed.

(** The loop of [_build_PQ] stops with a [KeyError] at the first pair of
    variables without its term. *)
Lemma build_PQ_loop_KeyError (jks : list (nat * nat)) (PQ : ndarray) :
  shape PQ = [n_targets info; n_targets info; n_targets info; n_targets info;
              length powers] ->
  Forall (fun jk : nat * nat => jk.1 < n_targets info /\ jk.2 < n_targets info)
    jks ->
  Exists (fun jk : nat * nat =>
            (jk.1 = jk.2 /\ dict_find jk.1 (pure_terms info) = None)
            \/ (jk.1 <> jk.2
                /\ dict_find (frozenset [jk.1; jk.2]) (mixed_terms info) = None))
    jks ->
  for_each jks
    (fun '(j, k) PQ =>
       PQ ← (if decide (j = k) then
               col ← dict_get j (pure_terms info);
               set_target_diagonal (range (n_targets info)) j k col 1 PQ
             else Ok PQ);
       if decide (j <> k) then
         col ← dict_get (frozenset [j; k]) (mixed_terms info);
         set_target_diagonal (range (n_targets info)) j k col (1 / 2) PQ
       else Ok PQ) PQ
  = Raise KeyError.
Proof.
  revert PQ. induction jks as [|[j k] jks IH]; intros PQ Hsh Hall Hex.
  - inversion Hex.
  - apply Forall_cons in Hall as [[Hj Hk] Hall']. simpl in Hj, Hk.
    cbn [for_each].
    destruct (decide (j = k)) as [Hjk|Hjk].
    + destruct (decide (j <> k)) as [Hne|_]; [contradiction|].
      destruct (dict_find j (pure_terms info)) as [c|] eqn:Hf.
      2:{ unfold dict_get. rewrite Hf. reflexivity. }
      unfold dict_get at 1. rewrite Hf. cbn [mbind result_bind Py.bind].
      destruct (pure_terms_source j c Hf) as (e & He & _).
      apply lookup_lt_Some in He.
      destruct (set_target_diagonal_shape j k c 1 PQ Hsh Hj Hk He)
        as (PQ' & Hrun & Hsh').
      rewrite Hrun. cbn [mbind result_bind Py.bind].
      apply IH; [congruence | exact Hall'|].
      apply Exists_cons in Hex as [Hex|Hex]; [|exact Hex].
      cbn [fst snd] in Hex. destruct Hex as [[_ Hn]|[Hne _]]; [congruence|contradiction].
    + cbn [mbind result_bind Py.bind].
      destruct (decide (j <> k)) as [_|Hne]; [|contradiction].
      destruct (dict_find (frozenset [j; k]) (mixed_terms info)) as [c|] eqn:Hf.
      2:{ unfold dict_get. rewrite Hf. reflexivity. }
      unfold dict_get at 1. rewrite Hf. cbn [mbind result_bind Py.bind].
      destruct (mixed_terms_source _ c Hf) as (e & He & _).
      apply lookup_lt_Some in He.
      destruct (set_target_diagonal_shape j k c (1 / 2) PQ Hsh Hj Hk He)
        as (PQ' & Hrun & Hsh').
      rewrite Hrun. cbn [mbind result_bind Py.bind].
      apply IH; [congruence | exact Hall'|].
      apply Exists_cons in Hex as [Hex|Hex]; [|exact Hex].
      cbn [fst snd] in Hex. destruct Hex as [[He' _]|[_ Hn]]; [contradiction|congruence].
Qed.

Lemma build_PQ_KeyError (j k : nat) :
  j < n_targets info -> k < n_targets info ->
  (j = k /\ dict_find j (pure_terms info) = None)
  \/ (j <> k /\ dict_find (frozenset [j; k]) (mixed_terms info) = None) ->
  _build_PQ (enumerate powers) = Raise KeyError.
Proof.
  intros Hj Hk Hmiss. unfold _build_PQ. rewrite Hinfo.
  cbn [mbind result_bind Py.bind].
  rewrite (info_features powers info Hinfo).
  apply build_PQ_loop_KeyError.
  - reflexivity.
  - apply Forall_forall. intros [a b] Hin.
    apply elem_of_product in Hin as [Ha Hb].
    apply elem_of_range in Ha, Hb. simpl. auto.
  - apply Exists_exists. exists (j, k). split; [|exact Hmiss].
    apply elem_of_product. split; apply elem_of_range; assumption.
Qed.

End QuadraticProjectionErrors.

(** X22. [_build_PQ] raises a [KeyError] when the library lacks a quadratic
    term of the variables: the square of some variable [j], or the product
    of two different variables [j] and [k]. *)
Theorem build_PQ_missing_term (powers : list (list nat)) (info : lib_info)
    (j k : nat) :
  _build_lib_info (enumerate powers) = Ok info ->
  j < n_targets info -> k < n_targets info ->
  (j = k
   /\ forall e, e ∈ powers -> Py.max e = Ok 2 -> argmax e <> j)
  \/ (j <> k
      /\ forall e, e ∈ powers -> Py.max e = Ok 1 -> Py.sum e = 2 ->
           frozenset (argwhere 1 e) <> frozenset [j; k]) ->
  _build_PQ (enumerate powers) = Raise KeyError.
Proof.
  intros Hinfo Hj Hk Hmiss.
  apply (build_PQ_KeyError powers info Hinfo j k Hj Hk).
  destruct Hmiss as [[Hjk Hnone]|[Hjk Hnone]]; [left | right];
    (split; [exact Hjk|]).
  - destruct (dict_find j (pure_terms info)) as [c|] eqn:Hf; [|reflexivity].
    exfalso.
    destruct (pure_terms_source powers info Hinfo j c Hf) as (e & He & Hm & Ha).
    apply (Hnone e); [eapply list_elem_of_lookup_2; exact He | exact Hm | exact Ha].
  - destruct (dict_find (frozenset [j; k]) (mixed_terms info)) as [c|] eqn:Hf;
      [|reflexivity].
    exfalso.
    destruct (mixed_terms_source powers info Hinfo _ c Hf)
      as (e & He & Hm & Hs & Ha).
    apply (Hnone e); [eapply list_elem_of_lookup_2; exact He | exact Hm
                     | exact Hs | exact Ha].
Qed.

Lemma build_PQ_missing_term_witness :
  _build_PQ (enumerate interaction_only2) = Raise KeyError.
Proof.
  destruct (_build_lib_info (enumerate interaction_only2)) as [info|e] eqn:Hinfo;
    [|vm_compute in Hinfo; discriminate].
  assert (Hn : n_targets info = 2)
    by (vm_compute in Hinfo; inversion Hinfo; reflexivity).
  apply (build_PQ_missing_term interaction_only2 info 0 0 Hinfo);
    [rewrite Hn; lia | rewrite Hn; lia |].
  left. split; [reflexivity|].
  intros e He Hm. unfold interaction_only2 in He.
  repeat (apply elem_of_cons in He as [->|He];
          [vm_compute in Hm; discriminate|]).
  inversion He.
Defined.

(** ** Shapes and positions *)

Lemma broadcast_rev_same (l : list nat) : broadcast_rev l l = Some l.
Proof.
  induction l as [|x l IH]; [reflexivity|]. simpl. rewrite IH.
  rewrite decide_True by reflexivity. reflexivity.
Qed.

Lemma broadcast_shape_same (sh : list nat) : broadcast_shape sh sh = Some sh.
Proof.
  unfold broadcast_shape. rewrite broadcast_rev_same, rev_involutive.
  reflexivity.
Qed.

Lemma broadcast_index_same (sh idx : list nat) :
  in_bounds sh idx = true -> broadcast_index sh idx = idx.
Proof.
  intros Hb. unfold broadcast_index.
  assert (Hlen : length idx = length sh).
  { revert idx Hb. induction sh as [|n sh IH]; intros [|i idx] Hb;
      try discriminate; [reflexivity|].
    simpl in Hb. apply andb_true_iff in Hb as [_ Hb]. simpl.
    f_equal. apply IH. exact Hb. }
  rewrite Hlen, Nat.sub_diag. change (drop 0 idx) with idx.
  clear Hlen. revert idx Hb. induction sh as [|n sh IH]; intros [|i idx] Hb;
    try discriminate; [reflexivity|].
  simpl in Hb. apply andb_true_iff in Hb as [Hi Hb]. apply Nat.ltb_lt in Hi.
  cbn [zip_with]. rewrite (IH idx Hb). f_equal.
  destruct (decide (n = 1)); [lia | reflexivity].
Qed.

Lemma broadcast2_same (f : R -> R -> R) (a b : ndarray) :
  shape a = shape b ->
  exists c, broadcast2 f a b = Ok c /\ shape c = shape a
    /\ forall idx, in_bounds (shape a) idx = true ->
         data c idx = f (data a idx) (data b idx).
Proof.
  intros Hab. unfold broadcast2. rewrite <- Hab, broadcast_shape_same.
  eexists. split; [reflexivity|]. split; [reflexivity|].
  intros idx Hb. cbn [data]. rewrite broadcast_index_same by exact Hb.
  reflexivity.
Qed.

Lemma flat_position (T i j V : nat) :
  T <> 0 -> i < V -> j < V ->
  (i * V + j) / (T * V) = i / T
  /\ ((i * V + j) mod (T * V)) / V = i mod T
  /\ ((i * V + j) mod (T * V)) mod V = j.
Proof.
  intros HT Hi Hj.
  assert (Hsplit : i * V + j = T * V * (i / T) + ((i mod T) * V + j)).
  { pose proof (Nat.div_mod_eq i T). nia. }
  assert (Hlt : (i mod T) * V + j < T * V).
  { pose proof (Nat.mod_upper_bound i T HT). nia. }
  assert (Hq : (i * V + j) / (T * V) = i / T).
  { symmetry. apply (Nat.div_unique _ _ _ ((i mod T) * V + j)); assumption. }
  assert (Hr : (i * V + j) mod (T * V) = (i mod T) * V + j).
  { symmetry. apply (Nat.mod_unique _ _ (i / T)); assumption. }
  rewrite Hq, Hr. split; [reflexivity|]. split.
  - symmetry. apply (Nat.div_unique _ _ _ j); [exact Hj | lia].
  - symmetry. apply (Nat.mod_unique _ _ (i mod T)); [exact Hj | lia].
Qed.

(** A matrix of [F * T] rows and columns made from an array of shape
    [(F, T, F, T)]. *)
Lemma reshape_square (F T : nat) (a : ndarray) :
  shape a = [F; T; F; T] ->
  exists h, reshape [T * F; T * F] a = Ok h
    /\ shape h = [T * F; T * F]
    /\ forall i j, i < T * F -> j < T * F ->
         data h [i; j] = data a [i / T; i mod T; j / T; j mod T].
Proof.
  intros Ha. unfold reshape. rewrite Ha.
  rewrite decide_True by (simpl; nia).
  eexists. split; [reflexivity|]. split; [reflexivity|].
  intros i j Hi Hj. cbn [data ravel unravel cell_count foldr].
  rewrite !Nat.mul_1_r, Nat.add_0_r, Nat.div_1_r.
  assert (HV : F * T = T * F) by lia.
  replace (T * (F * T)) with (T * (T * F)) by nia. rewrite HV.
  assert (HT : T <> 0) by lia.
  destruct (flat_position T i j (T * F) HT Hi Hj) as (H1 & H2 & H3).
  rewrite H1, H2, H3. reflexivity.
Qed.

Lemma reshape_flat (F T : nat) (a : ndarray) :
  shape a = [F; T] ->
  exists g, reshape [T * F] a = Ok g
    /\ shape g = [T * F]
    /\ forall k, data g [k] = data a [k / T; k mod T].
Proof.
  intros Ha. unfold reshape. rewrite Ha.
  rewrite decide_True by (simpl; nia).
  eexists. split; [reflexivity|]. split; [reflexivity|].
  intros k. cbn [data ravel unravel cell_count foldr].
  rewrite !Nat.mul_1_r, Nat.add_0_r, Nat.div_1_r. reflexivity.
Qed.

Lemma reshape_matrix (F T : nat) (c : ndarray) :
  shape c = [T * F] ->
  exists w, reshape [F; T] c = Ok w
    /\ shape w = [F; T]
    /\ forall f t, data w [f; t] = data c [f * T + t].
Proof.
  intros Hc. unfold reshape. rewrite Hc.
  rewrite decide_True by (simpl; nia).
  eexists. split; [reflexivity|]. split; [reflexivity|].
  intros f t. cbn [data ravel unravel cell_count foldr].
  rewrite !Nat.mul_1_r, Nat.add_0_r, Nat.div_1_r. reflexivity.
Qed.

(** ** The blocks of the data term *)

Lemma set_target_blocks (F T : nat) (value : ndarray) (ts : list nat)
    (hess : ndarray) :
  shape hess = [T; F; T; F] -> shape value = [F; F] ->
  Forall (fun t => t < T) ts ->
  exists hess',
    for_each ts (fun tgt hess => set_target_block tgt value hess) hess
    = Ok hess'
    /\ shape hess' = [T; F; T; F]
    /\ forall a f b f', f < F -> f' < F ->
         data hess' [a; f; b; f']
         = if decide (a = b /\ a ∈ ts) then data value [f; f']
           else data hess [a; f; b; f'].
Proof.
  intros Hsh Hv. revert hess Hsh.
  induction ts as [|t ts IH]; intros hess Hsh Hall.
  - exists hess. split; [reflexivity|]. split; [exact Hsh|].
    intros a f b f' _ _. rewrite decide_False; [reflexivity|].
    intros [_ Hin]. inversion Hin.
  - apply Forall_cons in Hall as [Ht Hall]. cbn [for_each].
    unfold set_target_block at 1. unfold dim. rewrite Hsh, Hv.
    cbn [nth]. rewrite decide_True by auto.
    rewrite broadcast_shape_same. rewrite decide_True by reflexivity.
    cbn [mbind result_bind Py.bind].
    match goal with
    | |- context [for_each ts _ ?h] =>
        destruct (IH h eq_refl Hall) as (hess' & Hrun & Hsh' & Hdata)
    end.
    exists hess'. split; [exact Hrun|]. split; [exact Hsh'|].
    intros a f b f' Hf Hf'. rewrite (Hdata a f b f' Hf Hf'). cbn [data].
    rewrite (broadcast_index_same [F; F] [f; f']).
    2:{ simpl. rewrite !andb_true_iff, !Nat.ltb_lt. auto. }
    destruct (decide (a = b /\ a ∈ ts)) as [[Hab Hin]|Hno].
    + rewrite decide_True; [reflexivity|]. split; [exact Hab|].
      right. exact Hin.
    + destruct (decide (a = t /\ b = t)) as [[-> ->]|Hno'].
      * rewrite decide_True; [reflexivity|]. split; [reflexivity | left].
      * rewrite decide_False; [reflexivity|].
        intros [Hab Hin]. apply elem_of_cons in Hin as [->|Hin];
          [apply Hno'; auto | apply Hno; auto].
Qed.

Lemma transpose_1032 (a : ndarray) (i j k l : nat) :
  data (transpose [1; 0; 3; 2] a) [i; j; k; l] = data a [j; i; l; k].
Proof. reflexivity. Qed.

(** ** The system that the dense update solves *)

Section NonsparseSystem.

Variables (eta alpha beta : R) (method : string) (mod_matrix PQ_ : ndarray).
Variable pinv : ndarray -> ndarray.
Variable use_constraints : bool.
Variables (constraint_lhs constraint_rhs : ndarray).
Variables (S F T r : nat) (x y P_A A : ndarray).
Hypothesis Hx : shape x = [S; F].
Hypothesis Hy : shape y = [S; T].
Hypothesis HP : shape P_A = [r; r; T; F].

Local Open Scope R_scope.

Lemma tensordot_012_sym (u : ndarray) (d e d' e' : nat) :
  data (tensordot_012 u u) [d; e; d'; e']
  = data (tensordot_012 u u) [d'; e'; d; e].
Proof.
  cbn [data tensordot_012]. apply sum_range_ext. intros a _.
  apply sum_range_ext. intros b _. apply sum_range_ext. intros c _. ring.
Qed.

Lemma hessian_cell_sym (t f t' f' : nat) :
  hessian_cell eta alpha beta method mod_matrix PQ_ x P_A t f t' f'
  = hessian_cell eta alpha beta method mod_matrix PQ_ x P_A t' f' t f.
Proof.
  unfold hessian_cell. cbv zeta. f_equal; [f_equal|].
  - destruct (decide (t = t')) as [->|Hne].
    + rewrite decide_True by reflexivity. apply sum_range_ext.
      intros s _. ring.
    + rewrite decide_False by congruence. reflexivity.
  - f_equal. cbn [data einsum_abcd_baef]. unfold dim. rewrite HP. cbn [nth].
    rewrite sum_range_exchange. apply sum_range_ext. intros a _.
    apply sum_range_ext. intros b _. ring.
  - destruct (String.eqb method "local"); [|reflexivity].
    f_equal; f_equal; apply tensordot_012_sym.
Qed.

Lemma position_split (f t : nat) :
  (t < T)%nat -> ((f * T + t) / T = f /\ (f * T + t) mod T = t)%nat.
Proof.
  intros Ht. split.
  - symmetry. apply (Nat.div_unique _ _ _ t); [exact Ht | lia].
  - symmetry. apply (Nat.mod_unique _ _ f); [exact Ht | lia].
Qed.

Lemma position_bounds (i : nat) :
  (i < T * F)%nat -> (i / T < F /\ i mod T < T)%nat.
Proof.
  intros Hi. assert (HT : T <> 0%nat) by lia. split.
  - apply Nat.Div0.div_lt_upper_bound. exact Hi.
  - apply Nat.mod_upper_bound. exact HT.
Qed.

Lemma nonsparse_system_cells :
  exists hess g,
    _update_coef_nonsparse_rs eta alpha beta method mod_matrix PQ_ pinv
      use_constraints constraint_lhs constraint_rhs x y P_A A
    = (coef_flat ←
         _solve_nonsparse_relax_and_split pinv use_constraints constraint_lhs
           constraint_rhs hess g;
       reshape [F; T] coef_flat)
    /\ shape hess = [(T * F)%nat; (T * F)%nat] /\ shape g = [(T * F)%nat]
    /\ (forall i j, (i < T * F)%nat -> (j < T * F)%nat ->
          data hess [i; j]
          = hessian_cell eta alpha beta method mod_matrix PQ_ x P_A
              (i mod T) (i / T) (j mod T) (j / T))
    /\ (forall k, (k < T * F)%nat ->
          data g [k] = gradient_cell eta x y P_A A (k / T) (k mod T)).
Proof.
  unfold _update_coef_nonsparse_rs. rewrite HP.
  rewrite (np_matmul_mat (Np.T x) x F S F (T_shape x S F Hx) Hx).
  cbn [mbind result_bind Py.bind].
  match goal with
  | |- context [for_each (range T) _ ?h] =>
      match goal with
      | |- context [set_target_block _ ?v] =>
          destruct (set_target_blocks F T v (range T) h eq_refl eq_refl)
            as (hess1 & Hrun & Hsh1 & Hdata1)
      end
  end.
  { apply Forall_forall. intros t Ht. apply elem_of_range in Ht. exact Ht. }
  rewrite Hrun. cbn [mbind result_bind Py.bind].
  rewrite (np_matmul_mat (Np.T x) y F S T (T_shape x S F Hx) Hy).
  cbn [mbind result_bind Py.bind].
  match goal with
  | |- context [np_add ?a ?b] =>
      destruct (broadcast2_same Rplus a b) as (g2 & Hg2 & Hg2sh & Hg2data)
  end.
  { cbn [shape divide map_cells Np.T transpose einsum_bacd_ab map].
    unfold dim. rewrite HP. reflexivity. }
  unfold np_add. rewrite Hg2. cbn [mbind result_bind Py.bind].
  cbn [shape] in Hg2sh, Hg2data.
  match goal with
  | |- context [reshape [(T * F)%nat; (T * F)%nat] ?h] =>
      destruct (reshape_square F T h) as (hess & Hh & Hhsh & Hhdata)
  end.
  { destruct (String.eqb method "local");
      cbn [shape transpose add zip_cells map]; rewrite Hsh1; reflexivity. }
  rewrite Hh. cbn [mbind result_bind Py.bind].
  destruct (reshape_flat F T g2 Hg2sh) as (g & Hg & Hgsh & Hgdata).
  rewrite Hg. cbn [mbind result_bind Py.bind].
  exists hess, g. split; [reflexivity|]. split; [exact Hhsh|].
  split; [exact Hgsh|]. split.
  - intros i j Hi Hj. rewrite (Hhdata i j Hi Hj).
    destruct (position_bounds i Hi) as [Hif Hit].
    destruct (position_bounds j Hj) as [Hjf Hjt].
    unfold hessian_cell. cbv zeta.
    assert (Hblock :
      data hess1 [(i mod T)%nat; (i / T)%nat; (j mod T)%nat; (j / T)%nat]
      = if decide ((i mod T)%nat = (j mod T)%nat)
        then sum_range (dim 0 x)
               (fun s => data x [s; (i / T)%nat] * data x [s; (j / T)%nat])
        else 0).
    { rewrite (Hdata1 _ _ _ _ Hif Hjf). unfold dim. rewrite Hx. cbn [nth].
      destruct (decide ((i mod T)%nat = (j mod T)%nat)) as [Heq|Hne].
      - rewrite decide_True; [reflexivity|]. split; [exact Heq|].
        apply elem_of_range. exact Hit.
      - rewrite decide_False by tauto. reflexivity. }
    destruct (String.eqb method "local"); rewrite transpose_1032;
      cbn [data add zip_cells divide map_cells]; rewrite Hblock; ring.
  - intros k Hk. rewrite Hgdata.
    destruct (position_bounds k Hk) as [Hkf Hkt].
    rewrite Hg2data.
    2:{ simpl. rewrite !andb_true_iff, !Nat.ltb_lt. auto. }
    unfold gradient_cell. unfold dim. rewrite Hx. cbn [nth].
    cbn [data divide map_cells]. f_equal.
Qed.

End NonsparseSystem.

Section FlatSums.
Local Open Scope R_scope.

Lemma sum_range_app (a b : nat) (f : nat -> R) :
  sum_range (a + b) f = sum_range a f + sum_range b (fun k => f (a + k)%nat).
Proof.
  induction b as [|b IH].
  - rewrite Nat.add_0_r. simpl. lra.
  - rewrite Nat.add_succ_r. simpl. rewrite IH. lra.
Qed.

(** A sum over the positions of a flattened matrix is the sum over its rows
    and columns. *)
Lemma sum_range_flatten (F T : nat) (h : nat -> nat -> R) :
  sum_range (F * T) (fun k => h (k / T)%nat (k mod T)%nat)
  = sum_range F (fun f => sum_range T (fun t => h f t)).
Proof.
  induction F as [|F IH]; [reflexivity|].
  replace (Datatypes.S F * T)%nat with (F * T + T)%nat by lia.
  rewrite sum_range_app, IH. simpl. f_equal.
  apply sum_range_ext. intros t Ht.
  assert (Hq : ((F * T + t) / T)%nat = F)
    by (symmetry; apply (Nat.div_unique _ _ _ t); [exact Ht | lia]).
  assert (Hr : ((F * T + t) mod T)%nat = t)
    by (symmetry; apply (Nat.mod_unique _ _ F); [exact Ht | lia]).
  rewrite Hq, Hr. reflexivity.
Qed.

End FlatSums.

(** X23. For samples [x] of shape [(S, F)], derivatives [y] of shape
    [(S, T)], a projection [P_A] of shape [(r, r, T, F)] and a matrix [A] of
    shape [(r, r)], the dense
    coefficient update is the solve of a linear system followed by a
    reshape to [(F, T)].  The Hessian of the system is a square matrix of
    [T * F] rows; the coefficient of feature [f] in equation [t] has the
    position [f * T + t]; its cells are the data term [x^T x] on the blocks
    with equal targets, plus the relaxation term over [eta], plus in local
    mode the two penalties over [alpha] and [beta]; and it is symmetric. *)
Theorem nonsparse_system (eta alpha beta : R) (method : string)
    (mod_matrix PQ_ : ndarray) (pinv : ndarray -> ndarray)
    (use_constraints : bool) (constraint_lhs constraint_rhs : ndarray)
    (S F T r : nat) (x y P_A A : ndarray) :
  shape x = [S; F] -> shape y = [S; T] -> shape P_A = [r; r; T; F] ->
  shape A = [r; r] ->
  (method = "local"%string ->
   shape PQ_ = [T; T; T; T; F] /\ shape mod_matrix = [T; T]) ->
  exists hess g,
    _update_coef_nonsparse_rs eta alpha beta method mod_matrix PQ_ pinv
      use_constraints constraint_lhs constraint_rhs x y P_A A
    = (coef_flat ←
         _solve_nonsparse_relax_and_split pinv use_constraints constraint_lhs
           constraint_rhs hess g;
       reshape [F; T] coef_flat)
    /\ shape hess = [T * F; T * F] /\ shape g = [T * F]
    /\ (forall f t f' t', f < F -> t < T -> f' < F -> t' < T ->
          data hess [f * T + t; f' * T + t']
          = hessian_cell eta alpha beta method mod_matrix PQ_ x P_A t f t' f')
    /\ (forall f t, f < F -> t < T ->
          data g [f * T + t] = gradient_cell eta x y P_A A f t)
    /\ (forall i j, i < T * F -> j < T * F ->
          data hess [i; j] = data hess [j; i]).
Proof.
  intros Hx Hy HP _ _.
  destruct (nonsparse_system_cells eta alpha beta method mod_matrix PQ_ pinv
              use_constraints constraint_lhs constraint_rhs S F T r x y P_A A
              Hx Hy HP) as (hess & g & Hrun & Hsh & Hgsh & Hcells & Hgcells).
  exists hess, g. split; [exact Hrun|]. split; [exact Hsh|].
  split; [exact Hgsh|]. split; [|split].
  - intros f t f' t' Hf Ht Hf' Ht'.
    rewrite Hcells by nia.
    destruct (position_split T f t Ht) as [-> ->].
    destruct (position_split T f' t' Ht') as [-> ->]. reflexivity.
  - intros f t Hf Ht. rewrite Hgcells by nia.
    destruct (position_split T f t Ht) as [-> ->]. reflexivity.
  - intros i j Hi Hj. rewrite (Hcells i j Hi Hj), (Hcells j i Hj Hi).
    apply (hessian_cell_sym eta alpha beta method mod_matrix PQ_ F T r x P_A HP).
Qed.

Lemma nonsparse_system_witness :
  exists hess g,
    _update_coef_nonsparse_rs 1 1 1 "local" (zeros [1; 1])
      (zeros [1; 1; 1; 1; 1]) inv_eye false (zeros [1; 1]) (zeros [1])
      one_sample (zeros [1; 1]) (zeros [1; 1; 1; 1]) (zeros [1; 1])
    = (coef_flat ←
         _solve_nonsparse_relax_and_split inv_eye false (zeros [1; 1])
           (zeros [1]) hess g;
       reshape [1; 1] coef_flat)
    /\ shape hess = [1 * 1; 1 * 1] /\ shape g = [1 * 1]
    /\ (forall f t f' t', f < 1 -> t < 1 -> f' < 1 -> t' < 1 ->
          data hess [f * 1 + t; f' * 1 + t']
          = hessian_cell 1 1 1 "local" (zeros [1; 1]) (zeros [1; 1; 1; 1; 1])
              one_sample (zeros [1; 1; 1; 1]) t f t' f')
    /\ (forall f t, f < 1 -> t < 1 ->
          data g [f * 1 + t]
          = gradient_cell 1 one_sample (zeros [1; 1]) (zeros [1; 1; 1; 1])
              (zeros [1; 1]) f t)
    /\ (forall i j, i < 1 * 1 -> j < 1 * 1 ->
          data hess [i; j] = data hess [j; i]).
Proof.
  apply (nonsparse_system 1 1 1 "local" (zeros [1; 1]) (zeros [1; 1; 1; 1; 1])
           inv_eye false (zeros [1; 1]) (zeros [1]) 1 1 1 1 one_sample
           (zeros [1; 1]) (zeros [1; 1; 1; 1]) (zeros [1; 1]));
    [reflexivity | reflexivity | reflexivity | reflexivity |].
  intros _. split; reflexivity.
Defined.

(** ** The dense update solves the normal equations *)

Section NormalEquations.

Variables (eta alpha beta : R) (method : string) (mod_matrix PQ_ : ndarray).
Variable pinv : ndarray -> ndarray.
Variables (constraint_lhs constraint_rhs : ndarray).
Variables (S F T r : nat) (x y P_A A : ndarray).
Hypothesis Hx : shape x = [S; F].
Hypothesis Hy : shape y = [S; T].
Hypothesis HP : shape P_A = [r; r; T; F].
Hypothesis Hpinv :
  forall hess, shape hess = [T * F; T * F] ->
    (forall f t f' t', f < F -> t < T -> f' < F -> t' < T ->
       data hess [f * T + t; f' * T + t']
       = hessian_cell eta alpha beta method mod_matrix PQ_ x P_A t f t' f') ->
    shape (pinv hess) = [T * F; T * F]
    /\ forall i l, i < T * F -> l < T * F ->
         sum_range (T * F)
           (fun k => data hess [i; k] * data (pinv hess) [k; l])%R
         = delta i l.

Lemma nonsparse_normal_cells :
  exists w,
    _update_coef_nonsparse_rs eta alpha beta method mod_matrix PQ_ pinv false
      constraint_lhs constraint_rhs x y P_A A = Ok w
    /\ shape w = [F; T]
    /\ forall f t, f < F -> t < T ->
         sum_range F
           (fun f' =>
              sum_range T
                (fun t' =>
                   hessian_cell eta alpha beta method mod_matrix PQ_ x P_A
                     t f t' f' * data w [f'; t'])%R)
         = gradient_cell eta x y P_A A f t.
Proof.
  destruct (nonsparse_system_cells eta alpha beta method mod_matrix PQ_ pinv
              false constraint_lhs constraint_rhs S F T r x y P_A A
              Hx Hy HP) as (hess & g & Hrun & Hsh & Hgsh & Hcells & Hgcells).
  destruct (Hpinv hess Hsh) as [Hpsh Hright].
  { intros f t f' t' Hf Ht Hf' Ht'. rewrite Hcells by nia.
    destruct (position_split T f t Ht) as [-> ->].
    destruct (position_split T f' t' Ht') as [-> ->]. reflexivity. }
  destruct (solve_unconstrained_cells pinv (T * F) constraint_lhs
              constraint_rhs hess g Hgsh Hpsh Hright)
    as (c & Hc & Hcsh & Hceq).
  rewrite Hrun, Hc. cbn [mbind result_bind Py.bind].
  destruct (reshape_matrix F T c Hcsh) as (w & Hw & Hwsh & Hwdata).
  rewrite Hw. exists w. split; [reflexivity|]. split; [exact Hwsh|].
  intros f t Hf Ht.
  assert (Hi : f * T + t < T * F) by nia.
  rewrite <- (sum_range_flatten F T
                (fun f' t' =>
                   hessian_cell eta alpha beta method mod_matrix PQ_ x P_A
                     t f t' f' * data w [f'; t'])%R).
  specialize (Hceq (f * T + t) Hi). rewrite (Hgcells _ Hi) in Hceq.
  destruct (position_split T f t Ht) as [Hq Hr]. rewrite Hq, Hr in Hceq.
  rewrite <- Hceq. replace (F * T) with (T * F) by lia.
  apply sum_range_ext. intros k Hk. rewrite (Hcells _ _ Hi Hk), Hq, Hr.
  rewrite Hwdata. do 2 f_equal.
  pose proof (Nat.div_mod_eq k T). f_equal. lia.
Qed.

End NormalEquations.

(** X24. For operands of the shapes of a fit ([x] of shape [(S, F)], [y] of
    shape [(S, T)], [P_A] of shape [(r, r, T, F)], [A] of shape [(r, r)]),
    without constraints, and when the pseudo-inverse is a right inverse of
    the Hessian, the coefficients [w] that the dense update returns have
    the shape [(F, T)] and solve the normal equations of the partial
    minimization: for every feature [f] and equation [t], the Hessian
    applied to [w] is the constant part of the gradient,
    [x^T y + P_A^T A / eta]. *)
Theorem nonsparse_normal_equations (eta alpha beta : R) (method : string)
    (mod_matrix PQ_ : ndarray) (pinv : ndarray -> ndarray)
    (constraint_lhs constraint_rhs : ndarray)
    (S F T r : nat) (x y P_A A : ndarray) :
  shape x = [S; F] -> shape y = [S; T] -> shape P_A = [r; r; T; F] ->
  shape A = [r; r] ->
  (method = "local"%string ->
   shape PQ_ = [T; T; T; T; F] /\ shape mod_matrix = [T; T]) ->
  (forall hess, shape hess = [T * F; T * F] ->
     (forall f t f' t', f < F -> t < T -> f' < F -> t' < T ->
        data hess [f * T + t; f' * T + t']
        = hessian_cell eta alpha beta method mod_matrix PQ_ x P_A t f t' f') ->
     shape (pinv hess) = [T * F; T * F]
     /\ forall i l, i < T * F -> l < T * F ->
          sum_range (T * F)
            (fun k => data hess [i; k] * data (pinv hess) [k; l])%R
          = delta i l) ->
  exists w,
    _update_coef_nonsparse_rs eta alpha beta method mod_matrix PQ_ pinv false
      constraint_lhs constraint_rhs x y P_A A = Ok w
    /\ shape w = [F; T]
    /\ forall f t, f < F -> t < T ->
         sum_range F
           (fun f' =>
              sum_range T
                (fun t' =>
                   hessian_cell eta alpha beta method mod_matrix PQ_ x P_A
                     t f t' f' * data w [f'; t'])%R)
         = gradient_cell eta x y P_A A f t.
Proof.
  intros Hx Hy HP _ _ Hpinv.
  exact (nonsparse_normal_cells eta alpha beta method mod_matrix PQ_ pinv
           constraint_lhs constraint_rhs S F T r x y P_A A Hx Hy HP Hpinv).
Qed.

Lemma nonsparse_normal_equations_witness :
  exists w,
    _update_coef_nonsparse_rs 1 1 1 "local" (zeros [1; 1])
      (zeros [1; 1; 1; 1; 1]) inv_eye false (zeros [1; 1]) (zeros [1])
      one_sample (zeros [1; 1]) (zeros [1; 1; 1; 1]) (zeros [1; 1]) = Ok w
    /\ shape w = [1; 1]
    /\ forall f t, f < 1 -> t < 1 ->
         sum_range 1
           (fun f' =>
              sum_range 1
                (fun t' =>
                   Rmult
                     (hessian_cell 1 1 1 "local" (zeros [1; 1])
                        (zeros [1; 1; 1; 1; 1]) one_sample
                        (zeros [1; 1; 1; 1]) t f t' f')
                     (data w [f'; t'])))
         = gradient_cell 1 one_sample (zeros [1; 1]) (zeros [1; 1; 1; 1])
             (zeros [1; 1]) f t.
Proof.
  apply (nonsparse_normal_equations 1 1 1 "local" (zeros [1; 1])
           (zeros [1; 1; 1; 1; 1]) inv_eye (zeros [1; 1]) (zeros [1])
           1 1 1 1 one_sample (zeros [1; 1]) (zeros [1; 1; 1; 1])
           (zeros [1; 1]));
    [reflexivity | reflexivity | reflexivity | reflexivity
    | intros _; split; reflexivity |].
  intros hess Hsh Hcells. split; [exact Hsh|].
  intros i l Hi Hl. replace i with 0 by lia. replace l with 0 by lia.
  assert (H00 : data hess [0; 0] = 1%R).
  { change (data hess [0; 0]) with (data hess [0 * 1 + 0; 0 * 1 + 0]).
    rewrite (Hcells 0 0 0 0) by lia.
    cbv -[IZR Rplus Rmult Rinv Rdiv Rminus Ropp]. lra. }
  cbn [sum_range Nat.mul Nat.add]. unfold inv_eye. rewrite H00.
  cbv -[IZR Rplus Rmult Rinv Rdiv Rminus Ropp]. lra.
Defined.
